(** * PyViga: continuous-beam analysis and reinforced-concrete design

    A shallow embedding of the calculation core of the repository
    (entities, matrix solver, ELU design, ELS checker, bar selector,
    optimizer) and the properties stated about it.

    Modelling conventions.
    - Python [float]s are idealised as real numbers ([R]): rounding error,
      overflow, infinities and NaN are outside the model.  A float division
      by zero raises [ZeroDivisionError] and [math.sqrt] of a negative
      number raises [ValueError], as in Python.
    - Python objects live in a store ([heap]); a reference is a location.
      Two references denote the same object exactly when the locations are
      equal.  Containers owned by a single object (the [loads] list of a
      span, the [nodes] list of a beam, a result dict) are stored inline in
      the owning object, their elements being references.
    - Code that raises is modelled in an error monad; code that also
      mutates objects is modelled in a state-and-error monad over the heap.
    - [numpy.linalg.solve] is modelled as Gaussian elimination with partial
      pivoting in exact arithmetic: it raises [LinAlgError] exactly when a
      pivot column is entirely zero.  This is where the idealisation
      matters: in binary64 the computed pivot of a singular system need
      not be zero.  The solver is therefore modelled a second time on
      binary64 numbers ([Binary64]), for the runs in which rounding decides
      the outcome. *)

From Stdlib Require Import Reals Lra Lia ZArith Sorted.
From Stdlib Require PrimFloat.
From stdpp Require Import gmap strings list pretty.

Local Open Scope R_scope.

(** ** Exceptions and the error monad *)

Inductive exn_class :=
| ValueError | ZeroDivisionError | IndexError | KeyError | TypeError
| AttributeError | LinAlgError | Exception.

Record exn := Exn { exn_cls : exn_class; exn_msg : string }.

Inductive result (A : Type) : Type :=
| Ok (a : A)
| Raise (e : exn).
Arguments Ok {A} a.
Arguments Raise {A} e.

#[global] Instance result_ret : MRet result := λ A a, Ok a.
#[global] Instance result_bind : MBind result := λ A B f m,
  match m with Ok a => f a | Raise e => Raise e end.

Definition is_Ok {A} (r : result A) : Prop := ∃ a, r = Ok a.

(** ** Python float and builtin operations *)

#[global] Instance R_eq_dec : EqDecision R := Req_dec_T.

Module Py.

Definition div (a b : R) : result R :=
  if Req_dec_T b 0
  then Raise (Exn ZeroDivisionError "float division by zero")
  else Ok (a / b).

Definition sqrt (a : R) : result R :=
  if Rlt_dec a 0
  then Raise (Exn ValueError "math domain error")
  else Ok (R_sqrt.sqrt a).

(** [x ** (2/3)]: a negative base gives a complex number in Python 3,
    on which the later [max]/comparison raises [TypeError]. *)
Definition pow_2_3 (x : R) : result R :=
  if Rlt_dec x 0
  then Raise (Exn TypeError "complex result")
  else if Req_dec_T x 0 then Ok 0
  else Ok (Rpower x (2 / 3)).

Definition leb (a b : R) : bool := if Rle_dec a b then true else false.
Definition ltb (a b : R) : bool := if Rlt_dec a b then true else false.
Definition gtb (a b : R) : bool := ltb b a.
Definition eqb (a b : R) : bool := if Req_dec_T a b then true else false.

(** [max(a, b)] returns its first argument unless the second is larger. *)
Definition max (a b : R) : R := if gtb b a then b else a.
Definition min (a b : R) : R := if ltb b a then b else a.
Definition max3 (a b c : R) : R := max (max a b) c.

Definition abs (a : R) : R := Rabs a.

Definition ceil (a : R) : Z := Zceil a.
Definition floor (a : R) : Z := Zfloor a.

(** [round(x, n)]: round half to even at [n] decimals. *)
Definition round (x : R) (n : nat) : R :=
  let s := 10 ^ n in
  let y := x * s in
  let f := Zfloor y in
  let r := y - IZR f in
  if ltb r (1 / 2) then IZR f / s
  else if ltb (1 / 2) r then IZR (f + 1) / s
  else if Z.even f then IZR f / s else IZR (f + 1) / s.

Definition pi : R := PI.

Fixpoint sum (l : list R) : R :=
  match l with
  | [] => 0
  | x :: l' => x + sum l'
  end.

End Py.

(** ** Domain model (app/models/entities.py) *)

Inductive MaterialType := CONCRETE | STEEL.
Inductive LoadType := DISTRIBUTED | POINT | MOMENT | TORSION.
Inductive SupportType := PINNED | FIXED | FREE.

#[global] Instance LoadType_eq_dec : EqDecision LoadType.
Proof. solve_decision. Defined.
#[global] Instance SupportType_eq_dec : EqDecision SupportType.
Proof. solve_decision. Defined.

Abbreviation loc := nat (only parsing).

Module Material.
Record t := mk {
  name : string;
  type : MaterialType;
  fck : R;
  fyk : R;
  Ecs : R
}.
(** Constructor with the dataclass defaults for [fyk] and [Ecs]. *)
Definition new (name : string) (type : MaterialType) (fck : R) : t :=
  mk name type fck 500 23800.
Definition get_fcd (self : t) : R := (fck self / 1.4) / 10.
End Material.

Module CrossSection.
Record t := mk {
  bw : R;
  h : R;
  bf : R;
  hf : R
}.
Definition new (bw h : R) : t := mk bw h 0 0.
Definition area (self : t) : R :=
  let area_web := bw self * h self in
  let area_flange :=
    if Py.gtb (bf self) (bw self) then (bf self - bw self) * hf self else 0 in
  area_web + area_flange.
Definition inertia (self : t) : R := (bw self * (h self) ^ 3) / 12.
Definition set_h (self : t) (v : R) : t := mk (bw self) v (bf self) (hf self).
End CrossSection.

Module Load.
Record t := mk {
  load_type : LoadType;
  value : R;
  position_start : R;
  position_end : R;
  source : string
}.
Definition new (ty : LoadType) (v ps pe : R) : t := mk ty v ps pe "Manual".
Definition set_value (self : t) (v : R) : t :=
  mk (load_type self) v (position_start self) (position_end self) (source self).
End Load.

Module Node.
Record t := mk {
  id : nat;
  x : R;
  y : R;
  z : R;
  support_conditions : list bool
}.
Definition set_support_conditions (self : t) (c : list bool) : t :=
  mk (id self) (x self) (y self) (z self) c.
End Node.

(** Values stored in the result dictionaries. *)
Inductive pyval :=
| VFloat (r : R)
| VStr (s : string).

Module ServiceabilityResult.
Record t := mk {
  wk_calc : R;
  wk_limit : R;
  deflection_inst : R;
  deflection_total : R;
  deflection_limit : R;
  status_crack : string;
  status_deflection : string
}.
End ServiceabilityResult.

Module BarOption.
Record t := mk {
  diameter_mm : R;
  count : Z;
  area_provided_cm2 : R;
  spacing_mm : R;
  status : string;
  anchorage_length_cm : R
}.
End BarOption.

Module StirrupOption.
Record t := mk {
  diameter_mm : R;
  spacing_cm : R;
  legs : Z;
  status : string
}.
End StirrupOption.

Inductive detail :=
| DBar (o : BarOption.t)
| DStirrup (o : StirrupOption.t).

Module BeamSpan.
Record t := mk {
  id : nat;
  length : R;
  section : loc;
  material : loc;
  loads : list loc;
  start_node : option loc;
  end_node : option loc;
  moment_left : R;
  moment_right : R;
  shear_left : R;
  shear_right : R;
  (** [None]: the attribute is absent ([hasattr] is false). *)
  design_results : option (gmap string pyval);
  detailing_results : gmap string detail;
  (** [None]: the attribute holds Python's [None]. *)
  els_results : option ServiceabilityResult.t
}.
(** The dataclass constructor as [add_span] calls it: every field left out
    takes its default, in particular [design_results] is a fresh empty
    dict and [els_results] is [None]. *)
Definition new (id : nat) (length : R) (section material : loc)
    (start_node end_node : option loc) : t :=
  mk id length section material [] start_node end_node 0 0 0 0 (Some ∅) ∅ None.
Definition set_loads (s : t) (v : list loc) : t :=
  mk (id s) (length s) (section s) (material s) v (start_node s) (end_node s)
     (moment_left s) (moment_right s) (shear_left s) (shear_right s)
     (design_results s) (detailing_results s) (els_results s).
Definition set_forces (s : t) (ml mr sl sr : R) : t :=
  mk (id s) (length s) (section s) (material s) (loads s) (start_node s)
     (end_node s) ml mr sl sr
     (design_results s) (detailing_results s) (els_results s).
Definition set_design_results (s : t) (v : option (gmap string pyval)) : t :=
  mk (id s) (length s) (section s) (material s) (loads s) (start_node s)
     (end_node s) (moment_left s) (moment_right s) (shear_left s)
     (shear_right s) v (detailing_results s) (els_results s).
Definition set_els_results (s : t) (v : option ServiceabilityResult.t) : t :=
  mk (id s) (length s) (section s) (material s) (loads s) (start_node s)
     (end_node s) (moment_left s) (moment_right s) (shear_left s)
     (shear_right s) (design_results s) (detailing_results s) v.
End BeamSpan.

Module Beam.
Record t := mk {
  id : string;
  spans : list loc;
  nodes : list loc;
  direction_vector : R * R
}.
Definition new (id : string) : t := mk id [] [] (1, 0).
Definition set_spans (b : t) (v : list loc) : t :=
  mk (id b) v (nodes b) (direction_vector b).
Definition set_nodes (b : t) (v : list loc) : t :=
  mk (id b) (spans b) v (direction_vector b).
Definition set_direction_vector (b : t) (v : R * R) : t :=
  mk (id b) (spans b) (nodes b) v.
End Beam.

(** ** The object store *)

Inductive obj :=
| OMaterial (m : Material.t)
| OSection (s : CrossSection.t)
| OLoad (l : Load.t)
| ONode (n : Node.t)
| OSpan (s : BeamSpan.t)
| OBeam (b : Beam.t).

Abbreviation heap := (list obj) (only parsing).

(** State-and-error monad: an exception leaves the heap as it was when the
    exception was raised. *)
Definition M (A : Type) : Type := heap → result A * heap.

#[global] Instance M_ret : MRet M := λ A a h, (Ok a, h).
#[global] Instance M_bind : MBind M := λ A B f m h,
  match m h with
  | (Ok a, h') => f a h'
  | (Raise e, h') => (Raise e, h')
  end.

Definition lift {A} (r : result A) : M A := λ h, (r, h).
Definition raise {A} (c : exn_class) (msg : string) : M A :=
  lift (Raise (Exn c msg)).

(** [try: m except Exception as e: handler e] *)
Definition try_except {A} (m : M A) (handler : exn → M A) : M A := λ h,
  match m h with
  | (Ok a, h') => (Ok a, h')
  | (Raise e, h') => handler e h'
  end.

(** [for x in l: f x] *)
Fixpoint for_each {A} (l : list A) (f : A → M unit) : M unit :=
  match l with
  | [] => mret tt
  | x :: l' => f x ≫= λ _, for_each l' f
  end.

(** [[f x for x in l]] *)
Fixpoint map_M {A B} (f : A → M B) (l : list A) : M (list B) :=
  match l with
  | [] => mret []
  | x :: l' => y ← f x; ys ← map_M f l'; mret (y :: ys)
  end.

Definition alloc (o : obj) : M loc := λ h, (Ok (length h), h ++ [o]).

Definition deref (l : loc) : M obj := λ h,
  match h !! l with
  | Some o => (Ok o, h)
  | None => (Raise (Exn AttributeError "dangling reference"), h)
  end.

Definition store (l : loc) (o : obj) : M unit := λ h, (Ok tt, <[l := o]> h).

Definition attr_error {A} : M A := raise AttributeError "object has no such attribute".

Definition read_material (l : loc) : M Material.t :=
  o ← deref l; match o with OMaterial m => mret m | _ => attr_error end.
Definition read_section (l : loc) : M CrossSection.t :=
  o ← deref l; match o with OSection s => mret s | _ => attr_error end.
Definition read_load (l : loc) : M Load.t :=
  o ← deref l; match o with OLoad x => mret x | _ => attr_error end.
Definition read_node (l : loc) : M Node.t :=
  o ← deref l; match o with ONode n => mret n | _ => attr_error end.
Definition read_span (l : loc) : M BeamSpan.t :=
  o ← deref l; match o with OSpan s => mret s | _ => attr_error end.
Definition read_beam (l : loc) : M Beam.t :=
  o ← deref l; match o with OBeam b => mret b | _ => attr_error end.

(** Attribute assignment reads the object and stores the updated record. *)
Definition update_section (l : loc) (f : CrossSection.t → CrossSection.t) : M unit :=
  s ← read_section l; store l (OSection (f s)).
Definition update_load (l : loc) (f : Load.t → Load.t) : M unit :=
  x ← read_load l; store l (OLoad (f x)).
Definition update_node (l : loc) (f : Node.t → Node.t) : M unit :=
  n ← read_node l; store l (ONode (f n)).
Definition update_span (l : loc) (f : BeamSpan.t → BeamSpan.t) : M unit :=
  s ← read_span l; store l (OSpan (f s)).
Definition update_beam (l : loc) (f : Beam.t → Beam.t) : M unit :=
  b ← read_beam l; store l (OBeam (f b)).

(** ** Beam.add_span *)

Definition get_conditions (stype : SupportType) : list bool :=
  match stype with
  | FIXED => [true; true]
  | PINNED => [true; false]
  | FREE => [false; false]
  end.

Definition add_span (self : loc) (length : R) (section mat : loc)
    (start_coord direction : R * R)
    (start_support end_support : SupportType) : M loc :=
  b ← read_beam self;
  let span_id := (List.length (Beam.spans b) + 1)%nat in
  update_beam self (λ b, Beam.set_direction_vector b direction);;
  b ← read_beam self;
  start_node ←
    (match last (Beam.nodes b) with
     | None =>
         let conds := get_conditions start_support in
         start_node ← alloc (ONode (Node.mk 0 (fst start_coord) (snd start_coord) 0 conds));
         update_beam self (λ b, Beam.set_nodes b (Beam.nodes b ++ [start_node]));;
         mret start_node
     | Some start_node =>
         (if decide (start_support = FIXED)
          then update_node start_node (λ n, Node.set_support_conditions n [true; true])
          else mret tt);;
         mret start_node
     end);
  sn ← read_node start_node;
  let delta_x := length * fst direction in
  let delta_y := length * snd direction in
  let new_x := Node.x sn + delta_x in
  let new_y := Node.y sn + delta_y in
  let conds_end := get_conditions end_support in
  b ← read_beam self;
  let end_node_id := List.length (Beam.nodes b) in
  end_node ← alloc (ONode (Node.mk end_node_id new_x new_y 0 conds_end));
  update_beam self (λ b, Beam.set_nodes b (Beam.nodes b ++ [end_node]));;
  new_span ← alloc (OSpan (BeamSpan.new span_id length section mat
                             (Some start_node) (Some end_node)));
  update_beam self (λ b, Beam.set_spans b (Beam.spans b ++ [new_span]));;
  mret new_span.

(** [span.loads.append(load)] *)
Definition append_load (span load : loc) : M unit :=
  update_span span (λ s, BeamSpan.set_loads s (BeamSpan.loads s ++ [load])).

(** ** numpy arrays and numpy.linalg.solve *)

Module Np.

Abbreviation vector := (list R) (only parsing).
Abbreviation matrix := (list (list R)) (only parsing).

Definition index_error {A} : result A :=
  Raise (Exn IndexError "index out of bounds").

Definition zeros (n : nat) : vector := replicate n 0.
Definition zeros2 (n m : nat) : matrix := replicate n (zeros m).

Definition get (v : vector) (i : nat) : result R :=
  match v !! i with Some x => Ok x | None => index_error end.

(** [v[i] += x] *)
Definition add_at (v : vector) (i : nat) (x : R) : result vector :=
  match v !! i with
  | Some old => Ok (<[i := old + x]> v)
  | None => index_error
  end.

(** [v[i] = x] *)
Definition set_at (v : vector) (i : nat) (x : R) : result vector :=
  match v !! i with
  | Some _ => Ok (<[i := x]> v)
  | None => index_error
  end.

(** [K[i, j] += x] *)
Definition add_at2 (K : matrix) (i j : nat) (x : R) : result matrix :=
  match K !! i with
  | Some row => row' ← add_at row j x; Ok (<[i := row']> K)
  | None => index_error
  end.

(** [v[indices]] *)
Fixpoint take_indices (v : vector) (indices : list nat) : result vector :=
  match indices with
  | [] => Ok []
  | i :: rest => x ← get v i; xs ← take_indices v rest; Ok (x :: xs)
  end.

(** [K[np.ix_(rows, cols)]] *)
Fixpoint ix_ (K : matrix) (rows cols : list nat) : result matrix :=
  match rows with
  | [] => Ok []
  | i :: rest =>
      match K !! i with
      | Some row =>
          r ← take_indices row cols; rs ← ix_ K rest cols; Ok (r :: rs)
      | None => index_error
      end
  end.

(** [np.put(v, indices, values)] *)
Fixpoint put (v : vector) (indices : list nat) (values : vector) : result vector :=
  match indices, values with
  | i :: is', x :: xs => v' ← set_at v i x; put v' is' xs
  | _, _ => Ok v
  end.

Fixpoint dot (a b : vector) : R :=
  match a, b with
  | x :: a', y :: b' => x * y + dot a' b'
  | _, _ => 0
  end.

Definition mat_vec (K : matrix) (v : vector) : vector :=
  map (λ row, dot row v) K.

Definition scale (c : R) (v : vector) : vector := map (λ x, c * x) v.

Fixpoint vsub (a b : vector) : vector :=
  match a, b with
  | x :: a', y :: b' => (x - y) :: vsub a' b'
  | _, _ => []
  end.

Fixpoint vadd (a b : vector) : vector :=
  match a, b with
  | x :: a', y :: b' => (x + y) :: vadd a' b'
  | _, _ => []
  end.

(** *** Gaussian elimination with partial pivoting

    A system is a list of augmented rows (coefficients, right-hand side).
    The entries are exact reals, so the test of the pivot against zero is
    exact and the elimination raises on every singular system.  NumPy
    computes in binary64, where the pivot of a singular system can come out
    as a small non-zero number; [Binary64] below is the same computation
    with rounding. *)

Abbreviation arow := (list R * R)%type (only parsing).

Definition lead (r : arow) : R :=
  match fst r with a :: _ => a | [] => 0 end.

(** Index of the first entry of largest magnitude. *)
Fixpoint argmax_from (best_i : nat) (best : R) (i : nat) (l : list R) : nat :=
  match l with
  | [] => best_i
  | x :: l' =>
      if Py.ltb best (Rabs x)
      then argmax_from i (Rabs x) (S i) l'
      else argmax_from best_i best (S i) l'
  end.

Definition argmax_abs (l : list R) : nat :=
  match l with
  | [] => 0%nat
  | x :: l' => argmax_from 0 (Rabs x) 1 l'
  end.

(** Exchange rows [0] and [p]. *)
Definition swap0 (p : nat) (rows : list arow) : list arow :=
  match rows with
  | [] => []
  | r0 :: _ =>
      match rows !! p with
      | Some rp => <[p := r0]> (<[0%nat := rp]> rows)
      | None => rows
      end
  end.

(** Subtract the multiple of the pivot row that clears the first column,
    and drop that column. *)
Definition eliminate (a : R) (prow : vector) (pb : R) (r : arow) : arow :=
  let m := lead r / a in
  (vsub (tail (fst r)) (scale m prow), snd r - m * pb).

Definition singular {A} : result A :=
  Raise (Exn LinAlgError "Singular matrix").

Fixpoint gauss (n : nat) (rows : list arow) : result vector :=
  match n with
  | O => Ok []
  | S n' =>
      let p := argmax_abs (map lead rows) in
      match swap0 p rows with
      | (a :: prow, pb) :: rest =>
          if Req_dec_T a 0 then singular
          else
            xs ← gauss n' (map (eliminate a prow pb) rest);
            Ok ((pb - dot prow xs) / a :: xs)
      | _ => singular
      end
  end.

Definition linalg_solve (A : matrix) (b : vector) : result vector :=
  gauss (length A) (zip A b).

End Np.

(** ** MatrixSolver (app/engines/matrix_solver.py) *)

Module MatrixSolver.

Definition element_indices (current_node_idx : nat) : list nat :=
  let idx_i := current_node_idx in
  let idx_j := (current_node_idx + 1)%nat in
  [2 * idx_i; 2 * idx_i + 1; 2 * idx_j; 2 * idx_j + 1]%nat.

Definition k_pattern (L : R) : Np.matrix :=
  [ [12;     6 * L;     -12;      6 * L];
    [6 * L;  4 * L ^ 2; -(6 * L); 2 * L ^ 2];
    [-12;    -(6 * L);  12;       -(6 * L)];
    [6 * L;  2 * L ^ 2; -(6 * L); 4 * L ^ 2] ].

(** [(E * I / (L**3)) * np.array(...)] *)
Definition local_stiffness (E I L : R) : result Np.matrix :=
  c ← Py.div (E * I) (L ^ 3);
  Ok (map (Np.scale c) (k_pattern L)).

(** Fixed-end reactions of the distributed loads of one span. *)
Fixpoint fixed_end_forces (L : R) (loads : list Load.t) (f : Np.vector)
    : result Np.vector :=
  match loads with
  | [] => Ok f
  | load :: rest =>
      f' ← (if decide (Load.load_type load = DISTRIBUTED) then
              let q := Load.value load in
              let r_v1 := q * L / 2 in
              let r_m1 := q * L ^ 2 / 12 in
              let r_v2 := q * L / 2 in
              let r_m2 := - q * L ^ 2 / 12 in
              f ← Np.add_at f 0 r_v1;
              f ← Np.add_at f 1 r_m1;
              f ← Np.add_at f 2 r_v2;
              Np.add_at f 3 r_m2
            else Ok f);
      fixed_end_forces L rest f'
  end.

(** [for j in range(4): K[gi, indices[j]] += krow[j]] *)
Fixpoint scatter_row (K : Np.matrix) (gi : nat) (indices : list nat)
    (krow : Np.vector) : result Np.matrix :=
  match indices, krow with
  | gj :: is', x :: xs => K' ← Np.add_at2 K gi gj x; scatter_row K' gi is' xs
  | _, _ => Ok K
  end.

(** [for i in range(4): for j in range(4): K[indices[i], indices[j]] += k[i, j]] *)
Fixpoint scatter (K : Np.matrix) (rows indices : list nat) (k : Np.matrix)
    : result Np.matrix :=
  match rows, k with
  | gi :: rs, krow :: ks =>
      K' ← scatter_row K gi indices krow; scatter K' rs indices ks
  | _, _ => Ok K
  end.

(** [for i in range(4): F[indices[i]] -= f_local[i]] *)
Fixpoint scatter_sub (F : Np.vector) (indices : list nat) (f : Np.vector)
    : result Np.vector :=
  match indices, f with
  | gi :: is', x :: xs => F' ← Np.add_at F gi (- x); scatter_sub F' is' xs
  | _, _ => Ok F
  end.

(** What the loops read from one span. *)
Record span_view := {
  sv_span : BeamSpan.t;
  sv_section : CrossSection.t;
  sv_material : Material.t;
  sv_loads : list Load.t
}.

Definition view_span (l : loc) : M span_view :=
  s ← read_span l;
  sec ← read_section (BeamSpan.section s);
  mat ← read_material (BeamSpan.material s);
  loads ← map_M read_load (BeamSpan.loads s);
  mret {| sv_span := s; sv_section := sec; sv_material := mat; sv_loads := loads |}.

Definition span_stiffness (v : span_view) : result Np.matrix :=
  let E := Material.Ecs (sv_material v) * 1000 in
  let I := CrossSection.inertia (sv_section v) * / 100000000 in
  let L := BeamSpan.length (sv_span v) in
  local_stiffness E I L.

Fixpoint assemble_stiffness_matrix (spans : list loc) (current_node_idx : nat)
    (K_global : Np.matrix) : M Np.matrix :=
  match spans with
  | [] => mret K_global
  | span :: rest =>
      v ← view_span span;
      k ← lift (span_stiffness v);
      let indices := element_indices current_node_idx in
      K' ← lift (scatter K_global indices indices k);
      assemble_stiffness_matrix rest (current_node_idx + 1) K'
  end.

Fixpoint assemble_load_vector (spans : list loc) (current_node_idx : nat)
    (F_global : Np.vector) : M Np.vector :=
  match spans with
  | [] => mret F_global
  | span :: rest =>
      v ← view_span span;
      let L := BeamSpan.length (sv_span v) in
      f_local ← lift (fixed_end_forces L (sv_loads v) (Np.zeros 4));
      let indices := element_indices current_node_idx in
      F' ← lift (scatter_sub F_global indices f_local);
      assemble_load_vector rest (current_node_idx + 1) F'
  end.

(** [for i, node in enumerate(self.beam.nodes): ...] *)
Fixpoint free_dofs_from (i : nat) (nodes : list Node.t) : result (list nat) :=
  match nodes with
  | [] => Ok []
  | node :: rest =>
      c0 ← (match Node.support_conditions node !! 0%nat with
            | Some c => Ok c | None => Np.index_error end);
      c1 ← (match Node.support_conditions node !! 1%nat with
            | Some c => Ok c | None => Np.index_error end);
      tl ← free_dofs_from (S i) rest;
      let dof_y : list nat := if (c0 : bool) then [] else [(2 * i)%nat] in
      let dof_rz : list nat := if (c1 : bool) then [] else [(2 * i + 1)%nat] in
      Ok (dof_y ++ dof_rz ++ tl)
  end.

Definition singular_msg : string :=
  "Matriz Singular. Verifique se a estrutura é estável (hipostática?).".

Definition solve_reduced (K_global : Np.matrix) (F_global displacements : Np.vector)
    (free_dofs : list nat) : result Np.vector :=
  K_reduced ← Np.ix_ K_global free_dofs free_dofs;
  F_reduced ← Np.take_indices F_global free_dofs;
  u_reduced ←
    (match Np.linalg_solve K_reduced F_reduced with
     | Ok u => Ok u
     | Raise (Exn LinAlgError _) => Raise (Exn Exception singular_msg)
     | Raise e => Raise e
     end);
  Np.put displacements free_dofs u_reduced.

Definition solve_system (nodes : list loc) (K_global : Np.matrix)
    (F_global displacements : Np.vector) : M Np.vector :=
  ns ← map_M read_node nodes;
  free_dofs ← lift (free_dofs_from 0 ns);
  lift (solve_reduced K_global F_global displacements free_dofs).

(** End forces of one span, in the strength-of-materials sign convention:
    (shear_left, moment_left, shear_right, moment_right). *)
Definition span_forces (v : span_view) (current_node_idx : nat)
    (displacements : Np.vector) : result (R * R * R * R) :=
  k_local ← span_stiffness v;
  let L := BeamSpan.length (sv_span v) in
  let indices := element_indices current_node_idx in
  u_elem ← Np.take_indices displacements indices;
  let f_disp := Np.mat_vec k_local u_elem in
  f_fixed ← fixed_end_forces L (sv_loads v) (Np.zeros 4);
  let f_final := Np.vadd f_disp f_fixed in
  match f_final with
  | [f0; f1; f2; f3] => Ok (f0, f1, - f2, - f3)
  | _ => Np.index_error
  end.

Fixpoint compute_internal_forces (spans : list loc) (current_node_idx : nat)
    (displacements : Np.vector) : M unit :=
  match spans with
  | [] => mret tt
  | span :: rest =>
      v ← view_span span;
      '(sl, ml, sr, mr) ← lift (span_forces v current_node_idx displacements);
      update_span span (λ s, BeamSpan.set_forces s ml mr sl sr);;
      compute_internal_forces rest (current_node_idx + 1) displacements
  end.

(** [MatrixSolver(beam).solve()] *)
Definition solve (beam : loc) : M unit :=
  b ← read_beam beam;
  (if decide (Beam.nodes b = []) then
     raise ValueError "A viga não possui nós definidos. Verifique a importação."
   else mret tt);;
  let n_nodes := length (Beam.nodes b) in
  let n_dofs := (n_nodes * 2)%nat in
  let K_global := Np.zeros2 n_dofs n_dofs in
  let F_global := Np.zeros n_dofs in
  let displacements := Np.zeros n_dofs in
  b ← read_beam beam;
  (if decide (Beam.spans b = []) then
     raise ValueError "A viga não possui vãos definidos."
   else mret tt);;
  b ← read_beam beam;
  K_global ← assemble_stiffness_matrix (Beam.spans b) 0 K_global;
  b ← read_beam beam;
  F_global ← assemble_load_vector (Beam.spans b) 0 F_global;
  b ← read_beam beam;
  displacements ← solve_system (Beam.nodes b) K_global F_global displacements;
  b ← read_beam beam;
  compute_internal_forces (Beam.spans b) 0 displacements.

End MatrixSolver.

(** ** MatrixSolver in binary64

    The same computation as [MatrixSolver] above, on IEEE 754 binary64
    numbers, each operation rounded to nearest as Python and NumPy do.  It
    is used where rounding decides what the solver does: whether the
    elimination meets a pivot that is exactly zero.  A span is given by
    what the solver reads of it: its length, the modulus of its material,
    the width and height of its section, and the type and value of its
    loads. *)

Module Binary64.

Import PrimFloat.
Local Open Scope float_scope.

Abbreviation vector := (list float) (only parsing).
Abbreviation matrix := (list (list float)) (only parsing).

Record span_view := {
  sv_length : float;
  sv_Ecs : float;
  sv_bw : float;
  sv_h : float;
  sv_loads : list (LoadType * float)
}.

(** Python's [/] on floats. *)
Definition div (a b : float) : result float :=
  if b =? 0
  then Raise (Exn ZeroDivisionError "float division by zero")
  else Ok (a / b).

(** [x ** 2] and [x ** 3], written as products: the same binary64 value
    whenever the products are exact. *)
Definition pow2 (x : float) : float := x * x.
Definition pow3 (x : float) : float := x * x * x.

Definition zeros (n : nat) : vector := replicate n 0.
Definition zeros2 (n m : nat) : matrix := replicate n (zeros m).

Definition add_at (v : vector) (i : nat) (x : float) : result vector :=
  match v !! i with
  | Some old => Ok (<[i := old + x]> v)
  | None => Np.index_error
  end.

Definition sub_at (v : vector) (i : nat) (x : float) : result vector :=
  match v !! i with
  | Some old => Ok (<[i := old - x]> v)
  | None => Np.index_error
  end.

Definition add_at2 (K : matrix) (i j : nat) (x : float) : result matrix :=
  match K !! i with
  | Some row => row' ← add_at row j x; Ok (<[i := row']> K)
  | None => Np.index_error
  end.

Fixpoint take_indices (v : vector) (indices : list nat) : result vector :=
  match indices with
  | [] => Ok []
  | i :: rest =>
      x ← (match v !! i with Some x => Ok x | None => Np.index_error end);
      xs ← take_indices v rest; Ok (x :: xs)
  end.

Fixpoint ix_ (K : matrix) (rows cols : list nat) : result matrix :=
  match rows with
  | [] => Ok []
  | i :: rest =>
      match K !! i with
      | Some row =>
          r ← take_indices row cols; rs ← ix_ K rest cols; Ok (r :: rs)
      | None => Np.index_error
      end
  end.

Fixpoint put (v : vector) (indices : list nat) (values : vector) : result vector :=
  match indices, values with
  | i :: is', x :: xs =>
      match v !! i with
      | Some _ => put (<[i := x]> v) is' xs
      | None => Np.index_error
      end
  | _, _ => Ok v
  end.

(** [np.dot] of a row and a vector: the products are added from left to
    right. *)
Fixpoint dot_from (acc : float) (a b : vector) : float :=
  match a, b with
  | x :: a', y :: b' => dot_from (acc + x * y) a' b'
  | _, _ => acc
  end.

Definition mat_vec (K : matrix) (v : vector) : vector :=
  map (λ row, dot_from 0 row v) K.

Fixpoint vadd (a b : vector) : vector :=
  match a, b with
  | x :: a', y :: b' => (x + y) :: vadd a' b'
  | _, _ => []
  end.

(** [(E * I / (L**3)) * np.array(...)] *)
Definition span_stiffness (v : span_view) : result matrix :=
  let E := sv_Ecs v * 1000 in
  (* 0x1.5798ee2308c3ap-27 is the binary64 number that [1e-8] denotes *)
  let I := (sv_bw v * pow3 (sv_h v)) / 12 * 0x1.5798ee2308c3ap-27 in
  let L := sv_length v in
  c ← div (E * I) (pow3 L);
  Ok (map (map (mul c))
        [ [12;     6 * L;       -12;      6 * L];
          [6 * L;  4 * pow2 L;  -6 * L;   2 * pow2 L];
          [-12;    -6 * L;      12;       -6 * L];
          [6 * L;  2 * pow2 L;  -6 * L;   4 * pow2 L] ]).

Fixpoint fixed_end_forces (L : float) (loads : list (LoadType * float))
    (f : vector) : result vector :=
  match loads with
  | [] => Ok f
  | (ty, q) :: rest =>
      f' ← (if decide (ty = DISTRIBUTED) then
              let r_v1 := q * L / 2 in
              let r_m1 := q * pow2 L / 12 in
              let r_v2 := q * L / 2 in
              let r_m2 := - q * pow2 L / 12 in
              f ← add_at f 0 r_v1;
              f ← add_at f 1 r_m1;
              f ← add_at f 2 r_v2;
              add_at f 3 r_m2
            else Ok f);
      fixed_end_forces L rest f'
  end.

Fixpoint scatter_row (K : matrix) (gi : nat) (indices : list nat)
    (krow : vector) : result matrix :=
  match indices, krow with
  | gj :: is', x :: xs => K' ← add_at2 K gi gj x; scatter_row K' gi is' xs
  | _, _ => Ok K
  end.

Fixpoint scatter (K : matrix) (rows indices : list nat) (k : matrix)
    : result matrix :=
  match rows, k with
  | gi :: rs, krow :: ks =>
      K' ← scatter_row K gi indices krow; scatter K' rs indices ks
  | _, _ => Ok K
  end.

Fixpoint scatter_sub (F : vector) (indices : list nat) (f : vector)
    : result vector :=
  match indices, f with
  | gi :: is', x :: xs => F' ← sub_at F gi x; scatter_sub F' is' xs
  | _, _ => Ok F
  end.

Fixpoint assemble_stiffness_matrix (spans : list span_view)
    (current_node_idx : nat) (K_global : matrix) : result matrix :=
  match spans with
  | [] => Ok K_global
  | v :: rest =>
      k ← span_stiffness v;
      let indices := MatrixSolver.element_indices current_node_idx in
      K' ← scatter K_global indices indices k;
      assemble_stiffness_matrix rest (current_node_idx + 1) K'
  end.

Fixpoint assemble_load_vector (spans : list span_view)
    (current_node_idx : nat) (F_global : vector) : result vector :=
  match spans with
  | [] => Ok F_global
  | v :: rest =>
      f_local ← fixed_end_forces (sv_length v) (sv_loads v) (zeros 4);
      let indices := MatrixSolver.element_indices current_node_idx in
      F' ← scatter_sub F_global indices f_local;
      assemble_load_vector rest (current_node_idx + 1) F'
  end.

(** *** [numpy.linalg.solve]

    LAPACK's [dgesv]: LU factorisation with partial pivoting, then the two
    triangular solves.  The pivot of a column is its first entry of largest
    magnitude; the entries below it are multiplied by the reciprocal of the
    pivot; a matrix is reported singular only when a computed pivot is
    exactly zero. *)

Abbreviation arow := (list float * float)%type (only parsing).

Definition lead (r : arow) : float :=
  match fst r with a :: _ => a | [] => 0 end.

Fixpoint argmax_from (best_i : nat) (best : float) (i : nat) (l : vector) : nat :=
  match l with
  | [] => best_i
  | x :: l' =>
      if best <? abs x
      then argmax_from i (abs x) (S i) l'
      else argmax_from best_i best (S i) l'
  end.

Definition argmax_abs (l : vector) : nat :=
  match l with
  | [] => 0%nat
  | x :: l' => argmax_from 0 (abs x) 1 l'
  end.

Definition swap0 (p : nat) (rows : list arow) : list arow :=
  match rows with
  | [] => []
  | r0 :: _ =>
      match rows !! p with
      | Some rp => <[p := r0]> (<[0%nat := rp]> rows)
      | None => rows
      end
  end.

Definition eliminate (recip : float) (prow : vector) (pb : float) (r : arow)
    : arow :=
  let m := lead r * recip in
  (zip_with (λ x u, x - m * u) (tail (fst r)) prow, snd r - m * pb).

(** Back substitution of one row: the known unknowns are subtracted from
    the last to the first. *)
Definition back (pb : float) (prow xs : vector) : float :=
  foldr (λ '(u, x) acc, acc - x * u) pb (zip prow xs).

(** The pivots the elimination meets. *)
Fixpoint pivots (n : nat) (rows : list arow) : vector :=
  match n with
  | O => []
  | S n' =>
      match swap0 (argmax_abs (map lead rows)) rows with
      | (a :: prow, pb) :: rest =>
          a :: (if a =? 0 then []
                else pivots n' (map (eliminate (1 / a) prow pb) rest))
      | _ => []
      end
  end.

Fixpoint gauss (n : nat) (rows : list arow) : result vector :=
  match n with
  | O => Ok []
  | S n' =>
      match swap0 (argmax_abs (map lead rows)) rows with
      | (a :: prow, pb) :: rest =>
          if a =? 0 then Np.singular
          else
            xs ← gauss n' (map (eliminate (1 / a) prow pb) rest);
            Ok (back pb prow xs / a :: xs)
      | _ => Np.singular
      end
  end.

Definition linalg_solve (A : matrix) (b : vector) : result vector :=
  gauss (length A) (zip A b).

Definition solve_reduced (K_global : matrix) (F_global displacements : vector)
    (free_dofs : list nat) : result vector :=
  K_reduced ← ix_ K_global free_dofs free_dofs;
  F_reduced ← take_indices F_global free_dofs;
  u_reduced ←
    (match linalg_solve K_reduced F_reduced with
     | Ok u => Ok u
     | Raise (Exn LinAlgError _) => Raise (Exn Exception MatrixSolver.singular_msg)
     | Raise e => Raise e
     end);
  put displacements free_dofs u_reduced.

Definition span_forces (v : span_view) (current_node_idx : nat)
    (displacements : vector) : result (float * float * float * float) :=
  k_local ← span_stiffness v;
  let indices := MatrixSolver.element_indices current_node_idx in
  u_elem ← take_indices displacements indices;
  let f_disp := mat_vec k_local u_elem in
  f_fixed ← fixed_end_forces (sv_length v) (sv_loads v) (zeros 4);
  let f_final := vadd f_disp f_fixed in
  match f_final with
  | [f0; f1; f2; f3] => Ok (f0, f1, - f2, - f3)
  | _ => Np.index_error
  end.

Fixpoint compute_internal_forces (spans : list span_view)
    (current_node_idx : nat) (displacements : vector)
    : result (list (float * float * float * float)) :=
  match spans with
  | [] => Ok []
  | v :: rest =>
      f ← span_forces v current_node_idx displacements;
      fs ← compute_internal_forces rest (current_node_idx + 1) displacements;
      Ok (f :: fs)
  end.

(** [MatrixSolver(beam).solve()]: the end forces
    (shear_left, moment_left, shear_right, moment_right) stored on the
    spans, in order. *)
Definition solve (spans : list span_view) (nodes : list Node.t)
    : result (list (float * float * float * float)) :=
  if decide (nodes = []) then
    Raise (Exn ValueError "A viga não possui nós definidos. Verifique a importação.")
  else
    let n_dofs := (length nodes * 2)%nat in
    if decide (spans = []) then
      Raise (Exn ValueError "A viga não possui vãos definidos.")
    else
      K_global ← assemble_stiffness_matrix spans 0 (zeros2 n_dofs n_dofs);
      F_global ← assemble_load_vector spans 0 (zeros n_dofs);
      free_dofs ← MatrixSolver.free_dofs_from 0 nodes;
      displacements ← solve_reduced K_global F_global (zeros n_dofs) free_dofs;
      compute_internal_forces spans 0 displacements.

End Binary64.

(** ** Result dictionaries *)

Definition type_error {A} : result A :=
  Raise (Exn TypeError "unsupported operand type(s): 'str'").

(** [d.get(key, default)] used as a number. *)
Definition get_float (d : gmap string pyval) (key : string) (default : R) : result R :=
  match d !! key with
  | None => Ok default
  | Some (VFloat r) => Ok r
  | Some (VStr _) => type_error
  end.

(** [sum([l.value for l in span.loads if l.load_type.name == 'DISTRIBUTED'])] *)
Definition q_distributed (loads : list Load.t) : R :=
  Py.sum (map Load.value
            (filter (λ l, Load.load_type l = DISTRIBUTED) loads)).

(** ** ELUDesignEngine (app/engines/elu_design.py) *)

Module ELUDesignEngine.

Record t := mk {
  gamma_c : R;
  gamma_s : R;
  gamma_f : R
}.

(** [ELUDesignEngine()] *)
Definition init : t := mk 1.4 1.15 1.4.

(** The dimensionless parameter [kmd = Md_kNcm / (b * d**2 * fcd)]. *)
Definition kmd_of (Md_kNm b_cm d_cm fcd_kNcm2 : R) : result R :=
  Py.div (Md_kNm * 100) (b_cm * d_cm ^ 2 * fcd_kNcm2).

(** The body of the [try] block: [Ok None] stands for the early
    [return 999.0], [Raise] for an exception caught by the bare [except]. *)
Definition beta_x_try (kmd : R) : result (option R) :=
  q ← Py.div (4 * 0.272 * kmd) (0.68 ^ 2);
  let val_sqrt := 1 - q in
  if Py.ltb val_sqrt 0 then Ok None
  else
    s ← Py.sqrt (0.68 ^ 2 - 4 * 0.272 * kmd);
    b ← Py.div (0.68 - s) (2 * 0.272);
    Ok (Some b).

Definition calc_reinforcement_area (Md_kNm b_cm d_cm fcd_kNcm2 fyd_kNcm2 : R)
    : result R :=
  if Py.leb Md_kNm 0.01 then Ok 0
  else
    let Md_kNcm := Md_kNm * 100 in
    kmd ← kmd_of Md_kNm b_cm d_cm fcd_kNcm2;
    if Py.gtb kmd 0.251 then
      a ← Py.div Md_kNcm (0.9 * d_cm * fyd_kNcm2);
      Ok (a * 1.5)
    else
      match beta_x_try kmd with
      | Ok None => Ok 999
      | r =>
          let beta_x := match r with Ok (Some b) => b | _ => 0.5 end in
          let z := d_cm * (1 - 0.4 * beta_x) in
          Py.div Md_kNcm (z * fyd_kNcm2)
      end.

(** The unamplified estimate of the largest positive moment in the span:
    [max(0, M0 - (abs(moment_left) + abs(moment_right)) / 2)]. *)
Definition M_pos_estimate (q_total L moment_left moment_right : R) : R :=
  let M0 := (q_total * L ^ 2) / 8 in
  Py.max 0 (M0 - (Py.abs moment_left + Py.abs moment_right) / 2).

Definition as_min_of (b h : R) : R := 0.0015 * b * h.

(** The dictionary that [_design_flexure] stores in the span. *)
Definition flexure_results (self : t) (span : BeamSpan.t)
    (section : CrossSection.t) (material : Material.t) (loads : list Load.t)
    : result (gmap string pyval) :=
  let fcd := Material.get_fcd material in
  fyd0 ← Py.div (Material.fyk material) (gamma_s self);
  let fyd := fyd0 / 10 in
  let b := CrossSection.bw section in
  let h := CrossSection.h section in
  let d := h - 4 in
  let Md_neg_esq := Py.abs (BeamSpan.moment_left span) * gamma_f self in
  let Md_neg_dir := Py.abs (BeamSpan.moment_right span) * gamma_f self in
  let q_total := q_distributed loads in
  let L := BeamSpan.length span in
  let Md_pos_vao :=
    M_pos_estimate q_total L (BeamSpan.moment_left span)
      (BeamSpan.moment_right span) * gamma_f self in
  as_sup_esq ← calc_reinforcement_area Md_neg_esq b d fcd fyd;
  as_sup_dir ← calc_reinforcement_area Md_neg_dir b d fcd fyd;
  as_inf_vao ← calc_reinforcement_area Md_pos_vao b d fcd fyd;
  let as_min := as_min_of b h in
  Ok (<["As_sup_esq" :=
          VFloat (if Py.gtb Md_neg_esq 0.1 then Py.max as_sup_esq as_min else 0)]>
      (<["As_sup_dir" :=
          VFloat (if Py.gtb Md_neg_dir 0.1 then Py.max as_sup_dir as_min else 0)]>
      (<["As_inf_vao" := VFloat (Py.max as_inf_vao as_min)]>
      (<["Md_max" := VFloat (Py.max3 Md_neg_esq Md_neg_dir Md_pos_vao)]> ∅)))).

Definition design_flexure (self : t) (span : loc) : M unit :=
  s ← read_span span;
  mat ← read_material (BeamSpan.material s);
  sec ← read_section (BeamSpan.section s);
  loads ← map_M read_load (BeamSpan.loads s);
  res ← lift (flexure_results self s sec mat loads);
  update_span span (λ s, BeamSpan.set_design_results s (Some res)).

Definition status_biela_ok : string := "OK".
Definition status_biela_fail : string := "FALHA (Esmagamento Biela)".

(** The three entries that [_design_shear] writes:
    (V_sd, Asw_s_req, Status_Biela). *)
Definition shear_results (self : t) (span : BeamSpan.t)
    (section : CrossSection.t) (material : Material.t)
    : result (R * R * string) :=
  let Vd_max :=
    Py.max (Py.abs (BeamSpan.shear_left span))
           (Py.abs (BeamSpan.shear_right span)) * gamma_f self in
  let fcd := Material.get_fcd material in
  p ← Py.pow_2_3 (Material.fck material);
  fctd0 ← Py.div (0.21 * p) (gamma_c self);
  let fctd := fctd0 / 10 in
  let b := CrossSection.bw section in
  let d := CrossSection.h section - 4 in
  let alpha_v2 := 1 - Material.fck material / 250 in
  let V_rd2 := 0.27 * alpha_v2 * fcd * b * d in
  let status_biela :=
    if Py.gtb Vd_max V_rd2 then status_biela_fail else status_biela_ok in
  let V_c := 0.6 * fctd * b * d in
  let V_sw := Py.max 0 (Vd_max - V_c) in
  let fyd_transv := 43.5 in
  Asw_s_calc ← Py.div V_sw (0.9 * d * fyd_transv);
  p ← Py.pow_2_3 (Material.fck material);
  let fctm := 0.3 * p / 10 in
  let Asw_s_min := (0.2 * fctm / 50) * b in
  let Asw_s_final := Py.max Asw_s_calc Asw_s_min in
  Ok (Vd_max, Asw_s_final, status_biela).

Definition design_shear (self : t) (span : loc) : M unit :=
  s ← read_span span;
  mat ← read_material (BeamSpan.material s);
  sec ← read_section (BeamSpan.section s);
  '(V_sd, Asw_s_req, status_biela) ← lift (shear_results self s sec mat);
  (match BeamSpan.design_results s with
   | None => update_span span (λ s, BeamSpan.set_design_results s (Some ∅))
   | Some _ => mret tt
   end);;
  update_span span (λ s,
    BeamSpan.set_design_results s
      ((λ d, <["Status_Biela" := VStr status_biela]>
               (<["Asw_s_req" := VFloat Asw_s_req]>
               (<["V_sd" := VFloat V_sd]> d))) <$> BeamSpan.design_results s)).

Definition run_design (self : t) (beam : loc) : M unit :=
  b ← read_beam beam;
  for_each (Beam.spans b) (λ span,
    design_flexure self span;;
    design_shear self span).

End ELUDesignEngine.

(** ** ELSCheckerEngine (app/engines/els_checker.py) *)

Module ELSCheckerEngine.

Record t := mk {
  caa : Z;
  time_months : Z
}.

(** [ELSCheckerEngine()] *)
Definition init : t := mk 2 70.

Definition crack_limits : gmap Z R :=
  <[1%Z := 0.4]> (<[2%Z := 0.3]> (<[3%Z := 0.2]> (<[4%Z := 0.2]> ∅))).

Definition status_ok : string := "OK".
Definition status_fail : string := "FALHA".

(** The intermediate quantities of the crack-width computation. *)
Record crack_calc := {
  cc_delta : R;
  cc_x_II : R;
  cc_I_II : R;
  cc_sigma_s : R;
  cc_wk_mm : R
}.

(** The Stage II computation of [_check_cracking], from the section, the
    adopted steel area and [Md_max]. *)
Definition crack_width (h b fck As_adopt Md_max : R) : result crack_calc :=
  let d := h - 4 in
  let alpha_e := 10 in
  let Es := 21000 in
  let M_serv := (Md_max / 1.4) * 100 in
  let A_eq := b / 2 in
  let B_eq := alpha_e * As_adopt in
  let C_eq := - alpha_e * As_adopt * d in
  let delta := B_eq ^ 2 - 4 * A_eq * C_eq in
  sq ← Py.sqrt delta;
  x_II ← Py.div (- B_eq + sq) (2 * A_eq);
  let I_II := (b * x_II ^ 3) / 3 + alpha_e * As_adopt * (d - x_II) ^ 2 in
  q ← Py.div (M_serv * (d - x_II)) I_II;
  let sigma_s := alpha_e * q in
  let phi := if Py.gtb As_adopt 10 then 1.6
             else if Py.gtb As_adopt 5 then 1.25 else 1 in
  let eta1 := 2.25 in
  p ← Py.pow_2_3 fck;
  let fctm := 0.3 * p / 10 in
  let term_1 := phi / (12.5 * eta1) in
  let term_2 := sigma_s / Es in
  t3a ← Py.div (0.6 * sigma_s) fctm;
  t3b ← Py.div (3 * sigma_s) fctm;
  let term_3 := Py.max t3a t3b in
  let wk_cm := term_1 * term_2 * term_3 in
  let wk_mm := wk_cm * 10 in
  Ok {| cc_delta := delta; cc_x_II := x_II; cc_I_II := I_II;
        cc_sigma_s := sigma_s; cc_wk_mm := wk_mm |}.

(** The dict returned by [_check_cracking]: (wk, limit, status). *)
Definition check_cracking (self : t) (span : BeamSpan.t)
    (section : CrossSection.t) (material : Material.t)
    : result (R * R * string) :=
  let h := CrossSection.h section in
  let b := CrossSection.bw section in
  match BeamSpan.design_results span with
  | None => Raise (Exn AttributeError "design_results")
  | Some res =>
      As_adopt ← get_float res "As_inf_vao" 0;
      if Py.leb As_adopt 0.001 then
        match crack_limits !! caa self with
        | Some limit => Ok (0, limit, status_ok)
        | None => Raise (Exn KeyError "caa")
        end
      else
        Md_max ← get_float res "Md_max" 0;
        c ← crack_width h b (Material.fck material) As_adopt Md_max;
        let limit := default 0.3 (crack_limits !! caa self) in
        Ok (Py.round (cc_wk_mm c) 3, limit,
            if Py.leb (cc_wk_mm c) limit then status_ok else status_fail)
  end.

(** The dict returned by [_check_deflection]: (inst, total, limit, status). *)
Definition check_deflection (span : BeamSpan.t) (section : CrossSection.t)
    (material : Material.t) (loads : list Load.t)
    : result (R * R * R * string) :=
  let L_m := BeamSpan.length span in
  let L_cm := L_m * 100 in
  let limit := (L_cm * 10) / 250 in
  let q_elu := q_distributed loads in
  let q_serv := q_elu / 1.4 in
  let q_line := q_serv / 100 in
  let E_cs := Material.Ecs material / 10 in
  let I_c := CrossSection.inertia section in
  f_imediata ← Py.div (5 * q_line * L_cm ^ 4) (384 * E_cs * I_c);
  let f_imediata_fissurada := f_imediata * 1.5 in
  let delta_csi := 2 in
  let alpha_f := delta_csi in
  let f_total := f_imediata_fissurada * (1 + alpha_f) in
  let f_inst_mm := f_imediata_fissurada * 10 in
  let f_total_mm := f_total * 10 in
  Ok (Py.round f_inst_mm 2, Py.round f_total_mm 2, limit,
      if Py.leb f_total_mm limit then status_ok else status_fail).

(** [hasattr(span, "design_results")] *)
Definition hasattr_design_results (s : BeamSpan.t) : bool :=
  match BeamSpan.design_results s with Some _ => true | None => false end.

(** The body of the loop of [run_checks] for one span. *)
Definition check_span (self : t) (span : loc) : M unit :=
  s ← read_span span;
  if negb (hasattr_design_results s) then
    (* print("AVISO: ... Pulando ELS."); continue *)
    mret tt
  else
    sec ← read_section (BeamSpan.section s);
    mat ← read_material (BeamSpan.material s);
    '(wk, wk_limit, status_crack) ← lift (check_cracking self s sec mat);
    loads ← map_M read_load (BeamSpan.loads s);
    '(inst, total, limit, status_deflection) ← lift (check_deflection s sec mat loads);
    update_span span (λ s,
      BeamSpan.set_els_results s
        (Some (ServiceabilityResult.mk wk wk_limit inst total limit
                 status_crack status_deflection))).

Definition run_checks (self : t) (beam : loc) : M unit :=
  b ← read_beam beam;
  for_each (Beam.spans b) (check_span self).

End ELSCheckerEngine.

(** ** BarSelectorEngine (app/engines/bar_selector.py) *)

Module BarSelectorEngine.

Definition longitudinal_bars : list R := [8; 10; 12.5; 16; 20; 25].
Definition transversal_bars : list R := [5; 6.3; 8; 10].

Definition status_ok : string := "OK".
Definition status_dispensado : string := "Dispensado".
Definition status_nao_cabe : string := "Erro: Não cabe (Camada Dupla nec.)".
Definition status_espacamento : string := "Erro: Espaçamento < 5cm".

(** [_calc_anchorage]; [good] is [condition == "good"]. *)
Definition calc_anchorage (phi_mm fck_mpa : R) (good : bool) : result R :=
  let eta1 := 2.25 in
  let eta2 := if good then 1 else 0.7 in
  let eta3 := 1 in
  p ← Py.pow_2_3 fck_mpa;
  let fctd := (0.21 * p) / 1.4 in
  let fbd := eta1 * eta2 * eta3 * fctd in
  let fyd := 500 / 1.15 in
  q ← Py.div fyd fbd;
  let lb := (phi_mm / 4) * q in
  let lb_min := Py.max3 (0.3 * lb) (10 * phi_mm) 100 in
  Ok (Py.max lb lb_min / 10).

Definition area_bar (phi : R) : R := Py.pi * ((phi / 10) / 2) ^ 2.

(** The bar count tried for a diameter: enough bars for the area, at least 2. *)
Definition bar_count (as_req phi : R) : Z :=
  let n := Py.ceil (as_req / area_bar phi) in
  if (n <? 2)%Z then 2%Z else n.

Definition ah_min : R := 20.
Definition estribo_est : R := 5.

Definition width_available (bw_cm cover_mm : R) : R :=
  bw_cm * 10 - 2 * (cover_mm + estribo_est).

Definition space_required (n : Z) (phi : R) : R :=
  IZR n * phi + (IZR n - 1) * ah_min.

(** Loop state: [best_option] and [min_overdesign] ([None] is infinity). *)
Definition sel_state : Type := option BarOption.t * option R.

Definition select_step (as_req bw_cm cover_mm fck_mpa : R) (bond_good : bool)
    (st : sel_state) (phi : R) : result sel_state :=
  let n := bar_count as_req phi in
  if Py.leb (space_required n phi) (width_available bw_cm cover_mm) then
    let area_total := IZR n * area_bar phi in
    let overdesign := area_total - as_req in
    if (match snd st with None => true | Some m => Py.ltb overdesign m end) then
      lb ← calc_anchorage phi fck_mpa bond_good;
      Ok (Some (BarOption.mk phi n area_total 0 status_ok (Py.round lb 1)),
          Some overdesign)
    else Ok st
  else Ok st.

Fixpoint select_loop (as_req bw_cm cover_mm fck_mpa : R) (bond_good : bool)
    (bars : list R) (st : sel_state) : result sel_state :=
  match bars with
  | [] => Ok st
  | phi :: rest =>
      st' ← select_step as_req bw_cm cover_mm fck_mpa bond_good st phi;
      select_loop as_req bw_cm cover_mm fck_mpa bond_good rest st'
  end.

Definition select_longitudinal (as_req bw_cm cover_mm : R) (is_top : bool)
    (fck_mpa : R) : result BarOption.t :=
  if Py.leb as_req 0.01 then Ok (BarOption.mk 0 0 0 0 status_dispensado 0)
  else
    let bond_good := negb is_top in
    st ← select_loop as_req bw_cm cover_mm fck_mpa bond_good
           longitudinal_bars (None, None);
    match fst st with
    | Some best_option => Ok best_option
    | None => Ok (BarOption.mk 0 0 0 0 status_nao_cabe 0)
    end.

Definition select_skin_reinforcement (h_cm bw_cm : R) : BarOption.t :=
  if Py.ltb h_cm 60 then BarOption.mk 0 0 0 0 "Não necessário (h < 60)" 0
  else
    let As_pele_total := 0.0010 * bw_cm * h_cm in
    let As_pele_face := As_pele_total / 2 in
    let phi := 8 in
    let n0 := Py.ceil (As_pele_face / area_bar phi) in
    let n_face := if (n0 <? 2)%Z then 2%Z else n0 in
    BarOption.mk phi (n_face * 2) (IZR n_face * 2 * area_bar phi) 0
      (pretty n_face +:+ " barras/face") 0.

Fixpoint stirrup_loop (asw_s_req h_cm : R) (bars : list R)
    : result StirrupOption.t :=
  match bars with
  | [] => Ok (StirrupOption.mk 0 0 2 status_espacamento)
  | phi :: rest =>
      let area_leg := area_bar phi in
      let area_total := 2 * area_leg in
      s_calc ← Py.div area_total asw_s_req;
      let s_max := Py.min (0.6 * (h_cm - 4)) 30 in
      let s_adopt := Py.floor (Py.min s_calc s_max) in
      if (5 <=? s_adopt)%Z
      then Ok (StirrupOption.mk phi (IZR s_adopt) 2 status_ok)
      else stirrup_loop asw_s_req h_cm rest
  end.

Definition select_stirrup (asw_s_req bw_cm h_cm : R) : result StirrupOption.t :=
  let asw_s_req := if Py.leb asw_s_req 0.0001 then 0.001 else asw_s_req in
  stirrup_loop asw_s_req h_cm transversal_bars.

End BarSelectorEngine.

(** ** copy.deepcopy on a Beam *)

Module Copy.

(** The memo of [deepcopy]: original location to copy. *)
Definition memo := gmap loc loc.

(** Objects without references (Material, CrossSection, Load, Node). *)
Definition copy_leaf (m : memo) (l : loc) : M (loc * memo) :=
  match m !! l with
  | Some l' => mret (l', m)
  | None =>
      o ← deref l;
      match o with
      | OSpan _ | OBeam _ => attr_error
      | _ => l' ← alloc o; mret (l', <[l := l']> m)
      end
  end.

Fixpoint copy_leaves (m : memo) (ls : list loc) : M (list loc * memo) :=
  match ls with
  | [] => mret ([], m)
  | l :: rest =>
      '(l', m) ← copy_leaf m l;
      '(rest', m) ← copy_leaves m rest;
      mret (l' :: rest', m)
  end.

Definition copy_opt_leaf (m : memo) (l : option loc) : M (option loc * memo) :=
  match l with
  | None => mret (None, m)
  | Some l => '(l', m) ← copy_leaf m l; mret (Some l', m)
  end.

Definition copy_span (m : memo) (l : loc) : M (loc * memo) :=
  match m !! l with
  | Some l' => mret (l', m)
  | None =>
      s ← read_span l;
      '(section, m) ← copy_leaf m (BeamSpan.section s);
      '(material, m) ← copy_leaf m (BeamSpan.material s);
      '(loads, m) ← copy_leaves m (BeamSpan.loads s);
      '(start_node, m) ← copy_opt_leaf m (BeamSpan.start_node s);
      '(end_node, m) ← copy_opt_leaf m (BeamSpan.end_node s);
      l' ← alloc (OSpan (BeamSpan.mk (BeamSpan.id s) (BeamSpan.length s)
                   section material loads start_node end_node
                   (BeamSpan.moment_left s) (BeamSpan.moment_right s)
                   (BeamSpan.shear_left s) (BeamSpan.shear_right s)
                   (BeamSpan.design_results s) (BeamSpan.detailing_results s)
                   (BeamSpan.els_results s)));
      mret (l', <[l := l']> m)
  end.

Fixpoint copy_spans (m : memo) (ls : list loc) : M (list loc * memo) :=
  match ls with
  | [] => mret ([], m)
  | l :: rest =>
      '(l', m) ← copy_span m l;
      '(rest', m) ← copy_spans m rest;
      mret (l' :: rest', m)
  end.

(** [copy.deepcopy(beam)] *)
Definition deepcopy (beam : loc) : M loc :=
  b ← read_beam beam;
  '(spans, m) ← copy_spans ∅ (Beam.spans b);
  '(nodes, m) ← copy_leaves m (Beam.nodes b);
  alloc (OBeam (Beam.mk (Beam.id b) spans nodes (Beam.direction_vector b))).

End Copy.

(** ** OptimizerEngine (app/engines/optimizer.py) *)

Module OptimizerEngine.

Record t := mk {
  cost_concrete_m3 : R;
  cost_steel_kg : R;
  cost_formwork_m2 : R
}.

(** [OptimizerEngine()] *)
Definition init : t := mk 450 12 80.

(** One entry of [results]. *)
Record trial := {
  t_h : Z;
  t_status : string;
  t_cost : R;
  t_steel_kg : option R;
  t_conc_m3 : option R;
  t_as_pos : option pyval
}.

Definition sentinel_cost : R := 99999.
Definition status_ok : string := "OK".
Definition status_falha_els : string := "Falha ELS".

Definition trial_falha_els (h_test : Z) : trial :=
  {| t_h := h_test; t_status := status_falha_els; t_cost := sentinel_cost;
     t_steel_kg := None; t_conc_m3 := None; t_as_pos := None |}.

Definition trial_erro (h_test : Z) (e : exn) : trial :=
  {| t_h := h_test; t_status := "Erro Calc: " +:+ exn_msg e;
     t_cost := sentinel_cost;
     t_steel_kg := None; t_conc_m3 := None; t_as_pos := None |}.

(** [range(30, 85, 5)] *)
Definition test_heights : list Z := [30; 35; 40; 45; 50; 55; 60; 65; 70; 75; 80]%Z.

(** Step 2 of a trial: the new height and the self-weight loads. *)
Definition apply_geometry (trial_beam : loc) (h_test : Z) : M unit :=
  b ← read_beam trial_beam;
  for_each (Beam.spans b) (λ span,
    s ← read_span span;
    update_section (BeamSpan.section s) (λ sec, CrossSection.set_h sec (IZR h_test));;
    s ← read_span span;
    for_each (BeamSpan.loads s) (λ load,
      ld ← read_load load;
      if decide (Load.source ld = "Peso Próprio") then
        s ← read_span span;
        sec ← read_section (BeamSpan.section s);
        let new_pp := (CrossSection.bw sec / 100) * (CrossSection.h sec / 100) * 25 in
        update_load load (λ ld, Load.set_value ld new_pp)
      else mret tt)).

(** Running totals of the quantity loop:
    (total_steel_kg, total_conc_vol, total_form_area). *)
Definition totals : Type := R * R * R.

(** Did the span pass both serviceability checks? *)
Definition els_passed (s : BeamSpan.t) : result bool :=
  match BeamSpan.els_results s with
  | None => Raise (Exn AttributeError "'NoneType' object has no attribute 'status_crack'")
  | Some r =>
      Ok (bool_decide (ServiceabilityResult.status_crack r = "OK") &&
          bool_decide (ServiceabilityResult.status_deflection r = "OK"))
  end.

(** The quantities of one span that passed the checks. *)
Definition span_quantities (bw : R) (h_test : Z) (s : BeamSpan.t)
    (sec : CrossSection.t) (acc : totals) : result totals :=
  let '(total_steel_kg, total_conc_vol, total_form_area) := acc in
  match BeamSpan.design_results s with
  | None => Raise (Exn AttributeError "design_results")
  | Some res =>
      as_pos ← get_float res "As_inf_vao" 0;
      det_pos ← BarSelectorEngine.select_longitudinal as_pos (CrossSection.bw sec) 25 false 25;
      as_esq ← get_float res "As_sup_esq" 0;
      det_neg_esq ← BarSelectorEngine.select_longitudinal as_esq (CrossSection.bw sec) 25 true 25;
      as_dir ← get_float res "As_sup_dir" 0;
      det_neg_dir ← BarSelectorEngine.select_longitudinal as_dir (CrossSection.bw sec) 25 true 25;
      asw ← get_float res "Asw_s_req" 0;
      det_shear ← BarSelectorEngine.select_stirrup asw (CrossSection.bw sec) (CrossSection.h sec);
      let L := BeamSpan.length s in
      let total_steel_kg :=
        if (0 <? BarOption.count det_pos)%Z
        then total_steel_kg + BarOption.area_provided_cm2 det_pos * L * 0.785
        else total_steel_kg in
      let total_steel_kg :=
        if (0 <? BarOption.count det_neg_esq)%Z
        then total_steel_kg + BarOption.area_provided_cm2 det_neg_esq * (L / 4) * 0.785
        else total_steel_kg in
      let total_steel_kg :=
        if (0 <? BarOption.count det_neg_dir)%Z
        then total_steel_kg + BarOption.area_provided_cm2 det_neg_dir * (L / 4) * 0.785
        else total_steel_kg in
      total_steel_kg ←
        (if decide (StirrupOption.status det_shear = "OK") then
           let len_st := 2 * ((IZR h_test - 4) + (bw - 4)) + 15 in
           num_st ← Py.div (L * 100) (StirrupOption.spacing_cm det_shear);
           let area_st_unit :=
             2 * 3.1416 * ((StirrupOption.diameter_mm det_shear / 10) / 2) ^ 2 in
           Ok (total_steel_kg + (num_st * len_st / 100) * (area_st_unit * 0.785))
         else Ok total_steel_kg);
      let total_conc_vol := total_conc_vol + (bw / 100) * (IZR h_test / 100) * L in
      let total_form_area :=
        total_form_area + (2 * (IZR h_test / 100) + (bw / 100)) * L in
      Ok (total_steel_kg, total_conc_vol, total_form_area)
  end.

(** [for span in trial_beam.spans: ...]; the boolean is [valid_design]. *)
Fixpoint quantities_loop (bw : R) (h_test : Z) (spans : list loc)
    (acc : totals) : M (totals * bool) :=
  match spans with
  | [] => mret (acc, true)
  | span :: rest =>
      s ← read_span span;
      ok ← lift (els_passed s);
      if negb ok then mret (acc, false)   (* valid_design = False; break *)
      else
        sec ← read_section (BeamSpan.section s);
        acc' ← lift (span_quantities bw h_test s sec acc);
        quantities_loop bw h_test rest acc'
  end.

(** The body of the [try] block: [None] is the "Falha ELS" exit. *)
Definition try_body (self : t) (bw : R) (trial_beam : loc) (h_test : Z)
    : M (option trial) :=
  MatrixSolver.solve trial_beam;;
  ELUDesignEngine.run_design ELUDesignEngine.init trial_beam;;
  ELSCheckerEngine.run_checks ELSCheckerEngine.init trial_beam;;
  b ← read_beam trial_beam;
  '(acc, valid_design) ← quantities_loop bw h_test (Beam.spans b) (0, 0, 0);
  if negb valid_design then mret None
  else
    let '(total_steel_kg, total_conc_vol, total_form_area) := acc in
    let cost_conc := total_conc_vol * cost_concrete_m3 self in
    let cost_steel := total_steel_kg * cost_steel_kg self in
    let cost_form := total_form_area * cost_formwork_m2 self in
    let total_cost := cost_conc + cost_steel + cost_form in
    (* [span] is the last span visited by the loop *)
    span ← (match last (Beam.spans b) with
            | Some l => mret l
            | None => raise Exception "local variable 'span' referenced before assignment"
            end);
    s ← read_span span;
    as_pos ← (match BeamSpan.design_results s with
              | Some res => mret (default (VFloat 0) (res !! "As_inf_vao"))
              | None => raise AttributeError "design_results"
              end);
    mret (Some {| t_h := h_test; t_status := status_ok;
                  t_cost := Py.round total_cost 2;
                  t_steel_kg := Some (Py.round total_steel_kg 1);
                  t_conc_m3 := Some (Py.round total_conc_vol 2);
                  t_as_pos := Some as_pos |}).

(** One iteration of [for h_test in test_heights]. *)
Definition run_trial (self : t) (original_beam : loc) (bw : R) (h_test : Z)
    : M trial :=
  trial_beam ← Copy.deepcopy original_beam;
  apply_geometry trial_beam h_test;;
  try_except
    (r ← try_body self bw trial_beam h_test;
     mret (match r with
           | Some t => t
           | None => trial_falha_els h_test
           end))
    (λ e, mret (trial_erro h_test e)).

(** [min(valid_results, key=lambda x: x["cost"])]: the first minimum. *)
Fixpoint min_by_cost (best : trial) (l : list trial) : trial :=
  match l with
  | [] => best
  | r :: l' =>
      if Py.ltb (t_cost r) (t_cost best)
      then min_by_cost r l' else min_by_cost best l'
  end.

Inductive recommendation :=
| Alterar (h_orig : R) (h_best : Z) (economia : R)
| Manter.

Inductive report :=
| ReportError (msg : string)
| Report (original : option trial) (best : trial) (all_trials : list trial)
    (rec : recommendation).

Definition is_valid (r : trial) : bool := bool_decide (t_status r = "OK").

Definition select_best (h_orig : R) (results : list trial) : report :=
  let valid_results := filter (λ r, is_valid r = true) results in
  match valid_results with
  | [] => ReportError "Nenhuma seção viável encontrada."
  | r0 :: rest =>
      let best := min_by_cost r0 rest in
      let original_res := head (filter (λ r, IZR (t_h r) = h_orig) results) in
      Report original_res best results
        (match original_res with
         | Some o =>
             if Py.eqb (IZR (t_h best)) h_orig then Manter
             else Alterar h_orig (t_h best) (t_cost o - t_cost best)
         | None => Manter
         end)
  end.

Definition optimize_beam (self : t) (original_beam : loc) : M report :=
  b ← read_beam original_beam;
  span0 ← (match Beam.spans b with
           | l :: _ => mret l
           | [] => raise IndexError "list index out of range"
           end);
  s0 ← read_span span0;
  sec0 ← read_section (BeamSpan.section s0);
  let h_orig := CrossSection.h sec0 in
  let bw := CrossSection.bw sec0 in
  results ← map_M (run_trial self original_beam bw) test_heights;
  mret (select_best h_orig results).

End OptimizerEngine.

(** * Properties *)

(** Simplification leaves real-number expressions as the code writes them. *)
#[local] Arguments pow : simpl never.
#[local] Arguments IZR : simpl never.
#[local] Arguments Q2R : simpl never.

(** ** Reasoning about the Python float operations *)

Section PyFacts.

Lemma result_bind_inv {A B} (m : result A) (f : A → result B) (b : B) :
  m ≫= f = Ok b → ∃ a, m = Ok a ∧ f a = Ok b.
Proof. destruct m as [a | e]; [eauto | done]. Qed.

Lemma lt_div_r (a b c : R) : 0 < c → a * c < b → a < b / c.
Proof.
  intros Hc H. apply Rmult_lt_reg_r with c; [exact Hc |].
  unfold Rdiv. rewrite Rmult_assoc, Rinv_l by lra. lra.
Qed.

Lemma div_ok (a b : R) : b ≠ 0 → Py.div a b = Ok (a / b).
Proof. intros Hb. unfold Py.div. destruct (Req_dec_T b 0); [contradiction | reflexivity]. Qed.

Lemma div_zero (a : R) : ∃ e, Py.div a 0 = Raise e ∧ exn_cls e = ZeroDivisionError.
Proof. unfold Py.div. destruct (Req_dec_T 0 0); [eauto | contradiction]. Qed.

Lemma sqrt_ok (a : R) : 0 <= a → Py.sqrt a = Ok (sqrt a).
Proof. intros Ha. unfold Py.sqrt. destruct (Rlt_dec a 0); [lra | reflexivity]. Qed.

Lemma pow_2_3_ok (x : R) : 0 < x → Py.pow_2_3 x = Ok (Rpower x (2 / 3)).
Proof.
  intros Hx. unfold Py.pow_2_3.
  destruct (Rlt_dec x 0); [lra |].
  destruct (Req_dec_T x 0); [lra | reflexivity].
Qed.

Lemma leb_true (a b : R) : a <= b → Py.leb a b = true.
Proof. intros H. unfold Py.leb. destruct (Rle_dec a b); [reflexivity | contradiction]. Qed.

Lemma leb_false (a b : R) : b < a → Py.leb a b = false.
Proof. intros H. unfold Py.leb. destruct (Rle_dec a b); [lra | reflexivity]. Qed.

Lemma ltb_true (a b : R) : a < b → Py.ltb a b = true.
Proof. intros H. unfold Py.ltb. destruct (Rlt_dec a b); [reflexivity | contradiction]. Qed.

Lemma ltb_false (a b : R) : b <= a → Py.ltb a b = false.
Proof. intros H. unfold Py.ltb. destruct (Rlt_dec a b); [lra | reflexivity]. Qed.

Lemma gtb_true (a b : R) : b < a → Py.gtb a b = true.
Proof. apply ltb_true. Qed.

Lemma gtb_false (a b : R) : a <= b → Py.gtb a b = false.
Proof. apply ltb_false. Qed.

Lemma leb_spec (a b : R) : Py.leb a b = true ↔ a <= b.
Proof. unfold Py.leb. destruct (Rle_dec a b); split; intros; try done. Qed.

Lemma ltb_spec (a b : R) : Py.ltb a b = true ↔ a < b.
Proof. unfold Py.ltb. destruct (Rlt_dec a b); split; intros; try done. Qed.

Lemma max_ge_l (a b : R) : a <= Py.max a b.
Proof. unfold Py.max, Py.gtb, Py.ltb. destruct (Rlt_dec a b); lra. Qed.

Lemma max_ge_r (a b : R) : b <= Py.max a b.
Proof. unfold Py.max, Py.gtb, Py.ltb. destruct (Rlt_dec a b); lra. Qed.

Lemma max_cases (a b : R) :
  (b <= a ∧ Py.max a b = a) ∨ (a < b ∧ Py.max a b = b).
Proof. unfold Py.max, Py.gtb, Py.ltb. destruct (Rlt_dec a b); [right | left]; split; lra. Qed.

Lemma max_l (a b : R) : b <= a → Py.max a b = a.
Proof. intros. destruct (max_cases a b) as [[_ ->] | [? _]]; lra. Qed.

Lemma max_r (a b : R) : a <= b → Py.max a b = b.
Proof. intros. destruct (max_cases a b) as [[? ->] | [_ ->]]; lra. Qed.

Lemma abs_nonneg (a : R) : 0 <= Py.abs a.
Proof. apply Rabs_pos. Qed.

End PyFacts.

(** ** Flexural reinforcement *)

Section Flexure.

Import ELUDesignEngine.

(** The lever arm used for a given [kmd] when the [try] block succeeds. *)
Definition lever_arm (d kmd : R) : R :=
  d * (1 - 0.4 * ((0.68 - sqrt (0.68 ^ 2 - 4 * 0.272 * kmd)) / (2 * 0.272))).

Lemma beta_x_try_ductile (kmd : R) :
  kmd <= 0.251 →
  beta_x_try kmd =
    Ok (Some ((0.68 - sqrt (0.68 ^ 2 - 4 * 0.272 * kmd)) / (2 * 0.272))).
Proof.
  intros Hk. unfold beta_x_try.
  rewrite div_ok by lra. cbn.
  rewrite ltb_false by lra.
  rewrite sqrt_ok by lra. cbn.
  rewrite div_ok by lra. reflexivity.
Qed.

Lemma lever_arm_bounds (d kmd : R) :
  0 < d → kmd <= 0.251 → d / 2 <= lever_arm d kmd.
Proof.
  intros Hd Hk. unfold lever_arm.
  pose proof (sqrt_pos (0.68 ^ 2 - 4 * 0.272 * kmd)) as Hs.
  set (s := sqrt _) in *.
  assert (Heq : d * (1 - 0.4 * ((0.68 - s) / (2 * 0.272)))
                = d / 2 + d * (0.4 / 0.544) * s) by nra.
  rewrite Heq.
  assert (0 <= d * (0.4 / 0.544) * s); [| lra].
  apply Rmult_le_pos; [| lra].
  apply Rmult_le_pos; [lra |].
  apply Rlt_le, Rdiv_lt_0_compat; lra.
Qed.

Lemma lever_arm_antitone (d k1 k2 : R) :
  0 < d → k1 <= k2 → k2 <= 0.251 → lever_arm d k2 <= lever_arm d k1.
Proof.
  intros Hd H12 Hk. unfold lever_arm.
  assert (Hs : sqrt (0.68 ^ 2 - 4 * 0.272 * k2) <= sqrt (0.68 ^ 2 - 4 * 0.272 * k1))
    by (apply sqrt_le_1; lra).
  set (s1 := sqrt (0.68 ^ 2 - 4 * 0.272 * k1)) in *.
  set (s2 := sqrt (0.68 ^ 2 - 4 * 0.272 * k2)) in *.
  assert (H1 : d * (1 - 0.4 * ((0.68 - s1) / (2 * 0.272)))
               = d / 2 + d * (0.4 / 0.544) * s1) by nra.
  assert (H2 : d * (1 - 0.4 * ((0.68 - s2) / (2 * 0.272)))
               = d / 2 + d * (0.4 / 0.544) * s2) by nra.
  rewrite H1, H2.
  assert (0 <= d * (0.4 / 0.544)).
  { apply Rmult_le_pos; [lra |]. apply Rlt_le, Rdiv_lt_0_compat; lra. }
  nra.
Qed.

Variables b d fcd fyd : R.
Hypothesis Hb : 0 < b.
Hypothesis Hd : 0 < d.
Hypothesis Hfcd : 0 < fcd.
Hypothesis Hfyd : 0 < fyd.

Lemma kmd_denominator_pos : 0 < b * d ^ 2 * fcd.
Proof using Hb Hd Hfcd.
  apply Rmult_lt_0_compat; [| assumption].
  apply Rmult_lt_0_compat; [assumption |].
  apply pow_lt; assumption.
Qed.

Lemma kmd_of_ok (Md : R) : kmd_of Md b d fcd = Ok (Md * 100 / (b * d ^ 2 * fcd)).
Proof using Hb Hd Hfcd.
  unfold kmd_of. apply div_ok.
  pose proof kmd_denominator_pos. lra.
Qed.

Lemma kmd_monotone (Md1 Md2 : R) :
  Md1 <= Md2 → Md1 * 100 / (b * d ^ 2 * fcd) <= Md2 * 100 / (b * d ^ 2 * fcd).
Proof using Hb Hd Hfcd.
  intros H. pose proof kmd_denominator_pos as HK.
  unfold Rdiv. apply Rmult_le_compat_r; [| lra].
  apply Rlt_le, Rinv_0_lt_compat, HK.
Qed.

(** Below the ductility limit the function returns [Md / (z * fyd)]. *)
Lemma calc_reinforcement_area_ductile (Md : R) :
  0.01 < Md →
  Md * 100 / (b * d ^ 2 * fcd) <= 0.251 →
  calc_reinforcement_area Md b d fcd fyd =
    Ok (Md * 100 / (lever_arm d (Md * 100 / (b * d ^ 2 * fcd)) * fyd)).
Proof using Hb Hd Hfcd Hfyd.
  intros HMd Hk. unfold calc_reinforcement_area.
  rewrite leb_false by lra.
  rewrite kmd_of_ok. cbn.
  rewrite gtb_false by lra.
  rewrite beta_x_try_ductile by lra.
  apply div_ok.
  pose proof (lever_arm_bounds d _ Hd Hk) as Hz.
  apply Rgt_not_eq, Rlt_gt.
  apply Rmult_lt_0_compat; [| assumption].
  change (0 < lever_arm d (Md * 100 / (b * d ^ 2 * fcd))). lra.
Qed.

Lemma calc_reinforcement_area_small (Md : R) :
  Md <= 0.01 → calc_reinforcement_area Md b d fcd fyd = Ok 0.
Proof. intros H. unfold calc_reinforcement_area. rewrite leb_true by lra. reflexivity. Qed.

Lemma ductile_area_nonneg (Md : R) :
  0 <= Md →
  Md * 100 / (b * d ^ 2 * fcd) <= 0.251 →
  0 <= Md * 100 / (lever_arm d (Md * 100 / (b * d ^ 2 * fcd)) * fyd).
Proof using Hd Hfyd.
  intros HMd Hk.
  pose proof (lever_arm_bounds d _ Hd Hk) as Hz.
  apply Rmult_le_pos; [lra |].
  apply Rlt_le, Rinv_0_lt_compat, Rmult_lt_0_compat; lra.
Qed.

(** C7. Flexural design is monotonic: for a fixed section (b, d) and fixed
    design strengths (fcd, fyd), all positive, and two design moments
    Md1 <= Md2 whose kmd does not exceed the ductility limit 0.251,
    [_calc_reinforcement_area] returns an area for each, and the area
    for Md2 is not smaller than the area for Md1. *)
Theorem calc_reinforcement_area_monotone (Md1 Md2 : R) :
  Md1 <= Md2 →
  Md2 * 100 / (b * d ^ 2 * fcd) <= 0.251 →
  ∃ As1 As2,
    calc_reinforcement_area Md1 b d fcd fyd = Ok As1 ∧
    calc_reinforcement_area Md2 b d fcd fyd = Ok As2 ∧
    As1 <= As2.
Proof using Hb Hd Hfcd Hfyd.
  intros H12 Hk2.
  pose proof (kmd_monotone _ _ H12) as Hk12.
  destruct (Rle_dec Md1 0.01) as [Hs1 | Hl1].
  - rewrite (calc_reinforcement_area_small Md1 Hs1).
    destruct (Rle_dec Md2 0.01) as [Hs2 | Hl2].
    + rewrite (calc_reinforcement_area_small Md2 Hs2).
      exists 0, 0. repeat split; lra.
    + rewrite calc_reinforcement_area_ductile by lra.
      eexists _, _. repeat split.
      apply ductile_area_nonneg; lra.
  - rewrite (calc_reinforcement_area_ductile Md1) by lra.
    rewrite (calc_reinforcement_area_ductile Md2) by lra.
    eexists _, _. repeat split.
    set (k1 := Md1 * 100 / (b * d ^ 2 * fcd)) in *.
    set (k2 := Md2 * 100 / (b * d ^ 2 * fcd)) in *.
    pose proof (lever_arm_bounds d k2 Hd Hk2) as Hz2.
    pose proof (lever_arm_antitone d k1 k2 Hd Hk12 Hk2) as Hz12.
    set (z1 := lever_arm d k1) in *. set (z2 := lever_arm d k2) in *.
    assert (Hz1f : 0 < z1 * fyd) by (apply Rmult_lt_0_compat; lra).
    assert (Hz2f : 0 < z2 * fyd) by (apply Rmult_lt_0_compat; lra).
    assert (Hzf : z2 * fyd <= z1 * fyd) by (apply Rmult_le_compat_r; lra).
    apply Rle_trans with (Md1 * 100 / (z2 * fyd)).
    + unfold Rdiv. apply Rmult_le_compat_l; [lra |].
      apply Rinv_le_contravar; lra.
    + unfold Rdiv. apply Rmult_le_compat_r; [| lra].
      apply Rlt_le, Rinv_0_lt_compat; lra.
Qed.

End Flexure.

Lemma calc_reinforcement_area_monotone_witness :
  ∃ As1 As2,
    ELUDesignEngine.calc_reinforcement_area 50 20 46 (30 / 1.4 / 10)
      (500 / 1.15 / 10) = Ok As1 ∧
    ELUDesignEngine.calc_reinforcement_area 94.5 20 46 (30 / 1.4 / 10)
      (500 / 1.15 / 10) = Ok As2 ∧
    As1 <= As2.
Proof.
  apply (calc_reinforcement_area_monotone 20 46 (30 / 1.4 / 10)
           (500 / 1.15 / 10)); lra.
Defined.

(** ** Minimum reinforcement *)

Section MinimumReinforcement.

Import ELUDesignEngine.

(** [_calc_reinforcement_area] returns for every moment when the section
    and the strengths are positive. *)
Lemma calc_reinforcement_area_total (Md b d fcd fyd : R) :
  0 < b → 0 < d → 0 < fcd → 0 < fyd →
  ∃ a, calc_reinforcement_area Md b d fcd fyd = Ok a.
Proof.
  intros Hb Hd Hfcd Hfyd.
  destruct (Rle_dec Md 0.01) as [Hs | Hl].
  - rewrite calc_reinforcement_area_small by lra. eauto.
  - destruct (Rle_dec (Md * 100 / (b * d ^ 2 * fcd)) 0.251) as [Hk | Hk].
    + rewrite calc_reinforcement_area_ductile by lra. eauto.
    + unfold calc_reinforcement_area.
      rewrite leb_false by lra.
      rewrite kmd_of_ok by lra. cbn.
      rewrite gtb_true by lra.
      rewrite div_ok; [cbn; eauto |].
      assert (0 < 0.9 * d * fyd); [| lra].
      apply Rmult_lt_0_compat; lra.
Qed.

(** A stored support area: floored above the threshold, zero otherwise. *)
Definition floor_or_exempt (Md a as_min : R) : Prop :=
  (0.1 < Md → as_min <= a) ∧ (Md <= 0.1 → a = 0).

(** The longitudinal entries of a result dictionary respect the minimum
    reinforcement of the section. *)
Definition respects_minimum (self : t) (span : BeamSpan.t)
    (section : CrossSection.t) (res : gmap string pyval) : Prop :=
  let as_min := 0.0015 * CrossSection.bw section * CrossSection.h section in
  ∃ a_esq a_dir a_vao,
    res !! "As_sup_esq" = Some (VFloat a_esq) ∧
    res !! "As_sup_dir" = Some (VFloat a_dir) ∧
    res !! "As_inf_vao" = Some (VFloat a_vao) ∧
    as_min <= a_vao ∧
    floor_or_exempt (Py.abs (BeamSpan.moment_left span) * gamma_f self)
      a_esq as_min ∧
    floor_or_exempt (Py.abs (BeamSpan.moment_right span) * gamma_f self)
      a_dir as_min.

Lemma floor_or_exempt_stored (Md a as_min : R) :
  floor_or_exempt Md (if Py.gtb Md 0.1 then Py.max a as_min else 0) as_min.
Proof.
  unfold floor_or_exempt. split; intros H.
  - rewrite gtb_true by lra. apply max_ge_r.
  - rewrite gtb_false by lra. reflexivity.
Qed.

Lemma flexure_results_minimum self span section material loads res :
  flexure_results self span section material loads = Ok res →
  respects_minimum self span section res.
Proof.
  unfold flexure_results. intros H.
  apply result_bind_inv in H as (fyd0 & _ & H).
  apply result_bind_inv in H as (a1 & _ & H).
  apply result_bind_inv in H as (a2 & _ & H).
  apply result_bind_inv in H as (a3 & _ & H).
  injection H as <-.
  unfold respects_minimum.
  eexists _, _, _.
  split; [by simplify_map_eq |]. split; [by simplify_map_eq |].
  split; [by simplify_map_eq |].
  split; [apply max_ge_r |].
  split; apply floor_or_exempt_stored.
Qed.

Lemma flexure_results_total self span section material loads :
  0 < gamma_s self →
  0 < CrossSection.bw section → 4 < CrossSection.h section →
  0 < Material.fck material → 0 < Material.fyk material →
  ∃ res, flexure_results self span section material loads = Ok res.
Proof.
  intros Hgs Hbw Hh Hfck Hfyk. unfold flexure_results.
  rewrite div_ok by lra. cbn.
  assert (Hfyd : 0 < Material.fyk material / gamma_s self / 10).
  { apply Rdiv_lt_0_compat; [| lra]. apply Rdiv_lt_0_compat; lra. }
  assert (Hfcd : 0 < Material.get_fcd material).
  { unfold Material.get_fcd. lra. }
  assert (Hd : 0 < CrossSection.h section - 4) by lra.
  destruct (calc_reinforcement_area_total
              (Py.abs (BeamSpan.moment_left span) * gamma_f self)
              _ _ _ _ Hbw Hd Hfcd Hfyd) as [a1 ->]. cbn.
  destruct (calc_reinforcement_area_total
              (Py.abs (BeamSpan.moment_right span) * gamma_f self)
              _ _ _ _ Hbw Hd Hfcd Hfyd) as [a2 ->]. cbn.
  destruct (calc_reinforcement_area_total
              (M_pos_estimate (q_distributed loads) (BeamSpan.length span)
                 (BeamSpan.moment_left span) (BeamSpan.moment_right span)
               * gamma_f self)
              _ _ _ _ Hbw Hd Hfcd Hfyd) as [a3 ->]. cbn.
  eauto.
Qed.

Lemma shear_results_total self span section material :
  gamma_c self ≠ 0 →
  4 < CrossSection.h section → 0 < Material.fck material →
  ∃ r, shear_results self span section material = Ok r.
Proof.
  intros Hgc Hh Hfck. unfold shear_results.
  rewrite (pow_2_3_ok _ Hfck). cbn.
  rewrite div_ok by done. cbn.
  rewrite div_ok by lra. cbn. eauto.
Qed.

End MinimumReinforcement.

(** ** Reasoning about programs on the object store *)

Local Close Scope R_scope.

(** [wp m h Q]: running [m] on [h] ends in a result and a heap that satisfy
    [Q], whether [m] returns or raises. *)
Definition wp {A} (m : M A) (h : heap) (Q : result A → heap → Prop) : Prop :=
  Q (m h).1 (m h).2.

(** Postcondition of a run that must return normally. *)
Definition returns {A} (Q : A → heap → Prop) : result A → heap → Prop :=
  λ r h, match r with Ok a => Q a h | Raise _ => False end.

Section Wp.

Context {A B : Type}.

Lemma wp_bind (m : M A) (f : A → M B) h Q :
  wp m h (λ r h', match r with
                  | Ok a => wp (f a) h' Q
                  | Raise e => Q (Raise e) h'
                  end) →
  wp (m ≫= f) h Q.
Proof.
  unfold wp, mbind, M_bind. destruct (m h) as [[a | e] h']; simpl; auto.
Qed.

Lemma wp_bind_inv (m : M A) (f : A → M B) h Q :
  wp (m ≫= f) h Q →
  wp m h (λ r h', match r with
                  | Ok a => wp (f a) h' Q
                  | Raise e => Q (Raise e) h'
                  end).
Proof.
  unfold wp, mbind, M_bind. destruct (m h) as [[a | e] h']; simpl; auto.
Qed.

Lemma wp_ret (a : A) h (Q : result A → heap → Prop) : Q (Ok a) h → wp (mret a) h Q.
Proof. auto. Qed.

Lemma wp_lift (r : result A) h (Q : result A → heap → Prop) : Q r h → wp (lift r) h Q.
Proof. auto. Qed.

Lemma wp_mono (m : M A) h (Q Q' : result A → heap → Prop) :
  wp m h Q → (∀ r h', Q r h' → Q' r h') → wp m h Q'.
Proof. unfold wp. auto. Qed.

Lemma wp_eq (m : M A) h r h' : wp m h (λ r0 h0, r0 = r ∧ h0 = h') → m h = (r, h').
Proof. unfold wp. destruct (m h). simpl. by intros [-> ->]. Qed.

Lemma wp_run (m : M A) h Q : wp m h Q ↔ ∃ r h', m h = (r, h') ∧ Q r h'.
Proof.
  unfold wp. split.
  - intros H. exists (m h).1, (m h).2. split; [apply surjective_pairing | done].
  - intros (r & h' & -> & H). done.
Qed.

End Wp.

Lemma map_M_length {A B} (f : A → M B) : ∀ (l : list A) (h : heap) rs h',
  map_M f l h = (Ok rs, h') → length rs = length l.
Proof.
  induction l as [| x l IH]; intros h rs h' H; simpl in H.
  - by injection H as <- _.
  - unfold mbind, M_bind in H.
    destruct (f x h) as [[y | e] h1]; [| done].
    destruct (map_M f l h1) as [[ys | e] h2] eqn:E; [| done].
    injection H as <- _. simpl. by rewrite (IH _ _ _ E).
Qed.

Section HeapFacts.

Implicit Types (h : heap) (l : loc) (o : obj).

Lemma wp_alloc o h Q : Q (Ok (length h)) (h ++ [o]) → wp (alloc o) h Q.
Proof. auto. Qed.

Lemma wp_deref l h o Q : h !! l = Some o → Q (Ok o) h → wp (deref l) h Q.
Proof. intros Hl HQ. unfold wp, deref. rewrite Hl. done. Qed.

Lemma wp_store l o h Q : Q (Ok tt) (<[l := o]> h) → wp (store l o) h Q.
Proof. auto. Qed.

Lemma wp_read_beam l h b Q :
  h !! l = Some (OBeam b) → Q (Ok b) h → wp (read_beam l) h Q.
Proof. intros Hl HQ. unfold wp, read_beam, mbind, M_bind, deref. rewrite Hl. done. Qed.

Lemma wp_read_span l h s Q :
  h !! l = Some (OSpan s) → Q (Ok s) h → wp (read_span l) h Q.
Proof. intros Hl HQ. unfold wp, read_span, mbind, M_bind, deref. rewrite Hl. done. Qed.

Lemma wp_read_node l h n Q :
  h !! l = Some (ONode n) → Q (Ok n) h → wp (read_node l) h Q.
Proof. intros Hl HQ. unfold wp, read_node, mbind, M_bind, deref. rewrite Hl. done. Qed.

Lemma wp_read_section l h s Q :
  h !! l = Some (OSection s) → Q (Ok s) h → wp (read_section l) h Q.
Proof. intros Hl HQ. unfold wp, read_section, mbind, M_bind, deref. rewrite Hl. done. Qed.

Lemma wp_read_material l h m Q :
  h !! l = Some (OMaterial m) → Q (Ok m) h → wp (read_material l) h Q.
Proof. intros Hl HQ. unfold wp, read_material, mbind, M_bind, deref. rewrite Hl. done. Qed.

Lemma wp_read_load l h x Q :
  h !! l = Some (OLoad x) → Q (Ok x) h → wp (read_load l) h Q.
Proof. intros Hl HQ. unfold wp, read_load, mbind, M_bind, deref. rewrite Hl. done. Qed.

Lemma wp_update_beam l h b f Q :
  h !! l = Some (OBeam b) → Q (Ok tt) (<[l := OBeam (f b)]> h) →
  wp (update_beam l f) h Q.
Proof. intros Hl HQ. unfold wp, update_beam, read_beam, mbind, M_bind, deref. rewrite Hl. done. Qed.

Lemma wp_update_span l h s f Q :
  h !! l = Some (OSpan s) → Q (Ok tt) (<[l := OSpan (f s)]> h) →
  wp (update_span l f) h Q.
Proof. intros Hl HQ. unfold wp, update_span, read_span, mbind, M_bind, deref. rewrite Hl. done. Qed.

Lemma wp_update_node l h n f Q :
  h !! l = Some (ONode n) → Q (Ok tt) (<[l := ONode (f n)]> h) →
  wp (update_node l f) h Q.
Proof. intros Hl HQ. unfold wp, update_node, read_node, mbind, M_bind, deref. rewrite Hl. done. Qed.

Lemma wp_update_section l h s f Q :
  h !! l = Some (OSection s) → Q (Ok tt) (<[l := OSection (f s)]> h) →
  wp (update_section l f) h Q.
Proof. intros Hl HQ. unfold wp, update_section, read_section, mbind, M_bind, deref. rewrite Hl. done. Qed.

Lemma wp_update_load l h x f Q :
  h !! l = Some (OLoad x) → Q (Ok tt) (<[l := OLoad (f x)]> h) →
  wp (update_load l f) h Q.
Proof. intros Hl HQ. unfold wp, update_load, read_load, mbind, M_bind, deref. rewrite Hl. done. Qed.

(** Lookup in an updated or extended heap. *)
Lemma heap_lookup_insert h l l' o :
  l < length h →
  <[l := o]> h !! l' = if decide (l = l') then Some o else h !! l'.
Proof.
  intros Hl. destruct (decide (l = l')) as [-> | Hne].
  - by apply list_lookup_insert_eq.
  - by apply list_lookup_insert_ne.
Qed.

Lemma heap_lookup_snoc h o l :
  (h ++ [o]) !! l =
    if decide (l = length h) then Some o
    else if decide (l < length h) then h !! l else None.
Proof.
  destruct (decide (l = length h)) as [-> | Hne].
  - by apply list_lookup_middle.
  - destruct (decide (l < length h)).
    + by apply lookup_app_l.
    + apply lookup_ge_None. rewrite length_app. simpl. lia.
Qed.

Lemma heap_lookup_snoc_old h o l x :
  h !! l = Some x → (h ++ [o]) !! l = Some x.
Proof.
  intros H. rewrite lookup_app_l; [done |]. by eapply lookup_lt_Some.
Qed.

End HeapFacts.

(** Solves a lookup in a heap built from updates and allocations. *)
Ltac heap_norm :=
  repeat match goal with
    | H : context [length (<[_ := _]> _)] |- _ => rewrite length_insert in H
    | H : context [length (_ ++ _)] |- _ => rewrite length_app in H
    | |- context [length (<[_ := _]> _)] => rewrite length_insert
    | |- context [length (_ ++ _)] => rewrite length_app
    end;
  simpl length in *.

Ltac heap_len := heap_norm; try lia.

Ltac heap_lookup :=
  repeat first
    [ rewrite heap_lookup_insert by heap_len
    | rewrite heap_lookup_snoc ];
  repeat (case_decide; heap_norm; try lia);
  first [eassumption | reflexivity | congruence].

(** Steps through one [≫=] whose first action is a read, an update or an
    allocation. *)
Ltac wp_head :=
  lazymatch goal with
  | |- wp (read_beam _) _ _ => eapply wp_read_beam; [heap_lookup |]
  | |- wp (read_span _) _ _ => eapply wp_read_span; [heap_lookup |]
  | |- wp (read_node _) _ _ => eapply wp_read_node; [heap_lookup |]
  | |- wp (read_section _) _ _ => eapply wp_read_section; [heap_lookup |]
  | |- wp (read_material _) _ _ => eapply wp_read_material; [heap_lookup |]
  | |- wp (read_load _) _ _ => eapply wp_read_load; [heap_lookup |]
  | |- wp (update_beam _ _) _ _ => eapply wp_update_beam; [heap_lookup |]
  | |- wp (update_span _ _) _ _ => eapply wp_update_span; [heap_lookup |]
  | |- wp (update_node _ _) _ _ => eapply wp_update_node; [heap_lookup |]
  | |- wp (update_section _ _) _ _ => eapply wp_update_section; [heap_lookup |]
  | |- wp (update_load _ _) _ _ => eapply wp_update_load; [heap_lookup |]
  | |- wp (alloc _) _ _ => apply wp_alloc
  | |- wp (mret _) _ _ => apply wp_ret
  | |- wp (lift _) _ _ => apply wp_lift
  end.

(** Keeps a heap in the form [<[l := o]> h ++ [x1] ++ ... ++ [xn]]. *)
Ltac heap_simpl :=
  repeat first
    [ rewrite list_insert_insert_eq
    | rewrite insert_app_l by heap_len ];
  heap_norm.

(** Reduces projections of records built by the setters. *)
Ltac rec_simpl :=
  cbn [BeamSpan.id BeamSpan.length BeamSpan.section BeamSpan.material
       BeamSpan.loads BeamSpan.start_node BeamSpan.end_node
       BeamSpan.moment_left BeamSpan.moment_right BeamSpan.shear_left
       BeamSpan.shear_right BeamSpan.design_results
       BeamSpan.detailing_results BeamSpan.els_results
       BeamSpan.set_loads BeamSpan.set_forces BeamSpan.set_design_results
       BeamSpan.set_els_results BeamSpan.new
       Beam.id Beam.spans Beam.nodes Beam.direction_vector
       Beam.set_spans Beam.set_nodes Beam.set_direction_vector Beam.new
       CrossSection.bw CrossSection.h CrossSection.bf CrossSection.hf
       CrossSection.set_h
       Load.load_type Load.value Load.position_start Load.position_end
       Load.source Load.set_value
       Node.id Node.x Node.y Node.z Node.support_conditions
       Node.set_support_conditions] in *.

Ltac wp_step :=
  lazymatch goal with
  | |- wp (_ ≫= _) _ _ => apply wp_bind; wp_step
  | |- _ => rec_simpl; wp_head; cbn beta iota; heap_simpl
  end.

(** ** Beam topology built by add_span *)

(** The arguments of one call of [add_span]. *)
Record span_call := {
  c_length : R;
  c_section : loc;
  c_mat : loc;
  c_start_coord : R * R;
  c_direction : R * R;
  c_start_support : SupportType;
  c_end_support : SupportType
}.

Definition add_span_call (beam : loc) (c : span_call) : M loc :=
  add_span beam (c_length c) (c_section c) (c_mat c) (c_start_coord c)
    (c_direction c) (c_start_support c) (c_end_support c).

(** [beam = Beam(id)] followed by one [beam.add_span(...)] per call. *)
Definition build_beam (id : string) (calls : list span_call) : M (loc * list loc) :=
  beam ← alloc (OBeam (Beam.new id));
  spans ← map_M (add_span_call beam) calls;
  mret (beam, spans).

(** The node a span attribute refers to, with its restraint flags. *)
Definition node_flags (h : heap) (ref : option loc) : option (list bool) :=
  l ← ref; o ← h !! l;
  match o with ONode n => Some (Node.support_conditions n) | _ => None end.

(** [node.support_conditions = flags] on the object at [l]. *)
Definition set_flags (l : loc) (flags : list bool) : M unit :=
  update_node l (λ n, Node.set_support_conditions n flags).

Section Topology.

Implicit Types (h : heap).

(** A beam object [b] with [N] spans built by [add_span]: no node before
    the first span, [N + 1] nodes afterwards; node [k] has id [k]; span [i]
    starts at node [i] and ends at node [i + 1]. *)
Definition topology (h : heap) (beam : loc) (b : Beam.t) (N : nat) : Prop :=
  h !! beam = Some (OBeam b) ∧
  length (Beam.spans b) = N ∧
  length (Beam.nodes b) = (if N is O then O else S N) ∧
  (∀ k nl, Beam.nodes b !! k = Some nl →
     ∃ nd, h !! nl = Some (ONode nd) ∧ Node.id nd = k) ∧
  (∀ i sl, Beam.spans b !! i = Some sl →
     ∃ s, h !! sl = Some (OSpan s) ∧
          BeamSpan.id s = S i ∧
          is_Some (BeamSpan.start_node s) ∧
          BeamSpan.start_node s = Beam.nodes b !! i ∧
          BeamSpan.end_node s = Beam.nodes b !! S i).

Lemma topology_new h id :
  topology (h ++ [OBeam (Beam.new id)]) (length h) (Beam.new id) 0.
Proof.
  split; [by apply list_lookup_middle |].
  repeat split; naive_solver.
Qed.

(** Appending one node and one span to a beam that already has spans. *)
Lemma topology_snoc h h' beam N b B' en sp nd_new s_new :
  N ≠ 0 →
  length (Beam.spans b) = N →
  length (Beam.nodes b) = S N →
  (∀ k nl, Beam.nodes b !! k = Some nl →
     ∃ nd, h !! nl = Some (ONode nd) ∧ Node.id nd = k) →
  (∀ i sl, Beam.spans b !! i = Some sl →
     ∃ s, h !! sl = Some (OSpan s) ∧
          BeamSpan.id s = S i ∧
          is_Some (BeamSpan.start_node s) ∧
          BeamSpan.start_node s = Beam.nodes b !! i ∧
          BeamSpan.end_node s = Beam.nodes b !! S i) →
  h' !! beam = Some (OBeam B') →
  Beam.nodes B' = Beam.nodes b ++ [en] →
  Beam.spans B' = Beam.spans b ++ [sp] →
  (∀ l nd, h !! l = Some (ONode nd) →
     ∃ nd', h' !! l = Some (ONode nd') ∧ Node.id nd' = Node.id nd) →
  (∀ l s, h !! l = Some (OSpan s) → h' !! l = Some (OSpan s)) →
  h' !! en = Some (ONode nd_new) →
  Node.id nd_new = S N →
  h' !! sp = Some (OSpan s_new) →
  BeamSpan.id s_new = S N →
  is_Some (Beam.nodes b !! N) →
  BeamSpan.start_node s_new = Beam.nodes b !! N →
  BeamSpan.end_node s_new = Some en →
  topology h' beam B' (S N).
Proof.
  intros HN Hspans Hnodes Hnd Hsp HB' Hn' Hs' Hkeepn Hkeeps Hen Hid Hspn Hsid
    Hst_some Hst Hend.
  split; [done |].
  rewrite Hn', Hs', !length_app, Hspans, Hnodes. simpl.
  split; [lia |]. split; [lia |]. split.
  - intros k nl Hk. apply lookup_app_Some in Hk as [Hk | [Hge Hk]].
    + destruct (Hnd _ _ Hk) as (nd0 & Hl & Hid0).
      destruct (Hkeepn _ _ Hl) as (nd' & Hl' & Hid').
      exists nd'. split; [done | congruence].
    + rewrite Hnodes in Hge, Hk.
      destruct (k - S N) as [| j] eqn:Hj; [| by destruct j].
      injection Hk as <-. exists nd_new. split; [done |]. lia.
  - intros i sl Hi. apply lookup_app_Some in Hi as [Hi | [Hge Hi]].
    + destruct (Hsp _ _ Hi) as (s & Hl & Hsid0 & Hsome & Hs0 & He0).
      apply lookup_lt_Some in Hi as Hlt. rewrite Hspans in Hlt.
      exists s. split; [by apply Hkeeps |]. split; [done |]. split; [done |].
      rewrite !lookup_app_l by lia. done.
    + rewrite Hspans in Hge, Hi.
      destruct (i - N) as [| j] eqn:Hj; [| by destruct j].
      injection Hi as <-. assert (i = N) as -> by lia.
      exists s_new. split; [done |]. split; [done |].
      rewrite Hst, Hend. split; [done |].
      rewrite lookup_app_l by lia. split; [done |].
      symmetry. by apply list_lookup_middle.
Qed.

Lemma add_span_topology h beam b N c :
  topology h beam b N →
  wp (add_span_call beam c) h
    (returns (λ sl h', ∃ b', topology h' beam b' (S N) ∧
                             Beam.spans b' = Beam.spans b ++ [sl])).
Proof.
  intros (Hb & Hspans & Hnodes & Hnd & Hsp).
  assert (Hlt : beam < length h) by (by eapply lookup_lt_Some).
  unfold add_span_call, add_span.
  wp_step. wp_step. wp_step.
  simpl Beam.nodes.
  destruct (last (Beam.nodes b)) as [ln |] eqn:Hlast.
  - assert (HN : N ≠ 0) by (intros ->; by destruct (Beam.nodes b)).
    destruct N as [| N']; [done |].
    assert (Hln : Beam.nodes b !! S N' = Some ln).
    { rewrite last_lookup, Hnodes in Hlast. done. }
    destruct (Hnd _ _ Hln) as (nd & Hnd_ln & Hid_ln).
    assert (Hne : ln ≠ beam) by congruence.
    assert (Hln_lt : ln < length h) by (by eapply lookup_lt_Some).
    destruct (decide (c_start_support c = FIXED)) as [Hfix | Hfix].
    + cbn iota. repeat wp_step. cbn beta iota.
      eexists. split; [| shelve].
      eapply topology_snoc with (h := h) (b := b) (en := length h)
        (sp := length h + 1);
        [ lia | exact Hspans | exact Hnodes | exact Hnd | exact Hsp
        | heap_lookup | reflexivity | reflexivity | | | heap_lookup
        | cbn; lia | heap_lookup | cbn; lia | by rewrite Hln
        | cbn; by rewrite Hln | reflexivity ].
      * intros l nd0 Hl. apply lookup_lt_Some in Hl as Hllt.
        destruct (decide (l = ln)) as [-> | Hlne].
        -- eexists. split; [heap_lookup |]. simplify_eq. done.
        -- exists nd0. split; [| done]. heap_lookup.
      * intros l s Hl. apply lookup_lt_Some in Hl as Hllt.
        heap_lookup.
      Unshelve. reflexivity.
    + cbn iota. repeat wp_step. cbn beta iota.
      eexists. split; [| shelve].
      eapply topology_snoc with (h := h) (b := b) (en := length h)
        (sp := length h + 1);
        [ lia | exact Hspans | exact Hnodes | exact Hnd | exact Hsp
        | heap_lookup | reflexivity | reflexivity | | | heap_lookup
        | cbn; lia | heap_lookup | cbn; lia | by rewrite Hln
        | cbn; by rewrite Hln | reflexivity ].
      * intros l nd0 Hl. apply lookup_lt_Some in Hl as Hllt.
        exists nd0. split; [| done]. heap_lookup.
      * intros l s Hl. apply lookup_lt_Some in Hl as Hllt.
        heap_lookup.
      Unshelve. reflexivity.
  - apply last_None in Hlast.
    assert (N = 0) as -> by (destruct N; [done | by rewrite Hlast in Hnodes]).
    apply nil_length_inv in Hspans.
    repeat wp_step. cbn beta iota.
    eexists. split; [| shelve].
    split; [heap_lookup |].
    cbn. rewrite Hlast, Hspans. cbn.
    split; [done |]. split; [done |]. split.
    + intros [| [| k]] nl Hk; simplify_eq/=.
      * eexists. split; [heap_lookup |]. done.
      * eexists. split; [heap_lookup |]. done.
    + intros [| i] sl Hi; simplify_eq/=.
      eexists. split; [heap_lookup |]. cbn. eauto.
      Unshelve. cbn. by rewrite Hspans.
Qed.

Lemma add_spans_topology beam calls : ∀ h b N,
  topology h beam b N →
  wp (map_M (add_span_call beam) calls) h
    (returns (λ sls h', ∃ b', topology h' beam b' (N + length calls) ∧
                              Beam.spans b' = Beam.spans b ++ sls)).
Proof.
  induction calls as [| c calls IH]; intros h b N Htop; simpl.
  - apply wp_ret. simpl. exists b.
    rewrite Nat.add_0_r, app_nil_r. done.
  - apply wp_bind.
    eapply wp_mono; [by apply add_span_topology |].
    intros [sl | e] h1; simpl; [| done].
    intros (b1 & Htop1 & Hsp1).
    apply wp_bind.
    eapply wp_mono; [by apply IH |].
    intros [sls | e] h2; simpl; [| done].
    intros (b2 & Htop2 & Hsp2).
    apply wp_ret. simpl. exists b2.
    replace (N + S (length calls)) with (S N + length calls) by lia.
    split; [done |]. rewrite Hsp2, Hsp1, <- app_assoc. done.
Qed.

(** What a reader of a span sees as the restraint flags of its start and
    end node. *)
Definition start_flags (h : heap) (span : loc) : option (list bool) :=
  match h !! span with
  | Some (OSpan s) => node_flags h (BeamSpan.start_node s)
  | _ => None
  end.

Definition end_flags (h : heap) (span : loc) : option (list bool) :=
  match h !! span with
  | Some (OSpan s) => node_flags h (BeamSpan.end_node s)
  | _ => None
  end.

(** C9. A beam built by one or more calls of [add_span] on a new [Beam]
    has, for its N spans, exactly N + 1 nodes whose ids are 0..N, and
    consecutive spans share their junction node: for 1 <= i < N the start
    node of span i and the end node of span i - 1 are the same object
    (node i of the beam), so that assigning restraint flags to that node
    is seen through both spans. *)
Theorem add_span_shares_junction_nodes (h0 : heap) (id : string)
    (c0 : span_call) (cs : list span_call) :
  ∃ beam h b,
    build_beam id (c0 :: cs) h0 = (Ok (beam, Beam.spans b), h) ∧
    h !! beam = Some (OBeam b) ∧
    let N := S (length cs) in
    length (Beam.spans b) = N ∧
    length (Beam.nodes b) = S N ∧
    (∀ k, k ≤ N → ∃ nl nd,
       Beam.nodes b !! k = Some nl ∧ h !! nl = Some (ONode nd) ∧
       Node.id nd = k) ∧
    (∀ i, 1 ≤ i < N → ∃ sl_prev sl s_prev s j,
       Beam.spans b !! (i - 1) = Some sl_prev ∧
       Beam.spans b !! i = Some sl ∧
       h !! sl_prev = Some (OSpan s_prev) ∧
       h !! sl = Some (OSpan s) ∧
       Beam.nodes b !! i = Some j ∧
       BeamSpan.end_node s_prev = Some j ∧
       BeamSpan.start_node s = Some j ∧
       ∀ flags, ∃ h',
         set_flags j flags h = (Ok tt, h') ∧
         end_flags h' sl_prev = Some flags ∧
         start_flags h' sl = Some flags).
Proof.
  pose proof (add_spans_topology (length h0) (c0 :: cs) _ _ _
                (topology_new h0 id)) as Hwp.
  apply wp_run in Hwp as (r & h & Hrun & Hpost).
  destruct r as [sls | e]; [| done].
  destruct Hpost as (b & (Hb & Hspans & Hnodes & Hnd & Hsp) & Hsls).
  simpl in Hsls. subst sls.
  exists (length h0), h, b. split.
  { unfold build_beam, mbind, M_bind. simpl alloc.
    unfold alloc. rewrite Hrun. done. }
  split; [done |]. simpl in Hspans, Hnodes |- *.
  split; [done |]. split; [done |]. split.
  - intros k Hk.
    destruct (lookup_lt_is_Some_2 (Beam.nodes b) k) as [nl Hnl]; [lia |].
    destruct (Hnd _ _ Hnl) as (nd & ? & ?). eauto.
  - intros i Hi.
    destruct (lookup_lt_is_Some_2 (Beam.spans b) (i - 1)) as [slp Hslp]; [lia |].
    destruct (lookup_lt_is_Some_2 (Beam.spans b) i) as [sl Hsl]; [lia |].
    destruct (lookup_lt_is_Some_2 (Beam.nodes b) i) as [j Hj]; [lia |].
    destruct (Hsp _ _ Hslp) as (sp & Hhp & _ & _ & _ & Hend).
    destruct (Hsp _ _ Hsl) as (s & Hhs & _ & _ & Hstart & _).
    replace (S (i - 1)) with i in Hend by lia.
    rewrite Hj in Hend, Hstart.
    destruct (Hnd _ _ Hj) as (nd & Hhj & _).
    exists slp, sl, sp, s, j. repeat (split; [done |]).
    intros flags.
    assert (Hjlt : j < length h) by (by eapply lookup_lt_Some).
    assert (slp ≠ j) by congruence.
    assert (sl ≠ j) by congruence.
    eexists. split.
    { unfold set_flags, update_node, read_node, mbind, M_bind, deref.
      rewrite Hhj. reflexivity. }
    unfold end_flags, start_flags, node_flags.
    rewrite !list_lookup_insert_ne by done.
    rewrite Hhp, Hhs, Hend, Hstart. simpl.
    rewrite list_lookup_insert_eq by done. done.
Qed.

End Topology.

(** ** Crack-width computation *)

Local Open Scope R_scope.

Section Cracking.

Import ELSCheckerEngine.

(** The positive root of [(b/2) x^2 + B x - B d = 0] lies strictly
    between 0 and d. *)
Lemma stage_II_root (b B d : R) :
  0 < b → 0 < B → 0 < d →
  let delta := B ^ 2 - 4 * (b / 2) * (- B * d) in
  0 < delta ∧
  0 < (- B + sqrt delta) / (2 * (b / 2)) < d.
Proof.
  intros Hb HB Hd delta.
  assert (Hbd : 0 < b * d) by (apply Rmult_lt_0_compat; lra).
  assert (HBbd : 0 < B * (b * d)) by (apply Rmult_lt_0_compat; lra).
  assert (Hdelta : delta = B ^ 2 + 2 * (B * (b * d))) by (unfold delta; nra).
  assert (Hpos : 0 < delta) by (rewrite Hdelta; nra).
  split; [exact Hpos |].
  pose proof (sqrt_pos delta) as Hs0.
  pose proof (sqrt_sqrt delta (Rlt_le _ _ Hpos)) as Hss.
  set (s := sqrt delta) in *.
  assert (HsB : B < s) by nra.
  assert (Hsd : s < B + b * d) by nra.
  assert (Hden : 2 * (b / 2) = b) by lra.
  rewrite Hden. split.
  - apply Rdiv_lt_0_compat; lra.
  - apply Rmult_lt_reg_r with b; [lra |].
    unfold Rdiv. rewrite Rmult_assoc, Rinv_l by lra. lra.
Qed.

Lemma fctm_pos (fck : R) : 0 < fck → 0 < 0.3 * Rpower fck (2 / 3) / 10.
Proof.
  intros H. pose proof (exp_pos (2 / 3 * ln fck)) as He.
  unfold Rpower. lra.
Qed.

(** Under the same conditions the computation returns, and its steel
    stress and crack width are the code's expressions in x_II and I_II. *)
Lemma crack_width_shape (h b fck As_adopt Md_max : R) :
  0 < b → 0 < h - 4 → 0.001 < As_adopt → 0 < fck →
  ∃ c, crack_width h b fck As_adopt Md_max = Ok c ∧
    0 < cc_delta c ∧
    0 < cc_x_II c < h - 4 ∧
    0 < cc_I_II c ∧
    cc_sigma_s c =
      10 * (Md_max / 1.4 * 100 * (h - 4 - cc_x_II c) / cc_I_II c) ∧
    ∃ phi, 0 < phi ∧
      cc_wk_mm c =
        phi / (12.5 * 2.25) * (cc_sigma_s c / 21000) *
        Py.max (0.6 * cc_sigma_s c / (0.3 * Rpower fck (2 / 3) / 10))
               (3 * cc_sigma_s c / (0.3 * Rpower fck (2 / 3) / 10)) * 10.
Proof.
  intros Hb Hd HAs Hfck.
  assert (HB : 0 < 10 * As_adopt) by lra.
  destruct (stage_II_root b (10 * As_adopt) (h - 4) Hb HB Hd) as [Hdelta Hx].
  unfold crack_width.
  replace (- (10) * As_adopt * (h - 4)) with (- (10 * As_adopt) * (h - 4)) by lra.
  set (delta := (10 * As_adopt) ^ 2 - 4 * (b / 2) * (- (10 * As_adopt) * (h - 4))) in *.
  rewrite sqrt_ok by lra. cbn.
  rewrite div_ok by lra. cbn.
  set (x := (- (10 * As_adopt) + sqrt delta) / (2 * (b / 2))) in *.
  set (I_II := b * x ^ 3 / 3 + 10 * As_adopt * (h - 4 - x) ^ 2).
  assert (HI : 0 < I_II).
  { unfold I_II.
    assert (0 < x ^ 3) by (apply pow_lt; lra).
    assert (0 <= (h - 4 - x) ^ 2) by (apply pow2_ge_0).
    assert (0 < b * x ^ 3) by (apply Rmult_lt_0_compat; lra).
    assert (0 <= 10 * As_adopt * (h - 4 - x) ^ 2) by (apply Rmult_le_pos; lra).
    lra. }
  rewrite div_ok by lra. cbn.
  rewrite (pow_2_3_ok fck Hfck). cbn.
  pose proof (fctm_pos fck Hfck) as Hfctm.
  rewrite !div_ok by lra. cbn.
  eexists. split; [reflexivity |]. cbn.
  split; [exact Hdelta |]. split; [exact Hx |]. split; [exact HI |].
  split; [reflexivity |].
  eexists. split; [| reflexivity].
  destruct (Py.gtb As_adopt 10), (Py.gtb As_adopt 5); lra.
Qed.

(** With fck = 0 the tensile strength fctm is 0 and the division by it
    raises, whatever the section, the steel area and the moment are. *)
Lemma crack_width_fck_zero (h b As_adopt Md_max : R) :
  0 < b → 0 < h - 4 → 0.001 < As_adopt →
  ∃ e, crack_width h b 0 As_adopt Md_max = Raise e ∧
       exn_cls e = ZeroDivisionError.
Proof.
  intros Hb Hd HAs.
  assert (HB : 0 < 10 * As_adopt) by lra.
  destruct (stage_II_root b (10 * As_adopt) (h - 4) Hb HB Hd) as [Hdelta Hx].
  unfold crack_width.
  replace (- (10) * As_adopt * (h - 4)) with (- (10 * As_adopt) * (h - 4)) by lra.
  set (delta := (10 * As_adopt) ^ 2 - 4 * (b / 2) * (- (10 * As_adopt) * (h - 4))) in *.
  rewrite sqrt_ok by lra. cbn.
  rewrite div_ok by lra. cbn.
  set (x := (- (10 * As_adopt) + sqrt delta) / (2 * (b / 2))) in *.
  set (I_II := b * x ^ 3 / 3 + 10 * As_adopt * (h - 4 - x) ^ 2).
  assert (HI : 0 < I_II).
  { unfold I_II.
    assert (0 < x ^ 3) by (apply pow_lt; lra).
    assert (0 <= (h - 4 - x) ^ 2) by (apply pow2_ge_0).
    assert (0 < b * x ^ 3) by (apply Rmult_lt_0_compat; lra).
    assert (0 <= 10 * As_adopt * (h - 4 - x) ^ 2) by (apply Rmult_le_pos; lra).
    lra. }
  rewrite div_ok by lra. cbn.
  unfold Py.pow_2_3.
  destruct (Rlt_dec 0 0) as [Hlt | _]; [lra |].
  destruct (Req_dec_T 0 0) as [_ | Hne]; [| lra]. cbn.
  replace (0.3 * 0 / 10) with 0 by lra.
  destruct (div_zero (0.6 * (10 * (Md_max / 1.4 * 100 * (h - 4 - x) / I_II))))
    as (e & -> & He).
  by exists e.
Qed.

(** C10 (amended). For a section with b > 0 and d = h - 4 > 0, a steel
    area As > 0.001 and a concrete strength fck > 0, the crack-width
    computation raises no exception: the discriminant of the Stage II
    quadratic is strictly positive, its root satisfies 0 < x_II < d, the
    cracked inertia is strictly positive, and for Md_max >= 0 the steel
    stress and the crack width are non-negative; each of them is strictly
    positive exactly when Md_max > 0, and zero when Md_max = 0. *)
Theorem crack_width_well_defined (h b fck As_adopt Md_max : R) :
  0 < b → 0 < h - 4 → 0.001 < As_adopt → 0 < fck → 0 <= Md_max →
  ∃ c, crack_width h b fck As_adopt Md_max = Ok c ∧
    0 < cc_delta c ∧
    0 < cc_x_II c < h - 4 ∧
    0 < cc_I_II c ∧
    0 <= cc_sigma_s c ∧ 0 <= cc_wk_mm c ∧
    (0 < cc_sigma_s c ↔ 0 < Md_max) ∧
    (0 < cc_wk_mm c ↔ 0 < Md_max).
Proof.
  intros Hb Hd HAs Hfck HMd.
  destruct (crack_width_shape h b fck As_adopt Md_max Hb Hd HAs Hfck)
    as (c & Hc & Hdelta & Hx & HI & Hsig_def & phi & Hphi & Hwk).
  exists c. split; [exact Hc |].
  split; [exact Hdelta |]. split; [exact Hx |]. split; [exact HI |].
  pose proof (fctm_pos fck Hfck) as Hfctm.
  set (fctm := 0.3 * Rpower fck (2 / 3) / 10) in *.
  set (x := cc_x_II c) in *. set (I_II := cc_I_II c) in *.
  set (sigma := cc_sigma_s c) in *.
  set (M_serv := Md_max / 1.4 * 100) in *.
  assert (HM : 0 <= M_serv) by (unfold M_serv; lra).
  assert (Hsig_eq : sigma = 10 * M_serv * (h - 4 - x) * / I_II)
    by (rewrite Hsig_def; field; lra).
  assert (HinvI : 0 < / I_II) by (by apply Rinv_0_lt_compat).
  assert (Hdx : 0 < h - 4 - x) by lra.
  assert (Hsig : 0 <= sigma).
  { rewrite Hsig_eq. apply Rmult_le_pos; [| lra].
    apply Rmult_le_pos; lra. }
  assert (Ht1 : 0 < phi / (12.5 * 2.25)) by (apply Rdiv_lt_0_compat; lra).
  assert (Hinvf : 0 < / fctm) by (by apply Rinv_0_lt_compat).
  set (t3 := Py.max (0.6 * sigma / fctm) (3 * sigma / fctm)) in *.
  assert (Ht3 : 3 * sigma / fctm <= t3) by apply max_ge_r.
  assert (Ht3' : 0 <= 3 * sigma / fctm).
  { unfold Rdiv. apply Rmult_le_pos; lra. }
  assert (Ht2 : 0 <= sigma / 21000) by lra.
  assert (Hwk0 : 0 <= cc_wk_mm c).
  { rewrite Hwk. apply Rmult_le_pos; [| lra].
    apply Rmult_le_pos; [| lra].
    apply Rmult_le_pos; lra. }
  assert (Hpos : 0 < Md_max → 0 < sigma ∧ 0 < cc_wk_mm c).
  { intros HMd_pos.
    assert (HM_pos : 0 < M_serv) by (unfold M_serv; lra).
    assert (Hsig_pos : 0 < sigma).
    { rewrite Hsig_eq. apply Rmult_lt_0_compat; [| lra].
      apply Rmult_lt_0_compat; [| lra]. lra. }
    split; [exact Hsig_pos |]. rewrite Hwk.
    assert (0 < 3 * sigma / fctm).
    { unfold Rdiv. apply Rmult_lt_0_compat; lra. }
    apply Rmult_lt_0_compat; [| lra].
    apply Rmult_lt_0_compat; [| lra].
    apply Rmult_lt_0_compat; lra. }
  assert (Hzero : Md_max = 0 → sigma = 0 ∧ cc_wk_mm c = 0).
  { intros HMd0.
    assert (HM0 : M_serv = 0) by (unfold M_serv; lra).
    assert (Hs0 : sigma = 0) by (rewrite Hsig_eq, HM0; lra).
    split; [exact Hs0 |]. rewrite Hwk.
    replace (sigma / 21000) with 0 by lra. lra. }
  split; [exact Hsig |]. split; [exact Hwk0 |].
  split; (split; [| intros Hlt; by apply Hpos in Hlt as [? ?]]); intros Hp;
    (destruct (Rle_lt_or_eq_dec 0 Md_max HMd) as [Hlt | Heq]; [done |]);
    symmetry in Heq; apply Hzero in Heq as [Hs0 Hw0]; lra.
Qed.

Lemma crack_width_well_defined_witness :
  ∃ c, crack_width 50 20 30 5 94.5 = Ok c ∧
    0 < cc_delta c ∧
    0 < cc_x_II c < 50 - 4 ∧
    0 < cc_I_II c ∧
    0 <= cc_sigma_s c ∧ 0 <= cc_wk_mm c ∧
    (0 < cc_sigma_s c ↔ 0 < 94.5) ∧
    (0 < cc_wk_mm c ↔ 0 < 94.5).
Proof. apply (crack_width_well_defined 50 20 30 5 94.5); lra. Defined.

(** Two inputs within the conditions of the claim.  An unloaded span
    (Md_max = 0) designed with the minimum reinforcement of a 20x50
    section: the steel stress and the crack width are zero, not positive.
    And the same section with 5 cm2 of steel under Md_max = 94.5 but a
    material with fck = 0: the computation divides by fctm = 0 and raises
    ZeroDivisionError. *)
Lemma crack_width_unloaded_counterexample :
  (0 < 20 ∧ 0 < 50 - 4 ∧ 0.001 < 1.5 ∧
   ∃ c, crack_width 50 20 30 1.5 0 = Ok c ∧
        ¬ (0 < cc_sigma_s c) ∧ ¬ (0 < cc_wk_mm c)) ∧
  (0 < 20 ∧ 0 < 50 - 4 ∧ 0.001 < 5 ∧
   ∃ e, crack_width 50 20 0 5 94.5 = Raise e ∧
        exn_cls e = ZeroDivisionError).
Proof.
  split.
  - split; [lra |]. split; [lra |]. split; [lra |].
    destruct (crack_width_shape 50 20 30 1.5 0)
      as (c & Hc & _ & _ & HI & Hsig & phi & _ & Hwk); try lra.
    exists c. split; [exact Hc |].
    assert (Hs0 : cc_sigma_s c = 0).
    { rewrite Hsig. unfold Rdiv. rewrite !Rmult_0_l. lra. }
    split; [lra |].
    rewrite Hwk, Hs0.
    replace (0.6 * 0 / (0.3 * Rpower 30 (2 / 3) / 10)) with 0
      by (unfold Rdiv; rewrite Rmult_0_r, Rmult_0_l; reflexivity).
    replace (3 * 0 / (0.3 * Rpower 30 (2 / 3) / 10)) with 0
      by (unfold Rdiv; rewrite Rmult_0_r, Rmult_0_l; reflexivity).
    rewrite max_l by lra. lra.
  - split; [lra |]. split; [lra |]. split; [lra |].
    apply crack_width_fck_zero; lra.
Qed.

End Cracking.

(** ** Selection of longitudinal bars *)

Section BarSelection.

Import BarSelectorEngine.

Variables as_req bw_cm cover_mm fck_mpa : R.
Variable bond_good : bool.

(** A diameter fits when its bar count, with the minimum clear spacing,
    is not wider than the available width. *)
Definition fits (phi : R) : Prop :=
  space_required (bar_count as_req phi) phi <= width_available bw_cm cover_mm.

(** Area provided beyond the required area. *)
Definition excess (phi : R) : R :=
  IZR (bar_count as_req phi) * area_bar phi - as_req.

(** The option built for a diameter. *)
Definition option_for (phi : R) (o : BarOption.t) : Prop :=
  BarOption.status o = status_ok ∧
  BarOption.diameter_mm o = phi ∧
  BarOption.count o = bar_count as_req phi ∧
  BarOption.area_provided_cm2 o = IZR (bar_count as_req phi) * area_bar phi.

(** Loop invariant after the diameters [seen] have been tried. *)
Definition sel_inv (seen : list R) (st : sel_state) : Prop :=
  match st with
  | (None, None) => ∀ phi, phi ∈ seen → ¬ fits phi
  | (Some o, Some m) =>
      ∃ phi, phi ∈ seen ∧ fits phi ∧ option_for phi o ∧ m = excess phi ∧
             ∀ phi', phi' ∈ seen → fits phi' → m <= excess phi'
  | _ => False
  end.

Hypothesis Hfck : 0 < fck_mpa.

Lemma calc_anchorage_ok (phi : R) :
  ∃ lb, calc_anchorage phi fck_mpa bond_good = Ok lb.
Proof using Hfck.
  unfold calc_anchorage.
  rewrite (pow_2_3_ok _ Hfck). cbn.
  pose proof (exp_pos (2 / 3 * ln fck_mpa)) as He.
  rewrite div_ok; [cbn; eauto |].
  unfold Rpower. destruct bond_good; nra.
Qed.

Lemma select_step_inv (seen : list R) (st : sel_state) (phi : R) :
  sel_inv seen st →
  ∃ st', select_step as_req bw_cm cover_mm fck_mpa bond_good st phi = Ok st' ∧
         sel_inv (seen ++ [phi]) st'.
Proof using Hfck.
  intros Hinv. unfold select_step.
  destruct (Rle_dec (space_required (bar_count as_req phi) phi)
              (width_available bw_cm cover_mm)) as [Hfit | Hnofit].
  - rewrite leb_true by exact Hfit.
    destruct st as [[o |] [m |]]; simpl in Hinv; try contradiction; simpl.
    + destruct Hinv as (phi0 & Hin & Hfit0 & Hopt & Hm & Hmin).
      destruct (Rlt_dec (excess phi) m) as [Hlt | Hge].
      * rewrite ltb_true by exact Hlt.
        destruct (calc_anchorage_ok phi) as [lb ->]. cbn.
        eexists. split; [reflexivity |]. simpl.
        exists phi. split; [set_solver |]. split; [exact Hfit |].
        split; [done |]. split; [done |].
        intros phi' Hin' Hfit'.
        apply elem_of_app in Hin' as [Hin' | Hin'].
        -- specialize (Hmin _ Hin' Hfit'). fold (excess phi). lra.
        -- apply list_elem_of_singleton in Hin' as ->. fold (excess phi). lra.
      * rewrite ltb_false by (fold (excess phi); lra).
        eexists. split; [reflexivity |]. simpl.
        exists phi0. split; [set_solver |]. split; [exact Hfit0 |].
        split; [done |]. split; [done |].
        intros phi' Hin' Hfit'.
        apply elem_of_app in Hin' as [Hin' | Hin'].
        -- by apply Hmin.
        -- apply list_elem_of_singleton in Hin' as ->. lra.
    + destruct (calc_anchorage_ok phi) as [lb ->]. cbn.
      eexists. split; [reflexivity |]. simpl.
      exists phi. split; [set_solver |]. split; [exact Hfit |].
      split; [done |]. split; [done |].
      intros phi' Hin' Hfit'.
      apply elem_of_app in Hin' as [Hin' | Hin'].
      -- by destruct (Hinv _ Hin').
      -- apply list_elem_of_singleton in Hin' as ->. fold (excess phi). lra.
  - rewrite leb_false by lra.
    eexists. split; [reflexivity |].
    destruct st as [[o |] [m |]]; simpl in Hinv |- *; try contradiction.
    + destruct Hinv as (phi0 & Hin & Hfit0 & Hopt & Hm & Hmin).
      exists phi0. split; [set_solver |]. split; [exact Hfit0 |].
      split; [done |]. split; [done |].
      intros phi' Hin' Hfit'.
      apply elem_of_app in Hin' as [Hin' | Hin'].
      -- by apply Hmin.
      -- apply list_elem_of_singleton in Hin' as ->. contradiction.
    + intros phi' Hin'.
      apply elem_of_app in Hin' as [Hin' | Hin'].
      -- by apply Hinv.
      -- apply list_elem_of_singleton in Hin' as ->. exact Hnofit.
Qed.

Lemma select_loop_inv (bars : list R) : ∀ (seen : list R) (st : sel_state),
  sel_inv seen st →
  ∃ st', select_loop as_req bw_cm cover_mm fck_mpa bond_good bars st = Ok st' ∧
         sel_inv (seen ++ bars) st'.
Proof using Hfck.
  induction bars as [| phi bars IH]; intros seen st Hinv; simpl.
  - exists st. rewrite app_nil_r. done.
  - destruct (select_step_inv seen st phi Hinv) as (st1 & -> & Hinv1). cbn.
    destruct (IH _ _ Hinv1) as (st2 & -> & Hinv2).
    exists st2. split; [done |]. by rewrite <- app_assoc in Hinv2.
Qed.

End BarSelection.

Section BarSelectionResult.

Import BarSelectorEngine.

Lemma area_bar_pos (phi : R) : 0 < phi → 0 < area_bar phi.
Proof.
  intros H. unfold area_bar, Py.pi.
  apply Rmult_lt_0_compat; [apply PI_RGT_0 |].
  apply pow_lt. lra.
Qed.

Lemma longitudinal_bars_pos (phi : R) : phi ∈ longitudinal_bars → 0 < phi.
Proof.
  unfold longitudinal_bars. rewrite !elem_of_cons, elem_of_nil.
  intros [-> | [-> | [-> | [-> | [-> | [-> | []]]]]]]; lra.
Qed.

Lemma bar_count_ge_2 (as_req phi : R) : (2 <= bar_count as_req phi)%Z.
Proof.
  unfold bar_count.
  destruct (Z.ltb_spec (Py.ceil (as_req / area_bar phi)) 2); lia.
Qed.

Lemma bar_count_covers (as_req phi : R) :
  0 < phi → as_req <= IZR (bar_count as_req phi) * area_bar phi.
Proof.
  intros Hphi. pose proof (area_bar_pos phi Hphi) as Ha.
  assert (Hc : as_req / area_bar phi <= IZR (bar_count as_req phi)).
  { unfold bar_count, Py.ceil.
    pose proof (Zceil_bound (as_req / area_bar phi)) as [_ Hub].
    destruct (Z.ltb_spec (Zceil (as_req / area_bar phi)) 2) as [Hlt | Hge];
      [| exact Hub].
    apply Rle_trans with (IZR (Zceil (as_req / area_bar phi))); [exact Hub |].
    apply IZR_le. lia. }
  apply Rmult_le_compat_r with (r := area_bar phi) in Hc; [| lra].
  unfold Rdiv in Hc. rewrite Rmult_assoc, Rinv_l in Hc by lra. lra.
Qed.

(** C8. For a required area as_req > 0.01 (and fck > 0, which the
    anchorage formula divides by), [select_longitudinal] returns a result.
    If some catalogue diameter fits the available width with its bar count
    (the smallest count >= 2 that covers as_req), the result has status OK,
    is one of the fitting catalogue diameters with that bar count, provides
    at least as_req, and no fitting catalogue diameter has less excess
    area.  If no catalogue diameter fits, the result is the explicit
    does-not-fit failure. *)
Theorem select_longitudinal_optimal (as_req bw_cm cover_mm fck_mpa : R)
    (is_top : bool) :
  0.01 < as_req → 0 < fck_mpa →
  ∃ o, select_longitudinal as_req bw_cm cover_mm is_top fck_mpa = Ok o ∧
    ((∃ phi, phi ∈ longitudinal_bars ∧ fits as_req bw_cm cover_mm phi) →
       BarOption.status o = "OK" ∧
       BarOption.diameter_mm o ∈ longitudinal_bars ∧
       BarOption.count o = bar_count as_req (BarOption.diameter_mm o) ∧
       (2 <= BarOption.count o)%Z ∧
       fits as_req bw_cm cover_mm (BarOption.diameter_mm o) ∧
       BarOption.area_provided_cm2 o =
         IZR (BarOption.count o) * area_bar (BarOption.diameter_mm o) ∧
       as_req <= BarOption.area_provided_cm2 o ∧
       ∀ phi, phi ∈ longitudinal_bars → fits as_req bw_cm cover_mm phi →
         BarOption.area_provided_cm2 o - as_req <= excess as_req phi) ∧
    ((∀ phi, phi ∈ longitudinal_bars → ¬ fits as_req bw_cm cover_mm phi) →
       BarOption.status o = status_nao_cabe ∧
       BarOption.count o = 0%Z ∧
       BarOption.area_provided_cm2 o = 0).
Proof.
  intros Has Hfck. unfold select_longitudinal.
  rewrite leb_false by lra.
  destruct (select_loop_inv as_req bw_cm cover_mm fck_mpa (negb is_top) Hfck
              longitudinal_bars [] (None, None)) as (st & -> & Hinv).
  { simpl. intros phi Hin. by apply elem_of_nil in Hin. }
  cbn. rewrite app_nil_l in Hinv.
  destruct st as [[o |] [m |]]; simpl in Hinv; try contradiction; simpl.
  - destruct Hinv as (phi0 & Hin & Hfit0 & (Hst & Hdia & Hcnt & Harea) & Hm & Hmin).
    exists o. split; [done |]. split.
    + intros _. rewrite Hdia, Hcnt, Harea.
      split; [done |]. split; [done |]. split; [done |].
      split; [apply bar_count_ge_2 |]. split; [done |]. split; [done |].
      split; [apply bar_count_covers, longitudinal_bars_pos, Hin |].
      intros phi Hphi Hfit. specialize (Hmin _ Hphi Hfit).
      unfold excess in Hm. lra.
    + intros Hnone. by destruct (Hnone _ Hin).
  - eexists. split; [reflexivity |]. split.
    + intros (phi & Hin & Hfit). by destruct (Hinv _ Hin).
    + intros _. done.
Qed.

Lemma select_longitudinal_optimal_witness :
  ∃ o, select_longitudinal 5 20 25 false 25 = Ok o ∧
    ((∃ phi, phi ∈ longitudinal_bars ∧ fits 5 20 25 phi) →
       BarOption.status o = "OK" ∧
       BarOption.diameter_mm o ∈ longitudinal_bars ∧
       BarOption.count o = bar_count 5 (BarOption.diameter_mm o) ∧
       (2 <= BarOption.count o)%Z ∧
       fits 5 20 25 (BarOption.diameter_mm o) ∧
       BarOption.area_provided_cm2 o =
         IZR (BarOption.count o) * area_bar (BarOption.diameter_mm o) ∧
       5 <= BarOption.area_provided_cm2 o ∧
       ∀ phi, phi ∈ longitudinal_bars → fits 5 20 25 phi →
         BarOption.area_provided_cm2 o - 5 <= excess 5 phi) ∧
    ((∀ phi, phi ∈ longitudinal_bars → ¬ fits 5 20 25 phi) →
       BarOption.status o = status_nao_cabe ∧
       BarOption.count o = 0%Z ∧
       BarOption.area_provided_cm2 o = 0).
Proof. apply (select_longitudinal_optimal 5 20 25 25 false); lra. Defined.

End BarSelectionResult.

(** ** run_design on the object store *)

Section RunDesign.

Import ELUDesignEngine.

Implicit Types (h : heap).

Lemma wp_of_run {A} (m : M A) h r h' Q : m h = (r, h') → Q r h' → wp m h Q.
Proof. unfold wp. intros ->. done. Qed.

(** Every reference in [ls] is a Load object. *)
Definition loads_at h (ls : list loc) : Prop :=
  Forall (λ l, ∃ ld, h !! l = Some (OLoad ld)) ls.

Lemma read_loads_ok h ls :
  loads_at h ls → ∃ lds, map_M read_load ls h = (Ok lds, h).
Proof.
  intros Hls.
  assert (Hwp : wp (map_M read_load ls) h (λ r h', ∃ lds, r = Ok lds ∧ h' = h)).
  { induction Hls as [| l ls [ld Hl] _ IH]; simpl.
    - apply wp_ret. eauto.
    - apply wp_bind. eapply wp_read_load; [exact Hl |].
      apply wp_bind. eapply wp_mono; [exact IH |].
      intros r h' (lds & -> & ->). apply wp_ret. eauto. }
  apply wp_run in Hwp as (r & h' & Hrun & lds & -> & ->). eauto.
Qed.

(** A span whose section, material and loads are in place, with a
    positive width, a height above the 4 cm allowance and positive
    strengths. *)
Definition span_ready h (span : loc) : Prop :=
  ∃ s sec mat,
    h !! span = Some (OSpan s) ∧
    h !! BeamSpan.section s = Some (OSection sec) ∧
    h !! BeamSpan.material s = Some (OMaterial mat) ∧
    loads_at h (BeamSpan.loads s) ∧
    0 < CrossSection.bw sec ∧ 4 < CrossSection.h sec ∧
    0 < Material.fck mat ∧ 0 < Material.fyk mat.

(** A span that carries design results respecting the minimum
    reinforcement of its section. *)
Definition designed (self : t) h (span : loc) : Prop :=
  ∃ s sec res,
    h !! span = Some (OSpan s) ∧
    h !! BeamSpan.section s = Some (OSection sec) ∧
    BeamSpan.design_results s = Some res ∧
    respects_minimum self s sec res.

(** The effect of designing one span: only its result dictionary changes. *)
Definition design_update (self : t) h (span : loc) (h' : heap) : Prop :=
  ∃ s sec res,
    h !! span = Some (OSpan s) ∧
    h !! BeamSpan.section s = Some (OSection sec) ∧
    respects_minimum self s sec res ∧
    h' = <[span := OSpan (BeamSpan.set_design_results s (Some res))]> h.

(** What the loop body does to a span: the dictionary of
    [_design_flexure], extended by the three entries of [_design_shear]. *)
Definition design_effect (self : t) h (span : loc) (h' : heap) : Prop :=
  ∃ s sec mat lds res0 V_sd Asw_s_req status_biela,
    h !! span = Some (OSpan s) ∧
    h !! BeamSpan.section s = Some (OSection sec) ∧
    h !! BeamSpan.material s = Some (OMaterial mat) ∧
    map_M read_load (BeamSpan.loads s) h = (Ok lds, h) ∧
    flexure_results self s sec mat lds = Ok res0 ∧
    h' = <[span := OSpan (BeamSpan.set_design_results s
              (Some (<["Status_Biela" := VStr status_biela]>
                    (<["Asw_s_req" := VFloat Asw_s_req]>
                    (<["V_sd" := VFloat V_sd]> res0)))))]> h.

Lemma design_effect_update self h span h' :
  design_effect self h span h' → design_update self h span h'.
Proof.
  intros (s & sec & mat & lds & res0 & V & A & st & Hs & Hsec & _ & _ & Hres & ->).
  exists s, sec. eexists. split; [done |]. split; [done |].
  split; [| reflexivity].
  destruct (flexure_results_minimum _ _ _ _ _ _ Hres)
    as (a1 & a2 & a3 & H1 & H2 & H3 & Hfl).
  exists a1, a2, a3. rewrite !lookup_insert_ne by done. done.
Qed.

Lemma design_update_other self h span h' l o :
  design_update self h span h' →
  h !! l = Some o → (∀ s, o ≠ OSpan s) → h' !! l = Some o.
Proof.
  intros (s & sec & res & Hs & _ & _ & ->) Hl Hno.
  rewrite list_lookup_insert_ne; [done |].
  intros ->. rewrite Hs in Hl. injection Hl as <-. by eapply Hno.
Qed.

Lemma design_update_span self h span h' l s :
  design_update self h span h' →
  h !! l = Some (OSpan s) →
  ∃ r, h' !! l = Some (OSpan (BeamSpan.set_design_results s r)) ∧
       (l ≠ span → r = BeamSpan.design_results s).
Proof.
  intros (s0 & sec & res & Hs & _ & _ & ->) Hl.
  destruct (decide (l = span)) as [-> | Hne].
  - exists (Some res). rewrite list_lookup_insert_eq by (by eapply lookup_lt_Some).
    rewrite Hs in Hl. injection Hl as ->. done.
  - exists (BeamSpan.design_results s).
    rewrite list_lookup_insert_ne by done. by destruct s.
Qed.

Lemma loads_at_update self h span h' ls :
  design_update self h span h' → loads_at h ls → loads_at h' ls.
Proof.
  intros Hup Hls. unfold loads_at.
  eapply Forall_impl; [exact Hls |].
  intros l [ld Hl]. exists ld.
  by eapply design_update_other.
Qed.

Lemma span_ready_update self h span h' l :
  design_update self h span h' → span_ready h l → span_ready h' l.
Proof.
  intros Hup (s & sec & mat & Hs & Hsec & Hmat & Hloads & Hpos).
  destruct (design_update_span _ _ _ _ _ _ Hup Hs) as (r & Hs' & _).
  exists (BeamSpan.set_design_results s r), sec, mat.
  split; [done |]. simpl.
  split; [by eapply design_update_other |].
  split; [by eapply design_update_other |].
  split; [by eapply loads_at_update |]. done.
Qed.

Lemma designed_update self h span h' l :
  design_update self h span h' → designed self h l → designed self h' l.
Proof.
  intros Hup (s & sec & res & Hs & Hsec & Hres & Hmin).
  destruct (decide (l = span)) as [-> | Hne].
  - destruct Hup as (s0 & sec0 & res0 & Hs0 & Hsec0 & Hmin0 & ->).
    exists (BeamSpan.set_design_results s0 (Some res0)), sec0, res0.
    split; [by rewrite list_lookup_insert_eq by (by eapply lookup_lt_Some) |].
    simpl. split; [| done].
    rewrite list_lookup_insert_ne; [done |].
    intros ->. congruence.
  - destruct (design_update_span _ _ _ _ _ _ Hup Hs) as (r & Hs' & Hr).
    rewrite (Hr Hne) in Hs'.
    exists (BeamSpan.set_design_results s (BeamSpan.design_results s)), sec, res.
    split; [done |]. simpl.
    split; [by eapply design_update_other |]. done.
Qed.

Lemma designed_here self h span h' :
  design_update self h span h' → designed self h' span.
Proof.
  intros (s0 & sec0 & res0 & Hs0 & Hsec0 & Hmin0 & ->).
  exists (BeamSpan.set_design_results s0 (Some res0)), sec0, res0.
  split; [by rewrite list_lookup_insert_eq by (by eapply lookup_lt_Some) |].
  simpl. split; [| done].
  rewrite list_lookup_insert_ne; [done |].
  intros ->. congruence.
Qed.

Variable self : t.
Hypothesis Hgamma_s : 0 < gamma_s self.
Hypothesis Hgamma_c : gamma_c self ≠ 0.

(** The body of the loop of [run_design] on a ready span. *)
Lemma design_span_spec h span :
  span_ready h span →
  wp (design_flexure self span ≫= λ _, design_shear self span) h
    (returns (λ _ h', design_effect self h span h')).
Proof using Hgamma_s Hgamma_c.
  intros (s & sec & mat & Hs & Hsec & Hmat & Hloads & Hbw & Hh & Hfck & Hfyk).
  assert (Hlt : (span < length h)%nat) by (by eapply lookup_lt_Some).
  destruct (read_loads_ok _ _ Hloads) as [lds Hlds].
  destruct (flexure_results_total self s sec mat lds Hgamma_s Hbw Hh Hfck Hfyk)
    as [res Hres].
  pose proof (flexure_results_minimum _ _ _ _ _ _ Hres) as Hmin.
  unfold design_flexure, design_shear.
  do 3 wp_step.
  apply wp_bind.
  eapply wp_of_run; [exact Hlds |]. cbn beta iota.
  rewrite Hres. wp_step. wp_head. cbn beta iota. heap_simpl.
  do 3 wp_step.
  destruct (shear_results_total self (BeamSpan.set_design_results s (Some res))
              sec mat Hgamma_c Hh Hfck) as [[[V_sd Asw] st] Hshear].
  apply wp_bind. rewrite Hshear. apply wp_lift. cbn.
  wp_step. wp_head. cbn. heap_simpl.
  exists s, sec, mat, lds, res, V_sd, Asw, st. done.
Qed.

Lemma run_design_loop (spans : list loc) : ∀ h (seen : list loc),
  Forall (span_ready h) spans →
  Forall (designed self h) seen →
  wp (for_each spans (λ span,
        design_flexure self span ≫= λ _, design_shear self span)) h
    (returns (λ _ h',
       Forall (designed self h') (seen ++ spans) ∧
       ∀ l o, h !! l = Some o → (∀ s, o ≠ OSpan s) → h' !! l = Some o)).
Proof using Hgamma_s Hgamma_c.
  induction spans as [| span spans IH]; intros h seen Hready Hseen; simpl.
  - apply wp_ret. simpl. rewrite app_nil_r. done.
  - apply Forall_cons in Hready as [Hr Hready].
    apply wp_bind.
    eapply wp_mono; [by apply design_span_spec |].
    intros [[] | e] h1; simpl; [| done].
    intros Hup%design_effect_update.
    eapply wp_mono.
    + apply (IH h1 (seen ++ [span])).
      * eapply Forall_impl; [exact Hready |].
        intros l. by apply span_ready_update with (self := self) (span := span).
      * apply Forall_app. split.
        -- eapply Forall_impl; [exact Hseen |].
           intros l. by apply designed_update with (span := span).
        -- apply Forall_singleton. by eapply designed_here.
    + intros [[] | e] h2; simpl; [| done].
      intros [Hall Hframe]. rewrite <- app_assoc in Hall. split; [done |].
      intros l o Hl Hno. apply Hframe; [| done].
      by eapply design_update_other.
Qed.

(** C6. On a beam whose spans have a section with positive width and a
    height above 4 cm, and a material with positive strengths,
    [run_design] returns and leaves on every span a result dictionary in
    which the midspan area As_inf_vao is at least 0.0015*b*h, and each
    support area (As_sup_esq, As_sup_dir) is at least 0.0015*b*h when its
    design moment magnitude exceeds 0.1 and is 0 otherwise. *)
Theorem run_design_minimum_reinforcement h (beam : loc) (b : Beam.t) :
  h !! beam = Some (OBeam b) →
  Forall (span_ready h) (Beam.spans b) →
  ∃ h', run_design self beam h = (Ok tt, h') ∧
    h' !! beam = Some (OBeam b) ∧
    ∀ span, span ∈ Beam.spans b →
      ∃ s sec res a_esq a_dir a_vao,
        h' !! span = Some (OSpan s) ∧
        h' !! BeamSpan.section s = Some (OSection sec) ∧
        BeamSpan.design_results s = Some res ∧
        res !! "As_sup_esq" = Some (VFloat a_esq) ∧
        res !! "As_sup_dir" = Some (VFloat a_dir) ∧
        res !! "As_inf_vao" = Some (VFloat a_vao) ∧
        let as_min := 0.0015 * CrossSection.bw sec * CrossSection.h sec in
        let Md_neg_esq := Py.abs (BeamSpan.moment_left s) * gamma_f self in
        let Md_neg_dir := Py.abs (BeamSpan.moment_right s) * gamma_f self in
        as_min <= a_vao ∧
        (0.1 < Md_neg_esq → as_min <= a_esq) ∧
        (Md_neg_esq <= 0.1 → a_esq = 0) ∧
        (0.1 < Md_neg_dir → as_min <= a_dir) ∧
        (Md_neg_dir <= 0.1 → a_dir = 0).
Proof using Hgamma_s Hgamma_c.
  intros Hb Hready.
  pose proof (run_design_loop (Beam.spans b) h [] Hready (Forall_nil_2 _)) as Hwp.
  apply wp_run in Hwp as (r & h' & Hrun & Hpost).
  destruct r as [[] | e]; [| done]. destruct Hpost as [Hall Hframe].
  exists h'. split.
  { assert (Hwp : wp (run_design self beam) h (λ r h2, r = Ok tt ∧ h2 = h')).
    { unfold run_design. wp_step. by rewrite (wp_run _ _ _); eauto. }
    apply wp_run in Hwp as (r & h2 & -> & -> & ->). done. }
  split; [by apply Hframe |].
  intros span Hin. rewrite app_nil_l in Hall.
  rewrite Forall_forall in Hall.
  destruct (Hall _ Hin) as (s & sec & res & Hs & Hsec & Hres & Hmin).
  destruct Hmin as (a1 & a2 & a3 & H1 & H2 & H3 & Hv & [He1 He2] & [Hd1 Hd2]).
  exists s, sec, res, a1, a2, a3. done.
Qed.

End RunDesign.

Lemma run_design_minimum_reinforcement_witness :
  let h := [OMaterial (Material.mk "C30" CONCRETE 30 500 26000);
            OSection (CrossSection.new 20 50);
            OBeam (Beam.mk "V1" [3%nat] [] (1, 0));
            OSpan (BeamSpan.new 1 6 1 0 None None)] in
  ∃ h', ELUDesignEngine.run_design ELUDesignEngine.init 2 h = (Ok tt, h') ∧
        h' !! 2%nat = Some (OBeam (Beam.mk "V1" [3%nat] [] (1, 0))).
Proof.
  intros h.
  destruct (run_design_minimum_reinforcement ELUDesignEngine.init) with
    (h := h) (beam := 2%nat) (b := Beam.mk "V1" [3%nat] [] (1, 0))
    as (h' & Hrun & Hbeam & _).
  - cbn. lra.
  - cbn. lra.
  - reflexivity.
  - apply Forall_singleton.
    eexists _, _, _.
    split; [reflexivity |]. split; [reflexivity |]. split; [reflexivity |].
    split; [apply Forall_nil_2 |].
    cbn. repeat split; lra.
  - exists h'. split; assumption.
Defined.

(** ** Solving a 2x2 system *)

Lemma linalg_solve_2x2 (a b c d e f : R) :
  Rabs c <= Rabs a → a ≠ 0 → d - c / a * b ≠ 0 →
  ∃ x1 x2, Np.linalg_solve [[a; b]; [c; d]] [e; f] = Ok [x1; x2] ∧
           a * x1 + b * x2 = e ∧ c * x1 + d * x2 = f.
Proof.
  intros Hpiv Ha Hdet.
  unfold Np.linalg_solve. cbn [length zip zip_with Np.gauss map Np.lead fst].
  unfold Np.argmax_abs, Np.argmax_from.
  rewrite ltb_false by exact Hpiv.
  cbn [Np.swap0 lookup list_lookup insert list_insert].
  destruct (Req_dec_T a 0) as [-> | _]; [done |].
  cbn [map Np.eliminate Np.lead fst snd tail Np.scale Np.vsub Np.gauss
       Np.argmax_abs Np.argmax_from Np.swap0 lookup list_lookup insert
       list_insert].
  destruct (Req_dec_T (d - c / a * b) 0) as [Hz | _]; [done |].
  cbn [mbind result_bind Np.dot].
  eexists _, _. split; [reflexivity |].
  assert (Hdet' : d * a - c * b ≠ 0).
  { intros Hz. apply Hdet.
    replace (d - c / a * b) with ((d * a - c * b) / a) by (field; done).
    rewrite Hz. unfold Rdiv. apply Rmult_0_l. }
  split; field; done.
Qed.

(** ** End-to-end scenario: one simply supported span *)

Section Scenario.

(** A 6 m span, 20x50 cm, fck = 30 MPa, Ecs = 26000 MPa, 15 kN/m, both
    ends pinned: the objects are created, the span is added, the load is
    appended and the beam is solved. *)
Definition scenario_build : M (loc * loc) :=
  mat ← alloc (OMaterial (Material.mk "C30" CONCRETE 30 500 26000));
  sec ← alloc (OSection (CrossSection.new 20 50));
  beam ← alloc (OBeam (Beam.new "V1"));
  span ← add_span beam 6 sec mat (0, 0) (1, 0) PINNED PINNED;
  load ← alloc (OLoad (Load.new DISTRIBUTED 15 0 6));
  append_load span load;;
  mret (beam, span).

(** The store after [scenario_build] on an empty store. *)
Definition scenario_heap : heap :=
  [ OMaterial (Material.mk "C30" CONCRETE 30 500 26000);
    OSection (CrossSection.new 20 50);
    OBeam (Beam.mk "V1" [5%nat] [3%nat; 4%nat] (1, 0));
    ONode (Node.mk 0 0 0 0 [true; false]);
    ONode (Node.mk 1 (0 + 6 * 1) (0 + 6 * 0) 0 [true; false]);
    OSpan (BeamSpan.mk 1 6 1 0 [6%nat] (Some 3%nat) (Some 4%nat) 0 0 0 0
             (Some ∅) ∅ None);
    OLoad (Load.new DISTRIBUTED 15 0 6) ].

Lemma scenario_build_run :
  scenario_build [] = (Ok (2%nat, 5%nat), scenario_heap).
Proof. reflexivity. Qed.

Definition scenario_view : MatrixSolver.span_view :=
  {| MatrixSolver.sv_span :=
       BeamSpan.mk 1 6 1 0 [6%nat] (Some 3%nat) (Some 4%nat) 0 0 0 0
         (Some ∅) ∅ None;
     MatrixSolver.sv_section := CrossSection.new 20 50;
     MatrixSolver.sv_material := Material.mk "C30" CONCRETE 30 500 26000;
     MatrixSolver.sv_loads := [Load.new DISTRIBUTED 15 0 6] |}.

Lemma scenario_view_run :
  MatrixSolver.view_span 5 scenario_heap = (Ok scenario_view, scenario_heap).
Proof. reflexivity. Qed.

(** The factor E*I/L^3 of the span. *)
Definition scenario_c : R :=
  26000 * 1000 * (CrossSection.inertia (CrossSection.new 20 50) * / 100000000) / 6 ^ 3.

Lemma scenario_stiffness :
  MatrixSolver.span_stiffness scenario_view =
    Ok (map (Np.scale scenario_c) (MatrixSolver.k_pattern 6)).
Proof.
  unfold MatrixSolver.span_stiffness, MatrixSolver.local_stiffness.
  cbn [MatrixSolver.sv_material MatrixSolver.sv_section MatrixSolver.sv_span
       Material.Ecs BeamSpan.length scenario_view].
  rewrite div_ok by lra. reflexivity.
Qed.

Definition scenario_K : Np.matrix :=
  let c := scenario_c in
  [ [0 + c * 12;      0 + c * (6 * 6);     0 + c * -12;        0 + c * (6 * 6)];
    [0 + c * (6 * 6); 0 + c * (4 * 6 ^ 2); 0 + c * - (6 * 6);  0 + c * (2 * 6 ^ 2)];
    [0 + c * -12;     0 + c * - (6 * 6);   0 + c * 12;         0 + c * - (6 * 6)];
    [0 + c * (6 * 6); 0 + c * (2 * 6 ^ 2); 0 + c * - (6 * 6);  0 + c * (4 * 6 ^ 2)] ].

Lemma scenario_K_run :
  MatrixSolver.assemble_stiffness_matrix [5%nat] 0 (Np.zeros2 4 4)
    scenario_heap = (Ok scenario_K, scenario_heap).
Proof.
  cbn [MatrixSolver.assemble_stiffness_matrix].
  apply wp_eq. apply wp_bind.
  eapply wp_of_run; [apply scenario_view_run |]. cbn beta iota.
  rewrite scenario_stiffness. wp_step.
  cbn. done.
Qed.

Definition scenario_fixed : Np.vector :=
  [0 + 15 * 6 / 2; 0 + 15 * 6 ^ 2 / 12; 0 + 15 * 6 / 2; 0 + - (15) * 6 ^ 2 / 12].

Lemma scenario_fixed_end_forces :
  MatrixSolver.fixed_end_forces 6 [Load.new DISTRIBUTED 15 0 6] (Np.zeros 4)
  = Ok scenario_fixed.
Proof. cbn. rewrite decide_True by reflexivity. reflexivity. Qed.

Definition scenario_F : Np.vector :=
  [0 + - (0 + 15 * 6 / 2); 0 + - (0 + 15 * 6 ^ 2 / 12);
   0 + - (0 + 15 * 6 / 2); 0 + - (0 + - (15) * 6 ^ 2 / 12)].

Lemma scenario_F_run :
  MatrixSolver.assemble_load_vector [5%nat] 0 (Np.zeros 4)
    scenario_heap = (Ok scenario_F, scenario_heap).
Proof.
  cbn [MatrixSolver.assemble_load_vector].
  apply wp_eq. apply wp_bind.
  eapply wp_of_run; [apply scenario_view_run |]. cbn beta iota.
  cbn [MatrixSolver.sv_span MatrixSolver.sv_loads scenario_view BeamSpan.length].
  rewrite scenario_fixed_end_forces. wp_step. cbn. done.
Qed.

Lemma scenario_c_pos : 0 < scenario_c.
Proof. unfold scenario_c, CrossSection.inertia. cbn. lra. Qed.

Lemma scenario_reduced :
  ∃ x1 x2,
    MatrixSolver.solve_reduced scenario_K scenario_F (Np.zeros 4) [1; 3]%nat
      = Ok [0; x1; 0; x2] ∧
    scenario_c * (4 * 6 ^ 2) * x1 + scenario_c * (2 * 6 ^ 2) * x2 = - (15 * 6 ^ 2 / 12) ∧
    scenario_c * (2 * 6 ^ 2) * x1 + scenario_c * (4 * 6 ^ 2) * x2 = 15 * 6 ^ 2 / 12.
Proof.
  pose proof scenario_c_pos as Hc.
  unfold MatrixSolver.solve_reduced. cbn -[Np.linalg_solve].
  destruct (linalg_solve_2x2
              (0 + scenario_c * (4 * 6 ^ 2)) (0 + scenario_c * (2 * 6 ^ 2))
              (0 + scenario_c * (2 * 6 ^ 2)) (0 + scenario_c * (4 * 6 ^ 2))
              (0 + - (0 + 15 * 6 ^ 2 / 12)) (0 + - (0 + - (15) * 6 ^ 2 / 12)))
    as (x1 & x2 & -> & H1 & H2).
  - rewrite !Rabs_right by nra. nra.
  - nra.
  - replace (0 + scenario_c * (4 * 6 ^ 2) -
             (0 + scenario_c * (2 * 6 ^ 2)) / (0 + scenario_c * (4 * 6 ^ 2)) *
             (0 + scenario_c * (2 * 6 ^ 2)))
      with (scenario_c * 108) by (field; nra).
    nra.
  - exists x1, x2. cbn. split; [reflexivity |]. split; lra.
Qed.

Lemma scenario_system_run :
  ∃ x1 x2,
    MatrixSolver.solve_system [3%nat; 4%nat] scenario_K scenario_F (Np.zeros 4)
      scenario_heap = (Ok [0; x1; 0; x2], scenario_heap) ∧
    scenario_c * (4 * 6 ^ 2) * x1 + scenario_c * (2 * 6 ^ 2) * x2 = - (15 * 6 ^ 2 / 12) ∧
    scenario_c * (2 * 6 ^ 2) * x1 + scenario_c * (4 * 6 ^ 2) * x2 = 15 * 6 ^ 2 / 12.
Proof.
  destruct scenario_reduced as (x1 & x2 & Hred & H1 & H2).
  exists x1, x2. split; [| done].
  unfold MatrixSolver.solve_system.
  apply wp_eq. cbn [map_M]. do 4 wp_step. wp_head. cbn beta iota.
  cbn [MatrixSolver.free_dofs_from Node.support_conditions lookup list_lookup
       mbind result_bind app Nat.mul Nat.add].
  wp_step. rewrite Hred. wp_head. done.
Qed.

Lemma scenario_forces (x1 x2 : R) :
  scenario_c * (4 * 6 ^ 2) * x1 + scenario_c * (2 * 6 ^ 2) * x2 = - (15 * 6 ^ 2 / 12) →
  scenario_c * (2 * 6 ^ 2) * x1 + scenario_c * (4 * 6 ^ 2) * x2 = 15 * 6 ^ 2 / 12 →
  ∃ sl ml sr mr,
    MatrixSolver.span_forces scenario_view 0 [0; x1; 0; x2] = Ok (sl, ml, sr, mr) ∧
    sl = 45 ∧ ml = 0 ∧ sr = -45 ∧ mr = 0.
Proof.
  intros H1 H2. unfold MatrixSolver.span_forces.
  rewrite scenario_stiffness.
  cbn [mbind result_bind MatrixSolver.sv_span MatrixSolver.sv_loads
       scenario_view BeamSpan.length].
  rewrite scenario_fixed_end_forces. cbn.
  eexists _, _, _, _. split; [reflexivity |].
  repeat split; nra.
Qed.

(** The span after the solver ran. *)
Definition scenario_solved (s : BeamSpan.t) : Prop :=
  ∃ ml mr sl sr,
    s = BeamSpan.mk 1 6 1 0 [6%nat] (Some 3%nat) (Some 4%nat) ml mr sl sr
          (Some ∅) ∅ None ∧
    sl = 45 ∧ ml = 0 ∧ sr = -45 ∧ mr = 0.

Lemma scenario_solve_run :
  ∃ s, MatrixSolver.solve 2 scenario_heap =
         (Ok tt, <[5%nat := OSpan s]> scenario_heap) ∧
       scenario_solved s.
Proof.
  destruct scenario_system_run as (x1 & x2 & Hsys & H1 & H2).
  destruct (scenario_forces x1 x2 H1 H2)
    as (sl & ml & sr & mr & Hf & Hsl & Hml & Hsr & Hmr).
  eexists. split.
  - unfold MatrixSolver.solve.
    apply wp_eq. wp_step.
    rewrite decide_False by done. wp_step. wp_step.
    rewrite decide_False by done. wp_step. wp_step.
    cbn [length Nat.mul Nat.add].
    apply wp_bind. eapply wp_of_run; [apply scenario_K_run |]. cbn beta iota.
    wp_step.
    apply wp_bind. eapply wp_of_run; [apply scenario_F_run |]. cbn beta iota.
    wp_step.
    apply wp_bind. eapply wp_of_run; [apply Hsys |]. cbn beta iota.
    wp_step.
    cbn [MatrixSolver.compute_internal_forces].
    apply wp_bind. eapply wp_of_run; [apply scenario_view_run |]. cbn beta iota.
    rewrite Hf. wp_step. wp_step. wp_head. split; reflexivity.
  - exists ml, mr, sl, sr. done.
Qed.



Lemma lever_arm_le (d k : R) :
  0 < d → 0 <= k → k <= 0.251 → lever_arm d k <= d.
Proof.
  intros Hd Hk0 Hk. unfold lever_arm.
  assert (Hs : sqrt (0.68 ^ 2 - 4 * 0.272 * k) <= 0.68).
  { rewrite <- (sqrt_pow2 0.68) at 2 by lra. apply sqrt_le_1; lra. }
  set (sq := sqrt _) in *.
  assert (0 <= (0.68 - sq) / (2 * 0.272)).
  { apply Rmult_le_pos; [lra |]. apply Rlt_le, Rinv_0_lt_compat. lra. }
  nra.
Qed.

Definition scenario_span_solved : BeamSpan.t :=
  BeamSpan.mk 1 6 1 0 [6%nat] (Some 3%nat) (Some 4%nat) 0 0 45 (-45)
    (Some ∅) ∅ None.

Lemma scenario_midspan_moment :
  ELUDesignEngine.M_pos_estimate
    (q_distributed [Load.new DISTRIBUTED 15 0 6]) 6 0 0 = 67.5.
Proof.
  unfold ELUDesignEngine.M_pos_estimate, q_distributed. cbn.
  rewrite decide_True by reflexivity. cbn.
  unfold Py.abs. rewrite Rabs_R0. rewrite max_r by lra. lra.
Qed.

Lemma scenario_flexure :
  ∃ res a,
    ELUDesignEngine.flexure_results ELUDesignEngine.init scenario_span_solved
      (CrossSection.new 20 50) (Material.mk "C30" CONCRETE 30 500 26000)
      [Load.new DISTRIBUTED 15 0 6] = Ok res ∧
    res !! "As_inf_vao" = Some (VFloat a) ∧
    res !! "Md_max" = Some (VFloat (67.5 * 1.4)) ∧
    1.5 < a.
Proof.
  unfold ELUDesignEngine.flexure_results.
  cbn [ELUDesignEngine.gamma_s ELUDesignEngine.gamma_f ELUDesignEngine.init
       Material.fyk Material.get_fcd Material.fck CrossSection.bw
       CrossSection.h CrossSection.new scenario_span_solved
       BeamSpan.moment_left BeamSpan.moment_right BeamSpan.length].
  rewrite scenario_midspan_moment.
  rewrite div_ok by lra. cbn [mbind result_bind].
  unfold Py.abs, Material.get_fcd. cbn [Material.fck]. rewrite Rabs_R0.
  rewrite calc_reinforcement_area_small with (Md := 0 * 1.4) by lra.
  cbn [mbind result_bind].
  rewrite calc_reinforcement_area_ductile by lra. cbn [mbind result_bind].
  eexists _, _. split; [reflexivity |].
  split; [by simplify_map_eq |]. split.
  { rewrite lookup_insert_ne by done. rewrite lookup_insert_ne by done.
    rewrite lookup_insert_ne by done. rewrite lookup_insert_eq.
    unfold Py.max3. rewrite (max_l (0 * 1.4)) by lra.
    rewrite max_r by lra. done. }
  set (k := 67.5 * 1.4 * 100 / (20 * (50 - 4) ^ 2 * (30 / 1.4 / 10))).
  assert (Hk0 : 0 <= k) by (unfold k; lra).
  assert (Hk : k <= 0.251) by (unfold k; lra).
  pose proof (lever_arm_le (50 - 4) k ltac:(lra) Hk0 Hk) as Hz.
  pose proof (lever_arm_bounds (50 - 4) k ltac:(lra) Hk) as Hz0.
  set (z := lever_arm (50 - 4) k) in *.
  apply Rlt_le_trans with (67.5 * 1.4 * 100 / (z * (500 / 1.15 / 10)));
    [| apply max_ge_l].
  apply lt_div_r; nra.
Qed.

(** C1. The 6 m span of 20x50 cm, fck = 30 MPa, Ecs = 26000 MPa under
    15 kN/m with both ends pinned: after [solve] the span has
    shear_left = 45 and shear_right = -45, the unamplified midspan moment
    estimate is 67.5, and after [run_design] with the load factor 1.4 the
    stored As_inf_vao is strictly greater than the minimum reinforcement
    0.0015 * 20 * 50 = 1.5. *)
Theorem simply_supported_span_scenario :
  ∃ h0 beam span,
    scenario_build [] = (Ok (beam, span), h0) ∧
    ∃ h1 s1 sec lds,
      MatrixSolver.solve beam h0 = (Ok tt, h1) ∧
      h1 !! span = Some (OSpan s1) ∧
      h1 !! BeamSpan.section s1 = Some (OSection sec) ∧
      map_M read_load (BeamSpan.loads s1) h1 = (Ok lds, h1) ∧
      BeamSpan.shear_left s1 = 45 ∧
      BeamSpan.shear_right s1 = -45 ∧
      ELUDesignEngine.M_pos_estimate (q_distributed lds) (BeamSpan.length s1)
        (BeamSpan.moment_left s1) (BeamSpan.moment_right s1) = 67.5 ∧
      ELUDesignEngine.gamma_f ELUDesignEngine.init = 1.4 ∧
      ∃ h2 s2 res a,
        ELUDesignEngine.run_design ELUDesignEngine.init beam h1 = (Ok tt, h2) ∧
        h2 !! span = Some (OSpan s2) ∧
        BeamSpan.design_results s2 = Some res ∧
        res !! "As_inf_vao" = Some (VFloat a) ∧
        ELUDesignEngine.as_min_of (CrossSection.bw sec) (CrossSection.h sec) = 1.5 ∧
        1.5 < a.
Proof.
  exists scenario_heap, 2%nat, 5%nat. split; [apply scenario_build_run |].
  destruct scenario_solve_run as (s1 & Hsolve & ml & mr & sl & sr & -> & -> & -> & -> & ->).
  fold scenario_span_solved in Hsolve.
  set (h1 := <[5%nat := OSpan scenario_span_solved]> scenario_heap) in *.
  exists h1, scenario_span_solved, (CrossSection.new 20 50),
    [Load.new DISTRIBUTED 15 0 6].
  split; [exact Hsolve |]. split; [reflexivity |]. split; [reflexivity |].
  split; [reflexivity |]. split; [reflexivity |]. split; [reflexivity |].
  split; [apply scenario_midspan_moment |]. split; [reflexivity |].
  destruct scenario_flexure as (res & a & Hres & Ha & _ & Hlt).
  assert (Hready : span_ready h1 5).
  { exists scenario_span_solved, (CrossSection.new 20 50),
      (Material.mk "C30" CONCRETE 30 500 26000).
    split; [reflexivity |]. split; [reflexivity |]. split; [reflexivity |].
    split. { apply Forall_singleton. eexists. reflexivity. }
    cbn. repeat split; lra. }
  pose proof (design_span_spec ELUDesignEngine.init ltac:(cbn; lra)
                ltac:(cbn; lra) h1 5%nat Hready) as Hwp.
  apply wp_run in Hwp as (r & h2 & Hrun & Hpost).
  destruct r as [[] | e]; [| done].
  destruct Hpost as (s & sec & mat & lds & res0 & V & A & st & Hs & Hsec & Hmat
                     & Hlds & Hres0 & ->).
  injection Hs as <-. injection Hsec as <-. injection Hmat as <-.
  injection Hlds as <-.
  rewrite Hres in Hres0. injection Hres0 as <-.
  eexists _, _, _, a. split.
  { unfold ELUDesignEngine.run_design. apply wp_eq. wp_step.
    cbn [for_each]. apply wp_bind.
    eapply wp_of_run; [exact Hrun |]. cbn beta iota.
    apply wp_ret. done. }
  split; [reflexivity |]. split; [reflexivity |].
  split; [by rewrite !lookup_insert_ne by done |].
  split; [unfold ELUDesignEngine.as_min_of; cbn; lra |].
  exact Hlt.
Qed.

End Scenario.

(** ** Serviceability checks on spans without design results *)

Section MissingDesign.

Import ELSCheckerEngine.

Implicit Types (h : heap).

(** When the attribute is absent the span is skipped: nothing is written. *)
Lemma check_span_skips_absent_attribute (self : t) h (span : loc) (s : BeamSpan.t) :
  h !! span = Some (OSpan s) →
  BeamSpan.design_results s = None →
  check_span self span h = (Ok tt, h).
Proof.
  intros Hs Hnone. unfold check_span.
  apply wp_eq. wp_step.
  unfold hasattr_design_results. rewrite Hnone. simpl.
  apply wp_ret. done.
Qed.

(** A span as its constructor leaves it always has the attribute. *)
Lemma new_span_has_attribute id length section material start_node end_node :
  hasattr_design_results
    (BeamSpan.new id length section material start_node end_node) = true.
Proof. reflexivity. Qed.

Lemma get_float_empty (key : string) (d : R) : get_float ∅ key d = Ok d.
Proof. unfold get_float. by rewrite lookup_empty. Qed.

Lemma crack_limit_caa2 : crack_limits !! caa init = Some 0.3%R.
Proof. unfold crack_limits, init, caa. by simplify_map_eq. Qed.

(** C2 (failing input). The beam of the scenario before any design: its
    span carries the empty result dictionary of the constructor.
    [run_checks] does not skip it: it attaches a serviceability result
    with crack width 0 and crack status OK. *)
Theorem run_checks_attaches_result_without_design :
  ∃ h' s r,
    scenario_heap !! 5%nat =
      Some (OSpan (BeamSpan.mk 1 6 1 0 [6%nat] (Some 3%nat) (Some 4%nat)
                     0 0 0 0 (Some ∅) ∅ None)) ∧
    run_checks init 2 scenario_heap = (Ok tt, h') ∧
    h' !! 5%nat = Some (OSpan s) ∧
    BeamSpan.design_results s = Some ∅ ∧
    BeamSpan.els_results s = Some r ∧
    ServiceabilityResult.wk_calc r = 0%R ∧
    ServiceabilityResult.status_crack r = "OK".
Proof.
  eexists _, _, _. split; [reflexivity |].
  split.
  { unfold run_checks. apply wp_eq. wp_step. rec_simpl.
    cbn [for_each]. unfold check_span. wp_step.
    cbn [negb hasattr_design_results BeamSpan.design_results].
    wp_step. wp_step.
    unfold check_cracking.
    cbn [BeamSpan.design_results]. rewrite !get_float_empty.
    cbn [mbind result_bind]. rewrite leb_true by lra.
    rewrite crack_limit_caa2.
    wp_step. cbn [map_M]. do 3 wp_step.
    unfold check_deflection.
    rewrite div_ok.
    2: { unfold CrossSection.inertia. cbn. lra. }
    cbn [mbind result_bind]. wp_step. wp_step. wp_head. split; reflexivity. }
  split; [reflexivity |]. split; [reflexivity |]. split; [reflexivity |].
  split; reflexivity.
Qed.

End MissingDesign.

(** ** Singular systems *)

Local Open Scope R_scope.

Section Gauss.

Import Np.

(** Dot product with a difference of a row and a multiple of another. *)
Lemma dot_vsub_scale (m : R) : ∀ (a b v : vector),
  length a = length v → length b = length v →
  dot (vsub a (scale m b)) v = dot a v - m * dot b v.
Proof.
  induction a as [| x a IH]; intros [| y b] [| z v] Ha Hb;
    simpl in *; try lia; try lra.
  rewrite IH by lia. lra.
Qed.

Lemma length_vsub_scale (m : R) : ∀ (a b : vector),
  length a = length b → length (vsub a (scale m b)) = length a.
Proof.
  induction a as [| x a IH]; intros [| y b] H; simpl in *; try lia.
  rewrite IH by lia. done.
Qed.

Lemma dot_zero_r : ∀ (a v : vector), Forall (λ x, x = 0) v → dot a v = 0.
Proof.
  induction a as [| x a IH]; intros v Hv; simpl; [done |].
  destruct Hv as [| y v -> Hv]; [done |].
  rewrite IH by done. lra.
Qed.

(** A system whose rows are all orthogonal to [v]. *)
Definition annihilates (n : nat) (v : vector) (rows : list arow) : Prop :=
  Forall (λ r, length (fst r) = n ∧ dot (fst r) v = 0) rows.

Lemma annihilates_swap0 n v p rows :
  annihilates n v rows → annihilates n v (swap0 p rows).
Proof.
  intros H. unfold annihilates in *. unfold swap0.
  destruct rows as [| r0 rest]; [done |].
  destruct ((r0 :: rest) !! p) as [rp |] eqn:Hp; [| done].
  pose proof (Forall_lookup_1 _ _ _ _ H Hp) as Hrp.
  pose proof (Forall_inv H) as Hr0.
  apply Forall_insert; [apply Forall_insert |]; done.
Qed.

Lemma length_swap0 p rows : length (swap0 p rows) = length rows.
Proof.
  unfold swap0. destruct rows as [| r0 rest]; [done |].
  destruct ((r0 :: rest) !! p); [| done].
  by rewrite !length_insert.
Qed.

(** Elimination detects every singular system: if some non-zero vector is
    orthogonal to all rows, a pivot column is entirely zero. *)
Lemma gauss_singular : ∀ (n : nat) (rows : list arow) (v : vector),
  length rows = n → length v = n →
  annihilates n v rows →
  Exists (λ x, x ≠ 0) v →
  gauss n rows = singular.
Proof.
  induction n as [| n IH]; intros rows v Hrows Hv Hann Hnz.
  - destruct v; [by apply Exists_nil in Hnz | done].
  - simpl.
    pose proof (annihilates_swap0 _ _ (argmax_abs (map lead rows)) _ Hann) as Hann'.
    pose proof (length_swap0 (argmax_abs (map lead rows)) rows) as Hlen'.
    destruct (swap0 (argmax_abs (map lead rows)) rows) as [| [coeffs pb] rest];
      [done |].
    apply Forall_cons in Hann' as [[Hplen Hpdot] Hrest]. simpl in Hplen, Hpdot.
    destruct coeffs as [| a prow]; [done |].
    destruct (Req_dec_T a 0) as [Ha | Ha]; [done |].
    destruct v as [| v1 vs]; [done |].
    simpl in Hpdot, Hplen, Hv, Hlen'.
    rewrite (IH (map (eliminate a prow pb) rest) vs); [done | | | |].
    + rewrite length_map. lia.
    + lia.
    + apply Forall_map. eapply Forall_impl; [exact Hrest |].
      intros [rc rb] [Hrl Hrd]. simpl in *.
      destruct rc as [| r1 rt]; [done |]. simpl in *.
      split.
      * rewrite length_vsub_scale by lia. lia.
      * rewrite dot_vsub_scale by lia.
        assert (Hpv : dot prow vs = - (a * v1)) by lra.
        assert (Hrv : dot rt vs = - (r1 * v1)) by lra.
        unfold lead. simpl. rewrite Hpv, Hrv. field. done.
    + apply Exists_cons in Hnz as [Hv1 | Hvs]; [| done].
      apply not_Forall_Exists; [intros x; apply _ |].
      intros Hall. apply Hv1.
      assert (Hz : dot prow vs = 0).
      { apply dot_zero_r. exact Hall. }
      rewrite Hz in Hpdot.
      assert (a * v1 = 0) by lra.
      destruct (Rmult_integral _ _ H); done.
Qed.

(** *** Regular systems

    The converse: the elimination returns on every system whose matrix maps
    only the zero vector to zero. *)

Definition regular (n : nat) (rows : list arow) : Prop :=
  ∀ v : vector, length v = n →
    Forall (λ r, dot (fst r) v = 0) rows → Forall (λ x, x = 0) v.

Lemma Forall_swap0 (P : arow → Prop) p rows :
  Forall P (swap0 p rows) → Forall P rows.
Proof.
  unfold swap0. destruct rows as [| r0 rest]; [done |].
  destruct ((r0 :: rest) !! p) as [rp |] eqn:Hp; [| done].
  intros H. rewrite Forall_lookup in H. apply Forall_lookup. intros i x Hi.
  assert (Hlen : (p < length (r0 :: rest))%nat) by (by eapply lookup_lt_Some).
  destruct (decide (i = p)) as [-> | Hip].
  - rewrite Hp in Hi. injection Hi as <-.
    destruct (decide (p = 0%nat)) as [-> | Hp0].
    + simpl in Hp. injection Hp as <-. by apply (H 0%nat).
    + apply (H 0%nat). rewrite list_lookup_insert_ne by done.
      apply list_lookup_insert_eq. simpl. lia.
  - destruct (decide (i = 0%nat)) as [-> | Hi0].
    + simpl in Hi. injection Hi as <-. apply (H p).
      apply list_lookup_insert_eq. rewrite length_insert. done.
    + apply (H i). by rewrite !list_lookup_insert_ne.
Qed.

(** The pivot search returns the place of an entry of largest magnitude. *)
Lemma argmax_from_spec : ∀ (l pre : vector) (bi : nat) (best b : R),
  (pre ++ l) !! bi = Some b → Rabs b = best →
  Forall (λ x, Rabs x <= best) pre →
  ∃ y, (pre ++ l) !! argmax_from bi best (length pre) l = Some y ∧
       Forall (λ x, Rabs x <= Rabs y) (pre ++ l).
Proof.
  induction l as [| x l IH]; intros pre bi best b Hb Hbest Hpre; simpl.
  - exists b. split; [done |]. rewrite app_nil_r, Hbest. done.
  - replace (pre ++ x :: l) with ((pre ++ [x]) ++ l) in *
      by (by rewrite <- app_assoc).
    replace (S (length pre)) with (length (pre ++ [x]))
      by (rewrite length_app; simpl; lia).
    unfold Py.ltb. destruct (Rlt_dec best (Rabs x)) as [Hlt | Hge].
    + apply (IH (pre ++ [x]) (length pre) (Rabs x) x).
      * rewrite lookup_app_l by (rewrite length_app; simpl; lia).
        by rewrite list_lookup_middle.
      * done.
      * apply Forall_app. split.
        -- eapply Forall_impl; [exact Hpre |]. simpl. intros; lra.
        -- apply Forall_singleton. lra.
    + apply (IH (pre ++ [x]) bi best b); [done | done |].
      apply Forall_app. split; [done |]. apply Forall_singleton. lra.
Qed.

Lemma argmax_abs_spec (l : vector) :
  l ≠ [] →
  ∃ y, l !! argmax_abs l = Some y ∧ Forall (λ x, Rabs x <= Rabs y) l.
Proof.
  destruct l as [| x l]; [done |]. intros _. unfold argmax_abs.
  apply (argmax_from_spec l [x] 0 (Rabs x) x); [done | done |].
  apply Forall_singleton. lra.
Qed.

(** After the exchange the first row has a leading entry of largest
    magnitude. *)
Lemma swap0_pivot (rows : list arow) :
  rows ≠ [] →
  ∃ rp rest, swap0 (argmax_abs (map lead rows)) rows = rp :: rest ∧
    Forall (λ r, Rabs (lead r) <= Rabs (lead rp)) rows.
Proof.
  intros Hne.
  destruct (argmax_abs_spec (map lead rows)) as (y & Hy & Hmax).
  { by destruct rows. }
  set (p := argmax_abs (map lead rows)) in *.
  rewrite list_lookup_fmap in Hy.
  destruct (rows !! p) as [rp |] eqn:Hp; [| done].
  injection Hy as <-.
  assert (Hall : Forall (λ r, Rabs (lead r) <= Rabs (lead rp)) rows).
  { by apply Forall_fmap in Hmax. }
  unfold swap0. destruct rows as [| r0 rest]; [done |]. rewrite Hp.
  destruct p as [| p]; simpl in *.
  - injection Hp as <-. by exists r0, rest.
  - by exists rp, (<[p := r0]> rest).
Qed.

Lemma gauss_regular : ∀ (n : nat) (rows : list arow),
  length rows = n → Forall (λ r, length (fst r) = n) rows →
  regular n rows →
  ∃ xs, gauss n rows = Ok xs ∧ length xs = n.
Proof.
  induction n as [| n IH]; intros rows Hrows Hlen Hreg; [by exists [] |].
  simpl.
  destruct (swap0_pivot rows) as (rp & rest & Hswap & Hmax).
  { by destruct rows. }
  pose proof (length_swap0 (argmax_abs (map lead rows)) rows) as Hlen'.
  assert (Hlens : Forall (λ r, length (fst r) = S n)
                    (swap0 (argmax_abs (map lead rows)) rows)).
  { pose proof (annihilates_swap0 (S n) [] (argmax_abs (map lead rows)) rows)
      as Hsw.
    unfold annihilates in Hsw.
    assert (Forall (λ r, length (fst r) = S n ∧ dot (fst r) [] = 0) rows) as H0.
    { eapply Forall_impl; [exact Hlen |]. intros r Hr. split; [done |].
      by destruct (fst r). }
    eapply Forall_impl; [exact (Hsw H0) |]. by intros r [? _]. }
  assert (Hreg' : regular (S n) (swap0 (argmax_abs (map lead rows)) rows)).
  { intros v Hv Hall. apply Hreg; [done |]. by apply Forall_swap0 in Hall. }
  rewrite Hswap in *. clear Hswap.
  destruct rp as [coeffs pb].
  apply Forall_cons in Hlens as [Hplen Hrest]. simpl in Hplen.
  destruct coeffs as [| a prow]; [done |]. simpl in Hplen.
  destruct (Req_dec_T a 0) as [Ha | Ha].
  { (* a whole column of zeros contradicts regularity *)
    exfalso. subst a.
    assert (Hz : Forall (λ x, x = 0) (1 :: replicate n 0)).
    { apply Hreg; [simpl; by rewrite length_replicate |].
      rewrite Forall_forall in Hmax, Hlen. apply Forall_forall. intros r Hr.
      specialize (Hmax r Hr). specialize (Hlen r Hr).
      unfold lead in Hmax. simpl in Hmax. rewrite Rabs_R0 in Hmax.
      destruct (fst r) as [| r1 rt]; [done |]. simpl.
      rewrite dot_zero_r by apply Forall_replicate, eq_refl.
      destruct (Req_dec_T r1 0) as [-> | Hr1]; [lra |].
      pose proof (Rabs_pos_lt r1 Hr1). lra. }
    apply Forall_cons in Hz as [H1 _]. lra. }
  destruct (IH (map (eliminate a prow pb) rest)) as (xs & Hxs & Hxlen).
  - rewrite length_map. simpl in Hlen'. lia.
  - apply Forall_map. eapply Forall_impl; [exact Hrest |].
    intros [rc rb] Hrc. simpl in *.
    destruct rc as [| r1 rt]; [done |]. simpl in *.
    rewrite length_vsub_scale by lia. lia.
  - intros w Hw Hall.
    assert (Hv : Forall (λ x, x = 0) ((- dot prow w / a) :: w)).
    { apply Hreg'; [simpl; lia |].
      apply Forall_cons. split.
      - simpl. field. done.
      - apply Forall_map in Hall.
        rewrite Forall_forall in Hall, Hrest. apply Forall_forall.
        intros [rc rb] Hr. specialize (Hall _ Hr). specialize (Hrest _ Hr).
        simpl in *. destruct rc as [| r1 rt]; [done |]. simpl in *.
        rewrite dot_vsub_scale in Hall by lia.
        unfold lead in Hall. simpl in Hall.
        assert (Hrt : dot rt w = r1 / a * dot prow w) by lra.
        rewrite Hrt. field. done. }
    by apply Forall_cons in Hv as [_ Hv].
  - rewrite Hxs. cbn [mbind result_bind]. eexists. split; [reflexivity |].
    simpl. lia.
Qed.

End Gauss.

(** ** Assembly and the rigid-body translation *)

Section Assembly.

Import Np MatrixSolver.

(** The rigid-body translation of [n] nodes: displacement 1, rotation 0. *)
Fixpoint rigid (n : nat) : vector :=
  match n with
  | O => []
  | S k => 1 :: 0 :: rigid k
  end.

Lemma length_rigid n : length (rigid n) = (2 * n)%nat.
Proof. induction n; simpl; lia. Qed.

Lemma rigid_even n i : (i < n)%nat → rigid n !! (2 * i)%nat = Some 1.
Proof.
  revert i. induction n as [| n IH]; intros i Hi; [lia |].
  destruct i as [| i]; [done |].
  replace (2 * S i)%nat with (S (S (2 * i))) by lia. simpl. apply IH. lia.
Qed.

Lemma rigid_odd n i : (i < n)%nat → rigid n !! (2 * i + 1)%nat = Some 0.
Proof.
  revert i. induction n as [| n IH]; intros i Hi; [lia |].
  destruct i as [| i]; [done |].
  replace (2 * S i + 1)%nat with (S (S (2 * i + 1))) by lia. simpl. apply IH. lia.
Qed.

Lemma rigid_nonzero n : (0 < n)%nat → Exists (λ x, x ≠ 0) (rigid n).
Proof. destruct n; [lia |]. intros _. simpl. apply Exists_cons_hd. lra. Qed.

(** Weighted sum of the entries of [u] at [idxs]. *)
Fixpoint wsum (u : vector) (idxs : list nat) (krow : vector) : R :=
  match idxs, krow with
  | j :: is', x :: xs => x * default 0 (u !! j) + wsum u is' xs
  | _, _ => 0
  end.

Lemma dot_insert (x : R) : ∀ (v u : vector) (j : nat) (old : R),
  v !! j = Some old → length u = length v →
  dot (<[j := old + x]> v) u = dot v u + x * default 0 (u !! j).
Proof.
  induction v as [| y v IH]; intros [| z u] j old Hj Hlen; simpl in *; try done.
  destruct j as [| j]; simpl in *.
  - injection Hj as ->. lra.
  - rewrite (IH u j old) by (done || lia). lra.
Qed.

Variable u : vector.
Variable m : nat.
Hypothesis Hu : length u = m.

(** A matrix with [M] rows of length [m], each orthogonal to [u]. *)
Definition orthogonal (M : nat) (K : matrix) : Prop :=
  length K = M ∧ Forall (λ row, length row = m ∧ dot row u = 0) K.

Lemma scatter_row_spec : ∀ (idxs : list nat) (krow : vector) (K : matrix)
    (gi : nat) (row : vector),
  K !! gi = Some row → length row = m →
  Forall (λ j, (j < m)%nat) idxs →
  ∃ row', scatter_row K gi idxs krow = Ok (<[gi := row']> K) ∧
          length row' = m ∧
          dot row' u = dot row u + wsum u idxs krow.
Proof using Hu.
  induction idxs as [| j idxs IH]; intros krow K gi row HK Hrow Hidx.
  - exists row. simpl. rewrite list_insert_id by done.
    split; [done |]. split; [done | lra].
  - destruct krow as [| x krow].
    + exists row. simpl. rewrite list_insert_id by done.
      split; [done |]. split; [done | lra].
    + apply Forall_cons in Hidx as [Hj Hidx].
      destruct (lookup_lt_is_Some_2 row j) as [old Hold]; [lia |].
      simpl. unfold add_at2. rewrite HK. unfold add_at. rewrite Hold.
      cbn [mbind result_bind].
      assert (Hlt : (gi < length K)%nat) by (by eapply lookup_lt_Some).
      destruct (IH krow (<[gi := <[j := old + x]> row]> K) gi
                  (<[j := old + x]> row)) as (row' & Hs & Hl & Hd).
      * by apply list_lookup_insert_eq.
      * by rewrite length_insert.
      * done.
      * exists row'. rewrite Hs, list_insert_insert_eq.
        split; [done |]. split; [done |].
        rewrite Hd, (dot_insert x row u j old) by (done || lia). lra.
Qed.

Lemma scatter_spec (idxs : list nat) (M : nat) : ∀ (rows : list nat) (k K : matrix),
  orthogonal M K →
  Forall (λ j, (j < m)%nat) idxs →
  Forall (λ i, (i < M)%nat) rows →
  Forall (λ krow, wsum u idxs krow = 0) k →
  ∃ K', scatter K rows idxs k = Ok K' ∧ orthogonal M K'.
Proof using Hu.
  induction rows as [| gi rows IH]; intros k K [HM HK] Hidx Hrows Hk.
  - exists K. done.
  - destruct k as [| krow k]; [by exists K |].
    apply Forall_cons in Hrows as [Hgi Hrows].
    apply Forall_cons in Hk as [Hkrow Hk].
    destruct (lookup_lt_is_Some_2 K gi) as [row Hrow]; [lia |].
    destruct (Forall_lookup_1 _ _ _ _ HK Hrow) as [Hlen Hdot].
    destruct (scatter_row_spec idxs krow K gi row Hrow Hlen Hidx)
      as (row' & Hs & Hl & Hd).
    simpl. rewrite Hs. cbn [mbind result_bind].
    apply IH; [| done | done | done].
    split; [by rewrite length_insert |].
    apply Forall_insert; [done |]. split; [done | lra].
Qed.

End Assembly.

Section Unrestrained.

Import Np MatrixSolver.

Implicit Types (h : heap).

Lemma element_indices_bound (idx n : nat) :
  (idx + 1 < n)%nat →
  Forall (λ j, (j < 2 * n)%nat) (element_indices idx).
Proof.
  intros H. unfold element_indices.
  repeat apply Forall_cons_2; try apply Forall_nil_2; lia.
Qed.

(** Every row of an element stiffness matrix sums to zero over the two
    translation columns. *)
Lemma stiffness_rows_rigid (c L : R) (idx n : nat) :
  (idx + 1 < n)%nat →
  Forall (λ krow, wsum (rigid n) (element_indices idx) krow = 0)
    (map (scale c) (k_pattern L)).
Proof.
  intros H. unfold element_indices, k_pattern. cbn [map scale].
  repeat apply Forall_cons_2; try apply Forall_nil_2; cbn [wsum];
    rewrite (rigid_even n idx), (rigid_odd n idx),
      (rigid_even n (idx + 1)), (rigid_odd n (idx + 1)) by lia;
    cbn [default from_option]; unfold Datatypes.id; lra.
Qed.

(** A span the solver can read, of non-zero length. *)
Definition solvable_span h (span : loc) : Prop :=
  ∃ v, view_span span h = (Ok v, h) ∧ BeamSpan.length (sv_span v) ≠ 0.

Lemma span_stiffness_ok (v : span_view) :
  BeamSpan.length (sv_span v) ≠ 0 →
  ∃ c, span_stiffness v = Ok (map (scale c) (k_pattern (BeamSpan.length (sv_span v)))).
Proof.
  intros HL. unfold span_stiffness, local_stiffness.
  rewrite div_ok by (by apply pow_nonzero). cbn. eauto.
Qed.

Lemma assemble_stiffness_rigid h (n : nat) : ∀ (spans : list loc) (idx : nat)
    (K : matrix),
  orthogonal (rigid n) (2 * n) (2 * n) K →
  (idx + length spans < n)%nat →
  Forall (solvable_span h) spans →
  ∃ K', assemble_stiffness_matrix spans idx K h = (Ok K', h) ∧
        orthogonal (rigid n) (2 * n) (2 * n) K'.
Proof.
  induction spans as [| span spans IH]; intros idx K HK Hidx Hspans.
  - exists K. done.
  - apply Forall_cons in Hspans as [(v & Hv & HL) Hspans].
    simpl in Hidx.
    destruct (span_stiffness_ok v HL) as [c Hk].
    destruct (scatter_spec (rigid n) (2 * n) (length_rigid n)
                (element_indices idx) (2 * n) (element_indices idx)
                (map (scale c) (k_pattern (BeamSpan.length (sv_span v)))) K HK)
      as (K1 & Hs & HK1).
    { apply element_indices_bound. lia. }
    { apply element_indices_bound. lia. }
    { apply stiffness_rows_rigid. lia. }
    destruct (IH (idx + 1)%nat K1 HK1) as (K2 & Hrun & HK2); [lia | done |].
    exists K2. split; [| done].
    cbn [assemble_stiffness_matrix].
    apply wp_eq. apply wp_bind.
    eapply wp_of_run; [exact Hv |]. cbn beta iota.
    rewrite Hk. wp_step. rewrite Hs. wp_step.
    eapply wp_of_run; [exact Hrun |]. done.
Qed.

(** The load vector: only its length matters here. *)
Lemma add_at_ok (v : vector) (i : nat) (x : R) :
  (i < length v)%nat → ∃ v', add_at v i x = Ok v' ∧ length v' = length v.
Proof.
  intros Hi. destruct (lookup_lt_is_Some_2 v i Hi) as [old Hold].
  unfold add_at. rewrite Hold. eexists. split; [done |].
  by rewrite length_insert.
Qed.

Lemma fixed_end_forces_ok (L : R) : ∀ (loads : list Load.t) (f : vector),
  length f = 4%nat →
  ∃ f', fixed_end_forces L loads f = Ok f' ∧ length f' = 4%nat.
Proof.
  induction loads as [| load loads IH]; intros f Hf; simpl; [eauto |].
  destruct (decide (Load.load_type load = DISTRIBUTED)).
  - destruct (add_at_ok f 0 (Load.value load * L / 2)) as (f1 & -> & H1); [lia |].
    cbn [mbind result_bind].
    destruct (add_at_ok f1 1 (Load.value load * L ^ 2 / 12)) as (f2 & -> & H2); [lia |].
    cbn [mbind result_bind].
    destruct (add_at_ok f2 2 (Load.value load * L / 2)) as (f3 & -> & H3); [lia |].
    cbn [mbind result_bind].
    destruct (add_at_ok f3 3 (- Load.value load * L ^ 2 / 12)) as (f4 & -> & H4); [lia |].
    cbn [mbind result_bind]. apply IH. lia.
  - cbn [mbind result_bind]. by apply IH.
Qed.

Lemma scatter_sub_ok : ∀ (idxs : list nat) (f F : vector),
  Forall (λ j, (j < length F)%nat) idxs →
  ∃ F', scatter_sub F idxs f = Ok F' ∧ length F' = length F.
Proof.
  induction idxs as [| j idxs IH]; intros f F Hidx; simpl; [eauto |].
  destruct f as [| x f]; [eauto |].
  apply Forall_cons in Hidx as [Hj Hidx].
  destruct (add_at_ok F j (- x) Hj) as (F1 & -> & H1).
  cbn [mbind result_bind].
  destruct (IH f F1) as (F2 & -> & H2); [by rewrite H1 |].
  exists F2. split; [done | lia].
Qed.

Lemma assemble_load_vector_ok h (n : nat) : ∀ (spans : list loc) (idx : nat)
    (F : vector),
  length F = (2 * n)%nat →
  (idx + length spans < n)%nat →
  Forall (solvable_span h) spans →
  ∃ F', assemble_load_vector spans idx F h = (Ok F', h) ∧
        length F' = (2 * n)%nat.
Proof.
  induction spans as [| span spans IH]; intros idx F HF Hidx Hspans.
  - exists F. done.
  - apply Forall_cons in Hspans as [(v & Hv & HL) Hspans].
    simpl in Hidx.
    destruct (fixed_end_forces_ok (BeamSpan.length (sv_span v)) (sv_loads v)
                (zeros 4)) as (f & Hf & Hlen); [done |].
    destruct (scatter_sub_ok (element_indices idx) f F) as (F1 & Hs & HF1).
    { rewrite HF. apply element_indices_bound. lia. }
    destruct (IH (idx + 1)%nat F1) as (F2 & Hrun & HF2); [lia | lia | done |].
    exists F2. split; [| done].
    cbn [assemble_load_vector].
    apply wp_eq. apply wp_bind.
    eapply wp_of_run; [exact Hv |]. cbn beta iota.
    rewrite Hf. wp_step. rewrite Hs. wp_step.
    eapply wp_of_run; [exact Hrun |]. done.
Qed.

End Unrestrained.

(** ** Structural instability *)

Section Instability.

Import Np MatrixSolver.

Implicit Types (h : heap).

(** A square matrix with a non-zero vector orthogonal to all its rows. *)
Definition singular_matrix (A : matrix) : Prop :=
  ∃ v, length v = length A ∧ Exists (λ x, x ≠ 0) v ∧
       Forall (λ row, length row = length A ∧ dot row v = 0) A.

Lemma length_take_indices (v : vector) : ∀ (idxs : list nat) (r : vector),
  take_indices v idxs = Ok r → length r = length idxs.
Proof.
  induction idxs as [| i idxs IH]; intros r H; simpl in H.
  - by injection H as <-.
  - apply result_bind_inv in H as (x & _ & H).
    apply result_bind_inv in H as (xs & Hxs & H).
    injection H as <-. simpl. by rewrite (IH xs).
Qed.

Lemma length_ix_ (K : matrix) (cols : list nat) : ∀ (rows : list nat) (r : matrix),
  ix_ K rows cols = Ok r → length r = length rows.
Proof.
  induction rows as [| i rows IH]; intros r H; simpl in H.
  - by injection H as <-.
  - destruct (K !! i) as [row |]; [| done].
    apply result_bind_inv in H as (x & _ & H).
    apply result_bind_inv in H as (xs & Hxs & H).
    injection H as <-. simpl. by rewrite (IH xs).
Qed.

Lemma annihilates_zip (n : nat) (v : vector) : ∀ (A : matrix) (b : vector),
  Forall (λ row, length row = n ∧ dot row v = 0) A →
  annihilates n v (zip A b).
Proof.
  induction A as [| row A IH]; intros b HA; [apply Forall_nil_2 |].
  destruct b as [| x b]; [apply Forall_nil_2 |].
  apply Forall_cons in HA as [Hrow HA]. simpl.
  apply Forall_cons_2; [done | by apply IH].
Qed.

(** The linear solve raises on a singular matrix. *)
Lemma linalg_solve_singular (A : matrix) (b : vector) :
  length b = length A → singular_matrix A →
  linalg_solve A b = singular.
Proof.
  intros Hb (v & Hv & Hnz & Horth).
  unfold linalg_solve.
  apply gauss_singular with (v := v); [| done | | done].
  - rewrite length_zip. lia.
  - by apply annihilates_zip.
Qed.

Lemma solve_reduced_singular (K : matrix) (F d : vector) (free : list nat)
    (K_red : matrix) (F_red : vector) :
  ix_ K free free = Ok K_red →
  take_indices F free = Ok F_red →
  singular_matrix K_red →
  solve_reduced K F d free = Raise (Exn Exception singular_msg).
Proof.
  intros HK HF Hsing. unfold solve_reduced.
  rewrite HK, HF. cbn [mbind result_bind].
  rewrite linalg_solve_singular; [done | | done].
  rewrite (length_take_indices _ _ _ HF), (length_ix_ _ _ _ _ HK). done.
Qed.

(** Extracting all indices gives the array back. *)
Lemma take_indices_all : ∀ (row pre : vector),
  take_indices (pre ++ row) (seq (length pre) (length row)) = Ok row.
Proof.
  induction row as [| x row IH]; intros pre; [done |].
  simpl. unfold get. rewrite list_lookup_middle by done.
  cbn [mbind result_bind].
  replace (pre ++ x :: row) with ((pre ++ [x]) ++ row) by (by rewrite <- app_assoc).
  replace (S (length pre)) with (length (pre ++ [x]))
    by (rewrite length_app; simpl; lia).
  rewrite IH. done.
Qed.

Lemma ix_all (m : nat) : ∀ (K pre : matrix),
  Forall (λ row, length row = m) K →
  ix_ (pre ++ K) (seq (length pre) (length K)) (seq 0 m) = Ok K.
Proof.
  induction K as [| row K IH]; intros pre HK; [done |].
  apply Forall_cons in HK as [Hrow HK].
  simpl. rewrite list_lookup_middle by done.
  pose proof (take_indices_all row []) as Hall. simpl in Hall.
  rewrite Hrow in Hall. rewrite Hall.
  cbn [mbind result_bind].
  replace (pre ++ row :: K) with ((pre ++ [row]) ++ K) by (by rewrite <- app_assoc).
  replace (S (length pre)) with (length (pre ++ [row]))
    by (rewrite length_app; simpl; lia).
  rewrite IH by done. done.
Qed.

(** A node without any restraint. *)
Definition unrestrained (n : Node.t) : Prop :=
  Node.support_conditions n !! 0%nat = Some false ∧
  Node.support_conditions n !! 1%nat = Some false.

Lemma free_dofs_unrestrained : ∀ (ns : list Node.t) (i : nat),
  Forall unrestrained ns →
  free_dofs_from i ns = Ok (seq (2 * i) (2 * length ns)).
Proof.
  induction ns as [| n ns IH]; intros i Hns; [done |].
  apply Forall_cons in Hns as [[H0 H1] Hns].
  simpl. rewrite H0, H1. cbn [mbind result_bind].
  rewrite IH by done. cbn [mbind result_bind].
  replace (length ns + S (length ns + 0))%nat with (S (2 * length ns)) by lia.
  simpl. repeat f_equal; lia.
Qed.

Lemma orthogonal_zeros (u : vector) (m M : nat) :
  length u = m → orthogonal u m M (zeros2 M m).
Proof.
  intros Hu. unfold orthogonal, zeros2, zeros.
  split; [by rewrite length_replicate |].
  apply Forall_replicate. split; [by rewrite length_replicate |].
  clear Hu. revert u. induction m as [| m IH]; intros [| x u]; simpl; try done.
  rewrite IH. lra.
Qed.

(** The nodes of a beam as the solver reads them. *)
Definition nodes_read h (nodes : list loc) (ns : list Node.t) : Prop :=
  map_M read_node nodes h = (Ok ns, h).

(** The reduced free-DOF stiffness matrix that [solve] builds for a beam,
    with the reduced load vector. *)
Definition reduced_system h (beam : loc) (K_red : matrix) (F_red : vector)
    : Prop :=
  ∃ b K F ns free,
    h !! beam = Some (OBeam b) ∧
    Beam.nodes b ≠ [] ∧ Beam.spans b ≠ [] ∧
    let n_dofs := (length (Beam.nodes b) * 2)%nat in
    assemble_stiffness_matrix (Beam.spans b) 0 (zeros2 n_dofs n_dofs) h = (Ok K, h) ∧
    assemble_load_vector (Beam.spans b) 0 (zeros n_dofs) h = (Ok F, h) ∧
    nodes_read h (Beam.nodes b) ns ∧
    free_dofs_from 0 ns = Ok free ∧
    ix_ K free free = Ok K_red ∧
    take_indices F free = Ok F_red.

Lemma solve_singular_system h beam K_red F_red :
  reduced_system h beam K_red F_red →
  singular_matrix K_red →
  solve beam h = (Raise (Exn Exception singular_msg), h).
Proof.
  intros (b & K & F & ns & free & Hb & Hn & Hs & HK & HF & Hns & Hfree & HKr & HFr)
    Hsing.
  unfold solve. apply wp_eq.
  wp_step. rewrite decide_False by done. wp_step. wp_step.
  rewrite decide_False by done. wp_step. wp_step.
  apply wp_bind. eapply wp_of_run; [exact HK |]. cbn beta iota. wp_step.
  apply wp_bind. eapply wp_of_run; [exact HF |]. cbn beta iota. wp_step.
  unfold solve_system.
  apply wp_bind. apply wp_bind.
  eapply wp_of_run; [exact Hns |]. cbn beta iota.
  rewrite Hfree. wp_step.
  rewrite (solve_reduced_singular _ _ _ _ _ _ HKr HFr Hsing).
  apply wp_lift. done.
Qed.

Lemma unrestrained_reduced_system h beam (b : Beam.t) (ns : list Node.t) :
  h !! beam = Some (OBeam b) →
  Beam.spans b ≠ [] →
  length (Beam.nodes b) = S (length (Beam.spans b)) →
  Forall (solvable_span h) (Beam.spans b) →
  nodes_read h (Beam.nodes b) ns →
  Forall unrestrained ns →
  ∃ K_red F_red, reduced_system h beam K_red F_red ∧ singular_matrix K_red.
Proof.
  intros Hb Hs Hlen Hspans Hns Hfree.
  set (n := length (Beam.nodes b)).
  assert (Hndofs : (n * 2 = 2 * n)%nat) by lia.
  destruct (assemble_stiffness_rigid h n (Beam.spans b) 0 (zeros2 (2 * n) (2 * n)))
    as (K & HK & [HKlen HKorth]).
  { apply orthogonal_zeros, length_rigid. }
  { unfold n. lia. }
  { done. }
  destruct (assemble_load_vector_ok h n (Beam.spans b) 0 (zeros (2 * n)))
    as (F & HF & HFlen).
  { unfold zeros. by rewrite length_replicate. }
  { unfold n. lia. }
  { done. }
  assert (Hnslen : length ns = n).
  { unfold n. eapply map_M_length. exact Hns. }
  exists K, F. split.
  - exists b, K, F, ns, (seq 0 (2 * n)).
    split; [done |]. split; [by destruct (Beam.nodes b) |]. split; [done |].
    fold n. rewrite Hndofs.
    split; [done |]. split; [done |]. split; [done |].
    split. { rewrite free_dofs_unrestrained by done. by rewrite Hnslen. }
    split.
    + pose proof (ix_all (2 * n) K []) as Hix. simpl in Hix.
      rewrite HKlen in Hix. apply Hix.
      eapply Forall_impl; [exact HKorth |]. by intros row [? _].
    + pose proof (take_indices_all F []) as Hti. simpl in Hti.
      rewrite HFlen in Hti. exact Hti.
  - exists (rigid n). rewrite length_rigid, HKlen.
    split; [done |]. split; [apply rigid_nonzero; unfold n; lia |]. done.
Qed.

(** A well-formed beam in which no node has a restraint flag set. *)
Definition unrestrained_beam h (beam : loc) : Prop :=
  ∃ b ns,
    h !! beam = Some (OBeam b) ∧
    Beam.spans b ≠ [] ∧
    length (Beam.nodes b) = S (length (Beam.spans b)) ∧
    Forall (solvable_span h) (Beam.spans b) ∧
    nodes_read h (Beam.nodes b) ns ∧
    Forall unrestrained ns.

(** In exact arithmetic the solver detects every unstable structure: if
    the reduced free-DOF stiffness matrix that [solve] builds for a beam is
    singular, and in particular if the beam (a node per span end, spans of
    non-zero length) has no restraint flag set on any node, then [solve]
    raises the exception "Matriz Singular..." to its caller, and the store
    is as before the call: no span received internal forces. *)
Theorem singular_structure_raises h (beam : loc) :
  (∃ K_red F_red, reduced_system h beam K_red F_red ∧ singular_matrix K_red) ∨
  unrestrained_beam h beam →
  solve beam h = (Raise (Exn Exception singular_msg), h).
Proof.
  intros [(K_red & F_red & Hsys & Hsing) | (b & ns & Hb & Hs & Hlen & Hsp & Hns & Hfree)].
  - by eapply solve_singular_system.
  - destruct (unrestrained_reduced_system h beam b ns)
      as (K_red & F_red & Hsys & Hsing); try done.
    by eapply solve_singular_system.
Qed.

(** The beam of the scenario with both ends free. *)
Definition free_heap : heap :=
  [ OMaterial (Material.mk "C30" CONCRETE 30 500 26000);
    OSection (CrossSection.new 20 50);
    OBeam (Beam.mk "V1" [5%nat] [3%nat; 4%nat] (1, 0));
    ONode (Node.mk 0 0 0 0 [false; false]);
    ONode (Node.mk 1 6 0 0 [false; false]);
    OSpan (BeamSpan.mk 1 6 1 0 [6%nat] (Some 3%nat) (Some 4%nat) 0 0 0 0
             (Some ∅) ∅ None);
    OLoad (Load.new DISTRIBUTED 15 0 6) ].

Lemma singular_structure_raises_witness :
  solve 2 free_heap = (Raise (Exn Exception singular_msg), free_heap).
Proof.
  apply singular_structure_raises. right.
  exists (Beam.mk "V1" [5%nat] [3%nat; 4%nat] (1, 0)),
    [Node.mk 0 0 0 0 [false; false]; Node.mk 1 6 0 0 [false; false]].
  split; [reflexivity |]. split; [discriminate |]. split; [reflexivity |].
  split.
  { apply Forall_singleton. eexists. split; [reflexivity |]. simpl. lra. }
  split; [reflexivity |].
  repeat constructor.
Defined.

(** *** A mechanism that the elimination does not detect

    One span of 4 m, section 20x50, Ecs = 26000 MPa, 15 kN/m, pinned at
    the start and free at the end: the span can rotate about the pinned
    node. *)
Definition mechanism_build : M (loc * loc) :=
  mat ← alloc (OMaterial (Material.mk "C30" CONCRETE 30 500 26000));
  sec ← alloc (OSection (CrossSection.new 20 50));
  beam ← alloc (OBeam (Beam.new "V1"));
  span ← add_span beam 4 sec mat (0, 0) (1, 0) PINNED FREE;
  load ← alloc (OLoad (Load.new DISTRIBUTED 15 0 4));
  append_load span load;;
  mret (beam, span).

(** The store after [mechanism_build] on an empty store. *)
Definition mechanism_heap : heap :=
  [ OMaterial (Material.mk "C30" CONCRETE 30 500 26000);
    OSection (CrossSection.new 20 50);
    OBeam (Beam.mk "V1" [5%nat] [3%nat; 4%nat] (1, 0));
    ONode (Node.mk 0 0 0 0 [true; false]);
    ONode (Node.mk 1 (0 + 4 * 1) (0 + 4 * 0) 0 [false; false]);
    OSpan (BeamSpan.mk 1 4 1 0 [6%nat] (Some 3%nat) (Some 4%nat) 0 0 0 0
             (Some ∅) ∅ None);
    OLoad (Load.new DISTRIBUTED 15 0 4) ].

Lemma mechanism_build_run :
  mechanism_build [] = (Ok (2%nat, 5%nat), mechanism_heap).
Proof. reflexivity. Qed.

Definition mechanism_view : span_view :=
  {| sv_span := BeamSpan.mk 1 4 1 0 [6%nat] (Some 3%nat) (Some 4%nat) 0 0 0 0
                  (Some ∅) ∅ None;
     sv_section := CrossSection.new 20 50;
     sv_material := Material.mk "C30" CONCRETE 30 500 26000;
     sv_loads := [Load.new DISTRIBUTED 15 0 4] |}.

(** The factor E*I/L^3 of the span. *)
Definition mechanism_c : R :=
  26000 * 1000 * (CrossSection.inertia (CrossSection.new 20 50) * / 100000000) / 4 ^ 3.

Definition mechanism_K : matrix :=
  let c := mechanism_c in
  [ [0 + c * 12;      0 + c * (6 * 4);     0 + c * -12;        0 + c * (6 * 4)];
    [0 + c * (6 * 4); 0 + c * (4 * 4 ^ 2); 0 + c * - (6 * 4);  0 + c * (2 * 4 ^ 2)];
    [0 + c * -12;     0 + c * - (6 * 4);   0 + c * 12;         0 + c * - (6 * 4)];
    [0 + c * (6 * 4); 0 + c * (2 * 4 ^ 2); 0 + c * - (6 * 4);  0 + c * (4 * 4 ^ 2)] ].

Definition mechanism_F : vector :=
  [0 + - (0 + 15 * 4 / 2); 0 + - (0 + 15 * 4 ^ 2 / 12);
   0 + - (0 + 15 * 4 / 2); 0 + - (0 + - (15) * 4 ^ 2 / 12)].

Lemma mechanism_K_run :
  assemble_stiffness_matrix [5%nat] 0 (zeros2 4 4) mechanism_heap
    = (Ok mechanism_K, mechanism_heap).
Proof.
  assert (Hview : view_span 5 mechanism_heap = (Ok mechanism_view, mechanism_heap))
    by reflexivity.
  assert (Hk : span_stiffness mechanism_view =
               Ok (map (scale mechanism_c) (k_pattern 4))).
  { unfold span_stiffness, local_stiffness.
    cbn [sv_material sv_section sv_span Material.Ecs BeamSpan.length mechanism_view].
    rewrite div_ok by lra. reflexivity. }
  cbn [assemble_stiffness_matrix].
  apply wp_eq. apply wp_bind.
  eapply wp_of_run; [exact Hview |]. cbn beta iota.
  rewrite Hk. wp_step. cbn. done.
Qed.

Lemma mechanism_F_run :
  assemble_load_vector [5%nat] 0 (zeros 4) mechanism_heap
    = (Ok mechanism_F, mechanism_heap).
Proof.
  assert (Hview : view_span 5 mechanism_heap = (Ok mechanism_view, mechanism_heap))
    by reflexivity.
  assert (Hf : fixed_end_forces 4 [Load.new DISTRIBUTED 15 0 4] (zeros 4) =
               Ok [0 + 15 * 4 / 2; 0 + 15 * 4 ^ 2 / 12;
                   0 + 15 * 4 / 2; 0 + - (15) * 4 ^ 2 / 12]).
  { cbn. rewrite decide_True by reflexivity. reflexivity. }
  cbn [assemble_load_vector].
  apply wp_eq. apply wp_bind.
  eapply wp_of_run; [exact Hview |]. cbn beta iota.
  cbn [sv_span sv_loads mechanism_view BeamSpan.length].
  rewrite Hf. wp_step. cbn. done.
Qed.

(** The free degrees of freedom are the rotation of the pinned node and the
    translation and rotation of the free node; the reduced stiffness matrix
    maps the rotation about the pinned node, (1, L, 1), to zero. *)
Lemma mechanism_singular :
  ∃ K_red F_red,
    reduced_system mechanism_heap 2 K_red F_red ∧ singular_matrix K_red.
Proof.
  set (c := mechanism_c).
  exists [ [0 + c * (4 * 4 ^ 2); 0 + c * - (6 * 4);  0 + c * (2 * 4 ^ 2)];
           [0 + c * - (6 * 4);   0 + c * 12;         0 + c * - (6 * 4)];
           [0 + c * (2 * 4 ^ 2); 0 + c * - (6 * 4);  0 + c * (4 * 4 ^ 2)] ],
         [0 + - (0 + 15 * 4 ^ 2 / 12);
          0 + - (0 + 15 * 4 / 2); 0 + - (0 + - (15) * 4 ^ 2 / 12)].
  split.
  - exists (Beam.mk "V1" [5%nat] [3%nat; 4%nat] (1, 0)), mechanism_K, mechanism_F,
      [Node.mk 0 0 0 0 [true; false];
       Node.mk 1 (0 + 4 * 1) (0 + 4 * 0) 0 [false; false]],
      [1; 2; 3]%nat.
    split; [reflexivity |]. split; [discriminate |]. split; [discriminate |].
    split; [apply mechanism_K_run |]. split; [apply mechanism_F_run |].
    split; [reflexivity |]. split; [reflexivity |]. split; reflexivity.
  - exists [1; 4; 1]. split; [reflexivity |].
    split; [apply Exists_cons_hd; lra |].
    repeat apply Forall_cons_2; try apply Forall_nil_2;
      (split; [reflexivity | cbn; lra]).
Qed.

End Instability.

Section UndetectedMechanism.

Import PrimFloat.

(** The same span as the binary64 solver reads it. *)
Definition mechanism_span : Binary64.span_view :=
  {| Binary64.sv_length := 4%float;
     Binary64.sv_Ecs := 26000%float;
     Binary64.sv_bw := 20%float;
     Binary64.sv_h := 50%float;
     Binary64.sv_loads := [(DISTRIBUTED, 15%float)] |}.

Definition mechanism_nodes : list Node.t :=
  [Node.mk 0 0 0 0 [true; false];
   Node.mk 1 (0 + 4 * 1) (0 + 4 * 0) 0 [false; false]].

(** C3 (defect of the code). The beam that [add_span] builds for one 4 m
    span pinned at the start and free at the end is a mechanism: in exact
    arithmetic its reduced stiffness matrix is singular, and an exact
    elimination raises "Matriz Singular...".  In binary64, in which the
    code runs, the elimination of the reduced system over the free degrees
    of freedom 1, 2 and 3 meets the pivots 54166.666666666664,
    -10156.250000000002 and -2^-39 (about -1.8e-12), none of which is
    zero, so [numpy.linalg.solve] raises nothing: [solve] returns and
    stores on the span the end forces 94, 20, 34 and -108 (shear_left,
    moment_left, shear_right, moment_right). *)
Theorem mechanism_not_detected :
  mechanism_build [] = (Ok (2%nat, 5%nat), mechanism_heap) ∧
  map_M read_node [3%nat; 4%nat] mechanism_heap =
    (Ok mechanism_nodes, mechanism_heap) ∧
  (∃ K_red F_red,
     reduced_system mechanism_heap 2 K_red F_red ∧ singular_matrix K_red) ∧
  MatrixSolver.solve 2 mechanism_heap =
    (Raise (Exn Exception MatrixSolver.singular_msg), mechanism_heap) ∧
  (∃ K F,
     Binary64.assemble_stiffness_matrix [mechanism_span] 0
       (Binary64.zeros2 4 4) = Ok K ∧
     Binary64.assemble_load_vector [mechanism_span] 0 (Binary64.zeros 4)
       = Ok F ∧
     MatrixSolver.free_dofs_from 0 mechanism_nodes = Ok [1; 2; 3]%nat ∧
     ∃ K_red F_red,
       Binary64.ix_ K [1; 2; 3]%nat [1; 2; 3]%nat = Ok K_red ∧
       Binary64.take_indices F [1; 2; 3]%nat = Ok F_red ∧
       Binary64.pivots 3 (zip K_red F_red) =
         [0x1.a72d555555555p+15; -0x1.3d62000000001p+13; -0x1p-39]%float) ∧
  Binary64.solve [mechanism_span] mechanism_nodes =
    Ok [(94, 20, 34, -108)%float].
Proof.
  split; [apply mechanism_build_run |]. split; [reflexivity |].
  split; [apply mechanism_singular |]. split.
  - destruct mechanism_singular as (K_red & F_red & Hsys & Hsing).
    by eapply solve_singular_system.
  - split; [| vm_compute; reflexivity].
    eexists _, _. split; [reflexivity |]. split; [reflexivity |].
    split; [reflexivity |].
    eexists _, _. split; [reflexivity |]. split; [reflexivity |].
    vm_compute. reflexivity.
Qed.

End UndetectedMechanism.

(** ** Optimizer: selection of the best candidate *)

Section Selection.

Import OptimizerEngine.

Lemma min_by_cost_elem (l : list trial) : ∀ (b : trial),
  min_by_cost b l ∈ b :: l.
Proof.
  induction l as [| r l IH]; intros b; simpl; [set_solver |].
  destruct (Py.ltb (t_cost r) (t_cost b)).
  - pose proof (IH r) as Hr. apply elem_of_cons in Hr as [-> | Hr];
      [apply elem_of_cons; right; apply elem_of_cons; by left |
       apply elem_of_cons; right; apply elem_of_cons; by right].
  - pose proof (IH b) as Hb. apply elem_of_cons in Hb as [Hb | Hb];
      [apply elem_of_cons; by left |
       apply elem_of_cons; right; apply elem_of_cons; by right].
Qed.

Lemma min_by_cost_le (l : list trial) : ∀ (b r : trial),
  r ∈ b :: l → t_cost (min_by_cost b l) <= t_cost r.
Proof.
  induction l as [| x l IH]; intros b r Hr; simpl.
  - apply list_elem_of_singleton in Hr as ->. lra.
  - destruct (Rlt_dec (t_cost x) (t_cost b)) as [Hlt | Hge].
    + rewrite ltb_true by done.
      apply elem_of_cons in Hr as [-> | Hr].
      * pose proof (IH x x ltac:(set_solver)). lra.
      * by apply IH.
    + rewrite ltb_false by lra.
      apply elem_of_cons in Hr as [-> | Hr].
      * apply IH. set_solver.
      * apply elem_of_cons in Hr as [-> | Hr].
        -- pose proof (IH b b ltac:(set_solver)). lra.
        -- apply IH. set_solver.
Qed.

Lemma is_valid_spec (r : trial) : is_valid r = true ↔ t_status r = "OK".
Proof. unfold is_valid. rewrite bool_decide_eq_true. done. Qed.

(** The best candidate is a trial with status OK of least cost among the
    trials with status OK; without such a trial there is no best candidate. *)
Lemma select_best_spec (h_orig : R) (results : list trial) :
  match select_best h_orig results with
  | Report _ best all_trials _ =>
      all_trials = results ∧ best ∈ results ∧ t_status best = "OK" ∧
      ∀ r, r ∈ results → t_status r = "OK" → t_cost best <= t_cost r
  | ReportError _ => Forall (λ r, t_status r ≠ "OK") results
  end.
Proof.
  unfold select_best.
  destruct (filter (λ r, is_valid r = true) results) as [| r0 rest] eqn:Hf.
  - apply Forall_forall. intros r Hr Hok.
    assert (r ∈ filter (λ r, is_valid r = true) results) as Hin.
    { apply list_elem_of_filter. split; [by apply is_valid_spec | done]. }
    rewrite Hf in Hin. by apply elem_of_nil in Hin.
  - pose proof (min_by_cost_elem rest r0) as Hin.
    rewrite <- Hf in Hin. apply list_elem_of_filter in Hin as [Hv Hin].
    split; [done |]. split; [done |]. split; [by apply is_valid_spec |].
    intros r Hr Hok. apply min_by_cost_le. rewrite <- Hf.
    apply list_elem_of_filter. split; [by apply is_valid_spec | done].
Qed.

(** A failed trial is left out even when an accepted trial costs more than
    the sentinel. *)
Example select_best_ignores_sentinel :
  let ok := {| t_h := 35; t_status := "OK"; t_cost := 100000;
               t_steel_kg := Some 0; t_conc_m3 := Some 0; t_as_pos := None |} in
  ∃ original rec,
    select_best 50 [trial_falha_els 30; ok] =
      Report original ok [trial_falha_els 30; ok] rec.
Proof.
  intros ok. unfold select_best.
  assert (Hf : filter (λ r, is_valid r = true) [trial_falha_els 30; ok] = [ok]).
  { rewrite filter_cons_False by (by rewrite is_valid_spec).
    rewrite filter_cons_True by (by rewrite is_valid_spec). done. }
  rewrite Hf. simpl. eauto.
Qed.

End Selection.

Local Close Scope R_scope.

(** ** Optimizer: the trials leave the objects of the caller alone *)

(** The references that an object holds. *)
Definition refs (o : obj) : list loc :=
  match o with
  | OSpan s =>
      BeamSpan.section s :: BeamSpan.material s :: BeamSpan.loads s ++
      option_list (BeamSpan.start_node s) ++ option_list (BeamSpan.end_node s)
  | OBeam b => Beam.spans b ++ Beam.nodes b
  | _ => []
  end.

(** [reach h l l']: the object at [l'] can be reached from [l] by following
    attributes. *)
Inductive reach (h : heap) : loc → loc → Prop :=
| reach_here l : reach h l l
| reach_field l o l' l'' :
    h !! l = Some o → l' ∈ refs o → reach h l' l'' → reach h l l''.

(** Every reference of [o] points at or above [n]. *)
Definition obj_fresh (n : loc) (o : obj) : Prop := Forall (le n) (refs o).

(** The objects at or above [n] refer only to objects at or above [n]. *)
Definition region_closed (n : loc) (h : heap) : Prop :=
  ∀ l o, n ≤ l → h !! l = Some o → obj_fresh n o.

Definition unchanged_below (n : loc) (h0 h : heap) : Prop :=
  ∀ l, l < n → h !! l = h0 !! l.

(** The invariant of a trial that started in heap [h0] with [n] objects. *)
Record inv (n : loc) (h0 h : heap) : Prop := Inv {
  inv_len : n ≤ length h;
  inv_frame : unchanged_below n h0 h;
  inv_closed : region_closed n h
}.

(** [m] keeps the invariant, whether it returns or raises, and a returned
    value satisfies [P]. *)
Definition keeps {A} (n : loc) (h0 : heap) (m : M A) (P : A → Prop) : Prop :=
  ∀ h, inv n h0 h →
    wp m h (λ r h', inv n h0 h' ∧ match r with Ok a => P a | Raise _ => True end).

Definition span_fresh (n : loc) (s : BeamSpan.t) : Prop :=
  n ≤ BeamSpan.section s ∧ n ≤ BeamSpan.material s ∧
  Forall (le n) (BeamSpan.loads s).

Definition beam_fresh (n : loc) (b : Beam.t) : Prop :=
  Forall (le n) (Beam.spans b) ∧ Forall (le n) (Beam.nodes b).

Section Frame.

Implicit Types (h : heap) (l n : loc) (o : obj).

Lemma reach_closed n h l l' :
  region_closed n h → n ≤ l → reach h l l' → n ≤ l'.
Proof.
  intros Hc Hl Hr. induction Hr as [| l o l' l'' Ho Hin _ IH]; [done |].
  apply IH. specialize (Hc l o Hl Ho).
  unfold obj_fresh in Hc. rewrite Forall_forall in Hc. by apply Hc.
Qed.

Lemma obj_fresh_span n s : obj_fresh n (OSpan s) → span_fresh n s.
Proof.
  unfold obj_fresh, span_fresh. simpl. intros H.
  apply Forall_cons in H as [H1 H]. apply Forall_cons in H as [H2 H].
  apply Forall_app in H as [H3 _]. done.
Qed.

Lemma obj_fresh_beam n b : obj_fresh n (OBeam b) → beam_fresh n b.
Proof. unfold obj_fresh, beam_fresh. simpl. by rewrite Forall_app. Qed.

Lemma inv_start h : inv (length h) h h.
Proof.
  split; [done | done |].
  intros l o Hl Ho. apply lookup_lt_Some in Ho. lia.
Qed.

Lemma inv_prefix n h0 h : n = length h0 → inv n h0 h → h0 `prefix_of` h.
Proof.
  intros -> [Hlen Hf _]. exists (drop (length h0) h).
  rewrite <- (take_drop (length h0) h) at 1. f_equal.
  apply list_eq. intros i. destruct (decide (i < length h0)) as [Hi | Hi].
  - rewrite lookup_take_lt by done. by apply Hf.
  - rewrite lookup_take_ge by lia. symmetry. apply lookup_ge_None. lia.
Qed.

Context {A B : Type}.

Lemma keeps_bind n h0 (m : M A) (f : A → M B) P Q :
  keeps n h0 m P → (∀ a, P a → keeps n h0 (f a) Q) → keeps n h0 (m ≫= f) Q.
Proof.
  intros Hm Hf h Hi. apply wp_bind. eapply wp_mono; [by apply Hm |].
  intros [a | e] h' [Hi' Ha]; [by apply Hf | done].
Qed.

Lemma keeps_mono n h0 (m : M A) (P Q : A → Prop) :
  keeps n h0 m P → (∀ a, P a → Q a) → keeps n h0 m Q.
Proof.
  intros Hm HPQ h Hi. eapply wp_mono; [by apply Hm |].
  intros [a | e] h' [Hi' Ha]; auto.
Qed.

Lemma keeps_ret n h0 (a : A) (P : A → Prop) : P a → keeps n h0 (mret a) P.
Proof. intros Ha h Hi. by apply wp_ret. Qed.

Lemma keeps_lift n h0 (r : result A) : keeps n h0 (lift r) (λ _, True).
Proof. intros h Hi. apply wp_lift. by destruct r. Qed.

Lemma keeps_raise n h0 c msg (P : A → Prop) : keeps n h0 (raise c msg) P.
Proof. intros h Hi. by apply wp_lift. Qed.

Lemma keeps_attr_error n h0 (P : A → Prop) : keeps n h0 attr_error P.
Proof. apply keeps_raise. Qed.

Lemma keeps_try_except n h0 (m : M A) handler P :
  keeps n h0 m P → (∀ e, keeps n h0 (handler e) P) →
  keeps n h0 (try_except m handler) P.
Proof.
  intros Hm Hh h Hi. specialize (Hm h Hi). unfold wp, try_except in *.
  destruct (m h) as [[a | e] h']; simpl in *; [done |].
  apply Hh. by destruct Hm.
Qed.

End Frame.

Section FrameHeap.

Implicit Types (h : heap) (l n : loc) (o : obj).

Lemma keeps_deref n h0 l :
  keeps n h0 (deref l) (λ o, n ≤ l → obj_fresh n o).
Proof.
  intros h Hi. unfold wp, deref. destruct (h !! l) as [o |] eqn:Ho; simpl.
  - split; [done |]. intros Hl. by eapply inv_closed.
  - done.
Qed.

Lemma keeps_store n h0 l o :
  n ≤ l → obj_fresh n o → keeps n h0 (store l o) (λ _, True).
Proof.
  intros Hl Ho h [Hlen Hf Hc]. apply wp_store. split; [| done]. split.
  - by rewrite length_insert.
  - intros l' Hl'. rewrite list_lookup_insert_ne by lia. by apply Hf.
  - intros l' o' Hl' Ho'. destruct (decide (l = l')) as [<- | Hne].
    + destruct (decide (l < length h)) as [Hlt | Hge].
      * rewrite list_lookup_insert_eq in Ho' by done. by injection Ho' as <-.
      * apply lookup_lt_Some in Ho'. rewrite length_insert in Ho'. lia.
    + rewrite list_lookup_insert_ne in Ho' by done. by eapply Hc.
Qed.

Lemma keeps_alloc n h0 o : obj_fresh n o → keeps n h0 (alloc o) (le n).
Proof.
  intros Ho h [Hlen Hf Hc]. apply wp_alloc. split; [| done]. split.
  - rewrite length_app. lia.
  - intros l Hl. rewrite lookup_app_l by lia. by apply Hf.
  - intros l o' Hl Ho'. rewrite heap_lookup_snoc in Ho'.
    repeat case_decide; [by injection Ho' as <- | by eapply Hc | done].
Qed.

Lemma keeps_read_span_refs n h0 l :
  n ≤ l → keeps n h0 (read_span l) (λ s, obj_fresh n (OSpan s)).
Proof.
  intros Hl. eapply keeps_bind; [apply keeps_deref |].
  intros o Ho. destruct o; try apply keeps_attr_error.
  apply keeps_ret. auto.
Qed.

Lemma keeps_read_span n h0 l : n ≤ l → keeps n h0 (read_span l) (span_fresh n).
Proof.
  intros Hl. eapply keeps_mono; [by apply keeps_read_span_refs |].
  apply obj_fresh_span.
Qed.

Lemma keeps_read_beam n h0 l : n ≤ l → keeps n h0 (read_beam l) (beam_fresh n).
Proof.
  intros Hl. eapply keeps_bind; [apply keeps_deref |].
  intros o Ho. destruct o; try apply keeps_attr_error.
  apply keeps_ret. apply obj_fresh_beam. auto.
Qed.

Lemma keeps_read_any_span n h0 l : keeps n h0 (read_span l) (λ _, True).
Proof.
  eapply keeps_bind; [apply keeps_deref |].
  intros o _. destruct o; try apply keeps_attr_error. by apply keeps_ret.
Qed.

Lemma keeps_read_any_beam n h0 l : keeps n h0 (read_beam l) (λ _, True).
Proof.
  eapply keeps_bind; [apply keeps_deref |].
  intros o _. destruct o; try apply keeps_attr_error. by apply keeps_ret.
Qed.

Lemma keeps_read_section n h0 l : keeps n h0 (read_section l) (λ _, True).
Proof.
  eapply keeps_bind; [apply keeps_deref |].
  intros o _. destruct o; try apply keeps_attr_error. by apply keeps_ret.
Qed.

Lemma keeps_read_material n h0 l : keeps n h0 (read_material l) (λ _, True).
Proof.
  eapply keeps_bind; [apply keeps_deref |].
  intros o _. destruct o; try apply keeps_attr_error. by apply keeps_ret.
Qed.

Lemma keeps_read_load n h0 l : keeps n h0 (read_load l) (λ _, True).
Proof.
  eapply keeps_bind; [apply keeps_deref |].
  intros o _. destruct o; try apply keeps_attr_error. by apply keeps_ret.
Qed.

Lemma keeps_read_node n h0 l : keeps n h0 (read_node l) (λ _, True).
Proof.
  eapply keeps_bind; [apply keeps_deref |].
  intros o _. destruct o; try apply keeps_attr_error. by apply keeps_ret.
Qed.

Lemma keeps_update_section n h0 l f :
  n ≤ l → keeps n h0 (update_section l f) (λ _, True).
Proof.
  intros Hl. eapply keeps_bind; [apply keeps_read_section |].
  intros s _. apply keeps_store; [done | apply Forall_nil_2].
Qed.

Lemma keeps_update_load n h0 l f :
  n ≤ l → keeps n h0 (update_load l f) (λ _, True).
Proof.
  intros Hl. eapply keeps_bind; [apply keeps_read_load |].
  intros s _. apply keeps_store; [done | apply Forall_nil_2].
Qed.

(** An assignment to an attribute of a span that holds no reference. *)
Lemma keeps_update_span n h0 l f :
  n ≤ l → (∀ s, refs (OSpan (f s)) = refs (OSpan s)) →
  keeps n h0 (update_span l f) (λ _, True).
Proof.
  intros Hl Hf. eapply keeps_bind; [by apply keeps_read_span_refs |].
  intros s Hs. apply keeps_store; [done |]. unfold obj_fresh. by rewrite Hf.
Qed.

End FrameHeap.

Section FrameLoops.

Context {A B : Type}.

Lemma keeps_for_each n h0 (P : A → Prop) (f : A → M unit) (l : list A) :
  Forall P l → (∀ x, P x → keeps n h0 (f x) (λ _, True)) →
  keeps n h0 (for_each l f) (λ _, True).
Proof.
  intros Hl Hf. induction Hl as [| x l Hx _ IH]; simpl.
  - by apply keeps_ret.
  - eapply keeps_bind; [by apply Hf |]. auto.
Qed.

Lemma keeps_map_M n h0 (f : A → M B) (l : list A) :
  (∀ x, keeps n h0 (f x) (λ _, True)) →
  keeps n h0 (map_M f l) (λ _, True).
Proof.
  intros Hf. induction l as [| x l IH]; simpl.
  - by apply keeps_ret.
  - eapply keeps_bind; [by apply Hf |]. intros y _.
    eapply keeps_bind; [exact IH |]. intros ys _. by apply keeps_ret.
Qed.

End FrameLoops.

(** Steps through a [≫=] whose first action keeps the invariant by one of
    the rules above. *)
Ltac keeps_leaf :=
  first
    [ apply keeps_read_section | apply keeps_read_material
    | apply keeps_read_load | apply keeps_read_node | apply keeps_lift
    | apply keeps_read_span; assumption
    | apply keeps_read_beam; assumption
    | apply keeps_read_any_span | apply keeps_read_any_beam
    | apply keeps_update_span; [assumption | reflexivity]
    | apply keeps_update_section; assumption
    | apply keeps_update_load; assumption
    | apply keeps_map_M; intros; keeps_leaf ].

Ltac keeps_step :=
  lazymatch goal with
  | |- keeps _ _ (_ ≫= _) _ => eapply keeps_bind; [keeps_leaf | intros ? ?]
  | |- keeps _ _ (mret _) _ => by apply keeps_ret
  | |- keeps _ _ (raise _ _) _ => apply keeps_raise
  | |- keeps _ _ _ _ => eapply keeps_mono; [keeps_leaf | done]
  end.

Section FrameStages.

Implicit Types (h : heap) (l n : loc).

Lemma keeps_view_span n h0 l :
  keeps n h0 (MatrixSolver.view_span l) (λ _, True).
Proof. unfold MatrixSolver.view_span. by repeat keeps_step. Qed.

Lemma keeps_assemble_stiffness_matrix n h0 (spans : list loc) :
  ∀ idx K, keeps n h0 (MatrixSolver.assemble_stiffness_matrix spans idx K) (λ _, True).
Proof.
  induction spans as [| span rest IH]; intros idx K; simpl; [keeps_step |].
  eapply keeps_bind; [apply keeps_view_span |]. intros v _.
  do 2 keeps_step. apply IH.
Qed.

Lemma keeps_assemble_load_vector n h0 (spans : list loc) :
  ∀ idx F, keeps n h0 (MatrixSolver.assemble_load_vector spans idx F) (λ _, True).
Proof.
  induction spans as [| span rest IH]; intros idx F; simpl; [keeps_step |].
  eapply keeps_bind; [apply keeps_view_span |]. intros v _.
  do 2 keeps_step. apply IH.
Qed.

Lemma keeps_solve_system n h0 nodes K F d :
  keeps n h0 (MatrixSolver.solve_system nodes K F d) (λ _, True).
Proof. unfold MatrixSolver.solve_system. by repeat keeps_step. Qed.

Lemma keeps_compute_internal_forces n h0 (spans : list loc) :
  Forall (le n) spans →
  ∀ idx d, keeps n h0 (MatrixSolver.compute_internal_forces spans idx d) (λ _, True).
Proof.
  induction 1 as [| span rest Hspan _ IH]; intros idx d; simpl; [keeps_step |].
  eapply keeps_bind; [apply keeps_view_span |]. intros v _.
  keeps_step. destruct a as [[[sl ml] sr] mr].
  keeps_step. apply IH.
Qed.

Lemma keeps_solve n h0 beam :
  n ≤ beam → keeps n h0 (MatrixSolver.solve beam) (λ _, True).
Proof.
  intros Hb. unfold MatrixSolver.solve.
  keeps_step.
  eapply keeps_bind;
    [case_decide; [apply keeps_raise | by apply (keeps_ret _ _ _ (λ _, True))] |].
  intros _ _. keeps_step.
  eapply keeps_bind;
    [case_decide; [apply keeps_raise | by apply (keeps_ret _ _ _ (λ _, True))] |].
  intros _ _. keeps_step.
  eapply keeps_bind; [apply keeps_assemble_stiffness_matrix |]. intros K _.
  keeps_step.
  eapply keeps_bind; [apply keeps_assemble_load_vector |]. intros F _.
  keeps_step.
  eapply keeps_bind; [apply keeps_solve_system |]. intros d _.
  keeps_step. apply keeps_compute_internal_forces.
  match goal with H : beam_fresh n _ |- _ => apply H end.
Qed.

End FrameStages.

Section FrameDesign.

Implicit Types (h : heap) (l n : loc).

Lemma keeps_design_flexure n h0 self span :
  n ≤ span → keeps n h0 (ELUDesignEngine.design_flexure self span) (λ _, True).
Proof. intros Hs. unfold ELUDesignEngine.design_flexure. by repeat keeps_step. Qed.

Lemma keeps_design_shear n h0 self span :
  n ≤ span → keeps n h0 (ELUDesignEngine.design_shear self span) (λ _, True).
Proof.
  intros Hs. unfold ELUDesignEngine.design_shear.
  do 4 keeps_step. destruct a2 as [[V_sd Asw_s_req] status_biela].
  eapply keeps_bind with (P := λ _, True); [| intros _ _; keeps_step].
  destruct (BeamSpan.design_results a); keeps_step.
Qed.

Lemma keeps_run_design n h0 self beam :
  n ≤ beam → keeps n h0 (ELUDesignEngine.run_design self beam) (λ _, True).
Proof.
  intros Hb. unfold ELUDesignEngine.run_design. keeps_step.
  eapply keeps_for_each; [by apply H |]. intros span Hspan.
  eapply keeps_bind; [by apply keeps_design_flexure |]. intros _ _.
  by apply keeps_design_shear.
Qed.

Lemma keeps_check_span n h0 self span :
  n ≤ span → keeps n h0 (ELSCheckerEngine.check_span self span) (λ _, True).
Proof.
  intros Hs. unfold ELSCheckerEngine.check_span. keeps_step.
  destruct (negb _); [keeps_step |].
  do 3 keeps_step. destruct a2 as [[wk wk_limit] status_crack].
  do 2 keeps_step. destruct a3 as [[[inst total] limit] status_deflection].
  keeps_step.
Qed.

Lemma keeps_run_checks n h0 self beam :
  n ≤ beam → keeps n h0 (ELSCheckerEngine.run_checks self beam) (λ _, True).
Proof.
  intros Hb. unfold ELSCheckerEngine.run_checks. keeps_step.
  eapply keeps_for_each; [by apply H |]. intros span Hspan.
  by apply keeps_check_span.
Qed.

Import OptimizerEngine.

Lemma keeps_apply_geometry n h0 trial_beam h_test :
  n ≤ trial_beam → keeps n h0 (apply_geometry trial_beam h_test) (λ _, True).
Proof.
  intros Hb. unfold apply_geometry. keeps_step.
  eapply keeps_for_each; [by apply H |]. intros span Hspan.
  keeps_step. destruct H0 as (Hsec & Hmat & Hloads).
  do 2 keeps_step. destruct H1 as (_ & _ & Hloads').
  eapply keeps_for_each; [exact Hloads' |]. intros load Hload.
  keeps_step. case_decide; [| keeps_step].
  do 3 keeps_step.
Qed.

Lemma keeps_quantities_loop n h0 bw h_test (spans : list loc) :
  ∀ acc, keeps n h0 (quantities_loop bw h_test spans acc) (λ _, True).
Proof.
  induction spans as [| span rest IH]; intros acc; simpl; [keeps_step |].
  do 2 keeps_step. destruct (negb _); [keeps_step |].
  do 2 keeps_step. apply IH.
Qed.

Lemma keeps_try_body n h0 self bw trial_beam h_test :
  n ≤ trial_beam → keeps n h0 (try_body self bw trial_beam h_test) (λ _, True).
Proof.
  intros Hb. unfold try_body.
  eapply keeps_bind; [by apply keeps_solve |]. intros _ _.
  eapply keeps_bind; [by apply keeps_run_design |]. intros _ _.
  eapply keeps_bind; [by apply keeps_run_checks |]. intros _ _.
  keeps_step.
  eapply keeps_bind; [apply keeps_quantities_loop |]. intros [acc valid] _.
  destruct (negb valid); [keeps_step |]. destruct acc as [[steel conc] form].
  eapply keeps_bind with (P := λ _, True).
  { destruct (last _); [by apply keeps_ret | apply keeps_raise]. }
  intros span _. keeps_step.
  eapply keeps_bind with (P := λ _, True).
  { destruct (BeamSpan.design_results _); [by apply keeps_ret | apply keeps_raise]. }
  intros as_pos _. keeps_step.
Qed.

End FrameDesign.

(** Every copy recorded in the memo of [deepcopy] is at or above [n]. *)
Definition memo_fresh (n : loc) (m : Copy.memo) : Prop :=
  map_Forall (λ _ l', n ≤ l') m.

Definition copied (n : loc) (p : loc * Copy.memo) : Prop :=
  n ≤ p.1 ∧ memo_fresh n p.2.

Definition copied_list (n : loc) (p : list loc * Copy.memo) : Prop :=
  Forall (le n) p.1 ∧ memo_fresh n p.2.

Definition copied_opt (n : loc) (p : option loc * Copy.memo) : Prop :=
  Forall (le n) (option_list p.1) ∧ memo_fresh n p.2.

Section FrameCopy.

Implicit Types (h : heap) (l n : loc) (m : Copy.memo).

Lemma keeps_copy_leaf n h0 m l :
  memo_fresh n m → keeps n h0 (Copy.copy_leaf m l) (copied n).
Proof.
  intros Hm. unfold Copy.copy_leaf. destruct (m !! l) as [l' |] eqn:Hl.
  - apply keeps_ret. split; [by apply (Hm l l') | done].
  - eapply keeps_bind; [apply keeps_deref |]. intros o _.
    destruct o; try apply keeps_attr_error.
    all: eapply keeps_bind; [apply keeps_alloc, Forall_nil_2 |];
      intros l' Hl'; apply keeps_ret; split; [done |];
      by apply map_Forall_insert_2.
Qed.

Lemma keeps_copy_leaves n h0 (ls : list loc) :
  ∀ m, memo_fresh n m → keeps n h0 (Copy.copy_leaves m ls) (copied_list n).
Proof.
  induction ls as [| l rest IH]; intros m Hm; simpl.
  - apply keeps_ret. split; [apply Forall_nil_2 | done].
  - eapply keeps_bind; [by apply keeps_copy_leaf |]. intros [l' m1] [Hl' Hm1].
    eapply keeps_bind; [by apply IH |]. intros [rest' m2] [Hrest Hm2].
    apply keeps_ret. split; [by apply Forall_cons | done].
Qed.

Lemma keeps_copy_opt_leaf n h0 m (l : option loc) :
  memo_fresh n m → keeps n h0 (Copy.copy_opt_leaf m l) (copied_opt n).
Proof.
  intros Hm. destruct l as [l |]; simpl.
  - eapply keeps_bind; [by apply keeps_copy_leaf |]. intros [l' m1] [Hl' Hm1].
    apply keeps_ret. split; [by apply Forall_singleton | done].
  - apply keeps_ret. split; [apply Forall_nil_2 | done].
Qed.

Lemma keeps_copy_span n h0 m l :
  memo_fresh n m → keeps n h0 (Copy.copy_span m l) (copied n).
Proof.
  intros Hm. unfold Copy.copy_span. destruct (m !! l) as [l' |] eqn:Hl.
  - apply keeps_ret. split; [by apply (Hm l l') | done].
  - keeps_step.
    eapply keeps_bind; [by apply keeps_copy_leaf |]. intros [sec m1] [Hsec Hm1].
    eapply keeps_bind; [by apply keeps_copy_leaf |]. intros [mat m2] [Hmat Hm2].
    eapply keeps_bind; [by apply keeps_copy_leaves |]. intros [lds m3] [Hlds Hm3].
    eapply keeps_bind; [by apply keeps_copy_opt_leaf |]. intros [sn m4] [Hsn Hm4].
    eapply keeps_bind; [by apply keeps_copy_opt_leaf |]. intros [en m5] [Hen Hm5].
    eapply keeps_bind.
    { apply keeps_alloc. unfold obj_fresh. simpl in *.
      repeat (apply Forall_cons; split; [done |]).
      repeat (apply Forall_app; split); done. }
    intros l' Hl'. apply keeps_ret. split; [done |].
    by apply map_Forall_insert_2.
Qed.

Lemma keeps_copy_spans n h0 (ls : list loc) :
  ∀ m, memo_fresh n m → keeps n h0 (Copy.copy_spans m ls) (copied_list n).
Proof.
  induction ls as [| l rest IH]; intros m Hm; simpl.
  - apply keeps_ret. split; [apply Forall_nil_2 | done].
  - eapply keeps_bind; [by apply keeps_copy_span |]. intros [l' m1] [Hl' Hm1].
    eapply keeps_bind; [by apply IH |]. intros [rest' m2] [Hrest Hm2].
    apply keeps_ret. split; [by apply Forall_cons | done].
Qed.

Lemma keeps_deepcopy n h0 beam : keeps n h0 (Copy.deepcopy beam) (le n).
Proof.
  unfold Copy.deepcopy. keeps_step.
  eapply keeps_bind; [apply keeps_copy_spans, map_Forall_empty |].
  intros [spans m1] [Hspans Hm1].
  eapply keeps_bind; [by apply keeps_copy_leaves |].
  intros [nodes m2] [Hnodes Hm2].
  apply keeps_alloc. unfold obj_fresh. simpl in *. by apply Forall_app.
Qed.

Import OptimizerEngine.

Lemma keeps_run_trial n h0 self original_beam bw h_test :
  keeps n h0 (run_trial self original_beam bw h_test) (λ _, True).
Proof.
  unfold run_trial.
  eapply keeps_bind; [apply keeps_deepcopy |]. intros trial_beam Hb.
  eapply keeps_bind; [by apply keeps_apply_geometry |]. intros _ _.
  apply keeps_try_except; [| intros e; by apply keeps_ret].
  eapply keeps_bind; [by apply keeps_try_body |]. intros r _.
  by apply keeps_ret.
Qed.

End FrameCopy.

(** [m] only adds objects: the heap before the call is an initial segment
    of the heap after it. *)
Definition grows {A} (m : M A) : Prop := ∀ h : heap, h `prefix_of` (m h).2.

Section Grows.

Lemma grows_bind {A B} (m : M A) (f : A → M B) :
  grows m → (∀ a, grows (f a)) → grows (m ≫= f).
Proof.
  intros Hm Hf h. specialize (Hm h). unfold mbind, M_bind.
  destruct (m h) as [[a | e] h1]; simpl in *; [| done].
  etrans; [exact Hm | apply Hf].
Qed.

Lemma grows_ret {A} (a : A) : grows (mret a : M A).
Proof. intros h. done. Qed.

Lemma grows_lift {A} (r : result A) : grows (lift r).
Proof. intros h. done. Qed.

Lemma grows_map_M {A B} (f : A → M B) (l : list A) :
  (∀ x, grows (f x)) → grows (map_M f l).
Proof.
  intros Hf. induction l as [| x l IH]; simpl; [by intros ? |].
  apply grows_bind; [apply Hf |]. intros y.
  apply grows_bind; [exact IH |]. intros ys. by intros ?.
Qed.

Lemma keeps_grows {A} (m : M A) (P : A → Prop) :
  (∀ h, keeps (length h) h m P) → grows m.
Proof.
  intros Hm h. destruct (Hm h h (inv_start h)) as [Hi _].
  by eapply inv_prefix.
Qed.

End Grows.

Example deepcopy_scenario :
  Copy.deepcopy 2 scenario_heap =
    (Ok 13,
     scenario_heap ++
     [ OSection (CrossSection.new 20 50);
       OMaterial (Material.mk "C30" CONCRETE 30 500 26000);
       OLoad (Load.new DISTRIBUTED 15 0 6);
       ONode (Node.mk 0 0 0 0 [true; false]);
       ONode (Node.mk 1 (0 + 6 * 1) (0 + 6 * 0) 0 [true; false]);
       OSpan (BeamSpan.mk 1 6 7 8 [9] (Some 10) (Some 11) 0 0 0 0
                (Some ∅) ∅ None);
       OBeam (Beam.mk "V1" [12] [10; 11] (1, 0)%R) ]).
Proof. reflexivity. Qed.

Section OriginalUntouched.

Import OptimizerEngine.

Lemma grows_deref l : grows (deref l).
Proof. intros h. unfold deref. by destruct (h !! l). Qed.

Lemma grows_read_beam l : grows (read_beam l).
Proof.
  apply grows_bind; [apply grows_deref |].
  intros o. destruct o; by intros ?.
Qed.

Lemma grows_read_span l : grows (read_span l).
Proof.
  apply grows_bind; [apply grows_deref |].
  intros o. destruct o; by intros ?.
Qed.

Lemma grows_read_section l : grows (read_section l).
Proof.
  apply grows_bind; [apply grows_deref |].
  intros o. destruct o; by intros ?.
Qed.

Lemma grows_run_trial self original_beam bw h_test :
  grows (run_trial self original_beam bw h_test).
Proof. eapply keeps_grows. intros h. apply keeps_run_trial. Qed.

Lemma grows_optimize_beam self original_beam :
  grows (optimize_beam self original_beam).
Proof.
  unfold optimize_beam.
  apply grows_bind; [apply grows_read_beam |]. intros b.
  apply grows_bind.
  { destruct (Beam.spans b); by intros ?. }
  intros span0.
  apply grows_bind; [apply grows_read_span |]. intros s0.
  apply grows_bind; [apply grows_read_section |]. intros sec0.
  apply grows_bind; [| intros results; by intros ?].
  apply grows_map_M. intros h_test. apply grows_run_trial.
Qed.

Lemma deepcopy_separate original_beam (h : heap) :
  match Copy.deepcopy original_beam h with
  | (Ok trial_beam, h1) => ∀ l, reach h1 trial_beam l → length h ≤ l
  | (Raise _, _) => True
  end.
Proof.
  pose proof (keeps_deepcopy (length h) h original_beam h (inv_start h)) as H.
  unfold wp in H. destruct (Copy.deepcopy original_beam h) as [[tb | e] h1];
    simpl in H; [| done].
  destruct H as [Hi Htb]. intros l Hl.
  eapply reach_closed; [by apply (inv_closed _ _ _ Hi) | exact Htb | exact Hl].
Qed.

(** C5. [optimize_beam] never mutates the original beam: the heap before
    the call is an initial segment of the heap after it, so every object
    that existed before the call (the original beam, its spans with their
    geometry, internal forces and result maps, their sections, loads and
    nodes) is exactly as it was, whether the trials return or raise.  The
    same holds for each single trial and the heap it starts in, which
    contains the copies of the earlier trials; and every object that can be
    reached from the beam a trial works on is a new object, not one of the
    heap before the copy: the copy shares nothing with the original. *)
Theorem optimize_beam_preserves_original (self : t) (original_beam : loc)
    (h : heap) :
  h `prefix_of` (optimize_beam self original_beam h).2 ∧
  (∀ bw h_test (hh : heap),
     hh `prefix_of` (run_trial self original_beam bw h_test hh).2) ∧
  (∀ hh : heap,
     match Copy.deepcopy original_beam hh with
     | (Ok trial_beam, h1) => ∀ l, reach h1 trial_beam l → length hh ≤ l
     | (Raise _, _) => True
     end).
Proof.
  split; [apply grows_optimize_beam |]. split.
  - intros bw h_test hh. apply grows_run_trial.
  - intros hh. apply deepcopy_separate.
Qed.

End OriginalUntouched.

(** ** Optimizer: what a trial records *)

Section WpAny.

Context {A B : Type}.

(** A first action about which nothing is known. *)
Lemma wp_bind_any (m : M A) (f : A → M B) (h : heap) Q :
  (∀ a h', wp (f a) h' Q) → (∀ e h', Q (Raise e) h') → wp (m ≫= f) h Q.
Proof.
  intros Hf He. apply wp_bind. unfold wp. destruct (m h) as [[a | e] h']; simpl.
  - apply Hf.
  - apply He.
Qed.

Lemma wp_deref_any (l : loc) (h : heap) Q :
  (∀ o, h !! l = Some o → Q (Ok o) h) → (∀ e, Q (Raise e) h) →
  wp (deref l) h Q.
Proof. intros Ho He. unfold wp, deref. destruct (h !! l); simpl; auto. Qed.

End WpAny.

Lemma wp_read_beam_any (l : loc) (h : heap) Q :
  (∀ b, h !! l = Some (OBeam b) → Q (Ok b) h) → (∀ e, Q (Raise e) h) →
  wp (read_beam l) h Q.
Proof.
  intros Hb He. apply wp_bind, wp_deref_any; [| done].
  intros o Ho. destruct o; first [by apply wp_ret, Hb | apply wp_lift, He].
Qed.

Lemma wp_read_span_any (l : loc) (h : heap) Q :
  (∀ s, h !! l = Some (OSpan s) → Q (Ok s) h) → (∀ e, Q (Raise e) h) →
  wp (read_span l) h Q.
Proof.
  intros Hb He. apply wp_bind, wp_deref_any; [| done].
  intros o Ho. destruct o; first [by apply wp_ret, Hb | apply wp_lift, He].
Qed.

Lemma wp_read_section_any (l : loc) (h : heap) Q :
  (∀ s, h !! l = Some (OSection s) → Q (Ok s) h) → (∀ e, Q (Raise e) h) →
  wp (read_section l) h Q.
Proof.
  intros Hb He. apply wp_bind, wp_deref_any; [| done].
  intros o Ho. destruct o; first [by apply wp_ret, Hb | apply wp_lift, He].
Qed.

(** The span at [span] passed, or failed, the serviceability checks. *)
Definition span_passes (h : heap) (span : loc) : Prop :=
  ∃ s, h !! span = Some (OSpan s) ∧
       ServiceabilityResult.status_crack <$> BeamSpan.els_results s = Some "OK" ∧
       ServiceabilityResult.status_deflection <$> BeamSpan.els_results s = Some "OK".

Definition span_fails (h : heap) (span : loc) : Prop :=
  ∃ s r, h !! span = Some (OSpan s) ∧ BeamSpan.els_results s = Some r ∧
         (ServiceabilityResult.status_crack r ≠ "OK" ∨
          ServiceabilityResult.status_deflection r ≠ "OK").

Section TrialRecord.

Import OptimizerEngine.

Lemma els_passed_true s :
  els_passed s = Ok true →
  ServiceabilityResult.status_crack <$> BeamSpan.els_results s = Some "OK" ∧
  ServiceabilityResult.status_deflection <$> BeamSpan.els_results s = Some "OK".
Proof.
  unfold els_passed. destruct (BeamSpan.els_results s) as [r |]; [| done].
  intros [= H]. apply andb_true_iff in H as [H1 H2].
  apply bool_decide_eq_true in H1, H2. simpl. by rewrite H1, H2.
Qed.

Lemma els_passed_false s :
  els_passed s = Ok false →
  ∃ r, BeamSpan.els_results s = Some r ∧
       (ServiceabilityResult.status_crack r ≠ "OK" ∨
        ServiceabilityResult.status_deflection r ≠ "OK").
Proof.
  unfold els_passed. destruct (BeamSpan.els_results s) as [r |]; [| done].
  intros [= H]. exists r. split; [done |].
  apply andb_false_iff in H as [H | H]; apply bool_decide_eq_false in H; auto.
Qed.

(** The quantity loop reads only; it ends with [valid_design] true when
    every span passed, and false when it met a span that failed. *)
Lemma quantities_loop_spec bw h_test (spans : list loc) : ∀ acc (h : heap),
  wp (quantities_loop bw h_test spans acc) h (λ r h',
    h' = h ∧
    match r with
    | Ok (_, true) => Forall (span_passes h) spans
    | Ok (_, false) => Exists (span_fails h) spans
    | Raise _ => True
    end).
Proof.
  induction spans as [| span rest IH]; intros acc h; simpl.
  - apply wp_ret. split; [done | apply Forall_nil_2].
  - apply wp_bind, wp_read_span_any; [| done]. intros s Hs.
    apply wp_bind, wp_lift. destruct (els_passed s) as [[|] | e] eqn:Hp; [| | done].
    + simpl. apply wp_bind, wp_read_section_any; [| done]. intros sec Hsec.
      apply wp_bind, wp_lift.
      destruct (span_quantities bw h_test s sec acc) as [acc' | e]; [| done].
      eapply wp_mono; [apply IH |]. intros r h' [-> Hr]. split; [done |].
      destruct r as [[acc2 [|]] | e]; [| | done].
      * apply Forall_cons. split; [| done]. exists s. split; [done |].
        by apply els_passed_true.
      * by apply Exists_cons_tl.
    + simpl. apply wp_ret. split; [done |]. apply Exists_cons_hd.
      apply els_passed_false in Hp as (r & Hr & Hor). by exists s, r.
Qed.

End TrialRecord.

(** What one iteration of the search appends to [results], for a trial that
    started in heap [hh]: the body of the [try] block runs on the copy after
    the geometry step, and its outcome decides the record. *)
Definition trial_record (self : OptimizerEngine.t) (bw : R)
    (original_beam : loc) (h_test : Z) (hh : heap)
    (r : OptimizerEngine.trial) : Prop :=
  ∃ trial_beam h1 h2,
    Copy.deepcopy original_beam hh = (Ok trial_beam, h1) ∧
    OptimizerEngine.apply_geometry trial_beam h_test h1 = (Ok tt, h2) ∧
    match OptimizerEngine.try_body self bw trial_beam h_test h2 with
    | (Ok (Some t), h3) =>
        r = t ∧ OptimizerEngine.t_h r = h_test ∧
        OptimizerEngine.t_status r = "OK" ∧
        ∃ b, h3 !! trial_beam = Some (OBeam b) ∧
             Forall (span_passes h3) (Beam.spans b)
    | (Ok None, h3) =>
        r = OptimizerEngine.trial_falha_els h_test ∧
        OptimizerEngine.t_status r ≠ "OK" ∧
        OptimizerEngine.t_cost r = OptimizerEngine.sentinel_cost ∧
        ∃ b, h3 !! trial_beam = Some (OBeam b) ∧
             Exists (span_fails h3) (Beam.spans b)
    | (Raise e, _) =>
        r = OptimizerEngine.trial_erro h_test e ∧
        OptimizerEngine.t_status r ≠ "OK" ∧
        OptimizerEngine.t_cost r = OptimizerEngine.sentinel_cost
    end.

Section TrialOutcome.

Import OptimizerEngine.

Lemma try_body_spec self bw trial_beam h_test (h : heap) :
  wp (try_body self bw trial_beam h_test) h (λ r h',
    match r with
    | Ok (Some t) =>
        t_h t = h_test ∧ t_status t = "OK" ∧
        ∃ b, h' !! trial_beam = Some (OBeam b) ∧
             Forall (span_passes h') (Beam.spans b)
    | Ok None =>
        ∃ b, h' !! trial_beam = Some (OBeam b) ∧
             Exists (span_fails h') (Beam.spans b)
    | Raise _ => True
    end).
Proof.
  unfold try_body.
  apply wp_bind_any; [| done]. intros _ ha.
  apply wp_bind_any; [| done]. intros _ hb.
  apply wp_bind_any; [| done]. intros _ hc.
  apply wp_bind, wp_read_beam_any; [| done]. intros b Hb.
  apply wp_bind. eapply wp_mono; [apply quantities_loop_spec |].
  intros [[acc valid] | e] h' [-> Hr]; [| done].
  destruct valid; simpl.
  - destruct acc as [[steel conc] form].
    apply wp_bind.
    destruct (last (Beam.spans b)) as [span |]; [apply wp_ret | by apply wp_lift].
    apply wp_bind, wp_read_span_any; [| done]. intros s Hs.
    apply wp_bind.
    destruct (BeamSpan.design_results s) as [res |];
      [apply wp_ret | by apply wp_lift].
    apply wp_ret. simpl. split; [done |]. split; [done |]. eauto.
  - apply wp_ret. eauto.
Qed.

Lemma trial_erro_status h_test e : t_status (trial_erro h_test e) ≠ "OK".
Proof. simpl. discriminate. Qed.

Lemma trial_falha_els_status h_test : t_status (trial_falha_els h_test) ≠ "OK".
Proof. simpl. discriminate. Qed.

(** A trial that returns has appended the record that [trial_record]
    describes. *)
Lemma run_trial_record self original_beam bw h_test (hh : heap) r hh' :
  run_trial self original_beam bw h_test hh = (Ok r, hh') →
  trial_record self bw original_beam h_test hh r.
Proof.
  unfold run_trial, trial_record, mbind, M_bind, try_except.
  destruct (Copy.deepcopy original_beam hh) as [[trial_beam | e] h1] eqn:Hcopy;
    [| done].
  destruct (apply_geometry trial_beam h_test h1) as [[[] | e] h2] eqn:Hgeo;
    [| done].
  pose proof (try_body_spec self bw trial_beam h_test h2) as Hspec.
  unfold wp in Hspec. intros Hrun.
  exists trial_beam, h1, h2. split; [done |]. split; [done |].
  destruct (try_body self bw trial_beam h_test h2) as [[[t |] | e] h3];
    simpl in Hspec; injection Hrun as <- <-.
  - destruct Hspec as (Hh & Hst & Hb). done.
  - split; [done |]. split; [apply trial_falha_els_status |]. done.
  - split; [done |]. split; [apply trial_erro_status |]. done.
Qed.

Lemma map_M_Forall2 {A B} (f : A → M B) (l : list A) : ∀ (h : heap) rs h',
  map_M f l h = (Ok rs, h') →
  Forall2 (λ x r, ∃ hi hi', f x hi = (Ok r, hi')) l rs.
Proof.
  induction l as [| x l IH]; intros h rs h' H; simpl in H.
  - injection H as <- _. constructor.
  - unfold mbind, M_bind in H.
    destruct (f x h) as [[y | e] h1] eqn:Ex; [| done].
    destruct (map_M f l h1) as [[ys | e] h2] eqn:E; [| done].
    injection H as <- _. constructor; [eauto | by eapply IH].
Qed.

End TrialOutcome.

Section FailedTrials.

Import OptimizerEngine.

(** A beam without nodes: the solver raises in every trial, every record
    carries the sentinel cost, and the search still runs to its end and
    reports that no candidate is viable. *)
Example optimize_beam_all_trials_raise :
  let h : heap :=
    [ OMaterial (Material.mk "C30" CONCRETE 30 500 26000);
      OSection (CrossSection.new 20 50);
      OBeam (Beam.mk "V1" [3] [] (1, 0)%R);
      OSpan (BeamSpan.new 1 6 1 0 None None) ] in
  (optimize_beam init 2 h).1 = Ok (ReportError "Nenhuma seção viável encontrada.").
Proof. reflexivity. Qed.

(** Once the copy and the geometry step went through, the iteration
    returns a record, whatever the [try] block does. *)
Lemma run_trial_returns self original_beam bw h_test (hh : heap) :
  match Copy.deepcopy original_beam hh with
  | (Ok trial_beam, h1) =>
      match apply_geometry trial_beam h_test h1 with
      | (Ok _, _) =>
          ∃ r hh', run_trial self original_beam bw h_test hh = (Ok r, hh')
      | (Raise _, _) => True
      end
  | (Raise _, _) => True
  end.
Proof.
  unfold run_trial, mbind, M_bind, try_except.
  destruct (Copy.deepcopy original_beam hh) as [[trial_beam | e] h1]; [| done].
  destruct (apply_geometry trial_beam h_test h1) as [[[] | e] h2]; [| done].
  destruct (try_body self bw trial_beam h_test h2) as [[r | e] h3]; simpl; eauto.
Qed.

(** The section of the first span, which [optimize_beam] reads for [h_orig]
    and [bw] before the search. *)
Definition first_section (h : heap) (original_beam : loc)
    (sec0 : CrossSection.t) : Prop :=
  ∃ b span0 s0,
    h !! original_beam = Some (OBeam b) ∧ head (Beam.spans b) = Some span0 ∧
    h !! span0 = Some (OSpan s0) ∧
    h !! BeamSpan.section s0 = Some (OSection sec0).

(** The records that the iterations over [heights] append, started in heap
    [hh]: each one is what [run_trial] returns on the heap that the
    iterations before it left, and [hh_end] is the heap after the last. *)
Fixpoint search_records (self : t) (bw : R) (original_beam : loc)
    (heights : list Z) (hh : heap) (results : list trial) (hh_end : heap)
    : Prop :=
  match heights, results with
  | [], [] => hh_end = hh
  | h_test :: heights', r :: results' =>
      ∃ hh1, run_trial self original_beam bw h_test hh = (Ok r, hh1) ∧
             trial_record self bw original_beam h_test hh r ∧
             search_records self bw original_beam heights' hh1 results' hh_end
  | _, _ => False
  end.

(** The iteration for [h_test] started in [hh] raised [e] outside the [try]
    block: in the copy or in the geometry step. *)
Definition trial_aborts (original_beam : loc) (h_test : Z) (hh : heap)
    (e : exn) (hh' : heap) : Prop :=
  Copy.deepcopy original_beam hh = (Raise e, hh') ∨
  ∃ trial_beam h1,
    Copy.deepcopy original_beam hh = (Ok trial_beam, h1) ∧
    apply_geometry trial_beam h_test h1 = (Raise e, hh').

Lemma read_beam_inv (l : loc) (h : heap) :
  match read_beam l h with
  | (Ok b, h') => h' = h ∧ h !! l = Some (OBeam b)
  | (Raise _, h') => h' = h ∧ ∀ b, h !! l ≠ Some (OBeam b)
  end.
Proof.
  unfold read_beam, deref, mbind, M_bind.
  destruct (h !! l) as [[] |]; simpl; split; congruence.
Qed.

Lemma read_span_inv (l : loc) (h : heap) :
  match read_span l h with
  | (Ok s, h') => h' = h ∧ h !! l = Some (OSpan s)
  | (Raise _, h') => h' = h ∧ ∀ s, h !! l ≠ Some (OSpan s)
  end.
Proof.
  unfold read_span, deref, mbind, M_bind.
  destruct (h !! l) as [[] |]; simpl; split; congruence.
Qed.

Lemma read_section_inv (l : loc) (h : heap) :
  match read_section l h with
  | (Ok s, h') => h' = h ∧ h !! l = Some (OSection s)
  | (Raise _, h') => h' = h ∧ ∀ s, h !! l ≠ Some (OSection s)
  end.
Proof.
  unfold read_section, deref, mbind, M_bind.
  destruct (h !! l) as [[] |]; simpl; split; congruence.
Qed.

(** An iteration raises only outside its [try] block. *)
Lemma run_trial_raises self original_beam bw h_test (hh : heap) e hh' :
  run_trial self original_beam bw h_test hh = (Raise e, hh') →
  trial_aborts original_beam h_test hh e hh'.
Proof.
  unfold run_trial, trial_aborts, mbind, M_bind, try_except.
  destruct (Copy.deepcopy original_beam hh) as [[trial_beam | e1] h1];
    [| intros [= <- <-]; by left].
  destruct (apply_geometry trial_beam h_test h1) as [[[] | e2] h2] eqn:Hgeo;
    [| intros [= <- <-]; right; by exists trial_beam, h1].
  by destruct (try_body self bw trial_beam h_test h2) as [[r | e3] h3].
Qed.

(** The search loop: either every candidate has its record, or the loop
    stopped at the first iteration that raised outside its [try] block,
    with the records of the candidates before it appended. *)
Lemma search_loop_spec self bw original_beam (heights : list Z) : ∀ hh : heap,
  match map_M (run_trial self original_beam bw) heights hh with
  | (Ok results, hh') =>
      search_records self bw original_beam heights hh results hh'
  | (Raise e, hh') =>
      ∃ tried h_test rest results hmid,
        heights = tried ++ h_test :: rest ∧
        search_records self bw original_beam tried hh results hmid ∧
        trial_aborts original_beam h_test hmid e hh'
  end.
Proof.
  induction heights as [| h_test heights IH]; intros hh; simpl; [done |].
  unfold mbind, M_bind.
  destruct (run_trial self original_beam bw h_test hh) as [[r | e] hh1] eqn:Hrun.
  - specialize (IH hh1).
    destruct (map_M (run_trial self original_beam bw) heights hh1)
      as [[rs | e] hh2]; simpl.
    + exists hh1. split; [done |]. split; [| done]. by eapply run_trial_record.
    + destruct IH as (tried & x & rest & rs & hmid & -> & Hrec & Hab).
      exists (h_test :: tried), x, rest, (r :: rs), hmid.
      split; [done |]. split; [| done]. simpl. exists hh1.
      split; [done |]. split; [| done]. by eapply run_trial_record.
  - exists [], h_test, heights, [], hh. split; [done |]. split; [done |].
    by eapply run_trial_raises.
Qed.

(** A record with status OK belongs to a trial in which no span failed a
    check and whose [try] block did not raise. *)
Lemma trial_record_ok self bw original_beam h_test (hh : heap) r :
  trial_record self bw original_beam h_test hh r → t_status r = "OK" →
  ∃ trial_beam h1 h2 h3 b,
    Copy.deepcopy original_beam hh = (Ok trial_beam, h1) ∧
    apply_geometry trial_beam h_test h1 = (Ok tt, h2) ∧
    try_body self bw trial_beam h_test h2 = (Ok (Some r), h3) ∧
    h3 !! trial_beam = Some (OBeam b) ∧ Forall (span_passes h3) (Beam.spans b).
Proof.
  intros (trial_beam & h1 & h2 & Hcopy & Hgeo & Hr) Hok.
  destruct (try_body self bw trial_beam h_test h2) as [[[t |] | e] h3] eqn:Htry.
  - destruct Hr as (-> & _ & _ & b & Hb & Hall). by exists trial_beam, h1, h2, h3, b.
  - by destruct Hr as (_ & Hne & _).
  - by destruct Hr as (_ & Hne & _).
Qed.

(** C4. [optimize_beam] reads the section of the first span and then runs
    one iteration per candidate height, in order, each on the heap that the
    iterations before it left.  When the call returns, [results] is exactly
    the list of the records of these iterations, the heap returned is the one
    the last iteration left, and the report is [select_best] of these
    records.  The record of a trial in which a span failed the crack or the
    deflection check, and the record of a trial whose pipeline raised, has a
    status other than OK and the sentinel cost 99999, whatever the cost of
    that trial would have been; a record has status OK only if the [try]
    block returned and every span of the trial beam passed both checks.  The
    best candidate is a record with status OK whose cost is least among the
    records with status OK, and when no record has status OK the report is
    the error report.  The search continues after a failed trial: the call
    raises only when the first span's section cannot be read or when an
    iteration raises outside its [try] block (in the copy or the geometry
    step), and an iteration whose copy and geometry step went through
    always returns a record. *)
Theorem optimize_beam_excludes_failed_trials (self : t) (original_beam : loc)
    (h : heap) :
  match optimize_beam self original_beam h with
  | (Ok rep, h') =>
      ∃ sec0 results,
        first_section h original_beam sec0 ∧
        search_records self (CrossSection.bw sec0) original_beam
          test_heights h results h' ∧
        rep = select_best (CrossSection.h sec0) results ∧
        (∀ r, r ∈ results →
           t_status r = "OK" ∨
           (t_status r ≠ "OK" ∧ t_cost r = sentinel_cost)) ∧
        match rep with
        | Report _ best all_trials _ =>
            all_trials = results ∧ best ∈ results ∧ t_status best = "OK" ∧
            ∀ r, r ∈ results → t_status r = "OK" → (t_cost best <= t_cost r)%R
        | ReportError _ => Forall (λ r, t_status r ≠ "OK") results
        end
  | (Raise e, h') =>
      (h' = h ∧ ∀ sec0, ¬ first_section h original_beam sec0) ∨
      ∃ sec0 tried h_test rest results hmid,
        first_section h original_beam sec0 ∧
        test_heights = tried ++ h_test :: rest ∧
        search_records self (CrossSection.bw sec0) original_beam
          tried h results hmid ∧
        trial_aborts original_beam h_test hmid e h'
  end ∧
  (∀ bw h_test (hh : heap) r,
     trial_record self bw original_beam h_test hh r →
     t_status r = "OK" →
     ∃ trial_beam h1 h2 h3 b,
       Copy.deepcopy original_beam hh = (Ok trial_beam, h1) ∧
       apply_geometry trial_beam h_test h1 = (Ok tt, h2) ∧
       try_body self bw trial_beam h_test h2 = (Ok (Some r), h3) ∧
       h3 !! trial_beam = Some (OBeam b) ∧
       Forall (span_passes h3) (Beam.spans b)) ∧
  (∀ bw h_test (hh : heap),
     match Copy.deepcopy original_beam hh with
     | (Ok trial_beam, h1) =>
         match apply_geometry trial_beam h_test h1 with
         | (Ok _, _) =>
             ∃ r hh', run_trial self original_beam bw h_test hh = (Ok r, hh')
         | (Raise _, _) => True
         end
     | (Raise _, _) => True
     end).
Proof.
  split; [| split; [intros *; apply trial_record_ok | apply run_trial_returns]].
  unfold optimize_beam, mbind, M_bind. generalize test_heights as heights.
  intros heights.
  pose proof (read_beam_inv original_beam h) as Hb.
  destruct (read_beam original_beam h) as [[b | e] h1]; destruct Hb as [-> Hb];
    [| left; split; [done |]; intros sec0 (b & ? & ? & Hb' & _); by eapply Hb].
  destruct (Beam.spans b) as [| span0 spans] eqn:Hspans; simpl.
  { left. split; [done |]. intros sec0 (b' & ? & ? & Hb' & Hhd & _).
    rewrite Hb in Hb'. injection Hb' as <-. by rewrite Hspans in Hhd. }
  pose proof (read_span_inv span0 h) as Hs.
  destruct (read_span span0 h) as [[s0 | e] h1]; destruct Hs as [-> Hs].
  2:{ left. split; [done |]. intros sec0 (b' & span0' & s0 & Hb' & Hhd & Hs' & _).
      rewrite Hb in Hb'. injection Hb' as <-. rewrite Hspans in Hhd.
      injection Hhd as <-. by eapply Hs. }
  pose proof (read_section_inv (BeamSpan.section s0) h) as Hsec.
  destruct (read_section (BeamSpan.section s0) h) as [[sec0 | e] h1];
    destruct Hsec as [-> Hsec].
  2:{ left. split; [done |].
      intros sec0 (b' & span0' & s0' & Hb' & Hhd & Hs' & Hsec').
      rewrite Hb in Hb'. injection Hb' as <-. rewrite Hspans in Hhd.
      injection Hhd as <-. rewrite Hs in Hs'. injection Hs' as <-.
      by eapply Hsec. }
  assert (first_section h original_beam sec0) as Hfirst.
  { exists b, span0, s0. by rewrite Hspans. }
  pose proof (search_loop_spec self (CrossSection.bw sec0) original_beam
                heights h) as Hloop.
  destruct (map_M (run_trial self original_beam (CrossSection.bw sec0))
              heights h) as [[results | e] h5]; simpl.
  - exists sec0, results. split; [done |]. split; [done |]. split; [done |].
    split; [| apply select_best_spec].
    clear -Hloop. revert heights h Hloop.
    induction results as [| r results IH]; intros heights h Hrec x Hx;
      [by apply elem_of_nil in Hx |].
    destruct heights as [| h_test heights]; [done |].
    destruct Hrec as (hh1 & _ & Hr & Hrest).
    apply elem_of_cons in Hx as [-> | Hx]; [| by eapply IH].
    destruct Hr as (trial_beam & h1 & h2 & _ & _ & Hr).
    destruct (try_body self (CrossSection.bw sec0) trial_beam h_test h2)
      as [[[t |] | e] h3].
    + left. by destruct Hr as (_ & _ & Hok & _).
    + right. by destruct Hr as (_ & Hne & Hcost & _).
    + right. by destruct Hr as (_ & Hne & Hcost).
  - right. destruct Hloop as (tried & h_test & rest & results & hmid & Hsplit & Hrec & Hab).
    by exists sec0, tried, h_test, rest, results, hmid.
Qed.

End FailedTrials.

(** * Further properties of the engines *)

Local Open Scope R_scope.

(** ** BarSelectorEngine: stirrups, skin reinforcement, anchorage *)

Section Stirrups.

Import BarSelectorEngine.

Lemma min_le_l (a b : R) : Py.min a b <= a.
Proof. unfold Py.min, Py.ltb. destruct (Rlt_dec b a); lra. Qed.

Lemma min_le_r (a b : R) : Py.min a b <= b.
Proof. unfold Py.min, Py.ltb. destruct (Rlt_dec b a); lra. Qed.

Lemma transversal_bars_pos (phi : R) : phi ∈ transversal_bars → 0 < phi.
Proof.
  unfold transversal_bars. rewrite !elem_of_cons, elem_of_nil.
  intros [-> | [-> | [-> | [-> | []]]]]; lra.
Qed.

(** What the stirrup loop returns for a positive requirement [req]. *)
Definition stirrup_post (req h_cm : R) (bars : list R) (o : StirrupOption.t)
    : Prop :=
  o = StirrupOption.mk 0 0 2 status_espacamento ∨
  (StirrupOption.status o = "OK" ∧ StirrupOption.legs o = 2%Z ∧
   StirrupOption.diameter_mm o ∈ bars ∧
   ∃ s : Z, StirrupOption.spacing_cm o = IZR s ∧ (5 <= s)%Z ∧
            IZR s <= 0.6 * (h_cm - 4) ∧ IZR s <= 30 ∧
            req * IZR s <= 2 * area_bar (StirrupOption.diameter_mm o)).

Lemma stirrup_loop_post (req h_cm : R) (bars : list R) :
  0 < req →
  ∃ o, stirrup_loop req h_cm bars = Ok o ∧ stirrup_post req h_cm bars o.
Proof.
  intros Hreq. induction bars as [| phi rest (o & Hrun & Hpost)]; simpl.
  - eexists. split; [reflexivity | by left].
  - rewrite div_ok by lra. cbn.
    set (s_calc := 2 * area_bar phi / req).
    set (s_max := Py.min (0.6 * (h_cm - 4)) 30).
    destruct (Z.leb_spec 5 (Py.floor (Py.min s_calc s_max))) as [Hge | Hlt].
    + eexists. split; [reflexivity |]. right. simpl.
      split; [done |]. split; [done |]. split; [by left |].
      exists (Py.floor (Py.min s_calc s_max)). split; [done |]. split; [done |].
      pose proof (Zfloor_bound (Py.min s_calc s_max)) as [Hfl _].
      pose proof (min_le_l s_calc s_max) as H1.
      pose proof (min_le_r s_calc s_max) as H2.
      pose proof (min_le_l (0.6 * (h_cm - 4)) 30) as H3.
      pose proof (min_le_r (0.6 * (h_cm - 4)) 30) as H4.
      fold s_max in H3, H4. unfold Py.floor.
      split; [lra |]. split; [lra |].
      assert (Hs : IZR (Zfloor (Py.min s_calc s_max)) <= s_calc) by lra.
      apply Rmult_le_compat_l with (r := req) in Hs; [| lra].
      unfold s_calc in Hs at 2. unfold Rdiv in Hs.
      rewrite (Rmult_comm (2 * area_bar phi)), <- Rmult_assoc, Rinv_r in Hs by lra.
      lra.
    + exists o. split; [exact Hrun |].
      destruct Hpost as [-> | (? & ? & Hin & ?)]; [by left |].
      right. split; [done |]. split; [done |]. split; [by right | done].
Qed.

Lemma stirrup_loop_shallow (req h_cm : R) (bars : list R) :
  0 < req → 0.6 * (h_cm - 4) < 5 →
  stirrup_loop req h_cm bars = Ok (StirrupOption.mk 0 0 2 status_espacamento).
Proof.
  intros Hreq Hh. induction bars as [| phi rest IH]; simpl; [done |].
  rewrite div_ok by lra. cbn.
  set (m := Py.min _ (Py.min _ _)).
  assert (Hm : m < 5).
  { unfold m. eapply Rle_lt_trans; [apply min_le_r |].
    eapply Rle_lt_trans; [apply min_le_l | done]. }
  destruct (Z.leb_spec 5 (Py.floor m)) as [Hge | Hlt]; [| exact IH].
  pose proof (Zfloor_bound m) as [Hfl _]. apply IZR_le in Hge.
  unfold Py.floor in Hge. lra.
Qed.

(** The requirement that [select_stirrup] works with. *)
Definition stirrup_demand (asw_s_req : R) : R :=
  if Py.leb asw_s_req 0.0001 then 0.001 else asw_s_req.

Lemma stirrup_demand_pos (asw_s_req : R) :
  0 < stirrup_demand asw_s_req ∧ asw_s_req <= stirrup_demand asw_s_req.
Proof.
  unfold stirrup_demand, Py.leb. destruct (Rle_dec asw_s_req 0.0001); lra.
Qed.

End Stirrups.

Section StirrupSelection.

Import BarSelectorEngine.

Lemma le_div_r (a b c : R) : 0 < c → a * c <= b → a <= b / c.
Proof.
  intros Hc H. apply Rmult_le_reg_r with c; [exact Hc |].
  unfold Rdiv. rewrite Rmult_assoc, Rinv_l by lra. lra.
Qed.

(** X1. [select_stirrup] never raises.  It returns either the explicit
    failure (diameter 0, spacing 0, status "Erro: Espaçamento < 5cm") or a
    two-leg stirrup of a catalogue diameter with status OK whose spacing is
    a whole number of centimetres, at least 5, at most 0.6 (h - 4) and at
    most 30, and whose steel per unit length 2 A(phi) / s is at least the
    requirement.  A beam with 0.6 (h - 4) < 5 always gets the failure. *)
Theorem select_stirrup_spacing (asw_s_req bw_cm h_cm : R) :
  ∃ o, select_stirrup asw_s_req bw_cm h_cm = Ok o ∧
    (o = StirrupOption.mk 0 0 2 status_espacamento ∨
     (StirrupOption.status o = "OK" ∧ StirrupOption.legs o = 2%Z ∧
      StirrupOption.diameter_mm o ∈ transversal_bars ∧
      ∃ s : Z, StirrupOption.spacing_cm o = IZR s ∧ (5 <= s)%Z ∧
               IZR s <= 0.6 * (h_cm - 4) ∧ IZR s <= 30 ∧
               asw_s_req <= 2 * area_bar (StirrupOption.diameter_mm o) / IZR s)) ∧
    (0.6 * (h_cm - 4) < 5 →
     o = StirrupOption.mk 0 0 2 status_espacamento).
Proof.
  unfold select_stirrup. fold (stirrup_demand asw_s_req).
  destruct (stirrup_demand_pos asw_s_req) as [Hpos Hle].
  destruct (stirrup_loop_post (stirrup_demand asw_s_req) h_cm transversal_bars Hpos)
    as (o & Hrun & Hpost).
  exists o. split; [exact Hrun |]. split.
  - destruct Hpost as [-> | (Hst & Hlegs & Hin & s & Hs & H5 & Hh & H30 & Hcap)];
      [by left |].
    right. split; [done |]. split; [done |]. split; [done |].
    exists s. split; [done |]. split; [done |]. split; [done |]. split; [done |].
    assert (0 < IZR s) by (apply IZR_lt; lia).
    apply le_div_r; [done |]. nra.
  - intros Hh. rewrite stirrup_loop_shallow in Hrun by done. by injection Hrun.
Qed.

End StirrupSelection.

Section SkinReinforcement.

Import BarSelectorEngine.

(** X2. [select_skin_reinforcement] asks for no skin bars below h = 60 cm.
    From 60 cm on it returns 8 mm bars, the same number n >= 2 on each
    face, with the status string naming n, and the area provided is at
    least 0.10 % of bw * h. *)
Theorem select_skin_reinforcement_area (h_cm bw_cm : R) :
  let o := select_skin_reinforcement h_cm bw_cm in
  (h_cm < 60 →
     BarOption.count o = 0%Z ∧ BarOption.area_provided_cm2 o = 0 ∧
     BarOption.status o = "Não necessário (h < 60)") ∧
  (60 <= h_cm →
     BarOption.diameter_mm o = 8 ∧
     ∃ n : Z, (2 <= n)%Z ∧ BarOption.count o = (n * 2)%Z ∧
       BarOption.status o = pretty n +:+ " barras/face" ∧
       BarOption.area_provided_cm2 o = IZR n * 2 * area_bar 8 ∧
       0.0010 * bw_cm * h_cm <= BarOption.area_provided_cm2 o).
Proof.
  intros o. subst o. unfold select_skin_reinforcement. split.
  - intros Hh. by rewrite ltb_true by done.
  - intros Hh. rewrite ltb_false by done.
    change (if (Py.ceil (0.0010 * bw_cm * h_cm / 2 / area_bar 8) <? 2)%Z
            then 2%Z else Py.ceil (0.0010 * bw_cm * h_cm / 2 / area_bar 8))
      with (bar_count (0.0010 * bw_cm * h_cm / 2) 8).
    cbn. split; [done |].
    exists (bar_count (0.0010 * bw_cm * h_cm / 2) 8).
    split; [apply bar_count_ge_2 |]. split; [done |]. split; [done |].
    split; [done |].
    pose proof (bar_count_covers (0.0010 * bw_cm * h_cm / 2) 8 ltac:(lra)). lra.
Qed.

End SkinReinforcement.

Section Anchorage.

Import BarSelectorEngine.

Lemma max_mono (a a' b b' : R) : a <= a' → b <= b' → Py.max a b <= Py.max a' b'.
Proof.
  intros Ha Hb.
  destruct (max_cases a b) as [[_ ->] | [_ ->]].
  - eapply Rle_trans; [exact Ha | apply max_ge_l].
  - eapply Rle_trans; [exact Hb | apply max_ge_r].
Qed.

Lemma max3_ge (a b c : R) :
  a <= Py.max3 a b c ∧ b <= Py.max3 a b c ∧ c <= Py.max3 a b c.
Proof.
  unfold Py.max3.
  pose proof (max_ge_l a b). pose proof (max_ge_r a b).
  pose proof (max_ge_l (Py.max a b) c). pose proof (max_ge_r (Py.max a b) c).
  repeat split; lra.
Qed.

Lemma div_by_zero (a b : R) :
  b = 0 → ∃ e, Py.div a b = Raise e ∧ exn_cls e = ZeroDivisionError.
Proof. intros ->. apply div_zero. Qed.

(** The basic anchorage length in mm before the minimum is applied. *)
Definition basic_anchorage (phi_mm fck_mpa eta2 : R) : R :=
  phi_mm / 4 * (500 / 1.15 / (2.25 * eta2 * 1 * (0.21 * Rpower fck_mpa (2 / 3) / 1.4))).

Lemma calc_anchorage_value (phi fck : R) (good : bool) :
  0 < fck →
  let lb := basic_anchorage phi fck (if good then 1 else 0.7) in
  calc_anchorage phi fck good =
    Ok (Py.max lb (Py.max3 (0.3 * lb) (10 * phi) 100) / 10).
Proof.
  intros Hfck. unfold calc_anchorage. rewrite (pow_2_3_ok _ Hfck). cbn.
  pose proof (exp_pos (2 / 3 * ln fck)) as He.
  rewrite div_ok; [done |].
  unfold Rpower. destruct good; nra.
Qed.

Lemma basic_anchorage_bond (phi fck : R) :
  0 < fck → 0 <= phi →
  basic_anchorage phi fck 1 <= basic_anchorage phi fck 0.7.
Proof.
  intros Hfck Hphi. unfold basic_anchorage.
  pose proof (exp_pos (2 / 3 * ln fck)) as He. fold (Rpower fck (2 / 3)) in He.
  set (p := Rpower fck (2 / 3)) in *.
  apply Rmult_le_compat_l; [lra |].
  unfold Rdiv at 1 3. apply Rmult_le_compat_l; [lra |].
  apply Rinv_le_contravar; nra.
Qed.

(** X3. For fck > 0 [_calc_anchorage] returns a length in cm that is at
    least 10 and at least the bar diameter in mm (the minimum of 10
    diameters), and for a diameter phi >= 0 the length under bad bond (top
    bars) is never shorter than under good bond. *)
Theorem calc_anchorage_minimum (phi_mm fck_mpa : R) :
  0 < fck_mpa → 0 <= phi_mm →
  ∃ lb_good lb_bad,
    calc_anchorage phi_mm fck_mpa true = Ok lb_good ∧
    calc_anchorage phi_mm fck_mpa false = Ok lb_bad ∧
    10 <= lb_good ∧ phi_mm <= lb_good ∧ lb_good <= lb_bad.
Proof.
  intros Hfck Hphi.
  rewrite !calc_anchorage_value by done. cbn zeta.
  set (g := basic_anchorage phi_mm fck_mpa 1).
  set (b := basic_anchorage phi_mm fck_mpa 0.7).
  assert (Hgb : g <= b) by (by apply basic_anchorage_bond).
  eexists _, _. split; [reflexivity |]. split; [reflexivity |].
  pose proof (max3_ge (0.3 * g) (10 * phi_mm) 100) as (_ & H10 & H100).
  pose proof (max_ge_r g (Py.max3 (0.3 * g) (10 * phi_mm) 100)) as Hr.
  split; [lra |]. split; [lra |].
  assert (Py.max g (Py.max3 (0.3 * g) (10 * phi_mm) 100) <=
          Py.max b (Py.max3 (0.3 * b) (10 * phi_mm) 100)); [| lra].
  apply max_mono; [done |]. unfold Py.max3.
  apply max_mono; [| lra]. apply max_mono; lra.
Qed.

Lemma calc_anchorage_minimum_witness :
  ∃ lb_good lb_bad,
    calc_anchorage 10 25 true = Ok lb_good ∧
    calc_anchorage 10 25 false = Ok lb_bad ∧
    10 <= lb_good ∧ 10 <= lb_good ∧ lb_good <= lb_bad.
Proof. apply (calc_anchorage_minimum 10 25); lra. Defined.

Lemma calc_anchorage_fck_zero (phi : R) (good : bool) :
  ∃ e, calc_anchorage phi 0 good = Raise e ∧ exn_cls e = ZeroDivisionError.
Proof.
  unfold calc_anchorage, Py.pow_2_3.
  destruct (Rlt_dec 0 0); [lra |]. destruct (Req_dec_T 0 0); [| lra]. cbn.
  destruct (div_by_zero (500 / 1.15)
              (2.25 * (if good then 1 else 0.7) * 1 * (0.21 * 0 / 1.4)))
    as (err & -> & Herr); [destruct good; lra |].
  eauto.
Qed.

End Anchorage.

Section LongitudinalEdges.

Import BarSelectorEngine.

Variables as_req bw_cm cover_mm fck_mpa : R.
Variable bond_good : bool.

Lemma select_step_skip (st : sel_state) (phi : R) :
  ¬ fits as_req bw_cm cover_mm phi →
  select_step as_req bw_cm cover_mm fck_mpa bond_good st phi = Ok st.
Proof.
  intros Hfit. unfold select_step. rewrite leb_false; [done |].
  unfold fits in Hfit. lra.
Qed.

Lemma select_loop_none_fit (bars : list R) (st : sel_state) :
  Forall (λ phi, ¬ fits as_req bw_cm cover_mm phi) bars →
  select_loop as_req bw_cm cover_mm fck_mpa bond_good bars st = Ok st.
Proof.
  induction 1 as [| phi rest Hphi _ IH]; simpl; [done |].
  by rewrite select_step_skip.
Qed.

(** Two bars of the thinnest catalogue diameter with the minimum clear
    spacing need 36 mm. *)
Lemma space_required_ge_36 (phi : R) :
  phi ∈ longitudinal_bars → 36 <= space_required (bar_count as_req phi) phi.
Proof.
  intros Hin. unfold space_required, ah_min.
  pose proof (bar_count_ge_2 as_req phi) as Hn. apply IZR_le in Hn.
  assert (8 <= phi).
  { revert Hin. unfold longitudinal_bars. rewrite !elem_of_cons, elem_of_nil.
    intros [-> | [-> | [-> | [-> | [-> | [-> | []]]]]]]; lra. }
  nra.
Qed.

End LongitudinalEdges.

Section LongitudinalFailures.

Import BarSelectorEngine.

(** X4. When the width left between the stirrups, 10 bw - 2 (cover + 5)
    in mm, is below 36 mm, no catalogue diameter fits: for every required
    area above 0.01 [select_longitudinal] returns the does-not-fit failure
    with no bars, and it does so without evaluating the anchorage, hence
    for every fck. *)
Theorem select_longitudinal_narrow_web (as_req bw_cm cover_mm fck_mpa : R)
    (is_top : bool) :
  0.01 < as_req → width_available bw_cm cover_mm < 36 →
  select_longitudinal as_req bw_cm cover_mm is_top fck_mpa =
    Ok (BarOption.mk 0 0 0 0 "Erro: Não cabe (Camada Dupla nec.)" 0).
Proof.
  intros Has Hw. unfold select_longitudinal. rewrite leb_false by lra.
  rewrite select_loop_none_fit; [done |].
  apply Forall_forall. intros phi Hin Hfit. unfold fits in Hfit.
  pose proof (space_required_ge_36 as_req phi Hin). lra.
Qed.

Lemma select_longitudinal_narrow_web_witness :
  select_longitudinal 3 9 25 false 25 =
    Ok (BarOption.mk 0 0 0 0 "Erro: Não cabe (Camada Dupla nec.)" 0).
Proof.
  apply select_longitudinal_narrow_web; [lra |].
  unfold width_available, estribo_est. lra.
Defined.

Lemma select_loop_fck_zero as_req bw_cm cover_mm bond_good (bars : list R) :
  Exists (fits as_req bw_cm cover_mm) bars →
  ∃ e, select_loop as_req bw_cm cover_mm 0 bond_good bars (None, None) = Raise e ∧
       exn_cls e = ZeroDivisionError.
Proof.
  induction bars as [| phi rest IH]; intros Hex; [by apply Exists_nil in Hex |].
  simpl. destruct (Rle_dec (space_required (bar_count as_req phi) phi)
                     (width_available bw_cm cover_mm)) as [Hfit | Hno].
  - unfold select_step. rewrite leb_true by done. cbn.
    destruct (calc_anchorage_fck_zero phi bond_good) as (e & -> & He). eauto.
  - rewrite select_step_skip by done. cbn. apply IH.
    apply Exists_cons in Hex as [Hfit | Hrest]; [contradiction | done].
Qed.

(** X5. With fck_mpa = 0 the bond stress is 0: as soon as one catalogue
    diameter fits the width, [select_longitudinal] raises
    ZeroDivisionError for every required area above 0.01. *)
Theorem select_longitudinal_fck_zero (as_req bw_cm cover_mm : R) (is_top : bool) :
  0.01 < as_req →
  (∃ phi, phi ∈ longitudinal_bars ∧ fits as_req bw_cm cover_mm phi) →
  ∃ e, select_longitudinal as_req bw_cm cover_mm is_top 0 = Raise e ∧
       exn_cls e = ZeroDivisionError.
Proof.
  intros Has (phi & Hin & Hfit). unfold select_longitudinal.
  rewrite leb_false by lra.
  destruct (select_loop_fck_zero as_req bw_cm cover_mm (negb is_top)
              longitudinal_bars) as (e & -> & He); [| eauto].
  apply Exists_exists. eauto.
Qed.

End LongitudinalFailures.

Section LongitudinalWitness.

Import BarSelectorEngine.

Lemma PI_gt_3 : 3 < PI.
Proof. pose proof PI2_3_2. lra. Qed.

Lemma bar_count_small (as_req phi : R) :
  0 < phi → as_req <= 2 * area_bar phi → bar_count as_req phi = 2%Z.
Proof.
  intros Hphi Has. pose proof (area_bar_pos phi Hphi) as Ha.
  unfold bar_count, Py.ceil.
  assert (Hx : as_req / area_bar phi <= 2).
  { apply Rmult_le_reg_r with (area_bar phi); [done |].
    unfold Rdiv. rewrite Rmult_assoc, Rinv_l by lra. lra. }
  pose proof (Zceil_bound (as_req / area_bar phi)) as [Hlo _].
  assert (Zceil (as_req / area_bar phi) <= 2)%Z.
  { apply Z.lt_succ_r. apply lt_IZR. rewrite succ_IZR. lra. }
  destruct (Z.ltb_spec (Zceil (as_req / area_bar phi)) 2); lia.
Qed.

Lemma select_longitudinal_fck_zero_witness :
  ∃ e, select_longitudinal 1 20 25 false 0 = Raise e ∧
       exn_cls e = ZeroDivisionError.
Proof.
  apply select_longitudinal_fck_zero; [lra |].
  exists 25. split.
  - unfold longitudinal_bars. rewrite !elem_of_cons. auto 10.
  - unfold fits. rewrite bar_count_small.
    + unfold space_required, width_available, ah_min, estribo_est. lra.
    + lra.
    + unfold area_bar, Py.pi. pose proof PI_gt_3. nra.
Defined.

End LongitudinalWitness.

(** ** ELUDesignEngine: bounds and degenerate sections *)

Section FlexureBounds.

Import ELUDesignEngine.

Lemma lever_arm_ge (d k : R) : 0 < d → k <= 0.251 → 0.8 * d <= lever_arm d k.
Proof.
  intros Hd Hk. unfold lever_arm.
  assert (Hs : 0.435 <= sqrt (0.68 ^ 2 - 4 * 0.272 * k)).
  { rewrite <- (sqrt_pow2 0.435) at 1 by lra. apply sqrt_le_1; lra. }
  set (s := sqrt _) in *.
  assert (Heq : d * (1 - 0.4 * ((0.68 - s) / (2 * 0.272)))
                = d / 2 + d * (0.4 / 0.544) * s) by nra.
  rewrite Heq.
  assert (0.735 <= 0.4 / 0.544).
  { apply le_div_r; lra. }
  nra.
Qed.

Lemma div_le_compat_denominator (m x y : R) :
  0 <= m → 0 < x → x <= y → m / y <= m / x.
Proof.
  intros Hm Hx Hxy. unfold Rdiv. apply Rmult_le_compat_l; [done |].
  apply Rinv_le_contravar; lra.
Qed.

(** X6. For a positive section and positive strengths, a design moment
    above 0.01 kNm always gets a steel area between Md / (d fyd) and
    5/3 Md / (d fyd) (Md in kNcm): within the ductility limit the lever arm
    lies between 0.8 d and d, beyond it the function returns the penalty
    value 1.5 Md / (0.9 d fyd). *)
Theorem calc_reinforcement_area_bounds (Md b d fcd fyd : R) :
  0 < b → 0 < d → 0 < fcd → 0 < fyd → 0.01 < Md →
  ∃ As, calc_reinforcement_area Md b d fcd fyd = Ok As ∧
    Md * 100 / (d * fyd) <= As ∧
    As <= 5 / 3 * (Md * 100 / (d * fyd)) ∧
    (Md * 100 / (b * d ^ 2 * fcd) <= 0.251 →
       As <= 1.25 * (Md * 100 / (d * fyd))) ∧
    (0.251 < Md * 100 / (b * d ^ 2 * fcd) →
       As = 5 / 3 * (Md * 100 / (d * fyd))).
Proof.
  intros Hb Hd Hfcd Hfyd HMd.
  assert (Hdf : 0 < d * fyd) by (by apply Rmult_lt_0_compat).
  assert (Hbase : 0 < Md * 100 / (d * fyd)).
  { apply Rdiv_lt_0_compat; lra. }
  destruct (Rle_dec (Md * 100 / (b * d ^ 2 * fcd)) 0.251) as [Hk | Hk].
  - rewrite calc_reinforcement_area_ductile by lra.
    eexists. split; [reflexivity |].
    set (k := Md * 100 / (b * d ^ 2 * fcd)) in *.
    assert (Hk0 : 0 <= k).
    { apply Rlt_le, Rdiv_lt_0_compat; [lra |].
      by apply kmd_denominator_pos. }
    pose proof (lever_arm_le d k Hd Hk0 Hk) as Hle.
    pose proof (lever_arm_ge d k Hd Hk) as Hge.
    assert (H1 : Md * 100 / (d * fyd) <= Md * 100 / (lever_arm d k * fyd)).
    { apply div_le_compat_denominator; nra. }
    assert (H2 : Md * 100 / (lever_arm d k * fyd) <= Md * 100 / (0.8 * d * fyd)).
    { apply div_le_compat_denominator; nra. }
    assert (H3 : Md * 100 / (0.8 * d * fyd) = 1.25 * (Md * 100 / (d * fyd))).
    { unfold Rdiv. rewrite !Rinv_mult. lra. }
    split; [done |]. split; [lra |]. split; [lra |]. lra.
  - unfold calc_reinforcement_area.
    rewrite leb_false by lra. rewrite kmd_of_ok by lra. cbn.
    rewrite gtb_true by lra.
    rewrite div_ok by nra. cbn.
    eexists. split; [reflexivity |].
    assert (H3 : Md * 100 / (0.9 * d * fyd) * 1.5 = 5 / 3 * (Md * 100 / (d * fyd))).
    { unfold Rdiv. rewrite !Rinv_mult. lra. }
    rewrite H3. split; [lra |]. split; [lra |]. split; [lra | done].
Qed.

Lemma calc_reinforcement_area_bounds_witness :
  ∃ As, calc_reinforcement_area 94.5 20 46 (30 / 1.4 / 10) (500 / 1.15 / 10) = Ok As ∧
    94.5 * 100 / (46 * (500 / 1.15 / 10)) <= As ∧
    As <= 5 / 3 * (94.5 * 100 / (46 * (500 / 1.15 / 10))) ∧
    (94.5 * 100 / (20 * 46 ^ 2 * (30 / 1.4 / 10)) <= 0.251 →
       As <= 1.25 * (94.5 * 100 / (46 * (500 / 1.15 / 10)))) ∧
    (0.251 < 94.5 * 100 / (20 * 46 ^ 2 * (30 / 1.4 / 10)) →
       As = 5 / 3 * (94.5 * 100 / (46 * (500 / 1.15 / 10)))).
Proof. apply calc_reinforcement_area_bounds; lra. Defined.

End FlexureBounds.

Section ZeroDepth.

Import ELUDesignEngine.

Lemma calc_reinforcement_area_zero_depth (Md b fcd fyd : R) :
  0.01 < Md →
  ∃ e, calc_reinforcement_area Md b 0 fcd fyd = Raise e ∧
       exn_cls e = ZeroDivisionError.
Proof.
  intros HMd. unfold calc_reinforcement_area, kmd_of.
  rewrite leb_false by lra.
  destruct (div_by_zero (Md * 100) (b * 0 ^ 2 * fcd)) as (e & -> & He); [lra |].
  eauto.
Qed.

Lemma calc_reinforcement_area_zero_depth_small (Md b fcd fyd : R) :
  Md <= 0.01 → calc_reinforcement_area Md b 0 fcd fyd = Ok 0.
Proof. intros H. unfold calc_reinforcement_area. by rewrite leb_true. Qed.

(** X7. A section of height 4 cm has effective depth d = h - 4 = 0 and
    cannot be designed: [_design_flexure] raises ZeroDivisionError as
    soon as one of its three design moments exceeds 0.01 kNm, and
    [_design_shear] raises ZeroDivisionError for every span (gamma_s and
    gamma_c non-zero, fck >= 0). *)
Theorem zero_effective_depth_raises (self : t) (span : BeamSpan.t)
    (section : CrossSection.t) (material : Material.t) (loads : list Load.t) :
  CrossSection.h section = 4 →
  gamma_s self ≠ 0 → gamma_c self ≠ 0 → 0 <= Material.fck material →
  (0.01 < Py.abs (BeamSpan.moment_left span) * gamma_f self ∨
   0.01 < Py.abs (BeamSpan.moment_right span) * gamma_f self ∨
   0.01 < M_pos_estimate (q_distributed loads) (BeamSpan.length span)
            (BeamSpan.moment_left span) (BeamSpan.moment_right span)
          * gamma_f self →
   ∃ e, flexure_results self span section material loads = Raise e ∧
        exn_cls e = ZeroDivisionError) ∧
  (∃ e, shear_results self span section material = Raise e ∧
        exn_cls e = ZeroDivisionError).
Proof.
  intros Hh Hgs Hgc Hfck. split.
  - intros Hm. unfold flexure_results. rewrite div_ok by done. cbn.
    rewrite Hh. replace (4 - 4) with 0 by lra.
    set (M1 := Py.abs (BeamSpan.moment_left span) * gamma_f self) in *.
    set (M2 := Py.abs (BeamSpan.moment_right span) * gamma_f self) in *.
    set (M3 := M_pos_estimate _ _ _ _ * gamma_f self) in *.
    set (fcd := Material.get_fcd material).
    set (fyd := Material.fyk material / gamma_s self / 10).
    set (b := CrossSection.bw section).
    destruct (Rle_dec M1 0.01) as [H1 | H1].
    2: { destruct (calc_reinforcement_area_zero_depth M1 b fcd fyd)
           as (e & -> & He); [lra | eauto]. }
    rewrite (calc_reinforcement_area_zero_depth_small M1) by done. cbn.
    destruct (Rle_dec M2 0.01) as [H2 | H2].
    2: { destruct (calc_reinforcement_area_zero_depth M2 b fcd fyd)
           as (e & -> & He); [lra | eauto]. }
    rewrite (calc_reinforcement_area_zero_depth_small M2) by done. cbn.
    destruct (calc_reinforcement_area_zero_depth M3 b fcd fyd)
      as (e & -> & He); [lra | eauto].
  - unfold shear_results.
    assert (Hp : ∃ p, Py.pow_2_3 (Material.fck material) = Ok p).
    { unfold Py.pow_2_3. destruct (Rlt_dec _ 0); [lra |].
      destruct (Req_dec_T _ 0); eauto. }
    destruct Hp as [p ->]. cbn. rewrite div_ok by done. cbn.
    rewrite Hh.
    destruct (div_by_zero
                (Py.max 0
                   (Py.max (Py.abs (BeamSpan.shear_left span))
                      (Py.abs (BeamSpan.shear_right span)) * gamma_f self -
                    0.6 * (0.21 * p / gamma_c self / 10) *
                    CrossSection.bw section * (4 - 4)))
                (0.9 * (4 - 4) * 43.5)) as (e & -> & He); [lra |].
    eauto.
Qed.

Lemma zero_effective_depth_raises_witness :
  ∃ e, shear_results init (BeamSpan.new 1 6 1 0 None None)
         (CrossSection.new 20 4) (Material.new "C30" CONCRETE 30) = Raise e ∧
       exn_cls e = ZeroDivisionError.
Proof.
  apply (zero_effective_depth_raises init (BeamSpan.new 1 6 1 0 None None)
           (CrossSection.new 20 4) (Material.new "C30" CONCRETE 30) []);
    simpl; lra.
Defined.

End ZeroDepth.

Section ShearMinimum.

Import ELUDesignEngine.

(** X8. For a span with bw > 0, h > 4, fck > 0 and gamma_c non-zero
    [_design_shear] computes: V_sd, the larger absolute end shear times
    gamma_f; a stirrup demand Asw/s that is never below the minimum
    0.2 fctm / 50 * bw, which is positive, and equals that minimum
    whenever V_sd does not exceed the concrete contribution V_c; and the
    strut status, which is OK exactly when V_sd <= V_Rd2 and the crushing
    failure otherwise. *)
Theorem shear_results_minimum (self : t) (span : BeamSpan.t)
    (section : CrossSection.t) (material : Material.t) :
  gamma_c self ≠ 0 → 0 < CrossSection.bw section →
  4 < CrossSection.h section → 0 < Material.fck material →
  let b := CrossSection.bw section in
  let d := CrossSection.h section - 4 in
  let p := Rpower (Material.fck material) (2 / 3) in
  let asw_min := 0.2 * (0.3 * p / 10) / 50 * b in
  let V_c := 0.6 * (0.21 * p / gamma_c self / 10) * b * d in
  let V_rd2 :=
    0.27 * (1 - Material.fck material / 250) * Material.get_fcd material * b * d in
  ∃ V_sd Asw status,
    shear_results self span section material = Ok (V_sd, Asw, status) ∧
    V_sd = Py.max (Py.abs (BeamSpan.shear_left span))
             (Py.abs (BeamSpan.shear_right span)) * gamma_f self ∧
    0 < asw_min ∧ asw_min <= Asw ∧
    (V_sd <= V_c → Asw = asw_min) ∧
    (V_sd <= V_rd2 → status = "OK") ∧
    (V_rd2 < V_sd → status = "FALHA (Esmagamento Biela)").
Proof.
  intros Hgc Hb Hh Hfck b d p asw_min V_c V_rd2.
  unfold shear_results. rewrite (pow_2_3_ok _ Hfck). cbn.
  rewrite div_ok by done. cbn. rewrite div_ok by lra. cbn.
  fold b d p.
  set (V_sd := Py.max (Py.abs (BeamSpan.shear_left span))
                 (Py.abs (BeamSpan.shear_right span)) * gamma_f self).
  assert (Hp : 0 < p) by apply exp_pos.
  assert (Hpb : 0 < p * b) by (by apply Rmult_lt_0_compat).
  assert (Hmin : 0 < asw_min) by (unfold asw_min; lra).
  eexists _, _, _. split; [reflexivity |]. split; [done |].
  split; [done |]. split; [apply max_ge_r |]. split; [| split].
  - intros Hle. fold V_c in Hle |- *.
    rewrite (max_l 0 (V_sd - V_c)) by lra.
    replace (0 / (0.9 * d * 43.5)) with 0 by (unfold Rdiv; lra).
    apply max_r. fold asw_min. lra.
  - intros Hle. fold V_rd2 in Hle |- *. by rewrite gtb_false.
  - intros Hlt. fold V_rd2 in Hlt |- *. by rewrite gtb_true.
Qed.

Lemma shear_results_minimum_witness :
  ∃ V_sd Asw status,
    shear_results init (BeamSpan.mk 1 6 1 0 [] None None 0 0 45 (-45) (Some ∅) ∅ None)
      (CrossSection.new 20 50) (Material.new "C30" CONCRETE 30)
      = Ok (V_sd, Asw, status) ∧
    V_sd = Py.max (Py.abs 45) (Py.abs (-45)) * 1.4 ∧
    0 < 0.2 * (0.3 * Rpower 30 (2 / 3) / 10) / 50 * 20 ∧
    0.2 * (0.3 * Rpower 30 (2 / 3) / 10) / 50 * 20 <= Asw ∧
    (V_sd <= 0.6 * (0.21 * Rpower 30 (2 / 3) / 1.4 / 10) * 20 * (50 - 4) →
       Asw = 0.2 * (0.3 * Rpower 30 (2 / 3) / 10) / 50 * 20) ∧
    (V_sd <= 0.27 * (1 - 30 / 250) * (30 / 1.4 / 10) * 20 * (50 - 4) →
       status = "OK") ∧
    (0.27 * (1 - 30 / 250) * (30 / 1.4 / 10) * 20 * (50 - 4) < V_sd →
       status = "FALHA (Esmagamento Biela)").
Proof.
  apply (shear_results_minimum init
           (BeamSpan.mk 1 6 1 0 [] None None 0 0 45 (-45) (Some ∅) ∅ None)
           (CrossSection.new 20 50) (Material.new "C30" CONCRETE 30));
    simpl; lra.
Defined.

End ShearMinimum.

(** ** ELSCheckerEngine: crack limit and deflection *)

Section CrackLimit.

Import ELSCheckerEngine.

Lemma crack_limits_lookup (c : Z) :
  crack_limits !! c =
    if decide (c = 1%Z) then Some 0.4
    else if decide (c = 2%Z) then Some 0.3
    else if decide (c = 3%Z) then Some 0.2
    else if decide (c = 4%Z) then Some 0.2
    else None.
Proof.
  unfold crack_limits. repeat case_decide; subst; by simplify_map_eq.
Qed.

(** X9. The crack limit depends on how much steel the span has.  For a
    span without tension steel (As_inf_vao <= 0.001) [_check_cracking]
    reads the limit with [crack_limits[caa]]: it returns wk = 0 with
    status OK for the classes 1 to 4 and raises KeyError for every other
    class.  For a reinforced span it reads the limit with
    [crack_limits.get(caa, 0.3)]: with an unknown class, a section with
    bw > 0 and h > 4 and a material with fck > 0, the check does not raise
    but returns the rounded crack width, the limit 0.3 mm and the verdict
    of the comparison of the crack width with 0.3. *)
Theorem check_cracking_limit (self : t) (span : BeamSpan.t)
    (section : CrossSection.t) (material : Material.t)
    (res : gmap string pyval) (As_adopt : R) :
  BeamSpan.design_results span = Some res →
  get_float res "As_inf_vao" 0 = Ok As_adopt →
  (As_adopt <= 0.001 → (1 <= caa self <= 4)%Z →
     ∃ limit, crack_limits !! caa self = Some limit ∧
       check_cracking self span section material = Ok (0, limit, "OK")) ∧
  (As_adopt <= 0.001 → (caa self < 1 ∨ 4 < caa self)%Z →
     ∃ e, check_cracking self span section material = Raise e ∧
          exn_cls e = KeyError) ∧
  (0.001 < As_adopt → (caa self < 1 ∨ 4 < caa self)%Z →
     0 < CrossSection.bw section → 0 < CrossSection.h section - 4 →
     0 < Material.fck material →
     ∀ Md_max, get_float res "Md_max" 0 = Ok Md_max →
     ∃ c, crack_width (CrossSection.h section) (CrossSection.bw section)
            (Material.fck material) As_adopt Md_max = Ok c ∧
       check_cracking self span section material =
         Ok (Py.round (cc_wk_mm c) 3, 0.3,
             if Py.leb (cc_wk_mm c) 0.3 then "OK" else "FALHA")).
Proof.
  intros Hres HAs. unfold check_cracking. rewrite Hres, HAs. cbn.
  split; [| split].
  - intros Hle Hcaa. rewrite leb_true by done.
    rewrite crack_limits_lookup.
    repeat case_decide; try lia; eauto.
  - intros Hle Hcaa. rewrite leb_true by done.
    rewrite crack_limits_lookup.
    repeat case_decide; try lia; eauto.
  - intros Hgt Hcaa Hb Hd Hfck Md_max HMd. rewrite leb_false by done.
    rewrite HMd. cbn.
    destruct (crack_width_shape (CrossSection.h section)
                (CrossSection.bw section) (Material.fck material)
                As_adopt Md_max Hb Hd Hgt Hfck) as (c & Hc & _).
    exists c. split; [exact Hc |]. rewrite Hc. cbn.
    rewrite crack_limits_lookup.
    repeat case_decide; try lia; done.
Qed.

Lemma check_cracking_limit_witness :
  (∃ limit, crack_limits !! caa init = Some limit ∧
     check_cracking init (BeamSpan.new 1 6 1 0 None None)
       (CrossSection.new 20 50) (Material.new "C30" CONCRETE 30)
       = Ok (0, limit, "OK")) ∧
  (let span := BeamSpan.set_design_results (BeamSpan.new 1 6 1 0 None None)
       (Some (<["As_inf_vao" := VFloat 5]> (<["Md_max" := VFloat 94.5]> ∅))) in
   ∃ c, crack_width 50 20 30 5 94.5 = Ok c ∧
     check_cracking (mk 7 70) span
       (CrossSection.new 20 50) (Material.new "C30" CONCRETE 30) =
       Ok (Py.round (cc_wk_mm c) 3, 0.3,
           if Py.leb (cc_wk_mm c) 0.3 then "OK" else "FALHA")).
Proof.
  split.
  - apply (check_cracking_limit init (BeamSpan.new 1 6 1 0 None None)
             (CrossSection.new 20 50) (Material.new "C30" CONCRETE 30) ∅ 0).
    + reflexivity.
    + reflexivity.
    + lra.
    + simpl. lia.
  - apply (check_cracking_limit (mk 7 70)
             (BeamSpan.set_design_results (BeamSpan.new 1 6 1 0 None None)
                (Some (<["As_inf_vao" := VFloat 5]>
                         (<["Md_max" := VFloat 94.5]> ∅))))
             (CrossSection.new 20 50) (Material.new "C30" CONCRETE 30)
             (<["As_inf_vao" := VFloat 5]> (<["Md_max" := VFloat 94.5]> ∅)) 5).
    + reflexivity.
    + reflexivity.
    + lra.
    + simpl. lia.
    + simpl. lra.
    + simpl. lra.
    + simpl. lra.
    + reflexivity.
Defined.

End CrackLimit.

Section Deflection.

Import ELSCheckerEngine.

(** The total deflection in mm that [_check_deflection] compares with the
    limit, for a distributed load [q] in kN/m. *)
Definition deflection_total_mm (q L Ecs I : R) : R :=
  5 * (q / 1.4 / 100) * (L * 100) ^ 4 / (384 * (Ecs / 10) * I) * 1.5 * (1 + 2) * 10.

Lemma check_deflection_value span section material loads :
  384 * (Material.Ecs material / 10) * CrossSection.inertia section ≠ 0 →
  ∃ inst total,
    check_deflection span section material loads =
      Ok (inst, total, BeamSpan.length span * 100 * 10 / 250,
          if Py.leb (deflection_total_mm (q_distributed loads)
                       (BeamSpan.length span) (Material.Ecs material)
                       (CrossSection.inertia section))
                    (BeamSpan.length span * 100 * 10 / 250)
          then status_ok else status_fail).
Proof.
  intros Hne. unfold check_deflection. rewrite div_ok by done. cbn. eauto.
Qed.

Lemma deflection_total_mm_mono (q1 q2 L Ecs I : R) :
  0 < Ecs → 0 < I → q1 <= q2 →
  deflection_total_mm q1 L Ecs I <= deflection_total_mm q2 L Ecs I.
Proof.
  intros HE HI Hq. unfold deflection_total_mm.
  assert (HD : 0 < 384 * (Ecs / 10) * I) by nra.
  assert (HL : 0 <= (L * 100) ^ 4).
  { replace ((L * 100) ^ 4) with (((L * 100) ^ 2) ^ 2) by ring. apply pow2_ge_0. }
  assert (Hc : 0 <= (L * 100) ^ 4 / (384 * (Ecs / 10) * I)).
  { apply Rmult_le_pos; [done |]. by apply Rlt_le, Rinv_0_lt_compat. }
  set (c := (L * 100) ^ 4 / (384 * (Ecs / 10) * I)) in *.
  replace (5 * (q1 / 1.4 / 100) * (L * 100) ^ 4 / (384 * (Ecs / 10) * I))
    with (5 * (q1 / 1.4 / 100) * c) by (unfold c, Rdiv; ring).
  replace (5 * (q2 / 1.4 / 100) * (L * 100) ^ 4 / (384 * (Ecs / 10) * I))
    with (5 * (q2 / 1.4 / 100) * c) by (unfold c, Rdiv; ring).
  nra.
Qed.

End Deflection.

Section DeflectionCheck.

Import ELSCheckerEngine.

Lemma inertia_pos (section : CrossSection.t) :
  0 < CrossSection.bw section → 0 < CrossSection.h section →
  0 < CrossSection.inertia section.
Proof.
  intros Hb Hh. unfold CrossSection.inertia.
  apply Rdiv_lt_0_compat; [| lra].
  apply Rmult_lt_0_compat; [done |]. by apply pow_lt.
Qed.

(** X10. For Ecs > 0 and a section with bw > 0 and h > 0
    [_check_deflection] returns for every load list; the limit is L/250,
    that is 4 L mm for L in metres; and the verdict is monotone in the
    load: if the span passes under a distributed load, it passes under
    every smaller one.  Only the DISTRIBUTED loads count. *)
Theorem check_deflection_load_monotone (span : BeamSpan.t)
    (section : CrossSection.t) (material : Material.t)
    (loads1 loads2 : list Load.t) :
  0 < Material.Ecs material →
  0 < CrossSection.bw section → 0 < CrossSection.h section →
  q_distributed loads1 <= q_distributed loads2 →
  ∃ inst1 total1 status1 inst2 total2 status2,
    check_deflection span section material loads1 =
      Ok (inst1, total1, 4 * BeamSpan.length span, status1) ∧
    check_deflection span section material loads2 =
      Ok (inst2, total2, 4 * BeamSpan.length span, status2) ∧
    (status2 = "OK" → status1 = "OK").
Proof.
  intros HE Hb Hh Hq. pose proof (inertia_pos section Hb Hh) as HI.
  assert (Hne : 384 * (Material.Ecs material / 10) * CrossSection.inertia section ≠ 0)
    by nra.
  destruct (check_deflection_value span section material loads1 Hne)
    as (i1 & t1 & ->).
  destruct (check_deflection_value span section material loads2 Hne)
    as (i2 & t2 & ->).
  replace (BeamSpan.length span * 100 * 10 / 250) with (4 * BeamSpan.length span)
    by lra.
  eexists _, _, _, _, _, _. split; [reflexivity |]. split; [reflexivity |].
  pose proof (deflection_total_mm_mono _ _ (BeamSpan.length span) _ _ HE HI Hq)
    as Hmono.
  set (d1 := deflection_total_mm (q_distributed loads1) _ _ _) in *.
  set (d2 := deflection_total_mm (q_distributed loads2) _ _ _) in *.
  destruct (Rle_dec d2 (4 * BeamSpan.length span)) as [H2 | H2].
  - intros _. rewrite (leb_true d1); [done | lra].
  - rewrite (leb_false d2) by lra. done.
Qed.

Lemma check_deflection_load_monotone_witness :
  ∃ inst1 total1 status1 inst2 total2 status2,
    check_deflection (BeamSpan.new 1 6 1 0 None None) (CrossSection.new 20 50)
        (Material.new "C30" CONCRETE 30) [Load.new POINT 99 0 6] =
      Ok (inst1, total1, 4 * 6, status1) ∧
    check_deflection (BeamSpan.new 1 6 1 0 None None) (CrossSection.new 20 50)
        (Material.new "C30" CONCRETE 30) [Load.new DISTRIBUTED 15 0 6] =
      Ok (inst2, total2, 4 * 6, status2) ∧
    (status2 = "OK" → status1 = "OK").
Proof.
  apply (check_deflection_load_monotone (BeamSpan.new 1 6 1 0 None None)
           (CrossSection.new 20 50) (Material.new "C30" CONCRETE 30)
           [Load.new POINT 99 0 6] [Load.new DISTRIBUTED 15 0 6]).
  - unfold Material.new. simpl. lra.
  - unfold CrossSection.new. simpl. lra.
  - unfold CrossSection.new. simpl. lra.
  - unfold q_distributed, Load.new.
    rewrite filter_cons_False by done. rewrite filter_cons_True by done.
    simpl. lra.
Defined.

End DeflectionCheck.

(** ** MatrixSolver: loads, element forces and degenerate beams *)

Section FixedEndForces.

Import Np MatrixSolver.

Lemma q_distributed_cons (load : Load.t) (loads : list Load.t) :
  q_distributed (load :: loads) =
    (if decide (Load.load_type load = DISTRIBUTED) then Load.value load else 0)
    + q_distributed loads.
Proof.
  unfold q_distributed. case_decide.
  - rewrite filter_cons_True by done. done.
  - rewrite filter_cons_False by done. lra.
Qed.

Lemma vector4_eq (a b c d a' b' c' d' : R) :
  a = a' → b = b' → c = c' → d = d' →
  Ok [a; b; c; d] = Ok [a'; b'; c'; d'].
Proof. by intros -> -> -> ->. Qed.

Lemma fixed_end_forces_from (L : R) : ∀ (loads : list Load.t) (a b c d : R),
  fixed_end_forces L loads [a; b; c; d] =
    Ok [a + q_distributed loads * L / 2;
        b + q_distributed loads * L ^ 2 / 12;
        c + q_distributed loads * L / 2;
        d - q_distributed loads * L ^ 2 / 12].
Proof.
  induction loads as [| load loads IH]; intros a b c d.
  - simpl. unfold q_distributed. simpl. apply vector4_eq; lra.
  - rewrite q_distributed_cons. cbn [fixed_end_forces].
    destruct (decide (Load.load_type load = DISTRIBUTED)).
    + cbn. rewrite IH. apply vector4_eq; lra.
    + cbn. rewrite IH. apply vector4_eq; lra.
Qed.

(** X11. The fixed-end reactions that the solver accumulates for a span
    depend on its loads only through the sum q of the values of the
    DISTRIBUTED loads: they are (q L / 2, q L^2 / 12, q L / 2, -q L^2 / 12).
    Point loads, moments and torsion loads, and the positions of all loads,
    have no effect on the analysis. *)
Theorem fixed_end_forces_distributed (L : R) (loads : list Load.t) :
  let q := q_distributed loads in
  fixed_end_forces L loads (zeros 4) =
    Ok [q * L / 2; q * L ^ 2 / 12; q * L / 2; - (q * L ^ 2 / 12)].
Proof.
  intros q. change (zeros 4) with [0; 0; 0; 0].
  rewrite fixed_end_forces_from. fold q. apply vector4_eq; lra.
Qed.

End FixedEndForces.

Section ElementEquilibrium.

Import Np MatrixSolver.

Lemma take_indices_4 (v : vector) (i0 i1 i2 i3 : nat) (u : vector) :
  take_indices v [i0; i1; i2; i3] = Ok u →
  ∃ u0 u1 u2 u3, u = [u0; u1; u2; u3].
Proof.
  simpl. unfold get.
  destruct (v !! i0); [| done]. destruct (v !! i1); [| done].
  destruct (v !! i2); [| done]. destruct (v !! i3); [| done].
  cbn. intros [= <-]. eauto.
Qed.

(** The end forces that [_compute_internal_forces] derives for a span
    balance its distributed load: vertically, and in moment about the
    left end. *)
Definition balanced (q L sl ml sr mr : R) : Prop :=
  sl - sr = q * L ∧ ml - mr - sr * L = q * L ^ 2 / 2.

Lemma span_forces_balanced (v : span_view) (idx : nat) (d : vector)
    (sl ml sr mr : R) :
  span_forces v idx d = Ok (sl, ml, sr, mr) →
  balanced (q_distributed (sv_loads v)) (BeamSpan.length (sv_span v)) sl ml sr mr.
Proof.
  unfold span_forces, span_stiffness, local_stiffness. intros H.
  apply result_bind_inv in H as (k & Hk & H).
  apply result_bind_inv in Hk as (c & _ & Hk). injection Hk as <-.
  apply result_bind_inv in H as (u & Hu & H).
  apply take_indices_4 in Hu as (u0 & u1 & u2 & u3 & ->).
  change (zeros 4) with [0; 0; 0; 0] in H.
  rewrite fixed_end_forces_from in H. cbn in H.
  injection H as <- <- <- <-. unfold balanced.
  set (L := BeamSpan.length (sv_span v)).
  set (q := q_distributed (sv_loads v)).
  split; field.
Qed.

End ElementEquilibrium.

Local Close Scope R_scope.

(** ** The analysis stages write only the result fields of spans *)

(** [s'] is [s] with other results: the geometry, the references to the
    section, the material, the loads and the nodes are the same. *)
Definition same_static (s s' : BeamSpan.t) : Prop :=
  BeamSpan.id s' = BeamSpan.id s ∧
  BeamSpan.length s' = BeamSpan.length s ∧
  BeamSpan.section s' = BeamSpan.section s ∧
  BeamSpan.material s' = BeamSpan.material s ∧
  BeamSpan.loads s' = BeamSpan.loads s ∧
  BeamSpan.start_node s' = BeamSpan.start_node s ∧
  BeamSpan.end_node s' = BeamSpan.end_node s.

(** [h'] has the objects of [h] at the same places; a span may carry other
    results, every other object is as it was. *)
Definition evolves (h h' : heap) : Prop :=
  length h' = length h ∧
  ∀ l o, h !! l = Some o →
    match o with
    | OSpan s => ∃ s', h' !! l = Some (OSpan s') ∧ same_static s s'
    | _ => h' !! l = Some o
    end.

(** [m] only rewrites result fields of spans, whether it returns or
    raises. *)
Definition steady {A} (m : M A) : Prop :=
  ∀ h : heap, wp m h (λ _ h', evolves h h').

Section Evolves.

Implicit Types (h : heap) (l : loc).

Lemma same_static_refl s : same_static s s.
Proof. by repeat split. Qed.

Lemma same_static_trans s1 s2 s3 :
  same_static s1 s2 → same_static s2 s3 → same_static s1 s3.
Proof.
  intros (? & ? & ? & ? & ? & ? & ?) (? & ? & ? & ? & ? & ? & ?).
  repeat split; congruence.
Qed.

Lemma evolves_refl h : evolves h h.
Proof.
  split; [done |]. intros l [] Hl; try done.
  eexists. split; [done | apply same_static_refl].
Qed.

Lemma evolves_trans h1 h2 h3 : evolves h1 h2 → evolves h2 h3 → evolves h1 h3.
Proof.
  intros [Hlen1 H1] [Hlen2 H2]. split; [congruence |].
  intros l o Hl. specialize (H1 l o Hl). destruct o;
    try (by apply (H2 l _ H1)).
  destruct H1 as (s2 & Hs2 & Hst).
  destruct (H2 l _ Hs2) as (s3 & Hs3 & Hst').
  exists s3. split; [done |]. by eapply same_static_trans.
Qed.

Lemma evolves_update h l s s' :
  h !! l = Some (OSpan s) → same_static s s' →
  evolves h (<[l := OSpan s']> h).
Proof.
  intros Hl Hst. split; [by rewrite length_insert |].
  intros l' o Ho. destruct (decide (l = l')) as [<- | Hne].
  - rewrite Hl in Ho. injection Ho as <-.
    exists s'. split; [| done].
    apply list_lookup_insert_eq. by eapply lookup_lt_Some.
  - rewrite list_lookup_insert_ne by done.
    destruct o; try done. eexists. split; [done | apply same_static_refl].
Qed.

(** What does not depend on results reads the same after [evolves]. *)
Lemma evolves_lookup h h' l o :
  evolves h h' → h !! l = Some o → (∀ s, o ≠ OSpan s) → h' !! l = Some o.
Proof.
  intros [_ H] Hl Hno. specialize (H l o Hl). destruct o; try done.
  by destruct (Hno s).
Qed.

Lemma evolves_span h h' l s :
  evolves h h' → h !! l = Some (OSpan s) →
  ∃ s', h' !! l = Some (OSpan s') ∧ same_static s s'.
Proof. intros [_ H] Hl. apply (H l _ Hl). Qed.

End Evolves.

Section Steady.

Lemma steady_bind {A B} (m : M A) (f : A → M B) :
  steady m → (∀ a, steady (f a)) → steady (m ≫= f).
Proof.
  intros Hm Hf h. apply wp_bind. eapply wp_mono; [apply Hm |].
  intros [a | e] h1 H1; [| done].
  eapply wp_mono; [apply Hf |]. intros r h2 H2. by eapply evolves_trans.
Qed.

Lemma steady_ret {A} (a : A) : steady (mret a).
Proof. intros h. apply wp_ret, evolves_refl. Qed.

Lemma steady_lift {A} (r : result A) : steady (lift r).
Proof. intros h. apply wp_lift, evolves_refl. Qed.

Lemma steady_raise {A} c msg : steady (raise c msg : M A).
Proof. apply steady_lift. Qed.

Lemma steady_deref (l : loc) : steady (deref l).
Proof. intros h. unfold wp, deref. destruct (h !! l); apply evolves_refl. Qed.

Lemma steady_read_span (l : loc) : steady (read_span l).
Proof.
  apply steady_bind; [apply steady_deref |].
  intros []; first [apply steady_ret | apply steady_lift].
Qed.

Lemma steady_read_beam (l : loc) : steady (read_beam l).
Proof.
  apply steady_bind; [apply steady_deref |].
  intros []; first [apply steady_ret | apply steady_lift].
Qed.

Lemma steady_read_section (l : loc) : steady (read_section l).
Proof.
  apply steady_bind; [apply steady_deref |].
  intros []; first [apply steady_ret | apply steady_lift].
Qed.

Lemma steady_read_material (l : loc) : steady (read_material l).
Proof.
  apply steady_bind; [apply steady_deref |].
  intros []; first [apply steady_ret | apply steady_lift].
Qed.

Lemma steady_read_load (l : loc) : steady (read_load l).
Proof.
  apply steady_bind; [apply steady_deref |].
  intros []; first [apply steady_ret | apply steady_lift].
Qed.

Lemma steady_read_node (l : loc) : steady (read_node l).
Proof.
  apply steady_bind; [apply steady_deref |].
  intros []; first [apply steady_ret | apply steady_lift].
Qed.

Lemma steady_update_span (l : loc) (f : BeamSpan.t → BeamSpan.t) :
  (∀ s, same_static s (f s)) → steady (update_span l f).
Proof.
  intros Hf h. unfold update_span, read_span.
  apply wp_bind, wp_bind, wp_deref_any; [| intros; apply evolves_refl].
  intros o Ho. destruct o; try (apply wp_lift, evolves_refl).
  apply wp_ret, wp_store. eapply evolves_update; [exact Ho | apply Hf].
Qed.

Lemma steady_for_each {A} (l : list A) (f : A → M unit) :
  (∀ x, steady (f x)) → steady (for_each l f).
Proof.
  intros Hf. induction l as [| x l IH]; simpl; [apply steady_ret |].
  apply steady_bind; [apply Hf | done].
Qed.

Lemma steady_map_M {A B} (f : A → M B) (l : list A) :
  (∀ x, steady (f x)) → steady (map_M f l).
Proof.
  intros Hf. induction l as [| x l IH]; simpl; [apply steady_ret |].
  apply steady_bind; [apply Hf |]. intros y.
  apply steady_bind; [exact IH |]. intros ys. apply steady_ret.
Qed.

End Steady.

Ltac steady_leaf :=
  first
    [ apply steady_read_section | apply steady_read_material
    | apply steady_read_load | apply steady_read_node
    | apply steady_read_span | apply steady_read_beam
    | apply steady_lift | apply steady_ret | apply steady_raise
    | apply steady_update_span; intros ?; by repeat split
    | apply steady_map_M; intros; steady_leaf ].

Ltac steady_step :=
  lazymatch goal with
  | |- steady (_ ≫= _) => apply steady_bind; [steady_leaf | intros ?]
  | |- steady _ => steady_leaf
  end.

Section SteadyStages.

Lemma steady_view_span l : steady (MatrixSolver.view_span l).
Proof. unfold MatrixSolver.view_span. repeat steady_step. Qed.

Lemma steady_assemble_stiffness_matrix (spans : list loc) :
  ∀ idx K, steady (MatrixSolver.assemble_stiffness_matrix spans idx K).
Proof.
  induction spans as [| span rest IH]; intros idx K; simpl; [steady_step |].
  apply steady_bind; [apply steady_view_span |]. intros v.
  do 2 steady_step. apply IH.
Qed.

Lemma steady_assemble_load_vector (spans : list loc) :
  ∀ idx F, steady (MatrixSolver.assemble_load_vector spans idx F).
Proof.
  induction spans as [| span rest IH]; intros idx F; simpl; [steady_step |].
  apply steady_bind; [apply steady_view_span |]. intros v.
  do 2 steady_step. apply IH.
Qed.

Lemma steady_solve_system nodes K F d :
  steady (MatrixSolver.solve_system nodes K F d).
Proof. unfold MatrixSolver.solve_system. repeat steady_step. Qed.

Lemma steady_compute_internal_forces (spans : list loc) :
  ∀ idx d, steady (MatrixSolver.compute_internal_forces spans idx d).
Proof.
  induction spans as [| span rest IH]; intros idx d; simpl; [steady_step |].
  apply steady_bind; [apply steady_view_span |]. intros v.
  steady_step. destruct a as [[[sl ml] sr] mr].
  steady_step. apply IH.
Qed.

Lemma steady_solve beam : steady (MatrixSolver.solve beam).
Proof.
  unfold MatrixSolver.solve. steady_step.
  apply steady_bind; [case_decide; steady_step |]. intros _. steady_step.
  apply steady_bind; [case_decide; steady_step |]. intros _. steady_step.
  apply steady_bind; [apply steady_assemble_stiffness_matrix |]. intros K.
  steady_step.
  apply steady_bind; [apply steady_assemble_load_vector |]. intros F.
  steady_step.
  apply steady_bind; [apply steady_solve_system |]. intros d.
  steady_step. apply steady_compute_internal_forces.
Qed.

Lemma steady_design_flexure self span :
  steady (ELUDesignEngine.design_flexure self span).
Proof. unfold ELUDesignEngine.design_flexure. repeat steady_step. Qed.

Lemma steady_design_shear self span :
  steady (ELUDesignEngine.design_shear self span).
Proof.
  unfold ELUDesignEngine.design_shear.
  do 4 steady_step. destruct a2 as [[V_sd Asw_s_req] status_biela].
  apply steady_bind; [| intros _; steady_step].
  destruct (BeamSpan.design_results a); steady_step.
Qed.

Lemma steady_run_design self beam : steady (ELUDesignEngine.run_design self beam).
Proof.
  unfold ELUDesignEngine.run_design. steady_step.
  apply steady_for_each. intros span.
  apply steady_bind; [apply steady_design_flexure |]. intros _.
  apply steady_design_shear.
Qed.

Lemma steady_check_span self span : steady (ELSCheckerEngine.check_span self span).
Proof.
  unfold ELSCheckerEngine.check_span. steady_step.
  destruct (negb _); [steady_step |].
  do 3 steady_step. destruct a2 as [[wk wk_limit] status_crack].
  do 2 steady_step. destruct a3 as [[[inst total] limit] status_deflection].
  steady_step.
Qed.

Lemma steady_run_checks self beam : steady (ELSCheckerEngine.run_checks self beam).
Proof.
  unfold ELSCheckerEngine.run_checks. steady_step.
  apply steady_for_each. intros span. apply steady_check_span.
Qed.

End SteadyStages.

Local Open Scope R_scope.

Section SolveBalance.

Import Np MatrixSolver.

Implicit Types (h : heap).

Lemma wp_read_load_any (l : loc) h Q :
  (∀ x, h !! l = Some (OLoad x) → Q (Ok x) h) → (∀ e, Q (Raise e) h) →
  wp (read_load l) h Q.
Proof.
  intros Hb He. apply wp_bind, wp_deref_any; [| done].
  intros o Ho. destruct o; first [by apply wp_ret, Hb | apply wp_lift, He].
Qed.

Lemma read_loads_inv (ls : list loc) h :
  wp (map_M read_load ls) h (λ r h',
    h' = h ∧
    match r with
    | Ok lds => Forall2 (λ l ld, h !! l = Some (OLoad ld)) ls lds
    | Raise _ => True
    end).
Proof.
  induction ls as [| l ls IH]; simpl.
  - apply wp_ret. split; [done | constructor].
  - apply wp_bind, wp_read_load_any; [| done]. intros ld Hld.
    apply wp_bind. eapply wp_mono; [exact IH |].
    intros [lds | e] h' [-> Hall]; [| done].
    apply wp_ret. split; [done |]. by constructor.
Qed.

(** The loads of a span as the engines read them. *)
Definition span_loads h (s : BeamSpan.t) (lds : list Load.t) : Prop :=
  Forall2 (λ l ld, h !! l = Some (OLoad ld)) (BeamSpan.loads s) lds.

(** The stored end forces of the span at [l] balance its distributed
    load. *)
Definition span_balanced h (l : loc) : Prop :=
  ∃ s lds, h !! l = Some (OSpan s) ∧ span_loads h s lds ∧
    balanced (q_distributed lds) (BeamSpan.length s)
      (BeamSpan.shear_left s) (BeamSpan.moment_left s)
      (BeamSpan.shear_right s) (BeamSpan.moment_right s).

Lemma span_loads_evolves h h' s s' lds :
  evolves h h' → same_static s s' → span_loads h s lds → span_loads h' s' lds.
Proof.
  intros Hev (_ & _ & _ & _ & Hloads & _) Hl. unfold span_loads in *.
  rewrite Hloads. eapply Forall2_impl; [exact Hl |].
  intros l ld Hld. by eapply evolves_lookup.
Qed.

Lemma view_span_inv l h :
  wp (view_span l) h (λ r h',
    h' = h ∧
    match r with
    | Ok v => h !! l = Some (OSpan (sv_span v)) ∧
              span_loads h (sv_span v) (sv_loads v)
    | Raise _ => True
    end).
Proof.
  unfold view_span.
  apply wp_bind, wp_read_span_any; [| done]. intros s Hs.
  apply wp_bind, wp_read_section_any; [| done]. intros sec Hsec.
  apply wp_bind.
  assert (Hm : wp (read_material (BeamSpan.material s)) h (λ _ h', h' = h)).
  { unfold read_material. apply wp_bind, wp_deref_any; [| done].
    intros []; intros; first [by apply wp_ret | by apply wp_lift]. }
  eapply wp_mono; [exact Hm |]. intros [mat | e] h1 ->; [| done].
  apply wp_bind. eapply wp_mono; [apply read_loads_inv |].
  intros [lds | e] h2 [-> Hall]; [| done].
  apply wp_ret. done.
Qed.

End SolveBalance.

Section SolveBalanceLoop.

Import Np MatrixSolver.

Implicit Types (h : heap).

Lemma span_balanced_here h span s lds sl ml sr mr :
  h !! span = Some (OSpan s) → span_loads h s lds →
  balanced (q_distributed lds) (BeamSpan.length s) sl ml sr mr →
  span_balanced (<[span := OSpan (BeamSpan.set_forces s ml mr sl sr)]> h) span.
Proof.
  intros Hs Hl Hbal.
  assert (Hst : same_static s (BeamSpan.set_forces s ml mr sl sr))
    by (by repeat split).
  exists (BeamSpan.set_forces s ml mr sl sr), lds.
  split; [apply list_lookup_insert_eq; by eapply lookup_lt_Some |].
  split; [| done].
  eapply span_loads_evolves; [by eapply evolves_update | exact Hst | exact Hl].
Qed.

Lemma span_balanced_other h span s s' l :
  h !! span = Some (OSpan s) → same_static s s' → l ≠ span →
  span_balanced h l → span_balanced (<[span := OSpan s']> h) l.
Proof.
  intros Hs Hst Hne (sl & lds & Hl & Hloads & Hbal).
  exists sl, lds. split; [by rewrite list_lookup_insert_ne |].
  split; [| done].
  eapply span_loads_evolves;
    [by eapply evolves_update | apply same_static_refl | exact Hloads].
Qed.

Lemma compute_internal_forces_balanced (spans : list loc) :
  ∀ (idx : nat) (d : vector) h (seen : list loc),
  Forall (span_balanced h) seen →
  wp (compute_internal_forces spans idx d) h (λ r h',
    match r with
    | Ok _ => Forall (span_balanced h') (seen ++ spans)
    | Raise _ => True
    end).
Proof.
  induction spans as [| span rest IH]; intros idx d h seen Hseen; simpl.
  - apply wp_ret. by rewrite app_nil_r.
  - apply wp_bind. eapply wp_mono; [apply view_span_inv |].
    intros [v | e] h0 [-> Hv]; [| done]. destruct Hv as [Hs Hloads].
    apply wp_bind, wp_lift.
    destruct (span_forces v idx d) as [[[[sl ml] sr] mr] | e] eqn:Hf; [| done].
    apply span_forces_balanced in Hf.
    apply wp_bind. eapply wp_update_span; [exact Hs |].
    eapply wp_mono.
    + apply (IH (idx + 1)%nat d _ (seen ++ [span])).
      apply Forall_app. split.
      * eapply Forall_impl; [exact Hseen |]. intros l Hl.
        destruct (decide (l = span)) as [-> | Hne].
        -- by eapply span_balanced_here.
        -- eapply span_balanced_other; [exact Hs | by repeat split | done | done].
      * apply Forall_singleton. by eapply span_balanced_here.
    + intros [[] | e] h2; [| done]. by rewrite <- app_assoc.
Qed.

(** *** The solver returns on a regular system *)

(** A square matrix that maps only the zero vector to zero. *)
Definition regular_matrix (A : matrix) : Prop :=
  ∀ v : vector, length v = length A →
    Forall (λ row, dot row v = 0) A → Forall (λ x, x = 0) v.

Lemma Forall_zip_fst {X Y} (P : X → Prop) : ∀ (A : list X) (b : list Y),
  length b = length A →
  (Forall (λ r, P (fst r)) (zip A b) ↔ Forall P A).
Proof.
  induction A as [| x A IH]; intros [| y b] Hlen; simpl in *; try done.
  rewrite !Forall_cons, IH by lia. done.
Qed.

Lemma linalg_solve_regular (A : matrix) (b : vector) :
  length b = length A → Forall (λ row, length row = length A) A →
  regular_matrix A →
  ∃ xs, linalg_solve A b = Ok xs ∧ length xs = length A.
Proof.
  intros Hb Hrows Hreg. unfold linalg_solve.
  apply gauss_regular.
  - rewrite length_zip. lia.
  - by apply (Forall_zip_fst (λ row, length row = length A)).
  - intros v Hv Hall. apply Hreg; [done |].
    by apply (Forall_zip_fst (λ row, dot row v = 0)) in Hall.
Qed.

Lemma take_indices_bound (v : vector) : ∀ (idxs : list nat) (r : vector),
  take_indices v idxs = Ok r → Forall (λ i, (i < length v)%nat) idxs.
Proof.
  induction idxs as [| i idxs IH]; intros r H; [constructor |].
  simpl in H. unfold get in H.
  destruct (v !! i) as [x |] eqn:Hx; [| done]. cbn in H.
  apply result_bind_inv in H as (xs & Hxs & _).
  constructor; [by eapply lookup_lt_Some | by eapply IH].
Qed.

Lemma take_indices_ok (v : vector) : ∀ (idxs : list nat),
  Forall (λ i, (i < length v)%nat) idxs → ∃ r, take_indices v idxs = Ok r.
Proof.
  induction idxs as [| i idxs IH]; intros Hall; [by exists [] |].
  apply Forall_cons in Hall as [Hi Hall].
  destruct (lookup_lt_is_Some_2 v i Hi) as [x Hx].
  destruct (IH Hall) as [r Hr].
  simpl. unfold get. rewrite Hx. cbn. rewrite Hr. cbn. eauto.
Qed.

Lemma ix__rows (K : matrix) (cols : list nat) : ∀ (rows : list nat) (r : matrix),
  ix_ K rows cols = Ok r → Forall (λ row, length row = length cols) r.
Proof.
  induction rows as [| i rows IH]; intros r H; simpl in H.
  - injection H as <-. constructor.
  - destruct (K !! i) as [row |]; [| done].
    apply result_bind_inv in H as (x & Hx & H).
    apply result_bind_inv in H as (xs & Hxs & H).
    injection H as <-. constructor; [| by eapply IH].
    by eapply length_take_indices.
Qed.

Lemma put_ok : ∀ (idxs : list nat) (xs v : vector),
  Forall (λ i, (i < length v)%nat) idxs →
  ∃ v', put v idxs xs = Ok v' ∧ length v' = length v.
Proof.
  induction idxs as [| i idxs IH]; intros xs v Hall; [by exists v |].
  destruct xs as [| x xs]; [by exists v |].
  apply Forall_cons in Hall as [Hi Hall].
  destruct (lookup_lt_is_Some_2 v i Hi) as [old Hold].
  simpl. unfold set_at. rewrite Hold. cbn.
  destruct (IH xs (<[i := x]> v)) as (v' & Hv' & Hlen).
  { by rewrite length_insert. }
  exists v'. split; [done |]. by rewrite Hlen, length_insert.
Qed.

(** The reduced solve returns when the reduced matrix is regular. *)
Lemma solve_reduced_regular (K : matrix) (F d : vector) (free : list nat)
    (K_red : matrix) (F_red : vector) :
  ix_ K free free = Ok K_red →
  take_indices F free = Ok F_red →
  length d = length F →
  regular_matrix K_red →
  ∃ d', solve_reduced K F d free = Ok d' ∧ length d' = length d.
Proof.
  intros HK HF Hd Hreg. unfold solve_reduced.
  rewrite HK, HF. cbn [mbind result_bind].
  pose proof (length_ix_ _ _ _ _ HK) as HlK.
  pose proof (length_take_indices _ _ _ HF) as HlF.
  destruct (linalg_solve_regular K_red F_red) as (u & -> & Hu).
  - lia.
  - rewrite HlK. by eapply ix__rows.
  - done.
  - cbn [mbind result_bind]. apply put_ok.
    rewrite Hd. by eapply take_indices_bound.
Qed.

Lemma read_load_inv (l : loc) h :
  match read_load l h with
  | (Ok x, h') => h' = h ∧ h !! l = Some (OLoad x)
  | (Raise _, h') => h' = h ∧ ∀ x, h !! l ≠ Some (OLoad x)
  end.
Proof.
  unfold read_load, deref, mbind, M_bind.
  destruct (h !! l) as [[] |]; simpl; split; congruence.
Qed.

Lemma read_material_inv (l : loc) h :
  match read_material l h with
  | (Ok x, h') => h' = h ∧ h !! l = Some (OMaterial x)
  | (Raise _, h') => h' = h ∧ ∀ x, h !! l ≠ Some (OMaterial x)
  end.
Proof.
  unfold read_material, deref, mbind, M_bind.
  destruct (h !! l) as [[] |]; simpl; split; congruence.
Qed.

Lemma read_loads_run (ls : list loc) h : ∀ lds,
  map_M read_load ls h = (Ok lds, h) ↔
  Forall2 (λ l ld, h !! l = Some (OLoad ld)) ls lds.
Proof.
  induction ls as [| x ls IH]; intros lds; simpl.
  - split; [intros [= <-]; constructor |].
    intros H. by apply Forall2_nil_inv_l in H as ->.
  - unfold mbind, M_bind.
    pose proof (read_load_inv x h) as Hx.
    destruct (read_load x h) as [[ld | e] h0]; destruct Hx as [-> Hx].
    2:{ split; [done |].
        intros (ld & lds' & Hld & _)%Forall2_cons_inv_l. by destruct (Hx ld). }
    pose proof (read_loads_inv ls h) as Hinv. unfold wp in Hinv.
    destruct (map_M read_load ls h) as [[ys | e] h1] eqn:Hrun;
      simpl in Hinv; destruct Hinv as [-> Hall]; simpl.
    + split.
      * intros [= <-]. by constructor.
      * intros (ld' & lds' & Hld & Hall' & ->)%Forall2_cons_inv_l.
        apply IH in Hall'. injection Hall' as ->.
        rewrite Hx in Hld. injection Hld as ->. reflexivity.
    + split; [done |].
      intros (ld' & lds' & Hld & Hall' & ->)%Forall2_cons_inv_l.
      apply IH in Hall'. congruence.
Qed.

(** What [view_span] reads. *)
Lemma view_span_run l h v :
  view_span l h = (Ok v, h) ↔
  h !! l = Some (OSpan (sv_span v)) ∧
  h !! BeamSpan.section (sv_span v) = Some (OSection (sv_section v)) ∧
  h !! BeamSpan.material (sv_span v) = Some (OMaterial (sv_material v)) ∧
  span_loads h (sv_span v) (sv_loads v).
Proof.
  unfold view_span, span_loads, mbind, M_bind.
  destruct v as [s sec mat lds]. simpl.
  pose proof (read_span_inv l h) as Hs.
  destruct (read_span l h) as [[s0 | e] h0]; destruct Hs as [-> Hs].
  2:{ split; [done |]. intros (Hl & _). by destruct (Hs s). }
  pose proof (read_section_inv (BeamSpan.section s0) h) as Hsec.
  destruct (read_section (BeamSpan.section s0) h) as [[sec0 | e] h0];
    destruct Hsec as [-> Hsec].
  2:{ split; [done |]. intros (Hl & Hsec' & _).
      rewrite Hs in Hl. injection Hl as ->. by destruct (Hsec sec). }
  pose proof (read_material_inv (BeamSpan.material s0) h) as Hmat.
  destruct (read_material (BeamSpan.material s0) h) as [[mat0 | e] h0];
    destruct Hmat as [-> Hmat].
  2:{ split; [done |]. intros (Hl & _ & Hmat' & _).
      rewrite Hs in Hl. injection Hl as ->. by destruct (Hmat mat). }
  pose proof (read_loads_inv (BeamSpan.loads s0) h) as Hinv. unfold wp in Hinv.
  pose proof (read_loads_run (BeamSpan.loads s0) h) as Hrun.
  destruct (map_M read_load (BeamSpan.loads s0) h) as [[ys | e] h1];
    simpl in Hinv; destruct Hinv as [-> Hall]; simpl.
  - split.
    + intros [= <- <- <- <-]. done.
    + intros (Hl & Hsec' & Hmat' & Hld).
      rewrite Hs in Hl. injection Hl as ->.
      rewrite Hsec in Hsec'. injection Hsec' as ->.
      rewrite Hmat in Hmat'. injection Hmat' as ->.
      apply Hrun in Hld. injection Hld as ->. reflexivity.
  - split; [done |]. intros (Hl & _ & _ & Hld).
    rewrite Hs in Hl. injection Hl as ->. apply Hrun in Hld. congruence.
Qed.

(** A span stays readable while only results are written. *)
Lemma solvable_span_evolves h h' l :
  evolves h h' → solvable_span h l → solvable_span h' l.
Proof.
  intros Hev (v & Hv & HL). apply view_span_run in Hv as (Hs & Hsec & Hmat & Hld).
  destruct (evolves_span _ _ _ _ Hev Hs) as (s' & Hs' & Hst).
  pose proof Hst as (_ & Hlen & Hsection & Hmaterial & Hloads & _).
  exists {| sv_span := s'; sv_section := sv_section v;
            sv_material := sv_material v; sv_loads := sv_loads v |}.
  split; [| simpl; by rewrite Hlen].
  apply view_span_run. simpl. split; [done |].
  rewrite Hsection, Hmaterial.
  split; [by eapply evolves_lookup |]. split; [by eapply evolves_lookup |].
  by eapply span_loads_evolves.
Qed.

Lemma span_forces_ok (v : span_view) (idx n : nat) (d : vector) :
  BeamSpan.length (sv_span v) ≠ 0 → (idx + 1 < n)%nat →
  length d = (2 * n)%nat →
  ∃ f, span_forces v idx d = Ok f.
Proof.
  intros HL Hidx Hd. unfold span_forces.
  destruct (span_stiffness_ok v HL) as [c ->]. cbn [mbind result_bind].
  destruct (take_indices_ok d (element_indices idx)) as [u Hu].
  { rewrite Hd. by apply element_indices_bound. }
  rewrite Hu. cbn [mbind result_bind].
  apply take_indices_4 in Hu as (u0 & u1 & u2 & u3 & ->).
  change (zeros 4) with [0; 0; 0; 0].
  rewrite fixed_end_forces_from. cbn. eauto.
Qed.

(** The post-processing returns on a beam with a node per span end. *)
Lemma compute_internal_forces_returns (n : nat) (spans : list loc) :
  ∀ (idx : nat) (d : vector) h,
  length d = (2 * n)%nat → (idx + length spans < n)%nat →
  Forall (solvable_span h) spans →
  ∃ h', compute_internal_forces spans idx d h = (Ok tt, h').
Proof.
  induction spans as [| span rest IH]; intros idx d h Hd Hidx Hall;
    [by exists h |].
  apply Forall_cons in Hall as [(v & Hv & HL) Hrest]. simpl in Hidx.
  destruct (span_forces_ok v idx n d) as ([[[sl ml] sr] mr] & Hf);
    [done | lia | done |].
  pose proof Hv as (Hs & _)%view_span_run.
  set (h1 := <[span := OSpan (BeamSpan.set_forces (sv_span v) ml mr sl sr)]> h).
  assert (Hev : evolves h h1).
  { eapply evolves_update; [exact Hs | by repeat split]. }
  destruct (IH (idx + 1)%nat d h1) as (h' & Hrun); [done | lia | |].
  { eapply Forall_impl; [exact Hrest |]. intros l. by apply solvable_span_evolves. }
  exists h'. cbn [compute_internal_forces].
  apply wp_eq. apply wp_bind.
  eapply wp_of_run; [exact Hv |]. cbn beta iota.
  apply wp_bind, wp_lift. rewrite Hf. cbn beta iota.
  apply wp_bind. eapply wp_update_span; [exact Hs |].
  eapply wp_of_run; [exact Hrun |]. done.
Qed.

(** X12. On a beam with a node per span end, readable spans of non-zero
    length and a regular reduced stiffness matrix (only the zero
    displacement has zero force), [solve] returns, and the end forces it
    stores on every span are in static equilibrium with the span's
    distributed load q (the sum of its DISTRIBUTED load values):
    shear_left - shear_right = q L and
    moment_left - moment_right - shear_right L = q L^2 / 2, whatever the
    supports and the number of spans. *)
Theorem solve_balances_spans h (beam : loc) (b : Beam.t)
    (K_red : matrix) (F_red : vector) :
  h !! beam = Some (OBeam b) →
  length (Beam.nodes b) = S (length (Beam.spans b)) →
  Forall (solvable_span h) (Beam.spans b) →
  reduced_system h beam K_red F_red →
  regular_matrix K_red →
  ∃ h', solve beam h = (Ok tt, h') ∧
    h' !! beam = Some (OBeam b) ∧
    ∀ span, span ∈ Beam.spans b →
      ∃ s lds, h' !! span = Some (OSpan s) ∧
        Forall2 (λ l ld, h' !! l = Some (OLoad ld)) (BeamSpan.loads s) lds ∧
        BeamSpan.shear_left s - BeamSpan.shear_right s =
          q_distributed lds * BeamSpan.length s ∧
        BeamSpan.moment_left s - BeamSpan.moment_right s
          - BeamSpan.shear_right s * BeamSpan.length s =
          q_distributed lds * BeamSpan.length s ^ 2 / 2.
Proof.
  intros Hb Hlen Hspans
    (b' & K & F & ns & free & Hb' & Hn & Hs & HK & HF & Hns & Hfree & HKr & HFr)
    Hreg.
  rewrite Hb in Hb'. injection Hb' as <-.
  set (n := length (Beam.nodes b)) in *.
  assert (Hndofs : (n * 2 = 2 * n)%nat) by lia.
  rewrite Hndofs in HK, HF.
  assert (HFlen : length F = (2 * n)%nat).
  { destruct (assemble_load_vector_ok h n (Beam.spans b) 0 (zeros (2 * n)))
      as (F' & HF' & HFlen); [unfold zeros; by rewrite length_replicate
                             | unfold n; lia | done |].
    congruence. }
  destruct (solve_reduced_regular K F (zeros (2 * n)) free K_red F_red)
    as (d & Hd & Hdlen); [done | done | | done |].
  { unfold zeros. by rewrite length_replicate. }
  assert (Hdn : length d = (2 * n)%nat).
  { rewrite Hdlen. unfold zeros. by rewrite length_replicate. }
  destruct (compute_internal_forces_returns n (Beam.spans b) 0 d h)
    as (h' & Hrun); [done | unfold n; lia | done |].
  pose proof (steady_compute_internal_forces (Beam.spans b) 0 d h) as Hev.
  pose proof (compute_internal_forces_balanced (Beam.spans b) 0 d h []
                (Forall_nil_2 _)) as Hbal.
  unfold wp in Hev, Hbal. rewrite Hrun in Hev, Hbal. simpl in Hev, Hbal.
  exists h'. split; [| split].
  - unfold solve. apply wp_eq.
    eapply wp_bind, wp_read_beam; [exact Hb |].
    rewrite decide_False by done. apply wp_bind, wp_ret.
    eapply wp_bind, wp_read_beam; [exact Hb |].
    rewrite decide_False by done. apply wp_bind, wp_ret.
    eapply wp_bind, wp_read_beam; [exact Hb |].
    fold n. rewrite Hndofs.
    apply wp_bind. eapply wp_of_run; [exact HK |]. cbn beta iota.
    eapply wp_bind, wp_read_beam; [exact Hb |].
    apply wp_bind. eapply wp_of_run; [exact HF |]. cbn beta iota.
    eapply wp_bind, wp_read_beam; [exact Hb |].
    apply wp_bind. unfold solve_system.
    apply wp_bind. eapply wp_of_run; [exact Hns |]. cbn beta iota.
    apply wp_bind, wp_lift. rewrite Hfree. cbn beta iota.
    apply wp_lift. rewrite Hd. cbn beta iota.
    eapply wp_bind, wp_read_beam; [exact Hb |].
    eapply wp_of_run; [exact Hrun |]. done.
  - eapply evolves_lookup; [exact Hev | exact Hb | done].
  - intros span Hin. rewrite Forall_forall in Hbal.
    destruct (Hbal _ Hin) as (s & lds & Hsp & Hl & Hv & Hm). eauto 10.
Qed.

Lemma solve_balances_spans_witness :
  ∃ h', solve 2 scenario_heap = (Ok tt, h') ∧
    h' !! 2%nat = Some (OBeam (Beam.mk "V1" [5%nat] [3%nat; 4%nat] (1, 0))) ∧
    ∀ span, span ∈ [5%nat] →
      ∃ s lds, h' !! span = Some (OSpan s) ∧
        Forall2 (λ l ld, h' !! l = Some (OLoad ld)) (BeamSpan.loads s) lds ∧
        BeamSpan.shear_left s - BeamSpan.shear_right s =
          q_distributed lds * BeamSpan.length s ∧
        BeamSpan.moment_left s - BeamSpan.moment_right s
          - BeamSpan.shear_right s * BeamSpan.length s =
          q_distributed lds * BeamSpan.length s ^ 2 / 2.
Proof.
  pose proof scenario_c_pos as Hc.
  apply (solve_balances_spans scenario_heap 2
           (Beam.mk "V1" [5%nat] [3%nat; 4%nat] (1, 0))
           [ [0 + scenario_c * (4 * 6 ^ 2); 0 + scenario_c * (2 * 6 ^ 2)];
             [0 + scenario_c * (2 * 6 ^ 2); 0 + scenario_c * (4 * 6 ^ 2)] ]
           [0 + - (0 + 15 * 6 ^ 2 / 12); 0 + - (0 + - (15) * 6 ^ 2 / 12)]).
  - reflexivity.
  - reflexivity.
  - apply Forall_singleton. exists scenario_view.
    split; [apply scenario_view_run | simpl; lra].
  - exists (Beam.mk "V1" [5%nat] [3%nat; 4%nat] (1, 0)), scenario_K, scenario_F,
      [Node.mk 0 0 0 0 [true; false];
       Node.mk 1 (0 + 6 * 1) (0 + 6 * 0) 0 [true; false]],
      [1; 3]%nat.
    split; [reflexivity |]. split; [discriminate |]. split; [discriminate |].
    split; [apply scenario_K_run |]. split; [apply scenario_F_run |].
    split; [reflexivity |]. split; [reflexivity |]. split; reflexivity.
  - intros [| x [| y [| z v]]] Hv Hall; try discriminate Hv.
    apply Forall_cons in Hall as [H1 Hall].
    apply Forall_cons in Hall as [H2 _]. cbn in H1, H2.
    assert (Hx : scenario_c * x = 0) by lra.
    assert (Hy : scenario_c * y = 0) by lra.
    apply Rmult_integral in Hx as [Hx | Hx]; [lra |].
    apply Rmult_integral in Hy as [Hy | Hy]; [lra |].
    repeat constructor; done.
Defined.

End SolveBalanceLoop.

(** ** BeamController (app/controllers/beam_controller.py) *)

Module BeamController.

Record t := mk {
  elu_engine : ELUDesignEngine.t;
  els_engine : ELSCheckerEngine.t
}.

(** [BeamController()]: [ELUDesignEngine(gamma_c=1.4, gamma_s=1.15)] and
    [ELSCheckerEngine(caa=2)]. *)
Definition init : t :=
  mk (ELUDesignEngine.mk 1.4 1.15 1.4) (ELSCheckerEngine.mk 2 70).

(** [span.detailing_results = v] *)
Definition set_detailing_results (s : BeamSpan.t) (v : gmap string detail)
    : BeamSpan.t :=
  BeamSpan.mk (BeamSpan.id s) (BeamSpan.length s) (BeamSpan.section s)
    (BeamSpan.material s) (BeamSpan.loads s) (BeamSpan.start_node s)
    (BeamSpan.end_node s) (BeamSpan.moment_left s) (BeamSpan.moment_right s)
    (BeamSpan.shear_left s) (BeamSpan.shear_right s)
    (BeamSpan.design_results s) v (BeamSpan.els_results s).

(** The body of the detailing loop (step D) for one span. *)
Definition detail_span (span : loc) : M unit :=
  s ← read_span span;
  match BeamSpan.design_results s with
  | None => mret tt   (* not hasattr(span, "design_results"): continue *)
  | Some res =>
      mat ← read_material (BeamSpan.material s);
      let fck_val := Material.fck mat in
      as_pos ← lift (get_float res "As_inf_vao" 0);
      sec ← read_section (BeamSpan.section s);
      let bw := CrossSection.bw sec in
      det_pos ← lift (BarSelectorEngine.select_longitudinal as_pos bw 25 false fck_val);
      as_neg_esq ← lift (get_float res "As_sup_esq" 0);
      det_neg_esq ←
        lift (BarSelectorEngine.select_longitudinal as_neg_esq bw 25 true fck_val);
      as_neg_dir ← lift (get_float res "As_sup_dir" 0);
      det_neg_dir ←
        lift (BarSelectorEngine.select_longitudinal as_neg_dir bw 25 true fck_val);
      let det_pele :=
        BarSelectorEngine.select_skin_reinforcement (CrossSection.h sec) bw in
      asw_req ← lift (get_float res "Asw_s_req" 0);
      det_shear ←
        lift (BarSelectorEngine.select_stirrup asw_req bw (CrossSection.h sec));
      update_span span (λ s,
        set_detailing_results s
          (<["positive" := DBar det_pos]>
          (<["negative_left" := DBar det_neg_esq]>
          (<["negative_right" := DBar det_neg_dir]>
          (<["skin" := DBar det_pele]>
          (<["stirrups" := DStirrup det_shear]> ∅))))))
  end.

(** [_process_single_beam] *)
Definition process_single_beam (self : t) (beam : loc) : M unit :=
  MatrixSolver.solve beam;;
  ELUDesignEngine.run_design (elu_engine self) beam;;
  ELSCheckerEngine.run_checks (els_engine self) beam;;
  b ← read_beam beam;
  for_each (Beam.spans b) detail_span.

End BeamController.

Section ControllerFrame.

Import BeamController.

Lemma steady_detail_span span : steady (detail_span span).
Proof.
  unfold detail_span. steady_step.
  destruct (BeamSpan.design_results a); [| steady_step].
  repeat steady_step.
Qed.

Lemma steady_process_single_beam self beam :
  steady (process_single_beam self beam).
Proof.
  unfold process_single_beam.
  apply steady_bind; [apply steady_solve |]. intros _.
  apply steady_bind; [apply steady_run_design |]. intros _.
  apply steady_bind; [apply steady_run_checks |]. intros _.
  steady_step. apply steady_for_each. intros span. apply steady_detail_span.
Qed.

(** X13. The pipeline of the controller (solve, design, checks,
    detailing) writes results and nothing else, whether it returns or
    raises: the store keeps its size; every section, material, load, node
    and beam object is exactly as before; and a span object keeps its id,
    its length and its references to section, material, loads and nodes.
    Only the internal forces and the three result attributes of spans can
    differ. *)
Theorem process_single_beam_writes_results_only (self : t) (beam : loc)
    (h : heap) :
  let h' := (process_single_beam self beam h).2 in
  length h' = length h ∧
  ∀ l o, h !! l = Some o →
    match o with
    | OSpan s =>
        ∃ s', h' !! l = Some (OSpan s') ∧
          BeamSpan.id s' = BeamSpan.id s ∧
          BeamSpan.length s' = BeamSpan.length s ∧
          BeamSpan.section s' = BeamSpan.section s ∧
          BeamSpan.material s' = BeamSpan.material s ∧
          BeamSpan.loads s' = BeamSpan.loads s ∧
          BeamSpan.start_node s' = BeamSpan.start_node s ∧
          BeamSpan.end_node s' = BeamSpan.end_node s
    | _ => h' !! l = Some o
    end.
Proof. apply (steady_process_single_beam self beam h). Qed.

End ControllerFrame.

Section DegenerateBeams.

Import Np MatrixSolver.

Implicit Types (h : heap).

(** X14. [MatrixSolver] rejects a beam without nodes and a beam without
    spans with a ValueError before it computes anything: the store is
    untouched. *)
Theorem solve_rejects_empty_beam h (beam : loc) (b : Beam.t) :
  h !! beam = Some (OBeam b) →
  Beam.nodes b = [] ∨ Beam.spans b = [] →
  ∃ e, solve beam h = (Raise e, h) ∧ exn_cls e = ValueError.
Proof.
  intros Hb Hempty. unfold solve.
  destruct (decide (Beam.nodes b = [])) as [Hn | Hn].
  - eexists. split.
    + apply wp_eq. wp_step. rewrite decide_True by done. apply wp_bind, wp_lift.
      done.
    + done.
  - destruct Hempty as [? | Hs]; [done |]. eexists. split.
    + apply wp_eq. wp_step. rewrite decide_False by done. wp_step. wp_step.
      rewrite decide_True by done. apply wp_bind, wp_lift. done.
    + done.
Qed.

Lemma solve_rejects_empty_beam_witness :
  ∃ e, solve 0 [OBeam (Beam.new "V1")] = (Raise e, [OBeam (Beam.new "V1")]) ∧
       exn_cls e = ValueError.
Proof.
  apply (solve_rejects_empty_beam [OBeam (Beam.new "V1")] 0%nat (Beam.new "V1")).
  - reflexivity.
  - by left.
Defined.

(** X15. A span of length 0 makes the element stiffness E I / L^3
    undefined: if the first span of a beam (with nodes and readable
    section, material and loads) has length 0, [solve] raises
    ZeroDivisionError while it assembles the stiffness matrix, and the
    store is untouched. *)
Theorem solve_zero_length_span h (beam : loc) (b : Beam.t) (span : loc)
    (rest : list loc) (v : span_view) :
  h !! beam = Some (OBeam b) →
  Beam.nodes b ≠ [] → Beam.spans b = span :: rest →
  view_span span h = (Ok v, h) → BeamSpan.length (sv_span v) = 0 →
  ∃ e, solve beam h = (Raise e, h) ∧ exn_cls e = ZeroDivisionError.
Proof.
  intros Hb Hn Hs Hv HL.
  destruct (div_by_zero
              (Material.Ecs (sv_material v) * 1000 *
               (CrossSection.inertia (sv_section v) * / 100000000))
              (BeamSpan.length (sv_span v) ^ 3)) as (e & Hdiv & He).
  { rewrite HL. lra. }
  exists e. split; [| done].
  unfold solve. apply wp_eq.
  wp_step. rewrite decide_False by done. wp_step. wp_step.
  rewrite decide_False by (by rewrite Hs). wp_step. wp_step.
  rewrite Hs. cbn [assemble_stiffness_matrix].
  apply wp_bind, wp_bind. eapply wp_of_run; [exact Hv |]. cbn beta iota.
  apply wp_bind, wp_lift.
  unfold span_stiffness, local_stiffness. rewrite Hdiv. done.
Qed.

Lemma solve_zero_length_span_witness :
  let h : heap :=
    [ OMaterial (Material.mk "C30" CONCRETE 30 500 26000);
      OSection (CrossSection.new 20 50);
      OBeam (Beam.mk "V1" [5%nat] [3%nat; 4%nat] (1, 0));
      ONode (Node.mk 0 0 0 0 [true; false]);
      ONode (Node.mk 1 0 0 0 [true; false]);
      OSpan (BeamSpan.new 1 0 1 0 (Some 3%nat) (Some 4%nat)) ] in
  ∃ e, solve 2 h = (Raise e, h) ∧ exn_cls e = ZeroDivisionError.
Proof.
  intros h.
  apply (solve_zero_length_span h 2%nat
           (Beam.mk "V1" [5%nat] [3%nat; 4%nat] (1, 0)) 5%nat []
           {| sv_span := BeamSpan.new 1 0 1 0 (Some 3%nat) (Some 4%nat);
              sv_section := CrossSection.new 20 50;
              sv_material := Material.mk "C30" CONCRETE 30 500 26000;
              sv_loads := [] |}).
  - reflexivity.
  - discriminate.
  - reflexivity.
  - reflexivity.
  - reflexivity.
Defined.

End DegenerateBeams.

(** ** Beam.add_span on a beam that already has spans *)

Section AddSpanContinues.

Implicit Types (h : heap).

(** X16. [add_span] on a beam that already has nodes starts the new span
    at the last node of the beam: the argument [start_coord] is not used,
    and [start_support] is used only when it is FIXED, in which case the
    flags of that shared node become [True, True]; PINNED and FREE leave
    the node as the previous span set it.  The new end node gets the next
    id, the coordinates of the start node plus length times direction,
    and the flags of [end_support]; the span gets the next span id; the
    beam records both and takes [direction] as its direction vector.  No
    other object changes. *)
Theorem add_span_continues h (beam : loc) (b : Beam.t) (ln : loc) (nd : Node.t)
    (len : R) (section mat : loc) (start_coord direction : R * R)
    (start_support end_support : SupportType) :
  h !! beam = Some (OBeam b) →
  last (Beam.nodes b) = Some ln →
  h !! ln = Some (ONode nd) →
  ∃ h',
    add_span beam len section mat start_coord direction
      start_support end_support h = (Ok (S (length h)), h') ∧
    h' !! ln =
      Some (ONode (if decide (start_support = FIXED)
                   then Node.set_support_conditions nd [true; true]
                   else nd)) ∧
    h' !! length h =
      Some (ONode (Node.mk (length (Beam.nodes b))
                     (Node.x nd + len * direction.1)
                     (Node.y nd + len * direction.2) 0
                     (get_conditions end_support))) ∧
    h' !! S (length h) =
      Some (OSpan (BeamSpan.new (length (Beam.spans b) + 1) len section mat
                     (Some ln) (Some (length h)))) ∧
    h' !! beam =
      Some (OBeam (Beam.mk (Beam.id b) (Beam.spans b ++ [S (length h)])
                     (Beam.nodes b ++ [length h]) direction)) ∧
    ∀ l o, h !! l = Some o → l ≠ beam → l ≠ ln → h' !! l = Some o.
Proof.
  intros Hb Hlast Hln.
  assert (Hlt : (beam < length h)%nat) by (by eapply lookup_lt_Some).
  assert (Hln_lt : (ln < length h)%nat) by (by eapply lookup_lt_Some).
  assert (Hne : ln ≠ beam) by congruence.
  assert (Hwp : wp (add_span beam len section mat start_coord direction
                      start_support end_support) h
            (λ r h', r = Ok (S (length h)) ∧
               h' !! ln =
                 Some (ONode (if decide (start_support = FIXED)
                              then Node.set_support_conditions nd [true; true]
                              else nd)) ∧
               h' !! length h =
                 Some (ONode (Node.mk (length (Beam.nodes b))
                                (Node.x nd + len * direction.1)
                                (Node.y nd + len * direction.2) 0
                                (get_conditions end_support))) ∧
               h' !! S (length h) =
                 Some (OSpan (BeamSpan.new (length (Beam.spans b) + 1) len
                                section mat (Some ln) (Some (length h)))) ∧
               h' !! beam =
                 Some (OBeam (Beam.mk (Beam.id b) (Beam.spans b ++ [S (length h)])
                                (Beam.nodes b ++ [length h]) direction)) ∧
               ∀ l o, h !! l = Some o → l ≠ beam → l ≠ ln → h' !! l = Some o)).
  { unfold add_span. wp_step. wp_step. wp_step.
    simpl Beam.nodes. rewrite Hlast.
    destruct (decide (start_support = FIXED)) as [Hfix | Hfix].
    - cbn iota. repeat wp_step. cbn beta iota.
      split; [f_equal; lia |].
      split; [heap_lookup |]. split; [heap_lookup |].
      split; [replace (S (length h)) with (length h + 1)%nat by lia; heap_lookup |].
      split; [replace (S (length h)) with (length h + 1)%nat by lia; heap_lookup |].
      intros l o Hl Hl1 Hl2. apply lookup_lt_Some in Hl as Hllt. heap_lookup.
    - cbn iota. repeat wp_step. cbn beta iota.
      split; [f_equal; lia |].
      split; [heap_lookup |]. split; [heap_lookup |].
      split; [replace (S (length h)) with (length h + 1)%nat by lia; heap_lookup |].
      split; [replace (S (length h)) with (length h + 1)%nat by lia; heap_lookup |].
      intros l o Hl Hl1 Hl2. apply lookup_lt_Some in Hl as Hllt. heap_lookup. }
  apply wp_run in Hwp as (r & h' & Hrun & -> & Hrest). eauto.
Qed.

End AddSpanContinues.

Lemma add_span_continues_witness :
  let h := scenario_heap in
  let b := Beam.mk "V1" [5%nat] [3%nat; 4%nat] (1, 0) in
  let nd := Node.mk 1 (0 + 6 * 1) (0 + 6 * 0) 0 [true; false] in
  ∃ h',
    add_span 2 4 1 0 (9, 9) (1, 0) FIXED FREE h = (Ok (S (length h)), h') ∧
    h' !! 4%nat =
      Some (ONode (if decide (FIXED = FIXED)
                   then Node.set_support_conditions nd [true; true]
                   else nd)) ∧
    h' !! length h =
      Some (ONode (Node.mk (length (Beam.nodes b))
                     (Node.x nd + 4 * (1, 0).1)
                     (Node.y nd + 4 * (1, 0).2) 0
                     (get_conditions FREE))) ∧
    h' !! S (length h) =
      Some (OSpan (BeamSpan.new (length (Beam.spans b) + 1) 4 1 0
                     (Some 4%nat) (Some (length h)))) ∧
    h' !! 2%nat =
      Some (OBeam (Beam.mk (Beam.id b) (Beam.spans b ++ [S (length h)])
                     (Beam.nodes b ++ [length h]) (1, 0))) ∧
    ∀ l o, h !! l = Some o → l ≠ 2%nat → l ≠ 4%nat → h' !! l = Some o.
Proof.
  intros h b nd.
  apply (add_span_continues h 2%nat b 4%nat nd 4 1%nat 0%nat (9, 9) (1, 0)
           FIXED FREE); reflexivity.
Defined.

(** ** OptimizerEngine: empty beams and the recommendation *)

Section OptimizerEdges.

Import OptimizerEngine.

Implicit Types (h : heap).

(** X17. [optimize_beam] reads the section of the first span before any
    trial: on a beam without spans it raises IndexError, no trial runs and
    the store is untouched. *)
Theorem optimize_beam_without_spans (self : t) h (beam : loc) (b : Beam.t) :
  h !! beam = Some (OBeam b) → Beam.spans b = [] →
  ∃ e, optimize_beam self beam h = (Raise e, h) ∧ exn_cls e = IndexError.
Proof.
  intros Hb Hs. eexists. split.
  - unfold optimize_beam. apply wp_eq. wp_step. rewrite Hs.
    apply wp_bind, wp_lift. done.
  - done.
Qed.

Lemma optimize_beam_without_spans_witness :
  ∃ e, optimize_beam init 0 [OBeam (Beam.new "V1")] =
         (Raise e, [OBeam (Beam.new "V1")]) ∧
       exn_cls e = IndexError.
Proof.
  apply (optimize_beam_without_spans init [OBeam (Beam.new "V1")] 0%nat
           (Beam.new "V1")); reflexivity.
Defined.

(** X18. The report compares the best candidate with the first trial
    whose height equals the original height.  The recommendation is to
    keep the section when there is no such trial or when the best
    candidate has the original height.  Otherwise it is to change to the
    height of the best candidate, and the economy it names is the cost of
    that original trial minus the cost of the best candidate; this is
    never negative when the original trial has status OK. *)
Theorem select_best_recommendation (h_orig : R) (results : list trial)
    (original : option trial) (best : trial) (all_trials : list trial)
    (rec : recommendation) :
  select_best h_orig results = Report original best all_trials rec →
  original = head (filter (λ r, IZR (t_h r) = h_orig) results) ∧
  match rec with
  | Manter => original = None ∨ IZR (t_h best) = h_orig
  | Alterar h_from h_to economia =>
      h_from = h_orig ∧ h_to = t_h best ∧ IZR (t_h best) ≠ h_orig ∧
      ∃ o, original = Some o ∧ o ∈ results ∧ IZR (t_h o) = h_orig ∧
           economia = t_cost o - t_cost best ∧
           (t_status o = "OK" → 0 <= economia)
  end.
Proof.
  intros Hsel. pose proof (select_best_spec h_orig results) as Hspec.
  rewrite Hsel in Hspec. destruct Hspec as (_ & _ & _ & Hmin).
  unfold select_best in Hsel.
  destruct (filter (λ r, is_valid r = true) results) as [| r0 rest]; [done |].
  injection Hsel as <- <- _ <-. split; [done |].
  destruct (head (filter (λ r, IZR (t_h r) = h_orig) results)) as [o |] eqn:Ho;
    [| by left].
  assert (Hin : o ∈ filter (λ r, IZR (t_h r) = h_orig) results).
  { destruct (filter _ results); [done |]. injection Ho as ->. by left. }
  apply list_elem_of_filter in Hin as [Hh Hin].
  unfold Py.eqb. destruct (Req_dec_T _ h_orig) as [Heq | Hne]; [by right |].
  split; [done |]. split; [done |]. split; [done |].
  exists o. split; [done |]. split; [done |]. split; [done |]. split; [done |].
  intros Hok. specialize (Hmin o Hin Hok). lra.
Qed.

Lemma select_best_recommendation_witness :
  let ok35 := {| t_h := 35; t_status := "OK"; t_cost := 100000;
                 t_steel_kg := Some 0; t_conc_m3 := Some 0; t_as_pos := None |} in
  ∃ original rec,
    original = head (filter (λ r, IZR (t_h r) = 50)
                       [trial_falha_els 30; ok35]) ∧
    match rec with
    | Manter => original = None ∨ IZR (t_h ok35) = 50
    | Alterar h_from h_to economia =>
        h_from = 50 ∧ h_to = t_h ok35 ∧ IZR (t_h ok35) ≠ 50 ∧
        ∃ o, original = Some o ∧ o ∈ [trial_falha_els 30; ok35] ∧
             IZR (t_h o) = 50 ∧
             economia = t_cost o - t_cost ok35 ∧
             (t_status o = "OK" → 0 <= economia)
    end.
Proof.
  intros ok35.
  destruct (select_best_ignores_sentinel) as (original & rec & Hsel).
  exists original, rec.
  apply (select_best_recommendation 50 [trial_falha_els 30; ok35]
           original ok35 [trial_falha_els 30; ok35] rec Hsel).
Defined.

End OptimizerEdges.

(** ** MatrixSolver: the free degrees of freedom *)

Local Close Scope R_scope.

Section FreeDofs.

Import MatrixSolver.

(** Degree of freedom [k] is free in the node list [ns] numbered from [i]:
    it is the translation (even) or the rotation (odd) of a node whose
    corresponding flag is False. *)
Definition free_dof (i : nat) (ns : list Node.t) (k : nat) : Prop :=
  ∃ j n, ns !! j = Some n ∧
    ((k = 2 * (i + j) ∧ Node.support_conditions n !! 0 = Some false) ∨
     (k = 2 * (i + j) + 1 ∧ Node.support_conditions n !! 1 = Some false)).

Lemma free_dof_cons i n ns k :
  free_dof i (n :: ns) k ↔
  (k = 2 * i ∧ Node.support_conditions n !! 0 = Some false) ∨
  (k = 2 * i + 1 ∧ Node.support_conditions n !! 1 = Some false) ∨
  free_dof (S i) ns k.
Proof.
  unfold free_dof. split.
  - intros (j & n' & Hj & H). destruct j as [| j]; simpl in Hj.
    + injection Hj as <-. replace (i + 0) with i in H by lia. tauto.
    + right. right. exists j, n'. split; [done |].
      replace (S i + j) with (i + S j) by lia. done.
  - intros [H | [H | (j & n' & Hj & H)]].
    + exists 0, n. replace (i + 0) with i by lia. split; [done | by left].
    + exists 0, n. replace (i + 0) with i by lia. split; [done | by right].
    + exists (S j), n'. split; [done |].
      replace (i + S j) with (S i + j) by lia. done.
Qed.

Lemma free_dofs_from_spec (ns : list Node.t) : ∀ (i : nat),
  Forall (λ n, 2 ≤ length (Node.support_conditions n)) ns →
  ∃ dofs, free_dofs_from i ns = Ok dofs ∧
    (∀ k, k ∈ dofs ↔ free_dof i ns k) ∧
    Forall (λ k, 2 * i ≤ k) dofs ∧ StronglySorted lt dofs.
Proof.
  induction ns as [| n ns IH]; intros i Hlen.
  - exists []. split; [done |]. split; [| split; constructor].
    intros k. split; [by intros ?%elem_of_nil |].
    by intros (j & n & Hj & _).
  - apply Forall_cons in Hlen as [Hn Hlen].
    destruct (IH (S i) Hlen) as (tl & Htl & Hmem & Hlow & Hsort).
    destruct (lookup_lt_is_Some_2 (Node.support_conditions n) 0) as [c0 Hc0];
      [lia |].
    destruct (lookup_lt_is_Some_2 (Node.support_conditions n) 1) as [c1 Hc1];
      [lia |].
    simpl. rewrite Hc0, Hc1. cbn [mbind result_bind]. rewrite Htl.
    cbn [mbind result_bind]. eexists. split; [reflexivity |].
    assert (Htl_low : Forall (λ k, 2 * i + 2 ≤ k) tl).
    { eapply Forall_impl; [exact Hlow |]. simpl. intros; lia. }
    split; [| split].
    + intros k. rewrite free_dof_cons, <- Hmem, Hc0, Hc1.
      rewrite !elem_of_app.
      destruct c0, c1; simpl; rewrite ?elem_of_cons, ?elem_of_nil;
        replace (i + (i + 0)) with (2 * i) by lia; intuition congruence.
    + repeat (apply Forall_app; split).
      * destruct c0; repeat constructor; lia.
      * destruct c1; repeat constructor; lia.
      * eapply Forall_impl; [exact Htl_low |]. simpl. intros; lia.
    + replace (i + (i + 0)) with (2 * i) by lia.
      destruct c0, c1; simpl; repeat (apply SSorted_cons); try done;
        repeat (apply Forall_cons; split); try lia;
        try (eapply Forall_impl; [exact Htl_low |]; simpl; intros; lia).
Qed.

End FreeDofs.

Section FreeDofsResult.

Import MatrixSolver.

Lemma free_dofs_from_short (ns : list Node.t) : ∀ (i : nat),
  Exists (λ n, length (Node.support_conditions n) < 2) ns →
  ∃ e, free_dofs_from i ns = Raise e ∧ exn_cls e = IndexError.
Proof.
  induction ns as [| n ns IH]; intros i Hex; [by apply Exists_nil in Hex |].
  simpl.
  destruct (Node.support_conditions n !! 0) as [c0 |] eqn:Hc0;
    [| eexists; split; [reflexivity | done]].
  destruct (Node.support_conditions n !! 1) as [c1 |] eqn:Hc1;
    [| eexists; split; [reflexivity | done]].
  cbn [mbind result_bind].
  apply Exists_cons in Hex as [Hshort | Hrest].
  - apply lookup_lt_Some in Hc1. lia.
  - destruct (IH (S i) Hrest) as (e & -> & He). eauto.
Qed.

(** X19. The free degrees of freedom that [_solve_system] collects are,
    in increasing order and without repetition, the numbers 2 j of the
    nodes j whose first flag is False and 2 j + 1 of the nodes whose
    second flag is False; all lie below twice the number of nodes.  A node
    with fewer than two flags makes the collection raise IndexError. *)
Theorem solver_free_dofs (ns : list Node.t) :
  (Forall (λ n, 2 ≤ length (Node.support_conditions n)) ns →
   ∃ dofs, free_dofs_from 0 ns = Ok dofs ∧
     (∀ k, k ∈ dofs ↔
        ∃ j n, ns !! j = Some n ∧
          ((k = 2 * j ∧ Node.support_conditions n !! 0 = Some false) ∨
           (k = 2 * j + 1 ∧ Node.support_conditions n !! 1 = Some false))) ∧
     StronglySorted lt dofs ∧
     Forall (λ k, k < 2 * length ns) dofs) ∧
  (Exists (λ n, length (Node.support_conditions n) < 2) ns →
   ∃ e, free_dofs_from 0 ns = Raise e ∧ exn_cls e = IndexError).
Proof.
  split; [| apply free_dofs_from_short].
  intros Hlen.
  destruct (free_dofs_from_spec ns 0 Hlen) as (dofs & Hrun & Hmem & _ & Hsort).
  exists dofs. split; [done |]. split; [exact Hmem |]. split; [done |].
  apply Forall_forall. intros k Hk. apply Hmem in Hk as (j & n & Hj & Hk).
  apply lookup_lt_Some in Hj. lia.
Qed.

End FreeDofsResult.

(** ** copy.deepcopy: the copy has the contents and the shape of the
    original *)

(** [s'] is the copy of the span [s] under the memo [m]: the same scalar
    fields and results, and each reference replaced by its copy. *)
Definition span_copy (m : Copy.memo) (s s' : BeamSpan.t) : Prop :=
  BeamSpan.id s' = BeamSpan.id s ∧
  BeamSpan.length s' = BeamSpan.length s ∧
  m !! BeamSpan.section s = Some (BeamSpan.section s') ∧
  m !! BeamSpan.material s = Some (BeamSpan.material s') ∧
  Forall2 (λ a a', m !! a = Some a') (BeamSpan.loads s) (BeamSpan.loads s') ∧
  option_Forall2 (λ a a', m !! a = Some a')
    (BeamSpan.start_node s) (BeamSpan.start_node s') ∧
  option_Forall2 (λ a a', m !! a = Some a')
    (BeamSpan.end_node s) (BeamSpan.end_node s') ∧
  BeamSpan.moment_left s' = BeamSpan.moment_left s ∧
  BeamSpan.moment_right s' = BeamSpan.moment_right s ∧
  BeamSpan.shear_left s' = BeamSpan.shear_left s ∧
  BeamSpan.shear_right s' = BeamSpan.shear_right s ∧
  BeamSpan.design_results s' = BeamSpan.design_results s ∧
  BeamSpan.detailing_results s' = BeamSpan.detailing_results s ∧
  BeamSpan.els_results s' = BeamSpan.els_results s.

(** The object at [l'] is the copy of the object at [l]. *)
Definition copy_of (m : Copy.memo) (h : heap) (l l' : loc) : Prop :=
  ∃ o, h !! l = Some o ∧
    match o with
    | OSpan s => ∃ s', h !! l' = Some (OSpan s') ∧ span_copy m s s'
    | OBeam _ => False
    | _ => h !! l' = Some o
    end.

Definition memo_ok (m : Copy.memo) (h : heap) : Prop :=
  ∀ l l', m !! l = Some l' → copy_of m h l l'.

(** The effect of a step of [deepcopy]: the heap and the memo grow, and
    the memo describes copies. *)
Definition copy_post (m : Copy.memo) (h : heap) (m' : Copy.memo) (h' : heap)
    : Prop :=
  h `prefix_of` h' ∧ m ⊆ m' ∧ memo_ok m' h'.

(** A step that copies only objects without references leaves the memo
    entries of spans alone. *)
Definition leaf_post (m : Copy.memo) (h : heap) (m' : Copy.memo) (h' : heap)
    : Prop :=
  copy_post m h m' h' ∧ ∀ k s, h !! k = Some (OSpan s) → m' !! k = m !! k.

Section CopyFacts.

Implicit Types (h : heap) (m : Copy.memo) (l : loc).

Lemma span_copy_mono m m2 s s' : m ⊆ m2 → span_copy m s s' → span_copy m2 s s'.
Proof.
  intros Hm (? & ? & Hsec & Hmat & Hl & Hsn & Hen & Hrest).
  split; [done |]. split; [done |].
  split; [by eapply lookup_weaken |]. split; [by eapply lookup_weaken |].
  split.
  { eapply Forall2_impl; [exact Hl |].
    intros a a' Ha. exact (lookup_weaken _ _ _ _ Ha Hm). }
  split.
  { destruct Hsn as [a a' Ha |]; constructor.
    exact (lookup_weaken _ _ _ _ Ha Hm). }
  split; [| done].
  destruct Hen as [a a' Ha |]; constructor.
  exact (lookup_weaken _ _ _ _ Ha Hm).
Qed.

Lemma copy_of_mono m m2 h h2 l l' :
  m ⊆ m2 → h `prefix_of` h2 → copy_of m h l l' → copy_of m2 h2 l l'.
Proof.
  intros Hm Hh (o & Hl & H). exists o.
  split; [by eapply prefix_lookup_Some |].
  destruct o; try (by eapply prefix_lookup_Some); try done.
  destruct H as (s' & Hs' & Hc). exists s'.
  split; [by eapply prefix_lookup_Some | by eapply span_copy_mono].
Qed.

Lemma copy_post_refl m h : memo_ok m h → copy_post m h m h.
Proof. by repeat split. Qed.

Lemma copy_post_trans m h m1 h1 m2 h2 :
  copy_post m h m1 h1 → copy_post m1 h1 m2 h2 → copy_post m h m2 h2.
Proof.
  intros (Hh1 & Hm1 & _) (Hh2 & Hm2 & Hok).
  split; [by etrans |]. split; [by etrans | done].
Qed.

Lemma leaf_post_trans m h m1 h1 m2 h2 :
  leaf_post m h m1 h1 → leaf_post m1 h1 m2 h2 → leaf_post m h m2 h2.
Proof.
  intros [H1 Hk1] [H2 Hk2]. split; [by eapply copy_post_trans |].
  intros k s Hk. rewrite <- (Hk1 k s Hk). apply (Hk2 k s).
  destruct H1 as (Hh & _). by eapply prefix_lookup_Some.
Qed.

Lemma prefix_snoc h o : h `prefix_of` h ++ [o].
Proof. by exists [o]. Qed.

(** Entering a new copy in the memo. *)
Lemma memo_ok_insert m h l o :
  memo_ok m h → m !! l = None → h !! l = Some o →
  match o with
  | OSpan _ | OBeam _ => False
  | _ => True
  end →
  memo_ok (<[l := length h]> m) (h ++ [o]).
Proof.
  intros Hok Hnone Hl Hleaf l0 l0' Hl0. unfold Copy.memo in *.
  destruct (decide (l0 = l)) as [-> | Hne].
  - rewrite lookup_insert_eq in Hl0. injection Hl0 as <-.
    exists o. split; [by apply heap_lookup_snoc_old |].
    destruct o; try done; by apply list_lookup_middle.
  - rewrite lookup_insert_ne in Hl0 by done.
    eapply copy_of_mono; [by apply insert_subseteq | apply prefix_snoc |].
    by apply Hok.
Qed.

End CopyFacts.

Section CopySpecs.

Implicit Types (h : heap) (m : Copy.memo) (l : loc).

Lemma leaf_post_refl m h : memo_ok m h → leaf_post m h m h.
Proof. intros Hok. split; [by apply copy_post_refl | done]. Qed.

Lemma copy_leaf_spec m l h :
  memo_ok m h →
  wp (Copy.copy_leaf m l) h (λ r h',
    match r with
    | Ok (l', m') => leaf_post m h m' h' ∧ m' !! l = Some l'
    | Raise _ => True
    end).
Proof.
  intros Hok. unfold Copy.copy_leaf.
  destruct (m !! l) as [l' |] eqn:Hl.
  - apply wp_ret. split; [by apply leaf_post_refl | done].
  - apply wp_bind, wp_deref_any; [| done]. intros o Ho.
    assert (Hnew : ∀ o', o' = o →
              match o with OSpan _ | OBeam _ => False | _ => True end →
              wp (alloc o ≫= λ l', mret (l', <[l := l']> m)) h
                (λ r h', match r with
                         | Ok (l', m') => leaf_post m h m' h' ∧ m' !! l = Some l'
                         | Raise _ => True
                         end)).
    { intros o' _ Hleaf. apply wp_bind, wp_alloc, wp_ret.
      unfold Copy.memo in *. split; [| by rewrite lookup_insert_eq].
      split.
      - split; [apply prefix_snoc |]. split; [by apply insert_subseteq |].
        by apply memo_ok_insert.
      - intros k s Hk. unfold Copy.memo in *.
        rewrite lookup_insert_ne; [done |]. intros ->.
        rewrite Ho in Hk. injection Hk as ->. done. }
    destruct o; first [by apply wp_lift | by apply (Hnew _ eq_refl)].
Qed.

Lemma copy_leaves_spec (ls : list loc) : ∀ m h,
  memo_ok m h →
  wp (Copy.copy_leaves m ls) h (λ r h',
    match r with
    | Ok (ls', m') =>
        leaf_post m h m' h' ∧ Forall2 (λ a a', m' !! a = Some a') ls ls'
    | Raise _ => True
    end).
Proof.
  induction ls as [| l rest IH]; intros m h Hok; simpl.
  - apply wp_ret. split; [by apply leaf_post_refl | constructor].
  - apply wp_bind. eapply wp_mono; [by apply copy_leaf_spec |].
    intros [[l' m1] | e] h1; [| done]. intros [H1 Hl'].
    apply wp_bind. eapply wp_mono; [apply IH; apply H1 |].
    intros [[rest' m2] | e] h2; [| done]. intros [H2 Hrest].
    apply wp_ret. split; [by eapply leaf_post_trans |].
    constructor; [| done].
    destruct H2 as [(_ & Hsub & _) _]. exact (lookup_weaken _ _ _ _ Hl' Hsub).
Qed.

Lemma copy_opt_leaf_spec m (l : option loc) h :
  memo_ok m h →
  wp (Copy.copy_opt_leaf m l) h (λ r h',
    match r with
    | Ok (l', m') =>
        leaf_post m h m' h' ∧ option_Forall2 (λ a a', m' !! a = Some a') l l'
    | Raise _ => True
    end).
Proof.
  intros Hok. destruct l as [l |]; simpl.
  - apply wp_bind. eapply wp_mono; [by apply copy_leaf_spec |].
    intros [[l' m1] | e] h1; [| done]. intros [H1 Hl'].
    apply wp_ret. split; [done | by constructor].
  - apply wp_ret. split; [by apply leaf_post_refl | constructor].
Qed.

End CopySpecs.

Section CopySpanSpec.

Implicit Types (h : heap) (m : Copy.memo) (l : loc).

Lemma leaf_post_sub m h m' h' : leaf_post m h m' h' → m ⊆ m'.
Proof. by intros [(_ & Hsub & _) _]. Qed.

Lemma leaf_post_prefix m h m' h' : leaf_post m h m' h' → h `prefix_of` h'.
Proof. by intros [(Hpre & _) _]. Qed.

Lemma copy_span_spec m l h :
  memo_ok m h →
  wp (Copy.copy_span m l) h (λ r h',
    match r with
    | Ok (l', m') => copy_post m h m' h' ∧ m' !! l = Some l'
    | Raise _ => True
    end).
Proof.
  intros Hok. unfold Copy.copy_span.
  destruct (m !! l) as [l' |] eqn:Hl.
  { apply wp_ret. split; [by apply copy_post_refl | done]. }
  apply wp_bind, wp_read_span_any; [| done]. intros s Hs.
  apply wp_bind. eapply wp_mono; [by apply copy_leaf_spec |].
  intros [[sec m1] | e] h1; [| done]. intros [H1 Hsec].
  apply wp_bind. eapply wp_mono; [apply copy_leaf_spec, H1 |].
  intros [[mat m2] | e] h2; [| done]. intros [H2 Hmat].
  apply wp_bind. eapply wp_mono; [apply copy_leaves_spec, H2 |].
  intros [[lds m3] | e] h3; [| done]. intros [H3 Hlds].
  apply wp_bind. eapply wp_mono; [apply copy_opt_leaf_spec, H3 |].
  intros [[sn m4] | e] h4; [| done]. intros [H4 Hsn].
  apply wp_bind. eapply wp_mono; [apply copy_opt_leaf_spec, H4 |].
  intros [[en m5] | e] h5; [| done]. intros [H5 Hen].
  apply wp_bind, wp_alloc, wp_ret.
  pose proof (leaf_post_trans _ _ _ _ _ _ H1 H2) as H12.
  pose proof (leaf_post_trans _ _ _ _ _ _ H12 H3) as H13.
  pose proof (leaf_post_trans _ _ _ _ _ _ H13 H4) as H14.
  pose proof (leaf_post_trans _ _ _ _ _ _ H14 H5) as H15.
  assert (Hnone : m5 !! l = None).
  { destruct H15 as [_ Hkeys]. by rewrite (Hkeys l s Hs). }
  assert (Hsub5 : m5 ⊆ <[l := length h5]> m5) by (by apply insert_subseteq).
  assert (Hs5 : h5 !! l = Some (OSpan s)).
  { eapply prefix_lookup_Some; [exact Hs | by eapply leaf_post_prefix]. }
  unfold Copy.memo in *.
  split; [| by rewrite lookup_insert_eq].
  split; [etrans; [by eapply leaf_post_prefix | apply prefix_snoc] |].
  split; [etrans; [by eapply leaf_post_sub | done] |].
  intros k k' Hk. unfold Copy.memo in *.
  destruct (decide (k = l)) as [-> | Hne].
  - rewrite lookup_insert_eq in Hk. injection Hk as <-.
    exists (OSpan s). split; [by apply heap_lookup_snoc_old |].
    eexists. split; [by apply list_lookup_middle |].
    pose proof (leaf_post_sub _ _ _ _ H2) as S2.
    pose proof (leaf_post_sub _ _ _ _ H3) as S3.
    pose proof (leaf_post_sub _ _ _ _ H4) as S4.
    pose proof (leaf_post_sub _ _ _ _ H5) as S5.
    assert (S25 : m2 ⊆ <[l := length h5]> m5)
      by (etrans; [exact S3 |]; etrans; [exact S4 |]; by etrans).
    assert (S35 : m3 ⊆ <[l := length h5]> m5)
      by (etrans; [exact S4 |]; by etrans).
    assert (S45 : m4 ⊆ <[l := length h5]> m5) by (by etrans).
    unfold span_copy. simpl.
    split; [done |]. split; [done |].
    split; [eapply lookup_weaken; [exact Hsec |]; by etrans |].
    split; [exact (lookup_weaken _ _ _ _ Hmat S25) |].
    split.
    { eapply Forall2_impl; [exact Hlds |].
      intros a a' Ha. exact (lookup_weaken _ _ _ _ Ha S35). }
    split.
    { destruct Hsn as [a a' Ha |]; constructor.
      exact (lookup_weaken _ _ _ _ Ha S45). }
    split; [| done].
    destruct Hen as [a a' Ha |]; constructor.
    exact (lookup_weaken _ _ _ _ Ha Hsub5).
  - rewrite lookup_insert_ne in Hk by done.
    eapply copy_of_mono; [exact Hsub5 | apply prefix_snoc |].
    destruct H5 as [(_ & _ & Hok5) _]. by apply Hok5.
Qed.

Lemma copy_spans_spec (ls : list loc) : ∀ m h,
  memo_ok m h →
  wp (Copy.copy_spans m ls) h (λ r h',
    match r with
    | Ok (ls', m') =>
        copy_post m h m' h' ∧ Forall2 (λ a a', m' !! a = Some a') ls ls'
    | Raise _ => True
    end).
Proof.
  induction ls as [| l rest IH]; intros m h Hok; simpl.
  - apply wp_ret. split; [by apply copy_post_refl | constructor].
  - apply wp_bind. eapply wp_mono; [by apply copy_span_spec |].
    intros [[l' m1] | e] h1; [| done]. intros [H1 Hl'].
    apply wp_bind. eapply wp_mono; [apply IH; apply H1 |].
    intros [[rest' m2] | e] h2; [| done]. intros [H2 Hrest].
    apply wp_ret. split; [by eapply copy_post_trans |].
    constructor; [| done].
    destruct H2 as (_ & Hsub & _). exact (lookup_weaken _ _ _ _ Hl' Hsub).
Qed.

End CopySpanSpec.

Section DeepcopyShape.

Implicit Types (h : heap) (m : Copy.memo) (l : loc).

Lemma memo_ok_empty h : memo_ok ∅ h.
Proof. intros l l' Hl. unfold Copy.memo in *. by rewrite lookup_empty in Hl. Qed.

(** X20. When [deepcopy] of a beam returns, the new beam object has the
    id and the direction vector of the original, and there is a map from
    originals to copies (the memo) under which its spans and nodes are
    the copies of the original spans and nodes, in order; every object
    the map relates has an identical copy when it holds no reference
    (section, material, load, node), and a span is copied field by field
    with each reference replaced by the copy of its target.  Because the
    map is a function, objects shared in the original are shared in the
    copy.  The heap before the call is an initial segment of the heap
    after it. *)
Theorem deepcopy_copies_contents h (beam : loc) (trial_beam : loc) h' :
  Copy.deepcopy beam h = (Ok trial_beam, h') →
  ∃ (b b' : Beam.t) (m : gmap loc loc),
    h !! beam = Some (OBeam b) ∧
    h' !! trial_beam = Some (OBeam b') ∧
    h `prefix_of` h' ∧
    Beam.id b' = Beam.id b ∧
    Beam.direction_vector b' = Beam.direction_vector b ∧
    Forall2 (λ a a', m !! a = Some a') (Beam.spans b) (Beam.spans b') ∧
    Forall2 (λ a a', m !! a = Some a') (Beam.nodes b) (Beam.nodes b') ∧
    ∀ l l', m !! l = Some l' → copy_of m h' l l'.
Proof.
  intros Hrun.
  assert (Hwp : wp (Copy.deepcopy beam) h (λ r h2,
            match r with
            | Ok tb =>
                ∃ (b b' : Beam.t) (m : gmap loc loc),
                  h !! beam = Some (OBeam b) ∧
                  h2 !! tb = Some (OBeam b') ∧
                  h `prefix_of` h2 ∧
                  Beam.id b' = Beam.id b ∧
                  Beam.direction_vector b' = Beam.direction_vector b ∧
                  Forall2 (λ a a', m !! a = Some a') (Beam.spans b) (Beam.spans b') ∧
                  Forall2 (λ a a', m !! a = Some a') (Beam.nodes b) (Beam.nodes b') ∧
                  ∀ l l', m !! l = Some l' → copy_of m h2 l l'
            | Raise _ => True
            end)).
  { unfold Copy.deepcopy.
    apply wp_bind, wp_read_beam_any; [| done]. intros b Hb.
    apply wp_bind. eapply wp_mono; [apply copy_spans_spec, memo_ok_empty |].
    intros [[spans m1] | e] h1; [| done]. intros [H1 Hspans].
    apply wp_bind. eapply wp_mono; [apply copy_leaves_spec, H1 |].
    intros [[nodes m2] | e] h2; [| done]. intros [H2 Hnodes].
    apply wp_alloc.
    exists b, (Beam.mk (Beam.id b) spans nodes (Beam.direction_vector b)), m2.
    pose proof (leaf_post_sub _ _ _ _ H2) as Hsub.
    pose proof (leaf_post_prefix _ _ _ _ H2) as Hpre2.
    destruct H1 as (Hpre1 & _ & _). destruct H2 as [(_ & _ & Hok2) _].
    split; [done |]. split; [by apply list_lookup_middle |].
    split; [etrans; [exact Hpre1 |]; etrans; [exact Hpre2 | apply prefix_snoc] |].
    split; [done |]. split; [done |]. split.
    { eapply Forall2_impl; [exact Hspans |].
      intros a a' Ha. exact (lookup_weaken _ _ _ _ Ha Hsub). }
    split; [done |].
    intros l l' Hl.
    eapply (copy_of_mono m2 m2); [reflexivity | apply prefix_snoc |].
    by apply Hok2. }
  unfold wp in Hwp. rewrite Hrun in Hwp. exact Hwp.
Qed.

Lemma deepcopy_copies_contents_witness :
  ∃ h' (b b' : Beam.t) (m : gmap loc loc),
    Copy.deepcopy 2 scenario_heap = (Ok 13%nat, h') ∧
    scenario_heap !! 2%nat = Some (OBeam b) ∧
    h' !! 13%nat = Some (OBeam b') ∧
    scenario_heap `prefix_of` h' ∧
    Beam.id b' = Beam.id b ∧
    Beam.direction_vector b' = Beam.direction_vector b ∧
    Forall2 (λ a a', m !! a = Some a') (Beam.spans b) (Beam.spans b') ∧
    Forall2 (λ a a', m !! a = Some a') (Beam.nodes b) (Beam.nodes b') ∧
    ∀ l l', m !! l = Some l' → copy_of m h' l l'.
Proof.
  destruct (deepcopy_copies_contents _ _ _ _ deepcopy_scenario)
    as (b & b' & m & H).
  eexists _, b, b', m. split; [exact deepcopy_scenario | exact H].
Defined.

End DeepcopyShape.

(** ** Optimizer: the geometry step of a trial *)

Local Open Scope R_scope.

(** What the geometry step may do to a heap, for the new height [t]: a
    section keeps its content or gets height [t]; a load keeps its content
    or, if it is a self-weight load, gets a value that [V] accepts; every
    other object is as it was. *)
Definition geo (t : R) (V : loc → R → Prop) (h h' : heap) : Prop :=
  length h' = length h ∧
  ∀ l o, h !! l = Some o →
    match o with
    | OSection sec =>
        h' !! l = Some (OSection sec) ∨
        h' !! l = Some (OSection (CrossSection.set_h sec t))
    | OLoad ld =>
        h' !! l = Some (OLoad ld) ∨
        (Load.source ld = "Peso Próprio" ∧
         ∃ v, V l v ∧ h' !! l = Some (OLoad (Load.set_value ld v)))
    | _ => h' !! l = Some o
    end.

(** The section at [l] has height [t]. *)
Definition tall (t : R) (h : heap) (l : loc) : Prop :=
  ∃ sec, h !! l = Some (OSection sec) ∧ CrossSection.h sec = t.

(** The load at [l], if it is a self-weight load, has a value that [V]
    accepts. *)
Definition weighed (V : loc → R → Prop) (h : heap) (l : loc) : Prop :=
  ∃ ld, h !! l = Some (OLoad ld) ∧
        (Load.source ld = "Peso Próprio" → V l (Load.value ld)).

Section Geo.

Variable t : R.
Variable V : loc → R → Prop.

Implicit Types (h : heap) (l : loc).

Lemma geo_refl h : geo t V h h.
Proof. split; [done |]. intros l [] Hl; auto. Qed.

Lemma geo_trans h1 h2 h3 : geo t V h1 h2 → geo t V h2 h3 → geo t V h1 h3.
Proof.
  intros [Hlen1 H1] [Hlen2 H2]. split; [congruence |].
  intros l o Hl. specialize (H1 l o Hl).
  destruct o; try (by apply (H2 l _ H1)).
  - destruct H1 as [H1 | H1]; specialize (H2 l _ H1); simpl in H2.
    + done.
    + right. by destruct H2.
  - destruct H1 as [H1 | (Hsrc & v & Hv & H1)]; specialize (H2 l _ H1);
      simpl in H2.
    + done.
    + right. split; [done |].
      destruct H2 as [H2 | (_ & v' & Hv' & H2)]; eauto.
Qed.

Lemma geo_lookup h h' l o :
  geo t V h h' → h !! l = Some o →
  (∀ sec, o ≠ OSection sec) → (∀ ld, o ≠ OLoad ld) → h' !! l = Some o.
Proof.
  intros [_ H] Hl Hs Hd. specialize (H l o Hl).
  destruct o; try done; [by destruct (Hs s) | by destruct (Hd l0)].
Qed.

(** Looking back from the later heap. *)
Lemma geo_span_inv h h' l s :
  geo t V h h' → h' !! l = Some (OSpan s) → h !! l = Some (OSpan s).
Proof.
  intros [Hlen H] Hl.
  destruct (lookup_lt_is_Some_2 h l) as [o Ho].
  { rewrite <- Hlen. by eapply lookup_lt_Some. }
  specialize (H l o Ho). destruct o; try congruence.
  - destruct H; congruence.
  - destruct H as [H | (_ & v & _ & H)]; congruence.
Qed.

Lemma geo_section_inv h h' l sec :
  geo t V h h' → h' !! l = Some (OSection sec) →
  ∃ sec0, h !! l = Some (OSection sec0) ∧
          CrossSection.bw sec = CrossSection.bw sec0.
Proof.
  intros [Hlen H] Hl.
  destruct (lookup_lt_is_Some_2 h l) as [o Ho].
  { rewrite <- Hlen. by eapply lookup_lt_Some. }
  specialize (H l o Ho). destruct o; try congruence.
  - exists s. split; [done |]. destruct H as [H | H]; rewrite H in Hl;
      injection Hl as <-; done.
  - destruct H as [H | (_ & v & _ & H)]; congruence.
Qed.

Lemma tall_geo h h' l : geo t V h h' → tall t h l → tall t h' l.
Proof.
  intros [_ H] (sec & Hl & Hh). specialize (H l _ Hl). simpl in H.
  destruct H as [H | H]; eexists; (split; [exact H |]); done.
Qed.

Lemma weighed_geo h h' l : geo t V h h' → weighed V h l → weighed V h' l.
Proof.
  intros [_ H] (ld & Hl & Hv). specialize (H l _ Hl). simpl in H.
  destruct H as [H | (Hsrc & v & HV & H)].
  - by exists ld.
  - eexists. split; [exact H |]. done.
Qed.

Lemma geo_set_h h l sec :
  h !! l = Some (OSection sec) →
  geo t V h (<[l := OSection (CrossSection.set_h sec t)]> h).
Proof.
  intros Hl. split; [by rewrite length_insert |].
  intros l' o Ho. destruct (decide (l = l')) as [<- | Hne].
  - rewrite Hl in Ho. injection Ho as <-. right.
    apply list_lookup_insert_eq. by eapply lookup_lt_Some.
  - rewrite list_lookup_insert_ne by done. destruct o; auto.
Qed.

Lemma geo_set_value h l ld v :
  h !! l = Some (OLoad ld) → Load.source ld = "Peso Próprio" → V l v →
  geo t V h (<[l := OLoad (Load.set_value ld v)]> h).
Proof.
  intros Hl Hsrc Hv. split; [by rewrite length_insert |].
  intros l' o Ho. destruct (decide (l = l')) as [<- | Hne].
  - rewrite Hl in Ho. injection Ho as <-. right. split; [done |].
    exists v. split; [done |].
    apply list_lookup_insert_eq. by eapply lookup_lt_Some.
  - rewrite list_lookup_insert_ne by done. destruct o; auto.
Qed.

End Geo.

(** The value that the geometry step gives the self-weight load [load]:
    25 kN/m3 times the width of the section of a span of the beam that
    carries the load, times the new height. *)
Definition self_weight (h0 : heap) (b : Beam.t) (h_test : Z) (load : loc)
    (v : R) : Prop :=
  ∃ span s sec,
    span ∈ Beam.spans b ∧ h0 !! span = Some (OSpan s) ∧
    load ∈ BeamSpan.loads s ∧
    h0 !! BeamSpan.section s = Some (OSection sec) ∧
    v = CrossSection.bw sec / 100 * (IZR h_test / 100) * 25.

Section WpUpdateAny.

Implicit Types (h : heap) (l : loc).

Lemma wp_update_section_any l f h Q :
  (∀ sec, h !! l = Some (OSection sec) →
     Q (Ok tt) (<[l := OSection (f sec)]> h)) →
  (∀ e, Q (Raise e) h) →
  wp (update_section l f) h Q.
Proof.
  intros Hok He. unfold update_section.
  apply wp_bind, wp_read_section_any; [| done]. intros sec Hsec.
  apply wp_store. by apply Hok.
Qed.

Lemma wp_update_load_any l f h Q :
  (∀ ld, h !! l = Some (OLoad ld) → Q (Ok tt) (<[l := OLoad (f ld)]> h)) →
  (∀ e, Q (Raise e) h) →
  wp (update_load l f) h Q.
Proof.
  intros Hok He. unfold update_load.
  apply wp_bind, wp_read_load_any; [| done]. intros ld Hld.
  apply wp_store. by apply Hok.
Qed.

End WpUpdateAny.

Section GeometryStep.

Import OptimizerEngine.

Variable h0 : heap.
Variable b : Beam.t.
Variable h_test : Z.

Implicit Types (h : heap) (l : loc).

Abbreviation G := (geo (IZR h_test) (self_weight h0 b h_test)).
Abbreviation W := (weighed (self_weight h0 b h_test)).

(** The loop over the loads of one span. *)
Lemma geometry_loads_loop (span : loc) (s : BeamSpan.t) (ls : list loc) : ∀ h,
  G h0 h → span ∈ Beam.spans b → h0 !! span = Some (OSpan s) →
  tall (IZR h_test) h (BeamSpan.section s) →
  Forall (λ load, load ∈ BeamSpan.loads s) ls →
  wp (for_each ls (λ load,
        ld ← read_load load;
        if decide (Load.source ld = "Peso Próprio") then
          s ← read_span span;
          sec ← read_section (BeamSpan.section s);
          let new_pp := (CrossSection.bw sec / 100) * (CrossSection.h sec / 100) * 25 in
          update_load load (λ ld, Load.set_value ld new_pp)
        else mret tt)) h
    (λ r h', match r with
             | Ok _ => G h h' ∧ Forall (W h') ls
             | Raise _ => True
             end).
Proof.
  induction ls as [| load rest IH]; intros h Hgeo Hspan Hs Htall Hin; simpl.
  - apply wp_ret. split; [apply geo_refl | constructor].
  - apply Forall_cons in Hin as [Hload Hin].
    apply wp_bind, wp_bind, wp_read_load_any; [| done]. intros ld Hld.
    assert (Hstep : ∀ h1, G h h1 → W h1 load →
              wp (for_each rest (λ load,
                    ld ← read_load load;
                    if decide (Load.source ld = "Peso Próprio") then
                      s ← read_span span;
                      sec ← read_section (BeamSpan.section s);
                      let new_pp :=
                        (CrossSection.bw sec / 100) * (CrossSection.h sec / 100) * 25 in
                      update_load load (λ ld, Load.set_value ld new_pp)
                    else mret tt)) h1
                (λ r h', match r with
                         | Ok _ => G h h' ∧ Forall (W h') (load :: rest)
                         | Raise _ => True
                         end)).
    { intros h1 Hg1 Hw1. eapply wp_mono.
      - apply IH; [by eapply geo_trans | done | done | by eapply tall_geo | done].
      - intros [[] | e] h2; [| done]. intros [Hg2 Hall].
        split; [by eapply geo_trans |]. constructor; [| done].
        by eapply weighed_geo. }
    case_decide as Hsrc.
    + apply wp_bind, wp_read_span_any; [| done]. intros s' Hs'.
      apply (geo_span_inv _ _ _ _ _ _ Hgeo) in Hs'.
      rewrite Hs in Hs'. injection Hs' as <-.
      apply wp_bind, wp_read_section_any; [| done]. intros sec Hsec.
      destruct Htall as (sec' & Hsec' & Hh). rewrite Hsec in Hsec'.
      injection Hsec' as <-.
      destruct (geo_section_inv _ _ _ _ _ _ Hgeo Hsec) as (sec0 & Hsec0 & Hbw).
      assert (HV : self_weight h0 b h_test load
                     (CrossSection.bw sec / 100 * (CrossSection.h sec / 100) * 25)).
      { exists span, s, sec0. rewrite Hh, Hbw. done. }
      apply wp_update_load_any; [| done]. intros ld2 Hld2.
      rewrite Hld in Hld2. injection Hld2 as <-.
      apply Hstep.
      * by apply geo_set_value.
      * eexists. split; [apply list_lookup_insert_eq; by eapply lookup_lt_Some |].
        intros _. exact HV.
    + apply wp_ret. apply Hstep; [apply geo_refl |].
      exists ld. split; [done |]. intros Hsrc'. by destruct Hsrc.
Qed.

End GeometryStep.

(** A span after the geometry step: its section has the new height and
    its self-weight loads have been recomputed. *)
Definition reshaped (h0 : heap) (b : Beam.t) (h_test : Z) (h : heap)
    (span : loc) : Prop :=
  ∃ s, h0 !! span = Some (OSpan s) ∧ h !! span = Some (OSpan s) ∧
    tall (IZR h_test) h (BeamSpan.section s) ∧
    Forall (weighed (self_weight h0 b h_test) h) (BeamSpan.loads s).

Section GeometrySpans.

Import OptimizerEngine.

Variable h0 : heap.
Variable b : Beam.t.
Variable h_test : Z.

Implicit Types (h : heap) (l : loc).

Abbreviation G' := (geo (IZR h_test) (self_weight h0 b h_test)).

Lemma reshaped_geo h h' span :
  G' h h' → reshaped h0 b h_test h span → reshaped h0 b h_test h' span.
Proof.
  intros Hg (s & Hs0 & Hs & Htall & Hloads). exists s.
  split; [done |]. split; [by eapply geo_lookup |].
  split; [by eapply tall_geo |].
  eapply Forall_impl; [exact Hloads |]. intros l.
  exact (weighed_geo _ _ _ _ _ Hg).
Qed.

Lemma geometry_spans_loop (spans : list loc) : ∀ h,
  G' h0 h → Forall (λ span, span ∈ Beam.spans b) spans →
  wp (for_each spans (λ span,
        s ← read_span span;
        update_section (BeamSpan.section s)
          (λ sec, CrossSection.set_h sec (IZR h_test));;
        s ← read_span span;
        for_each (BeamSpan.loads s) (λ load,
          ld ← read_load load;
          if decide (Load.source ld = "Peso Próprio") then
            s ← read_span span;
            sec ← read_section (BeamSpan.section s);
            let new_pp :=
              (CrossSection.bw sec / 100) * (CrossSection.h sec / 100) * 25 in
            update_load load (λ ld, Load.set_value ld new_pp)
          else mret tt))) h
    (λ r h', match r with
             | Ok _ => G' h h' ∧ Forall (reshaped h0 b h_test h') spans
             | Raise _ => True
             end).
Proof.
  induction spans as [| span rest IH]; intros h Hgeo Hin; simpl.
  - apply wp_ret. split; [apply geo_refl | constructor].
  - apply Forall_cons in Hin as [Hspan Hin].
    apply wp_bind, wp_bind, wp_read_span_any; [| done]. intros s Hs.
    pose proof (geo_span_inv _ _ _ _ _ _ Hgeo Hs) as Hs0.
    apply wp_bind, wp_update_section_any; [| done]. intros sec Hsec.
    set (h1 := <[BeamSpan.section s := OSection (CrossSection.set_h sec (IZR h_test))]> h).
    assert (Hg1 : G' h h1) by (by apply geo_set_h).
    assert (Hs1 : h1 !! span = Some (OSpan s)).
    { eapply geo_lookup; [exact Hg1 | exact Hs | done | done]. }
    assert (Htall : tall (IZR h_test) h1 (BeamSpan.section s)).
    { eexists. split; [apply list_lookup_insert_eq; by eapply lookup_lt_Some |].
      done. }
    apply wp_bind, wp_read_span_any; [| done]. intros s' Hs'.
    rewrite Hs1 in Hs'. injection Hs' as <-.
    eapply wp_mono.
    + apply (geometry_loads_loop h0 b h_test span s (BeamSpan.loads s) h1);
        [by eapply geo_trans | done | done | done |].
      by apply Forall_forall.
    + intros [[] | e] h2; [| done]. intros [Hg2 Hloads].
      assert (Hg02 : G' h0 h2).
      { eapply geo_trans; [exact Hgeo |]. by eapply geo_trans. }
      eapply wp_mono; [by apply IH |].
      intros [[] | e] h3; [| done]. intros [Hg3 Hall].
      split; [eapply geo_trans; [exact Hg1 |]; by eapply geo_trans |].
      constructor; [| done].
      apply (reshaped_geo h2 h3 span Hg3).
      exists s. split; [done |].
      split; [eapply geo_lookup; [exact Hg2 | exact Hs1 | done | done] |].
      split; [exact (tall_geo _ _ _ _ _ Hg2 Htall) | done].
Qed.

End GeometrySpans.

Section GeometryResult.

Import OptimizerEngine.

Implicit Types (h : heap) (l : loc).

(** X21. When the geometry step of a trial returns: every span of the
    trial beam is the object it was, its section has the candidate height,
    and each of its loads whose source is "Peso Próprio" has the value
    bw / 100 * h_test / 100 * 25 for the width bw of the section of a span
    of the beam that carries this load.  Nothing else changes: a section
    keeps bw, bf and hf, and its height is the old one or the candidate
    height; a load keeps its type, positions and source, and its value
    unless it is a self-weight load; every other object is as before and
    the store keeps its size. *)
Theorem apply_geometry_reshapes h (trial_beam : loc) (b : Beam.t)
    (h_test : Z) h' :
  h !! trial_beam = Some (OBeam b) →
  apply_geometry trial_beam h_test h = (Ok tt, h') →
  length h' = length h ∧
  (∀ span, span ∈ Beam.spans b →
     ∃ s sec,
       h !! span = Some (OSpan s) ∧ h' !! span = Some (OSpan s) ∧
       h' !! BeamSpan.section s = Some (OSection sec) ∧
       CrossSection.h sec = IZR h_test ∧
       ∀ load, load ∈ BeamSpan.loads s →
         ∃ ld, h' !! load = Some (OLoad ld) ∧
               (Load.source ld = "Peso Próprio" →
                self_weight h b h_test load (Load.value ld))) ∧
  (∀ l o, h !! l = Some o →
     match o with
     | OSection sec =>
         ∃ sec', h' !! l = Some (OSection sec') ∧
           CrossSection.bw sec' = CrossSection.bw sec ∧
           CrossSection.bf sec' = CrossSection.bf sec ∧
           CrossSection.hf sec' = CrossSection.hf sec ∧
           (CrossSection.h sec' = CrossSection.h sec ∨
            CrossSection.h sec' = IZR h_test)
     | OLoad ld =>
         ∃ ld', h' !! l = Some (OLoad ld') ∧
           Load.load_type ld' = Load.load_type ld ∧
           Load.position_start ld' = Load.position_start ld ∧
           Load.position_end ld' = Load.position_end ld ∧
           Load.source ld' = Load.source ld ∧
           (Load.source ld ≠ "Peso Próprio" → Load.value ld' = Load.value ld)
     | _ => h' !! l = Some o
     end).
Proof.
  intros Hb Hrun.
  assert (Hwp : wp (apply_geometry trial_beam h_test) h (λ r h2,
            match r with
            | Ok _ => geo (IZR h_test) (self_weight h b h_test) h h2 ∧
                      Forall (reshaped h b h_test h2) (Beam.spans b)
            | Raise _ => True
            end)).
  { unfold apply_geometry. eapply wp_bind, wp_read_beam; [exact Hb |].
    apply geometry_spans_loop; [apply geo_refl |]. by apply Forall_forall. }
  unfold wp in Hwp. rewrite Hrun in Hwp. simpl in Hwp.
  destruct Hwp as [[Hlen Hgeo] Hall]. split; [done |]. split.
  - intros span Hin. rewrite Forall_forall in Hall.
    destruct (Hall span Hin) as (s & Hs0 & Hs & (sec & Hsec & Hh) & Hloads).
    exists s, sec. repeat (split; [done |]).
    intros load Hload. rewrite Forall_forall in Hloads.
    exact (Hloads load Hload).
  - intros l o Hl. specialize (Hgeo l o Hl). destruct o; try done.
    + destruct Hgeo as [H | H]; eexists; (split; [exact H |]); simpl; auto.
    + destruct Hgeo as [H | (Hsrc & v & _ & H)]; eexists;
        (split; [exact H |]); simpl; auto 10.
      repeat (split; [done |]). intros Hne. by destruct Hne.
Qed.

End GeometryResult.

Lemma apply_geometry_reshapes_witness :
  let h := scenario_heap in
  let b := Beam.mk "V1" [5%nat] [3%nat; 4%nat] (1, 0) in
  ∃ h',
    OptimizerEngine.apply_geometry 2 40 h = (Ok tt, h') ∧
    length h' = length h ∧
    (∀ span, span ∈ Beam.spans b →
       ∃ s sec,
         h !! span = Some (OSpan s) ∧ h' !! span = Some (OSpan s) ∧
         h' !! BeamSpan.section s = Some (OSection sec) ∧
         CrossSection.h sec = IZR 40 ∧
         ∀ load, load ∈ BeamSpan.loads s →
           ∃ ld, h' !! load = Some (OLoad ld) ∧
                 (Load.source ld = "Peso Próprio" →
                  self_weight h b 40 load (Load.value ld))) ∧
    (∀ l o, h !! l = Some o →
       match o with
       | OSection sec =>
           ∃ sec', h' !! l = Some (OSection sec') ∧
             CrossSection.bw sec' = CrossSection.bw sec ∧
             CrossSection.bf sec' = CrossSection.bf sec ∧
             CrossSection.hf sec' = CrossSection.hf sec ∧
             (CrossSection.h sec' = CrossSection.h sec ∨
              CrossSection.h sec' = IZR 40)
       | OLoad ld =>
           ∃ ld', h' !! l = Some (OLoad ld') ∧
             Load.load_type ld' = Load.load_type ld ∧
             Load.position_start ld' = Load.position_start ld ∧
             Load.position_end ld' = Load.position_end ld ∧
             Load.source ld' = Load.source ld ∧
             (Load.source ld ≠ "Peso Próprio" → Load.value ld' = Load.value ld)
       | _ => h' !! l = Some o
       end).
Proof.
  intros h b.
  assert (Hrun : OptimizerEngine.apply_geometry 2 40 h =
                 (Ok tt, <[1%nat := OSection (CrossSection.set_h
                                       (CrossSection.new 20 50) (IZR 40))]> h))
    by reflexivity.
  eexists. split; [exact Hrun |].
  apply (apply_geometry_reshapes h 2%nat b 40%Z _ eq_refl Hrun).
Defined.

Section AddSpanFirst.

Implicit Types (h : heap).

(** X22. [add_span] on a beam without nodes creates both end nodes: node
    0 at [start_coord] with the flags of [start_support] (FIXED: both
    restrained, PINNED: translation only, FREE: none), and node 1 at
    [start_coord] plus length times direction with the flags of
    [end_support]; the span gets the next span id and refers to the two
    new nodes.  No existing object other than the beam changes. *)
Theorem add_span_first h (beam : loc) (b : Beam.t)
    (len : R) (section mat : loc) (start_coord direction : R * R)
    (start_support end_support : SupportType) :
  h !! beam = Some (OBeam b) → Beam.nodes b = [] →
  let n0 := length h in
  let n1 := S (length h) in
  let sp := S (S (length h)) in
  ∃ h',
    add_span beam len section mat start_coord direction
      start_support end_support h = (Ok sp, h') ∧
    h' !! n0 =
      Some (ONode (Node.mk 0 start_coord.1 start_coord.2 0
                     (get_conditions start_support))) ∧
    h' !! n1 =
      Some (ONode (Node.mk 1 (start_coord.1 + len * direction.1)
                     (start_coord.2 + len * direction.2) 0
                     (get_conditions end_support))) ∧
    h' !! sp =
      Some (OSpan (BeamSpan.new (length (Beam.spans b) + 1) len section mat
                     (Some n0) (Some n1))) ∧
    h' !! beam =
      Some (OBeam (Beam.mk (Beam.id b) (Beam.spans b ++ [sp]) [n0; n1]
                     direction)) ∧
    ∀ l o, h !! l = Some o → l ≠ beam → h' !! l = Some o.
Proof.
  intros Hb Hnodes n0 n1 sp.
  assert (Hlt : (beam < length h)%nat) by (by eapply lookup_lt_Some).
  assert (Hwp : wp (add_span beam len section mat start_coord direction
                      start_support end_support) h
            (λ r h', r = Ok sp ∧
               h' !! n0 =
                 Some (ONode (Node.mk 0 start_coord.1 start_coord.2 0
                                (get_conditions start_support))) ∧
               h' !! n1 =
                 Some (ONode (Node.mk 1 (start_coord.1 + len * direction.1)
                                (start_coord.2 + len * direction.2) 0
                                (get_conditions end_support))) ∧
               h' !! sp =
                 Some (OSpan (BeamSpan.new (length (Beam.spans b) + 1) len
                                section mat (Some n0) (Some n1))) ∧
               h' !! beam =
                 Some (OBeam (Beam.mk (Beam.id b) (Beam.spans b ++ [sp]) [n0; n1]
                                direction)) ∧
               ∀ l o, h !! l = Some o → l ≠ beam → h' !! l = Some o)).
  { unfold add_span. wp_step. wp_step. wp_step.
    simpl Beam.nodes. rewrite Hnodes. cbn [last].
    repeat wp_step. cbn beta iota. subst n0 n1 sp.
    replace (length h + 1 + 1)%nat with (S (S (length h))) by lia.
    replace (length h + 1)%nat with (S (length h)) by lia.
    rewrite !Hnodes. change (length (@nil loc) + 1)%nat with 1%nat.
    change (([] ++ [length h]) ++ [S (length h)]) with [length h; S (length h)].
    split; [done |].
    split; [heap_lookup |]. split; [heap_lookup |]. split; [heap_lookup |].
    split; [heap_lookup |].
    intros l o Hl Hl1. apply lookup_lt_Some in Hl as Hllt. heap_lookup. }
  apply wp_run in Hwp as (r & h' & Hrun & -> & Hrest). eauto.
Qed.

Lemma add_span_first_witness :
  let h : heap := [OBeam (Beam.new "V1")] in
  ∃ h',
    add_span 0 6 7 8 (2, 3) (1, 0) FIXED FREE h = (Ok 3%nat, h') ∧
    h' !! 1%nat =
      Some (ONode (Node.mk 0 (2, 3).1 (2, 3).2 0 (get_conditions FIXED))) ∧
    h' !! 2%nat =
      Some (ONode (Node.mk 1 ((2, 3).1 + 6 * (1, 0).1)
                     ((2, 3).2 + 6 * (1, 0).2) 0 (get_conditions FREE))) ∧
    h' !! 3%nat =
      Some (OSpan (BeamSpan.new (length (Beam.spans (Beam.new "V1")) + 1) 6 7 8
                     (Some 1%nat) (Some 2%nat))) ∧
    h' !! 0%nat =
      Some (OBeam (Beam.mk (Beam.id (Beam.new "V1"))
                     (Beam.spans (Beam.new "V1") ++ [3%nat]) [1%nat; 2%nat]
                     (1, 0))) ∧
    ∀ l o, h !! l = Some o → l ≠ 0%nat → h' !! l = Some o.
Proof.
  intros h.
  apply (add_span_first h 0%nat (Beam.new "V1") 6 7%nat 8%nat (2, 3) (1, 0)
           FIXED FREE); reflexivity.
Defined.

End AddSpanFirst.
